(** * Bridges (Hashiwokakero) generator, solver model and verifier

    A shallow embedding of [puzzle.py], [direction.py], [grid.py],
    [generator.py] and [solver.py], and the properties of the verifier, the
    bridge candidate deriver, the constraint model and the generator.

    Python integers are [Z]; tuples and lists are [list]; a [dict] is an
    insertion-ordered association list; exceptions are the [Raise] results of
    an error monad; [while True] loops carry fuel and report [OutOfFuel] when
    it runs out; the [random] module is an oracle of raw draws. *)

From Stdlib Require Import String.
From Stdlib Require Import ZArith List Bool Lia QArith Qround Lqa Permutation Sorted.
From Stdlib Require Import Floats.SpecFloat.
Import ListNotations.
Local Open Scope Z_scope.

(** ** Results of Python code: a value, a raised exception, or a loop that has
    not finished within its fuel. *)

Inductive exn : Type :=
| IndexError
| KeyError
| ValueError
| AssertionError
| OverflowError
| ZeroDivisionError.

Inductive result (A : Type) : Type :=
| Ok (a : A)
| Raise (e : exn)
| OutOfFuel.

Arguments Ok {A} a.
Arguments Raise {A} e.
Arguments OutOfFuel {A}.

Definition bind {A B : Type} (m : result A) (k : A -> result B) : result B :=
  match m with
  | Ok a => k a
  | Raise e => Raise e
  | OutOfFuel => OutOfFuel
  end.

Notation "x <- m ;; k" := (bind m (fun x => k))
  (at level 61, m at next level, right associativity).
Notation "' pat <- m ;; k" := (bind m (fun x => match x with pat => k end))
  (at level 61, pat pattern, m at next level, right associativity).

(** [l[i]] of Python: a negative index counts from the end, anything outside
    [-len, len) raises IndexError. *)
Definition py_norm (len i : Z) : option nat :=
  if (0 <=? i) && (i <? len) then Some (Z.to_nat i)
  else if (- len <=? i) && (i <? 0) then Some (Z.to_nat (len + i))
  else None.

Definition py_index {A : Type} (l : list A) (i : Z) : result A :=
  match py_norm (Z.of_nat (length l)) i with
  | Some n => match nth_error l n with Some a => Ok a | None => Raise IndexError end
  | None => Raise IndexError
  end.

(** [range(a, b)] *)
Definition range (a b : Z) : list Z :=
  map (fun k => a + Z.of_nat k) (seq 0 (Z.to_nat (b - a))).

(** ** Dictionaries keyed by a position [(x, y)] *)

Definition pos : Type := (Z * Z)%type.

Definition pos_eqb (p q : pos) : bool :=
  (fst p =? fst q) && (snd p =? snd q).

Section Dict.
Variable V : Type.

Definition dict : Type := list (pos * V).

Fixpoint dict_get (d : dict) (k : pos) : option V :=
  match d with
  | [] => None
  | (k', v) :: d' => if pos_eqb k' k then Some v else dict_get d' k
  end.

(** [d[k] = v]: an existing key keeps its place, a new key goes last. *)
Fixpoint dict_set (d : dict) (k : pos) (v : V) : dict :=
  match d with
  | [] => [(k, v)]
  | (k', v') :: d' =>
      if pos_eqb k' k then (k', v) :: d' else (k', v') :: dict_set d' k v
  end.

Definition dict_keys (d : dict) : list pos := map fst d.

(** [{key(a): value(a) for a in l}] *)
Definition dict_of {A : Type} (key : A -> pos) (value : A -> V) (l : list A) : dict :=
  fold_left (fun d a => dict_set d (key a) (value a)) l [].
End Dict.

Arguments dict_get {V} d k.
Arguments dict_set {V} d k v.
Arguments dict_keys {V} d.
Arguments dict_of {V A} key value l.

(** ** puzzle.py: the data model *)

Module Island.
Record t : Type := mk { x : Z; y : Z; degree : Z }.
End Island.

Module Bridge.
Record t : Type := mk { node1 : Island.t; node2 : Island.t; single : bool }.
End Bridge.

Module Puzzle.
Record t : Type := mk {
  width : Z;
  height : Z;
  islands : list Island.t;
  solution : option (list Bridge.t)
}.
End Puzzle.

Definition without_solution (self : Puzzle.t) : Puzzle.t :=
  Puzzle.mk (Puzzle.width self) (Puzzle.height self) (Puzzle.islands self) None.

Definition with_solution (self : Puzzle.t) (solution : list Bridge.t) : Puzzle.t :=
  Puzzle.mk (Puzzle.width self) (Puzzle.height self) (Puzzle.islands self) (Some solution).

Definition island_pos (i : Island.t) : pos := (Island.x i, Island.y i).

(** ** puzzle.py: [Puzzle.check_solution] *)

(** [1 if bridge.single else 2] *)
Definition bridge_weight (b : Bridge.t) : Z := if Bridge.single b then 1 else 2.

(** [island_degree[k] -= w] *)
Definition dict_sub (d : dict Z) (k : pos) (w : Z) : result (dict Z) :=
  match dict_get d k with
  | Some v => Ok (dict_set d k (v - w))
  | None => Raise KeyError
  end.

Fixpoint subtract_bridges (solution : list Bridge.t) (island_degree : dict Z)
  : result (dict Z) :=
  match solution with
  | [] => Ok island_degree
  | bridge :: rest =>
      d1 <- dict_sub island_degree (island_pos (Bridge.node1 bridge)) (bridge_weight bridge) ;;
      d2 <- dict_sub d1 (island_pos (Bridge.node2 bridge)) (bridge_weight bridge) ;;
      subtract_bridges rest d2
  end.

(** [neighbours[k].append(q)] *)
Definition dict_append (d : dict (list pos)) (k q : pos) : result (dict (list pos)) :=
  match dict_get d k with
  | Some l => Ok (dict_set d k (l ++ [q]))
  | None => Raise KeyError
  end.

Fixpoint add_neighbours (solution : list Bridge.t) (neighbours : dict (list pos))
  : result (dict (list pos)) :=
  match solution with
  | [] => Ok neighbours
  | bridge :: rest =>
      n1 <- dict_append neighbours (island_pos (Bridge.node1 bridge))
                                   (island_pos (Bridge.node2 bridge)) ;;
      n2 <- dict_append n1 (island_pos (Bridge.node2 bridge))
                           (island_pos (Bridge.node1 bridge)) ;;
      add_neighbours rest n2
  end.

(** The [while len(to_visit) > 0] loop; [to_visit] is the deque, popped on the
    left and appended on the right. *)
Fixpoint bfs (fuel : nat) (neighbours : dict (list pos)) (visited_dict : dict bool)
  (to_visit : list pos) : result (dict bool) :=
  match to_visit with
  | [] => Ok visited_dict
  | current :: to_visit' =>
      match fuel with
      | O => OutOfFuel
      | S fuel' =>
          match dict_get visited_dict current with
          | None => Raise KeyError
          | Some true => bfs fuel' neighbours visited_dict to_visit'
          | Some false =>
              match dict_get neighbours current with
              | None => Raise KeyError
              | Some ns =>
                  bfs fuel' neighbours (dict_set visited_dict current true) (to_visit' ++ ns)
              end
          end
      end
  end.

(** The degree phase: [Ok true] when every entry of [island_degree] is 0. *)
Definition degrees_match (islands : list Island.t) (solution : list Bridge.t)
  : result bool :=
  island_degree <- subtract_bridges solution (dict_of island_pos Island.degree islands) ;;
  Ok (negb (existsb (fun kv => negb (snd kv =? 0)) island_degree)).

(** The traversal never dequeues more than once per enqueued position, and
    only the start and two ends per bridge are ever enqueued. *)
Definition bfs_fuel (solution : list Bridge.t) : nat := S (2 * length solution).

(** The connectivity phase: [Ok true] when every island was visited. *)
Definition fully_connected (islands : list Island.t) (solution : list Bridge.t)
  : result bool :=
  neighbours <- add_neighbours solution (dict_of island_pos (fun _ => []) islands) ;;
  let visited_dict := dict_of island_pos (fun _ => false) islands in
  first <- py_index islands 0 ;;
  visited_dict <- bfs (bfs_fuel solution) neighbours visited_dict [island_pos first] ;;
  Ok (negb (existsb (fun kv => negb (snd kv)) visited_dict)).

Definition check_solution (self : Puzzle.t) : result (bool * string) :=
  match Puzzle.solution self with
  | None => Raise AssertionError
  | Some solution =>
      degrees_ok <- degrees_match (Puzzle.islands self) solution ;;
      if negb degrees_ok then Ok (false, "Islands do not match bridges"%string)
      else
        connected <- fully_connected (Puzzle.islands self) solution ;;
        if negb connected then Ok (false, "Islands are not fully connected"%string)
        else Ok (true, "Success"%string)
  end.

(** ** Loops *)

(** [for a in l: s = body(a, s)], an exception leaving the loop. *)
Fixpoint for_each {A S : Type} (l : list A) (body : A -> S -> result S) (s : S)
  : result S :=
  match l with
  | [] => Ok s
  | a :: l' => s' <- body a s ;; for_each l' body s'
  end.

(** [enumerate(l)] *)
Definition enumerate {A : Type} (l : list A) : list (nat * A) :=
  combine (seq 0 (length l)) l.

(** ** direction.py *)

Inductive Direction : Type := UP | DOWN | LEFT | RIGHT.

Definition get_vector (self : Direction) : Z * Z :=
  match self with
  | UP => (0, -1)
  | DOWN => (0, 1)
  | LEFT => (-1, 0)
  | RIGHT => (1, 0)
  end.

(** [for check_direction in Direction] follows the order of definition. *)
Definition all_directions : list Direction := [UP; DOWN; LEFT; RIGHT].

(** ** grid.py *)

Module NodeType.
Inductive t : Type := empty | island | bridge.
Definition eqb (a b : t) : bool :=
  match a, b with
  | empty, empty | island, island | bridge, bridge => true
  | _, _ => false
  end.
End NodeType.

Module Node.
Record t : Type := mk { x : Z; y : Z; type : NodeType.t; degree : Z }.
End Node.

Definition to_empty (self : Node.t) : Node.t :=
  Node.mk (Node.x self) (Node.y self) NodeType.empty (-1).

Definition to_island (degree : Z) (self : Node.t) : Node.t :=
  Node.mk (Node.x self) (Node.y self) NodeType.island degree.

Definition to_bridge (self : Node.t) : Node.t :=
  Node.mk (Node.x self) (Node.y self) NodeType.bridge (-1).

(** [node.degree += d] *)
Definition add_degree (d : Z) (self : Node.t) : Node.t :=
  Node.mk (Node.x self) (Node.y self) (Node.type self) (Node.degree self + d).

Module Grid.
Record t : Type := mk { width : Z; height : Z; grid : list (list Node.t) }.
End Grid.

(** [Grid.__init__]: [[Node(i, j) for j in range(height)] for i in range(width)] *)
Definition Grid_init (width height : Z) : Grid.t :=
  Grid.mk width height
    (map (fun i => map (fun j => Node.mk i j NodeType.empty (-1)) (range 0 height))
         (range 0 width)).

Fixpoint list_update {A : Type} (l : list A) (n : nat) (f : A -> A) : list A :=
  match l, n with
  | [], _ => []
  | a :: l', O => f a :: l'
  | a :: l', S n' => a :: list_update l' n' f
  end.

(** The object [l[i]] replaced by [f] of it, as a method mutating it does. *)
Definition py_update {A : Type} (l : list A) (i : Z) (f : A -> A) : result (list A) :=
  match py_norm (Z.of_nat (length l)) i with
  | Some n => match nth_error l n with
              | Some _ => Ok (list_update l n f)
              | None => Raise IndexError
              end
  | None => Raise IndexError
  end.

(** [self.grid[x][y]] *)
Definition cell (self : Grid.t) (x y : Z) : result Node.t :=
  column <- py_index (Grid.grid self) x ;;
  py_index column y.

(** A method [f] mutating the node [self.grid[x][y]]. *)
Definition update_cell (self : Grid.t) (x y : Z) (f : Node.t -> Node.t) : result Grid.t :=
  column <- py_index (Grid.grid self) x ;;
  column' <- py_update column y f ;;
  grid' <- py_update (Grid.grid self) x (fun _ => column') ;;
  Ok (Grid.mk (Grid.width self) (Grid.height self) grid').

Definition to_puzzle (self : Grid.t) : result Puzzle.t :=
  islands <-
    for_each (range 0 (Grid.width self)) (fun x islands =>
      for_each (range 0 (Grid.height self)) (fun y islands =>
        node <- cell self x y ;;
        if NodeType.eqb (Node.type node) NodeType.island
        then Ok (islands ++ [Island.mk x y (Node.degree node)])
        else Ok islands) islands) [] ;;
  Ok (Puzzle.mk (Grid.width self) (Grid.height self) islands None).

Definition within_bounds (self : Grid.t) (x y : Z) : bool :=
  (x >=? 0) && (x <? Grid.width self) && (y >=? 0) && (y <? Grid.height self).

(** [self.grid[x][y].type == "empty"] *)
Definition cell_is_empty (self : Grid.t) (x y : Z) : result bool :=
  node <- cell self x y ;;
  Ok (NodeType.eqb (Node.type node) NodeType.empty).

(** [c and a and b], evaluated left to right and stopping at the first false. *)
Definition and3 (c : bool) (a b : result bool) : result bool :=
  if c then (a' <- a ;; if a' then b else Ok false) else Ok false.

(** ** The [random] module: an oracle of raw draws, read in order. *)

Record Rng : Type := mkRng { draws : nat -> nat; cursor : nat }.

Definition next_draw (r : Rng) : nat * Rng :=
  (draws r (cursor r), mkRng (draws r) (S (cursor r))).

(** [randint(a, b)]: any integer of [a, b]; ValueError on an empty range. *)
Definition randint (a b : Z) (r : Rng) : result (Z * Rng) :=
  if a <=? b
  then let (k, r') := next_draw r in Ok (a + Z.of_nat k mod (b - a + 1), r')
  else Raise ValueError.

(** [choice(l)]: any element of [l]; IndexError on an empty list. *)
Definition choice {A : Type} (l : list A) (r : Rng) : result (A * Rng) :=
  let (k, r') := next_draw r in
  match nth_error l (k mod length l)%nat with
  | Some a => Ok (a, r')
  | None => Raise IndexError
  end.

(** Python floats are IEEE 754 binary64. *)
Definition float : Type := spec_float.
Definition float_of (m e : Z) : float := binary_normalize 53 1024 m e false.
Definition float_add : float -> float -> float := SFadd 53 1024.
Definition float_div : float -> float -> float := SFdiv 53 1024.
Definition float_ltb : float -> float -> bool := SFltb.

(** [random()]: any multiple of 2^-53 in [0, 1). *)
Definition random (r : Rng) : float * Rng :=
  let (k, r') := next_draw r in
  (float_of (Z.of_nat k mod 2 ^ 53) (-53), r').

Definition get_random_direction (self : Grid.t) (x y : Z) (r : Rng)
  : result (option Direction * Rng) :=
  up <- and3 (y >=? 2) (cell_is_empty self x (y - 1)) (cell_is_empty self x (y - 2)) ;;
  down <- and3 (y <? Grid.height self - 2)
               (cell_is_empty self x (y + 1)) (cell_is_empty self x (y + 2)) ;;
  left <- and3 (x >=? 2) (cell_is_empty self (x - 1) y) (cell_is_empty self (x - 2) y) ;;
  right <- and3 (x <? Grid.width self - 2)
                (cell_is_empty self (x + 1) y) (cell_is_empty self (x + 2) y) ;;
  let available_directions :=
    (if up then [UP] else []) ++ (if down then [DOWN] else []) ++
    (if left then [LEFT] else []) ++ (if right then [RIGHT] else []) in
  if (length available_directions =? 0)%nat then Ok (None, r)
  else '(d, r') <- choice available_directions r ;; Ok (Some d, r').

Definition get_random_bridge_thickness (self : Grid.t) (x y : Z) (max_degree : Z)
  (single_bridge_odds : float) (r : Rng) : result (Z * Rng) :=
  node <- cell self x y ;;
  if max_degree - Node.degree node >=? 2
  then let (u, r') := random r in
       Ok (if float_ltb u single_bridge_odds then 1 else 2, r')
  else Ok (1, r).

(** The [while True] loop of [get_random_bridge_length]. *)
Fixpoint max_length_loop (fuel : nat) (self : Grid.t) (vector : Z * Z)
  (check_x check_y max_length : Z) : result Z :=
  match fuel with
  | O => OutOfFuel
  | S fuel' =>
      if negb (within_bounds self check_x check_y) then Ok max_length
      else
        node <- cell self check_x check_y ;;
        if negb (NodeType.eqb (Node.type node) NodeType.empty) then Ok max_length
        else max_length_loop fuel' self vector
               (check_x + fst vector) (check_y + snd vector) (max_length + 1)
  end.

(** The walk leaves the board after at most [width + height] steps. *)
Definition max_length_fuel (self : Grid.t) : nat :=
  S (Z.to_nat (Grid.width self + Grid.height self)).

Definition get_random_bridge_length (self : Grid.t) (x y : Z) (direction : Direction)
  (shorter_bridges : bool) (r : Rng) : result (Z * Rng) :=
  let vector := get_vector direction in
  max_length <- max_length_loop (max_length_fuel self) self vector
                  (x + fst vector * 3) (y + snd vector * 3) 1 ;;
  if shorter_bridges
  then '(a, r1) <- randint 1 max_length r ;;
       '(b, r2) <- randint 1 max_length r1 ;;
       Ok (Z.min a b, r2)
  else randint 1 max_length r.

Definition add_bridge (self : Grid.t) (x y length : Z) (direction : Direction)
  : result Grid.t :=
  let bridge_vector := get_vector direction in
  for_each (range 0 length) (fun i g =>
    let bridge_node_x := x + fst bridge_vector * (i + 1) in
    let bridge_node_y := y + snd bridge_vector * (i + 1) in
    update_cell g bridge_node_x bridge_node_y to_bridge) self.

(** ** puzzle.py: [Puzzle.to_grid] *)

Definition to_grid (self : Puzzle.t) : result Grid.t :=
  for_each (Puzzle.islands self) (fun island puzzle_grid =>
    update_cell puzzle_grid (Island.x island) (Island.y island)
      (to_island (Island.degree island)))
    (Grid_init (Puzzle.width self) (Puzzle.height self)).

(** ** generator.py *)

(** The entries of [to_expand] are references to nodes of the grid.  A node is
    created once by [Grid.__init__] with its own indices as [x] and [y], which
    no method changes, so a reference is kept as those two coordinates and
    read through the grid. *)
Definition NodeRef : Type := pos.

Definition node_ref (n : Node.t) : NodeRef := (Node.x n, Node.y n).

(** [to_expand.remove(node)]: drops the first entry equal to [node]; two
    references are equal when they point at the same coordinates. *)
Fixpoint remove_ref (r : NodeRef) (l : list NodeRef) : list NodeRef :=
  match l with
  | [] => []
  | r' :: l' => if pos_eqb r' r then l' else r' :: remove_ref r l'
  end.

(** The local variables of [generate_candidate] that the loop changes. *)
Record GenState : Type := mkGen {
  gen_grid : Grid.t;
  to_expand : list NodeRef;
  island_count : Z;
  gen_solution : list Bridge.t;
  gen_rng : Rng
}.

Section GenerateCandidate.
Variables (width height max_degree : Z) (single_bridge_odds : float)
          (shorter_bridges : bool) (min_island_count : Z).

(** The check of the four neighbours of the end node. *)
Definition adjacent_island (grid : Grid.t) (end_node : Node.t) : result bool :=
  for_each all_directions (fun check_direction adjacent_island_found =>
    let check_vector := get_vector check_direction in
    let check_node_x := Node.x end_node + fst check_vector in
    let check_node_y := Node.y end_node + snd check_vector in
    if within_bounds grid check_node_x check_node_y
    then node <- cell grid check_node_x check_node_y ;;
         Ok (if NodeType.eqb (Node.type node) NodeType.island
             then true else adjacent_island_found)
    else Ok adjacent_island_found) false.

(** One pass of the body of [for _ in range(max_cycles)], after its two
    [break] tests. *)
Definition cycle (st : GenState) : result GenState :=
  let grid := gen_grid st in
  '(start_ref, r1) <- choice (to_expand st) (gen_rng st) ;;
  start_node <- cell grid (fst start_ref) (snd start_ref) ;;
  '(bridge_direction, r2) <-
     get_random_direction grid (Node.x start_node) (Node.y start_node) r1 ;;
  match bridge_direction with
  | None =>
      Ok (mkGen grid (remove_ref start_ref (to_expand st)) (island_count st)
            (gen_solution st) r2)
  | Some bridge_direction =>
      if Node.degree start_node >=? max_degree
      then Ok (mkGen grid (remove_ref start_ref (to_expand st)) (island_count st)
                 (gen_solution st) r2)
      else
        '(thickness, r3) <-
           get_random_bridge_thickness grid (Node.x start_node) (Node.y start_node)
             max_degree single_bridge_odds r2 ;;
        '(length, r4) <-
           get_random_bridge_length grid (Node.x start_node) (Node.y start_node)
             bridge_direction shorter_bridges r3 ;;
        let bridge_vector := get_vector bridge_direction in
        let end_node_x := Node.x start_node + fst bridge_vector * (length + 1) in
        let end_node_y := Node.y start_node + snd bridge_vector * (length + 1) in
        end_node <- cell grid end_node_x end_node_y ;;
        adjacent_island_found <- adjacent_island grid end_node ;;
        if adjacent_island_found
        then Ok (mkGen grid (to_expand st) (island_count st) (gen_solution st) r4)
        else
          g1 <- update_cell grid (fst start_ref) (snd start_ref) (add_degree thickness) ;;
          g2 <- update_cell g1 (Node.x end_node) (Node.y end_node) (to_island thickness) ;;
          g3 <- add_bridge g2 (Node.x start_node) (Node.y start_node) length
                  bridge_direction ;;
          Ok (mkGen g3 (to_expand st ++ [node_ref end_node]) (island_count st + 1)
                (gen_solution st ++
                 [Bridge.mk (Island.mk (Node.x start_node) (Node.y start_node) 0)
                            (Island.mk (Node.x end_node) (Node.y end_node) 0)
                            (thickness =? 1)])
                r4)
  end.

(** [for _ in range(max_cycles)] with its two [break]s. *)
Fixpoint cycles (max_cycles : nat) (st : GenState) : result GenState :=
  match max_cycles with
  | O => Ok st
  | S n =>
      if (length (to_expand st) =? 0)%nat then Ok st
      else if island_count st >=? min_island_count then Ok st
      else st' <- cycle st ;; cycles n st'
  end.

(** The first lines of [generate_candidate]: a fresh grid, one island of
    degree 0 on a random node, and that node as the only one to expand. *)
Definition place_seed (r : Rng) : result GenState :=
  let grid := Grid_init width height in
  '(seed_x, r1) <- randint 0 (width - 1) r ;;
  column <- py_index (Grid.grid grid) seed_x ;;
  '(seed_y, r2) <- randint 0 (height - 1) r1 ;;
  seed <- py_index column seed_y ;;
  grid <- update_cell grid (Node.x seed) (Node.y seed) (to_island 0) ;;
  Ok (mkGen grid [node_ref seed] 0 [] r2).

Definition generate_candidate (max_cycles : Z) (r : Rng)
  : result (Grid.t * Z * list Bridge.t * Rng) :=
  st <- place_seed r ;;
  st <- cycles (Z.to_nat max_cycles) st ;;
  Ok (gen_grid st, island_count st, gen_solution st, gen_rng st).
End GenerateCandidate.

(** [all([c.type == "empty" for c in cells])]: the list is built in full. *)
Definition all_empty (grid : Grid.t) (cells : list (Z * Z)) : result bool :=
  for_each cells (fun c acc =>
    e <- cell_is_empty grid (fst c) (snd c) ;; Ok (acc && e)) true.

Definition is_candidate_full (grid : Grid.t) : result bool :=
  top <- all_empty grid (map (fun i => (i, 0)) (range 0 (Grid.width grid))) ;;
  if top then Ok false else
  bottom <- all_empty grid (map (fun i => (i, -1)) (range 0 (Grid.width grid))) ;;
  if bottom then Ok false else
  first <- all_empty grid (map (fun i => (0, i)) (range 0 (Grid.height grid))) ;;
  if first then Ok false else
  last <- all_empty grid (map (fun i => (-1, i)) (range 0 (Grid.height grid))) ;;
  if last then Ok false else
  Ok true.

Inductive Difficulty : Type := easy | medium | hard | extreme.

Record Settings : Type := mkSettings {
  max_degree : Z;
  single_bridge_odds : float;
  max_island_density : float;
  shorter_bridges : bool
}.

(** The float written [n / 100] in decimal, e.g. [0.45]. *)
Definition hundredths (n : Z) : float := float_div (float_of n 0) (float_of 100 0).

Definition settings (difficulty : Difficulty) : Settings :=
  match difficulty with
  | easy => mkSettings 8 (hundredths 45) (float_of 11 (-1)) false
  | medium => mkSettings 7 (float_of 1 (-1)) (float_of 9 (-1)) false
  | hard => mkSettings 6 (hundredths 55) (float_of 7 (-1)) false
  | extreme => mkSettings 5 (hundredths 60) (float_of 5 (-1)) true
  end.

Definition decay : float := hundredths 1.

(** [float(n)] of an integer: OverflowError beyond the finite floats. *)
Definition float_of_int (n : Z) : result float :=
  match float_of n 0 with
  | S754_infinity _ => Raise OverflowError
  | f => Ok f
  end.

(** [a / b] on floats. *)
Definition py_truediv (a b : float) : result float :=
  match b with
  | S754_zero _ => Raise ZeroDivisionError
  | _ => Ok (float_div a b)
  end.

(** [math.floor] *)
Definition floor (f : float) : result Z :=
  match f with
  | S754_zero _ => Ok 0
  | S754_finite s m e =>
      let v := if s then Z.neg m else Z.pos m in
      Ok (if 0 <=? e then v * 2 ^ e else v / 2 ^ (- e))
  | S754_infinity _ => Raise OverflowError
  | S754_nan => Raise ValueError
  end.

(** [max(4, floor(width * height / min_island_density))] *)
Definition min_island_count_of (width height : Z) (min_island_density : float)
  : result Z :=
  area <- float_of_int (width * height) ;;
  q <- py_truediv area min_island_density ;;
  n <- floor q ;;
  Ok (Z.max 4 n).

(** The [while True] loop of [generate]; [fuel] counts the attempts. *)
Fixpoint generate_loop (fuel : nat) (width height : Z) (s : Settings)
  (min_island_density : float) (r : Rng) : result Puzzle.t :=
  match fuel with
  | O => OutOfFuel
  | S fuel' =>
      min_island_count <- min_island_count_of width height min_island_density ;;
      let estimated_max_cycles := min_island_count * 10 in
      '(grid, island_count, solution, r') <-
         generate_candidate width height (max_degree s) (single_bridge_odds s)
           (shorter_bridges s) min_island_count estimated_max_cycles r ;;
      if island_count <? min_island_count
      then generate_loop fuel' width height s (float_add min_island_density decay) r'
      else
        full <- is_candidate_full grid ;;
        if full
        then puzzle <- to_puzzle grid ;; Ok (with_solution puzzle solution)
        else generate_loop fuel' width height s min_island_density r'
  end.

Definition generate (fuel : nat) (width height : Z) (difficulty : Difficulty) (r : Rng)
  : result Puzzle.t :=
  let s := settings difficulty in
  generate_loop fuel width height s (max_island_density s) r.

(** ** solver.py: the bridge candidates *)

(** [for k in ks: if grid[...].type == "island": valid_bridge = False; break] *)
Fixpoint no_island_on (grid : Grid.t) (cells : list (Z * Z)) : result bool :=
  match cells with
  | [] => Ok true
  | c :: cells' =>
      node <- cell grid (fst c) (snd c) ;;
      if NodeType.eqb (Node.type node) NodeType.island then Ok false
      else no_island_on grid cells'
  end.

(** The body of the inner loop of [get_possible_bridges] for one pair. *)
Definition possible_bridge (grid : Grid.t) (i j : nat) (island_i island_j : Island.t)
  (bridges : list (nat * nat)) : result (list (nat * nat)) :=
  if (j <=? i)%nat then Ok bridges
  else if Island.x island_i =? Island.x island_j then
    let start_y := Z.min (Island.y island_i) (Island.y island_j) in
    let end_y := Z.max (Island.y island_i) (Island.y island_j) in
    valid_bridge <- no_island_on grid
                      (map (fun y => (Island.x island_i, y)) (range (start_y + 1) end_y)) ;;
    Ok (if valid_bridge then bridges ++ [(i, j)] else bridges)
  else if Island.y island_i =? Island.y island_j then
    let start_x := Z.min (Island.x island_i) (Island.x island_j) in
    let end_x := Z.max (Island.x island_i) (Island.x island_j) in
    valid_bridge <- no_island_on grid
                      (map (fun x => (x, Island.y island_i)) (range (start_x + 1) end_x)) ;;
    Ok (if valid_bridge then bridges ++ [(i, j)] else bridges)
  else Ok bridges.

Definition get_possible_bridges (puzzle : Puzzle.t) (grid : Grid.t)
  : result (list (nat * nat)) :=
  for_each (enumerate (Puzzle.islands puzzle)) (fun '(i, island_i) bridges =>
    for_each (enumerate (Puzzle.islands puzzle)) (fun '(j, island_j) bridges =>
      possible_bridge grid i j island_i island_j bridges) bridges) [].

(** [puzzle.islands[i]] for an index that [enumerate] produced. *)
Definition island_at (puzzle : Puzzle.t) (i : nat) : result Island.t :=
  py_index (Puzzle.islands puzzle) (Z.of_nat i).

(** The body of the inner loop of [get_crossing_bridges] for one pair. *)
Definition crossing_pair (puzzle : Puzzle.t) (index_1 index_2 : nat)
  (c1 c2 : nat * nat) (crossing : list ((nat * nat) * (nat * nat)))
  : result (list ((nat * nat) * (nat * nat))) :=
  if (index_2 <=? index_1)%nat then Ok crossing
  else
    i1_island <- island_at puzzle (fst c1) ;;
    j1_island <- island_at puzzle (snd c1) ;;
    i2_island <- island_at puzzle (fst c2) ;;
    j2_island <- island_at puzzle (snd c2) ;;
    let is_1_horizontal := Island.y i1_island =? Island.y j1_island in
    let is_2_horizontal := Island.y i2_island =? Island.y j2_island in
    if Bool.eqb is_1_horizontal is_2_horizontal then Ok crossing
    else
      let '(horizontal, vertical) :=
        if is_1_horizontal
        then ((i1_island, j1_island), (i2_island, j2_island))
        else ((i2_island, j2_island), (i1_island, j1_island)) in
      let horizontal_min := Z.min (Island.x (fst horizontal)) (Island.x (snd horizontal)) in
      let horizontal_max := Z.max (Island.x (fst horizontal)) (Island.x (snd horizontal)) in
      let vertical_min := Z.min (Island.y (fst vertical)) (Island.y (snd vertical)) in
      let vertical_max := Z.max (Island.y (fst vertical)) (Island.y (snd vertical)) in
      if (vertical_min <? Island.y (fst horizontal))
         && (Island.y (fst horizontal) <? vertical_max)
         && (horizontal_min <? Island.x (fst vertical))
         && (Island.x (fst vertical) <? horizontal_max)
      then Ok (crossing ++ [(c1, c2)])
      else Ok crossing.

Definition get_crossing_bridges (puzzle : Puzzle.t) (potential_bridges : list (nat * nat))
  : result (list ((nat * nat) * (nat * nat))) :=
  for_each (enumerate potential_bridges) (fun '(index_1, c1) crossing =>
    for_each (enumerate potential_bridges) (fun '(index_2, c2) crossing =>
      crossing_pair puzzle index_1 index_2 c1 c2 crossing) crossing) [].

(** ** solver.py: the integer program handed to the external solver *)

(** The entries of the dictionaries [b], [y] and [f], by their key. *)
Inductive LpVar : Type :=
| b_ (i j : nat)
| y_ (i j : nat)
| f_ (i j : nat).

Inductive LpCategory : Type := Continuous | Integer | Binary.

Record LpVariable : Type := mkVar {
  lp_var : LpVar;
  lowBound : option Z;
  upBound : option Z;
  cat : LpCategory
}.

(** A linear expression: terms [c * v] and a constant. *)
Record LpAffine : Type := mkAffine { terms : list (Z * LpVar); constant : Z }.

Inductive LpSense : Type := LpLE | LpEQ.

Record LpConstraint : Type := mkConstraint {
  lhs : LpAffine;
  sense : LpSense;
  rhs : LpAffine
}.

Record LpProblem : Type := mkProblem {
  variables : list LpVariable;
  objective : LpAffine;
  constraints : list LpConstraint
}.

Definition lpSum (vs : list LpVar) : LpAffine := mkAffine (map (fun v => (1, v)) vs) 0.
Definition lpConst (c : Z) : LpAffine := mkAffine [] c.
Definition lpScale (c : Z) (v : LpVar) : LpAffine := mkAffine [(c, v)] 0.
Definition lpSub (a b : LpAffine) : LpAffine :=
  mkAffine (terms a ++ map (fun t => (- fst t, snd t)) (terms b)) (constant a - constant b).

Section Model.
Variables (puzzle : Puzzle.t) (possible_bridges : list (nat * nat))
          (crossing_bridges : list ((nat * nat) * (nat * nat))).

Definition lp_island_count : Z := Z.of_nat (length (Puzzle.islands puzzle)).

Definition lp_variables : list LpVariable :=
  flat_map (fun '(i, j) =>
    [mkVar (b_ i j) (Some 0) (Some 2) Integer;
     mkVar (y_ i j) None None Binary;
     mkVar (f_ i j) (Some 0) (Some (lp_island_count - 1)) Continuous;
     mkVar (f_ j i) (Some 0) (Some (lp_island_count - 1)) Continuous])
    possible_bridges.

Definition lp_objective : LpAffine :=
  lpSum (map (fun '(i, j) => b_ i j) possible_bridges).

(** Island degree *)
Definition lp_degree : list LpConstraint :=
  map (fun '(i, island) =>
    let island_bridges :=
      flat_map (fun '(u, v) =>
        if (u =? i)%nat || (v =? i)%nat then [b_ u v] else []) possible_bridges in
    mkConstraint (lpSum island_bridges) LpEQ (lpConst (Island.degree island)))
    (enumerate (Puzzle.islands puzzle)).

(** bridge existence *)
Definition lp_existence : list LpConstraint :=
  flat_map (fun '(i, j) =>
    [mkConstraint (lpSum [y_ i j]) LpLE (lpSum [b_ i j]);
     mkConstraint (lpSum [b_ i j]) LpLE (lpScale 2 (y_ i j))])
    possible_bridges.

(** no crossing *)
Definition lp_no_crossing : list LpConstraint :=
  map (fun '((i1, j1), (i2, j2)) =>
    mkConstraint (lpSum [y_ i1 j1; y_ i2 j2]) LpLE (lpConst 1))
    crossing_bridges.

(** flow conservation *)
Definition lp_flow_conservation : list LpConstraint :=
  let root_node := O in
  map (fun '(i, island) =>
    let outflow :=
      flat_map (fun '(u, v) =>
        if (u =? i)%nat then [f_ i v]
        else if (v =? i)%nat then [f_ i u] else []) possible_bridges in
    let inflow :=
      flat_map (fun '(u, v) =>
        if (u =? i)%nat then [f_ v i]
        else if (v =? i)%nat then [f_ u i] else []) possible_bridges in
    if (i =? root_node)%nat
    then mkConstraint (lpSub (lpSum outflow) (lpSum inflow)) LpEQ
           (lpConst (lp_island_count - 1))
    else mkConstraint (lpSub (lpSum outflow) (lpSum inflow)) LpEQ (lpConst (-1)))
    (enumerate (Puzzle.islands puzzle)).

(** flow capacity *)
Definition lp_flow_capacity : list LpConstraint :=
  map (fun '(i, j) =>
    mkConstraint (lpSum [f_ i j; f_ j i]) LpLE (lpScale (lp_island_count - 1) (y_ i j)))
    possible_bridges.

Definition lp_problem : LpProblem :=
  mkProblem lp_variables lp_objective
    (lp_degree ++ lp_existence ++ lp_no_crossing ++ lp_flow_conservation
     ++ lp_flow_capacity).
End Model.

(** What the model means: an assignment of a rational to every variable. *)
Definition assignment : Type := LpVar -> Q.

Definition eval_affine (a : assignment) (e : LpAffine) : Q :=
  (fold_right (fun t acc => inject_Z (fst t) * a (snd t) + acc) 0 (terms e)
   + inject_Z (constant e))%Q.

Definition constraint_holds (a : assignment) (c : LpConstraint) : bool :=
  match sense c with
  | LpLE => Qle_bool (eval_affine a (lhs c)) (eval_affine a (rhs c))
  | LpEQ => Qeq_bool (eval_affine a (lhs c)) (eval_affine a (rhs c))
  end.

Definition is_integer (q : Q) : bool := Qeq_bool (inject_Z (Qfloor q)) q.

Definition variable_holds (a : assignment) (v : LpVariable) : bool :=
  let q := a (lp_var v) in
  match lowBound v with Some l => Qle_bool (inject_Z l) q | None => true end
  && match upBound v with Some u => Qle_bool q (inject_Z u) | None => true end
  && match cat v with
     | Continuous => true
     | Integer => is_integer q
     | Binary => Qeq_bool q 0 || Qeq_bool q 1
     end.

(** [a] satisfies the bounds and kinds of the variables and every constraint. *)
Definition feasible (p : LpProblem) (a : assignment) : bool :=
  forallb (variable_holds a) (variables p) && forallb (constraint_holds a) (constraints p).

(** ** solver.py: [solve] *)

(** The external solver: the status name [LpStatus[status]] and the value of
    each variable, [None] for one it left unset. *)
Definition Solver : Type := LpProblem -> string * (LpVar -> option Q).

(** [round(q)]: to the nearest integer, a tie to the even one. *)
Definition py_round (q : Q) : Z :=
  let n := Qfloor q in
  match (q - inject_Z n ?= 1 # 2)%Q with
  | Lt => n
  | Gt => n + 1
  | Eq => if Z.even n then n else n + 1
  end.

(** The model [solve] builds, with the candidates it is built from. *)
Definition lp_model (puzzle : Puzzle.t) : result (list (nat * nat) * LpProblem) :=
  grid <- to_grid puzzle ;;
  possible_bridges <- get_possible_bridges puzzle grid ;;
  crossing_bridges <- get_crossing_bridges puzzle possible_bridges ;;
  Ok (possible_bridges, lp_problem puzzle possible_bridges crossing_bridges).

Definition string_in (s : string) (l : list string) : bool :=
  existsb (String.eqb s) l.

(** Reading the bridges off the solved values of [b]. *)
Definition read_solution (puzzle : Puzzle.t) (value : LpVar -> option Q)
  (possible_bridges : list (nat * nat)) : result (list Bridge.t) :=
  for_each possible_bridges (fun '(i, j) solution =>
    match value (b_ i j) with
    | Some bridge_count =>
        if negb (Qle_bool bridge_count (1 # 2))
        then island_i <- island_at puzzle i ;;
             island_j <- island_at puzzle j ;;
             Ok (solution ++ [Bridge.mk island_i island_j (py_round bridge_count =? 1)])
        else Ok solution
    | None => Ok solution
    end) [].

Definition solve (solver : Solver) (puzzle : Puzzle.t) : result (option (list Bridge.t)) :=
  '(possible_bridges, problem) <- lp_model puzzle ;;
  let '(status, value) := solver problem in
  if string_in status ["Optimal"%string; "Feasible"%string]
  then solution <- read_solution puzzle value possible_bridges ;;
       Ok (Some solution)
  else Ok None.

(** * What the claims speak of *)

(** ** The verifier *)

(** What a bridge takes from the degree of the island at [p]: its weight for
    each of its two ends that lies there. *)
Definition incident_weight (b : Bridge.t) (p : pos) : Z :=
  (if pos_eqb (island_pos (Bridge.node1 b)) p then bridge_weight b else 0)
  + (if pos_eqb (island_pos (Bridge.node2 b)) p then bridge_weight b else 0).

Definition incident_sum (solution : list Bridge.t) (p : pos) : Z :=
  fold_right (fun b acc => incident_weight b p + acc) 0 solution.

(** The required degree of an island minus the weights of its bridges. *)
Definition residual (solution : list Bridge.t) (i : Island.t) : Z :=
  Island.degree i - incident_sum solution (island_pos i).

(** Both ends of every bridge lie on islands of the puzzle. *)
Definition endpoints_are_islands (islands : list Island.t) (solution : list Bridge.t)
  : Prop :=
  forall b, In b solution ->
    In (island_pos (Bridge.node1 b)) (map island_pos islands)
    /\ In (island_pos (Bridge.node2 b)) (map island_pos islands).

(** The undirected graph of the bridges, on positions. *)
Definition adjacent (solution : list Bridge.t) (p q : pos) : Prop :=
  exists b, In b solution
    /\ ((island_pos (Bridge.node1 b) = p /\ island_pos (Bridge.node2 b) = q)
        \/ (island_pos (Bridge.node1 b) = q /\ island_pos (Bridge.node2 b) = p)).

Inductive reach (solution : list Bridge.t) (p : pos) : pos -> Prop :=
| reach_refl : reach solution p p
| reach_step q r : reach solution p q -> adjacent solution q r -> reach solution p r.

Definition degree_failure : result (bool * string) :=
  Ok (false, "Islands do not match bridges"%string).

Definition connectivity_failure : result (bool * string) :=
  Ok (false, "Islands are not fully connected"%string).

Definition pass : result (bool * string) := Ok (true, "Success"%string).

(** The fourth puzzle of puzzle.py with its second bridge doubled: the degrees
    do not match and the bridges do not connect the islands. *)
Definition mismatched_and_disconnected : Puzzle.t :=
  Puzzle.mk 4 4 [Island.mk 0 0 2; Island.mk 0 3 1; Island.mk 3 0 2; Island.mk 3 3 1]
    (Some [Bridge.mk (Island.mk 0 0 2) (Island.mk 3 0 2) false;
           Bridge.mk (Island.mk 0 3 1) (Island.mk 3 3 1) false]).

(** The four puzzles checked at the bottom of puzzle.py. *)
Definition test_solved_puzzle_1 : Puzzle.t :=
  Puzzle.mk 4 4 [Island.mk 0 0 3; Island.mk 0 3 2; Island.mk 3 0 1]
    (Some [Bridge.mk (Island.mk 0 0 3) (Island.mk 0 3 2) false;
           Bridge.mk (Island.mk 0 0 3) (Island.mk 3 0 1) true]).

Definition test_solved_puzzle_3 : Puzzle.t :=
  Puzzle.mk 4 4 [Island.mk 0 0 3; Island.mk 0 3 2; Island.mk 3 0 1]
    (Some [Bridge.mk (Island.mk 0 0 3) (Island.mk 0 3 2) false;
           Bridge.mk (Island.mk 0 0 3) (Island.mk 3 0 1) false]).

Definition test_solved_puzzle_4 : Puzzle.t :=
  Puzzle.mk 4 4 [Island.mk 0 0 2; Island.mk 0 3 1; Island.mk 3 0 2; Island.mk 3 3 1]
    (Some [Bridge.mk (Island.mk 0 0 2) (Island.mk 3 0 2) false;
           Bridge.mk (Island.mk 0 3 1) (Island.mk 3 3 1) true]).

(** What holds of the visited marks and the queue at every turn of the loop
    of the traversal from [start]. *)
Record bfs_inv (solution : list Bridge.t) (start : pos)
  (visited_dict : dict bool) (to_visit : list pos) : Prop := {
  inv_visited : forall p, dict_get visited_dict p = Some true -> reach solution start p;
  inv_queue : forall q, In q to_visit -> reach solution start q;
  inv_closed : forall p r,
    dict_get visited_dict p = Some true -> adjacent solution p r ->
    dict_get visited_dict r = Some true \/ In r to_visit;
  inv_start : dict_get visited_dict start = Some true \/ In start to_visit
}.

(** The number of positions still to be enqueued: the neighbours of the
    positions not yet visited. *)
Definition pending (neighbours : dict (list pos)) (visited_dict : dict bool) : nat :=
  fold_right (fun kv acc =>
    (match dict_get visited_dict (fst kv) with
     | Some true => O
     | _ => length (snd kv)
     end + acc)%nat) O neighbours.

Definition dict_total (neighbours : dict (list pos)) : nat :=
  fold_right (fun kv acc => (length (snd kv) + acc)%nat) O neighbours.

(** ** The board *)

(** A grid as [Grid.__init__] lays it out: [width] columns of [height] nodes,
    each node holding its own indices. *)
Definition grid_wf (g : Grid.t) : Prop :=
  length (Grid.grid g) = Z.to_nat (Grid.width g)
  /\ forall i column, nth_error (Grid.grid g) i = Some column ->
       length column = Z.to_nat (Grid.height g)
       /\ forall j n, nth_error column j = Some n ->
            Node.x n = Z.of_nat i /\ Node.y n = Z.of_nat j.

(** A method that leaves [x] and [y] of the node alone. *)
Definition keeps_position (f : Node.t -> Node.t) : Prop :=
  forall n, Node.x (f n) = Node.x n /\ Node.y (f n) = Node.y n.

(** The kind of the node at an in-bounds position. *)
Definition has_type (g : Grid.t) (p : pos) (t : NodeType.t) : Prop :=
  exists n, cell g (fst p) (snd p) = Ok n /\ Node.type n = t.

Definition in_bounds (g : Grid.t) (p : pos) : Prop :=
  0 <= fst p < Grid.width g /\ 0 <= snd p < Grid.height g.

(** ** The bridge candidates *)

(** Some island of the puzzle lies strictly between [a] and [b] on the line
    they share. *)
Definition island_between_vertically (islands : list Island.t) (a b : Island.t) : Prop :=
  exists k, In k islands /\ Island.x k = Island.x a
    /\ Z.min (Island.y a) (Island.y b) < Island.y k < Z.max (Island.y a) (Island.y b).

Definition island_between_horizontally (islands : list Island.t) (a b : Island.t) : Prop :=
  exists k, In k islands /\ Island.y k = Island.y a
    /\ Z.min (Island.x a) (Island.x b) < Island.x k < Z.max (Island.x a) (Island.x b).

(** The pair of indices [(i, j)] is a candidate: [i < j], the two islands share
    a coordinate, and no island lies strictly between them on that line. *)
Definition is_candidate (islands : list Island.t) (i j : nat) : Prop :=
  (i < j)%nat
  /\ exists a b,
       nth_error islands i = Some a /\ nth_error islands j = Some b
       /\ ((Island.x a = Island.x b /\ ~ island_between_vertically islands a b)
           \/ (Island.y a = Island.y b /\ ~ island_between_horizontally islands a b)).

(** The islands lie on the board of the puzzle. *)
Definition islands_in_bounds (p : Puzzle.t) : Prop :=
  forall i, In i (Puzzle.islands p) ->
    0 <= Island.x i < Puzzle.width p /\ 0 <= Island.y i < Puzzle.height p.

(** The segment from [a] to [b] is horizontal, the one from [c] to [d] is
    vertical, and they properly cross: the fixed y of the first lies
    strictly between the y of [c] and [d], the fixed x of the second strictly
    between the x of [a] and [b]. *)
Definition properly_cross (a b c d : Island.t) : Prop :=
  Island.y a = Island.y b /\ Island.x c = Island.x d
  /\ Z.min (Island.y c) (Island.y d) < Island.y a < Z.max (Island.y c) (Island.y d)
  /\ Z.min (Island.x a) (Island.x b) < Island.x c < Z.max (Island.x a) (Island.x b).

Definition is_horizontal (islands : list Island.t) (c : nat * nat) : Prop :=
  exists a b, nth_error islands (fst c) = Some a /\ nth_error islands (snd c) = Some b
              /\ Island.y a = Island.y b.

Definition is_vertical (islands : list Island.t) (c : nat * nat) : Prop :=
  exists a b, nth_error islands (fst c) = Some a /\ nth_error islands (snd c) = Some b
              /\ Island.x a = Island.x b.

(** Two candidates, one horizontal and one vertical in either order, that
    properly cross. *)
Definition crossing (islands : list Island.t) (c1 c2 : nat * nat) : Prop :=
  exists a b c d,
    nth_error islands (fst c1) = Some a /\ nth_error islands (snd c1) = Some b
    /\ nth_error islands (fst c2) = Some c /\ nth_error islands (snd c2) = Some d
    /\ (properly_cross a b c d \/ properly_cross c d a b).

(** An unordered pair of candidates is listed once, in the order of the list. *)
Definition listed_in_order (potential_bridges : list (nat * nat)) (c1 c2 : nat * nat)
  : Prop :=
  exists m n, (m < n)%nat /\ nth_error potential_bridges m = Some c1
              /\ nth_error potential_bridges n = Some c2.

(** Two candidates that cross in the middle of a 3 by 3 board. *)
Definition crossing_puzzle : Puzzle.t :=
  Puzzle.mk 3 3 [Island.mk 1 0 1; Island.mk 1 2 1; Island.mk 0 1 1; Island.mk 2 1 1] None.

(** ** Reading the solver's answer *)

(** [reads islands value candidates solution]: the solution holds, in the
    order of the candidates, one bridge for each candidate whose value of [b]
    is set and exceeds 1/2, between the two islands of the candidate, single
    when that value rounds to 1. *)
Inductive reads (islands : list Island.t) (value : LpVar -> option Q)
  : list (nat * nat) -> list Bridge.t -> Prop :=
| reads_nil : reads islands value [] []
| reads_bridge i j rest solution c a b :
    value (b_ i j) = Some c -> (1 # 2 < c)%Q ->
    nth_error islands i = Some a -> nth_error islands j = Some b ->
    reads islands value rest solution ->
    reads islands value ((i, j) :: rest)
      (Bridge.mk a b (py_round c =? 1) :: solution)
| reads_skip i j rest solution :
    (value (b_ i j) = None \/ exists c, value (b_ i j) = Some c /\ (c <= 1 # 2)%Q) ->
    reads islands value rest solution ->
    reads islands value ((i, j) :: rest) solution.

(** Two islands of degree 1 facing each other, the flow that joins them, and
    solvers that answer with it or give up. *)
Definition two_island_puzzle : Puzzle.t :=
  Puzzle.mk 3 1 [Island.mk 0 0 1; Island.mk 2 0 1] None.

Definition two_island_assignment : assignment :=
  fun v =>
    match v with
    | b_ 0 1 | y_ 0 1 | f_ 0 1 => 1%Q
    | _ => 0%Q
    end.

Definition optimal_solver : Solver :=
  fun _ => ("Optimal"%string, fun v => Some (two_island_assignment v)).

Definition infeasible_solver : Solver :=
  fun _ => ("Infeasible"%string, fun _ => None).

(** ** The generator *)

Section Iterations.
Variables (width height max_degree : Z) (single_bridge_odds : float)
          (shorter_bridges : bool).

(** The states in which [generate_candidate] enters an iteration of its loop:
    the one after the seed island is placed, and every state a pass of the
    loop body leads to. *)
Inductive iteration : GenState -> Prop :=
| iteration_first r st :
    place_seed width height r = Ok st ->
    iteration st
| iteration_next st st' :
    iteration st ->
    cycle max_degree single_bridge_odds shorter_bridges st = Ok st' ->
    iteration st'.
End Iterations.

(** The position [k] steps from [(x, y)] in a direction. *)
Definition step_from (x y : Z) (direction : Direction) (k : Z) : pos :=
  (x + fst (get_vector direction) * k, y + snd (get_vector direction) * k).

(** The number of nodes from [p] to the edge of the board in a direction,
    [p] included. *)
Definition to_edge (g : Grid.t) (d : Direction) (p : pos) : Z :=
  match d with
  | UP => snd p + 1
  | DOWN => Grid.height g - snd p
  | LEFT => fst p + 1
  | RIGHT => Grid.width g - fst p
  end.

(** The node at [p] lies strictly between the two ends of the bridge, on the
    line through them. *)
Definition on_bridge (b : Bridge.t) (p : pos) : Prop :=
  let p1 := island_pos (Bridge.node1 b) in
  let p2 := island_pos (Bridge.node2 b) in
  (fst p1 = fst p2 /\ fst p = fst p1
   /\ Z.min (snd p1) (snd p2) < snd p < Z.max (snd p1) (snd p2))
  \/ (snd p1 = snd p2 /\ snd p = snd p1
      /\ Z.min (fst p1) (fst p2) < fst p < Z.max (fst p1) (fst p2)).

(** An island node of the board. *)
Definition island_node (g : Grid.t) (p : pos) : Prop :=
  in_bounds g p /\ has_type g p NodeType.island.

(** What every iteration of [generate_candidate] finds: the islands to
    expand and the ends of the planted bridges are island nodes; the degree
    of an island node is the weight of the planted bridges that end on it;
    the planted bridges join every island node to one of them; there is one
    island node more than [island_count]; and a bridge node lies on a planted
    bridge. *)
Record gen_inv (st : GenState) : Prop := {
  inv_wf : grid_wf (gen_grid st);
  inv_expand : forall r, In r (to_expand st) -> island_node (gen_grid st) r;
  inv_ends : forall b, In b (gen_solution st) ->
    island_node (gen_grid st) (island_pos (Bridge.node1 b))
    /\ island_node (gen_grid st) (island_pos (Bridge.node2 b));
  inv_degree : forall p n,
    in_bounds (gen_grid st) p -> cell (gen_grid st) (fst p) (snd p) = Ok n ->
    Node.type n = NodeType.island ->
    Node.degree n = incident_sum (gen_solution st) p;
  inv_connected : exists root,
    island_node (gen_grid st) root
    /\ forall p, island_node (gen_grid st) p -> reach (gen_solution st) root p;
  inv_count : exists l,
    NoDup l /\ (forall p, In p l <-> island_node (gen_grid st) p)
    /\ Z.of_nat (length l) = island_count st + 1;
  inv_bridges : forall p,
    in_bounds (gen_grid st) p -> has_type (gen_grid st) p NodeType.bridge ->
    exists b, In b (gen_solution st) /\ on_bridge b p
}.

(** The oracle whose every draw is 0: the first index, the first element,
    the least integer of the range. *)
Definition zero_rng : Rng := mkRng (fun _ => O) O.

(** The 4 by 4 board of the easy tier after the seed island was placed with
    that oracle, at (0, 0). *)
Definition seeded_board : Grid.t :=
  match update_cell (Grid_init 4 4) 0 0 (to_island 0) with
  | Ok g => g
  | _ => Grid_init 4 4
  end.

Definition seeded_state : GenState :=
  mkGen seeded_board [(0, 0)] 0 [] (mkRng (fun _ => O) 2).

(** The density in force after [k] attempts fell short of their island count:
    [min_island_density += decay], [k] times. *)
Definition loosened (k : nat) (density : float) : float :=
  Nat.iter k (fun d => float_add d decay) density.

(** The attempts that the loop of [generate] rejects, from the density
    [density] and the oracle at [r] on: [k] of them fall short of their
    threshold, each adding [decay] to the density, and the others have enough
    islands on a board that is not full, which leaves the density as it is.
    After them the density is [density'] and the oracle is at [r']. *)
Inductive rejected (width height : Z) (s : Settings)
  : float -> Rng -> nat -> float -> Rng -> Prop :=
| rejected_none density r :
    rejected width height s density r 0 density r
| rejected_short density r m grid count solution r1 k density' r' :
    min_island_count_of width height density = Ok m ->
    generate_candidate width height (max_degree s) (single_bridge_odds s)
      (shorter_bridges s) m (m * 10) r = Ok (grid, count, solution, r1) ->
    count < m ->
    rejected width height s (float_add density decay) r1 k density' r' ->
    rejected width height s density r (S k) density' r'
| rejected_not_full density r m grid count solution r1 k density' r' :
    min_island_count_of width height density = Ok m ->
    generate_candidate width height (max_degree s) (single_bridge_odds s)
      (shorter_bridges s) m (m * 10) r = Ok (grid, count, solution, r1) ->
    m <= count ->
    is_candidate_full grid = Ok false ->
    rejected width height s density r1 k density' r' ->
    rejected width height s density r k density' r'.

(** The attempt at the density [density], with the oracle at [r], has the
    threshold [m], reaches it on a full board, and [p] is the puzzle read off
    that board with the bridges of the attempt. *)
Definition accepted (width height : Z) (s : Settings) (density : float) (r : Rng)
  (m : Z) (p : Puzzle.t) : Prop :=
  exists grid count solution r' puzzle,
    min_island_count_of width height density = Ok m
    /\ generate_candidate width height (max_degree s) (single_bridge_odds s)
         (shorter_bridges s) m (m * 10) r = Ok (grid, count, solution, r')
    /\ m <= count
    /\ is_candidate_full grid = Ok true
    /\ to_puzzle grid = Ok puzzle
    /\ p = with_solution puzzle solution.

(** Each of the four outer lines of the board holds an island of the puzzle. *)
Definition outer_lines_used (p : Puzzle.t) : Prop :=
  (exists i, In i (Puzzle.islands p) /\ Island.y i = 0)
  /\ (exists i, In i (Puzzle.islands p) /\ Island.y i = Puzzle.height p - 1)
  /\ (exists i, In i (Puzzle.islands p) /\ Island.x i = 0)
  /\ (exists i, In i (Puzzle.islands p) /\ Island.x i = Puzzle.width p - 1).

(** A run that ends on a full 4 by 4 board with five islands: the seed at
    (0, 0), then bridges to (2, 0), (0, 3), (3, 3) and (2, 2). *)
Definition five_island_draws : list nat :=
  [0; 0;  0; 1; 0; 0;  0; 0; 0; 1;  2; 0; 0; 1;  1; 0; 0; 0]%nat.

Definition five_island_rng : Rng := mkRng (fun n => nth n five_island_draws O) O.

(** The same run on the extreme tier, where every length takes two draws,
    after [n] draws of 0. *)
Definition five_island_draws_extreme : list nat :=
  [0; 0;  0; 1; 0; 0; 0;  0; 0; 0; 1; 1;  2; 0; 0; 1; 1;  1; 0; 0; 0; 0]%nat.

Definition late_rng (n : nat) : Rng :=
  mkRng (fun k => if (k <? n)%nat then O else nth (k - n) five_island_draws_extreme O) O.

(** A run on a 5 by 5 board of the easy tier in two attempts.  The first, of
    18 draws, places five islands on the rows 1 and 3 and leaves the rows 0
    and 4 empty; the second is accepted. *)
Definition two_attempt_draws : list nat :=
  [277; 421; 564; 708; 851; 994; 129; 272; 416; 559; 703; 846; 990; 124; 268; 411;
   555; 698;
   842; 985; 120; 263; 407; 550; 694; 837; 980; 115; 258; 402; 545; 689; 832; 976;
   110; 254; 397]%nat.

Definition two_attempt_rng : Rng := mkRng (fun n => nth n two_attempt_draws O) O.

(** * What the further properties speak of *)

(** The same bridge with its two ends exchanged. *)
Definition flip (b : Bridge.t) : Bridge.t :=
  Bridge.mk (Bridge.node2 b) (Bridge.node1 b) (Bridge.single b).

(** A puzzle whose only bridge ends on no island. *)
Definition stray_bridge_puzzle : Puzzle.t :=
  Puzzle.mk 4 4 [Island.mk 0 0 1; Island.mk 0 2 1]
    (Some [Bridge.mk (Island.mk 0 0 1) (Island.mk 0 3 1) true]).


(** The order in which [to_puzzle] scans the board: by column, and by row
    within a column. *)
Definition scan_lt (i j : Island.t) : Prop :=
  Island.x i < Island.x j \/ (Island.x i = Island.x j /\ Island.y i < Island.y j).


(** The coordinates Python accepts as indices into a board of the given
    size: those on the board, and the negative ones that count from its far
    edge. *)
Definition indexable (width height : Z) (i : Island.t) : Prop :=
  - width <= Island.x i < width /\ - height <= Island.y i < height.


(** The two nodes after [(x, y)] in a direction are on the board and empty:
    what [get_random_direction] asks of a direction it offers. *)
Definition open_direction (g : Grid.t) (x y : Z) (d : Direction) : Prop :=
  forall k, 1 <= k <= 2 ->
    in_bounds g (step_from x y d k) /\ has_type g (step_from x y d k) NodeType.empty.


(** Row [y] of the board holds a node that is not empty; likewise column
    [x]. *)
Definition row_used (g : Grid.t) (y : Z) : Prop :=
  exists x n, 0 <= x < Grid.width g /\ cell g x y = Ok n
              /\ Node.type n <> NodeType.empty.

Definition column_used (g : Grid.t) (x : Z) : Prop :=
  exists y n, 0 <= y < Grid.height g /\ cell g x y = Ok n
              /\ Node.type n <> NodeType.empty.


(** ** The generator, further *)

(** Two positions side by side on the board, in a row or in a column. *)
Definition side_by_side (p q : pos) : Prop :=
  Z.abs (fst p - fst q) + Z.abs (snd p - snd q) = 1.

(** The bridge runs straight from its first end in direction [d], over [len]
    nodes, to its second end. *)
Definition spans (b : Bridge.t) (d : Direction) (len : Z) : Prop :=
  1 <= len
  /\ island_pos (Bridge.node2 b)
     = step_from (Island.x (Bridge.node1 b)) (Island.y (Bridge.node1 b)) d (len + 1).

(** A pass of the loop body that plants no bridge: the board, the bridges and
    the count stay as they are. *)
Definition quiet (st st' : GenState) : Prop :=
  gen_grid st' = gen_grid st /\ gen_solution st' = gen_solution st
  /\ island_count st' = island_count st.

(** A pass of the loop body that plants a bridge of thickness [t] from the
    island at [(x, y)] in direction [d] over [len] nodes: what it found on the
    board before, and the board it leaves. *)
Definition plants (max_degree : Z) (st st' : GenState) (x y : Z) (d : Direction)
  (len t : Z) : Prop :=
  let g := gen_grid st in
  let e := step_from x y d (len + 1) in
  island_node g (x, y)
  /\ (exists ns, cell g x y = Ok ns /\ Node.degree ns < max_degree
                 /\ Node.degree ns + t <= max_degree
                 /\ cell (gen_grid st') x y = Ok (add_degree t ns))
  /\ 1 <= len
  /\ (forall k, 1 <= k <= len + 1 ->
        in_bounds g (step_from x y d k) /\ has_type g (step_from x y d k) NodeType.empty)
  /\ (t = 1 \/ t = 2)
  /\ (forall d', in_bounds g (step_from (fst e) (snd e) d' 1) ->
         ~ has_type g (step_from (fst e) (snd e) d' 1) NodeType.island)
  /\ grid_wf (gen_grid st')
  /\ Grid.width (gen_grid st') = Grid.width g
  /\ Grid.height (gen_grid st') = Grid.height g
  /\ (exists ne, cell g (fst e) (snd e) = Ok ne
                 /\ cell (gen_grid st') (fst e) (snd e) = Ok (to_island t ne))
  /\ (forall k, 1 <= k <= len -> has_type (gen_grid st') (step_from x y d k) NodeType.bridge)
  /\ (forall p, in_bounds g p -> p <> (x, y) ->
        (forall k, 1 <= k <= len + 1 -> p <> step_from x y d k) ->
        cell (gen_grid st') (fst p) (snd p) = cell g (fst p) (snd p))
  /\ gen_solution st'
     = gen_solution st
       ++ [Bridge.mk (Island.mk x y 0) (Island.mk (fst e) (snd e) 0) (t =? 1)]
  /\ island_count st' = island_count st + 1.

(** What every iteration of [generate_candidate] finds besides: the degree of
    an island node is within the limit of the tier; no two island nodes are
    side by side; there are as many planted bridges as [island_count]; a
    planted bridge runs straight over bridge nodes of the board; two planted
    bridges share no node; and the board has at least one bridge node for
    each planted bridge. *)
Record gen_inv2 (max_degree : Z) (st : GenState) : Prop := {
  inv_degree_range : forall p n,
    in_bounds (gen_grid st) p -> cell (gen_grid st) (fst p) (snd p) = Ok n ->
    Node.type n = NodeType.island -> 0 <= Node.degree n <= max_degree;
  inv_apart : forall p q,
    island_node (gen_grid st) p -> island_node (gen_grid st) q -> ~ side_by_side p q;
  inv_tree : Z.of_nat (length (gen_solution st)) = island_count st;
  inv_straight : forall b, In b (gen_solution st) -> exists d len, spans b d len;
  inv_span : forall b p, In b (gen_solution st) -> on_bridge b p ->
    in_bounds (gen_grid st) p /\ has_type (gen_grid st) p NodeType.bridge;
  inv_disjoint : forall b b' p,
    In b (gen_solution st) -> In b' (gen_solution st) ->
    on_bridge b p -> on_bridge b' p -> b = b';
  inv_bridge_nodes : exists l,
    NoDup l
    /\ (forall p, In p l ->
          in_bounds (gen_grid st) p /\ has_type (gen_grid st) p NodeType.bridge)
    /\ island_count st <= Z.of_nat (length l)
}.


(** The candidate [c], a pair of indices into the islands, is the pair of
    islands that the bridge joins, in either order. *)
Definition joins (islands : list Island.t) (c : nat * nat) (b : Bridge.t) : Prop :=
  exists a a',
    nth_error islands (fst c) = Some a /\ nth_error islands (snd c) = Some a'
    /\ ((island_pos a = island_pos (Bridge.node1 b)
         /\ island_pos a' = island_pos (Bridge.node2 b))
        \/ (island_pos a = island_pos (Bridge.node2 b)
            /\ island_pos a' = island_pos (Bridge.node1 b))).


(** ** The solver, further *)

(** The order of the candidates: by first index, then by second. *)
Definition pair_lt (c c' : nat * nat) : Prop :=
  (fst c < fst c')%nat \/ (fst c = fst c' /\ (snd c < snd c')%nat).


(** The sum of a list of rationals. *)
Definition qsum (l : list Q) : Q := fold_right Qplus 0%Q l.

(** What flow conservation balances at the island of index [k]: the flow
    that leaves it less the flow that enters it, over the candidates. *)
Definition net_flow (a : assignment) (possible_bridges : list (nat * nat)) (k : nat) : Q :=
  (qsum (map a (flat_map (fun '(u, v) =>
           if (u =? k)%nat then [f_ k v]
           else if (v =? k)%nat then [f_ k u] else []) possible_bridges))
   - qsum (map a (flat_map (fun '(u, v) =>
             if (u =? k)%nat then [f_ v k]
             else if (v =? k)%nat then [f_ u k] else []) possible_bridges)))%Q.

(** The values that the external solver reports for the bridge counts are
    within 1/2 of those of the assignment [a]. *)
Definition reports (value : LpVar -> option Q) (a : assignment)
  (possible_bridges : list (nat * nat)) : Prop :=
  forall i j, In (i, j) possible_bridges ->
    exists c, value (b_ i j) = Some c
              /\ (a (b_ i j) - (1 # 2) < c < a (b_ i j) + (1 # 2))%Q.


(** ** puzzle.py: [Puzzle.__str__] *)

(** A Python string as its sequence of code points: the board is drawn with
    box-drawing characters, which are no bytes. *)
Definition text : Type := list Z.

Definition text_eqb (s t : text) : bool :=
  if list_eq_dec Z.eq_dec s t then true else false.

(** [==] on the results of [dict.get]: [None] equals [None] only. *)
Definition option_text_eqb (s t : option text) : bool :=
  match s, t with
  | Some s, Some t => text_eqb s t
  | None, None => true
  | _, _ => false
  end.

(** [s * n]: empty when [n] is not positive. *)
Definition text_mul (s : text) (n : Z) : text := concat (repeat s (Z.to_nat n)).

Fixpoint digits (u : Decimal.uint) : text :=
  match u with
  | Decimal.Nil => []
  | Decimal.D0 u => 48 :: digits u
  | Decimal.D1 u => 49 :: digits u
  | Decimal.D2 u => 50 :: digits u
  | Decimal.D3 u => 51 :: digits u
  | Decimal.D4 u => 52 :: digits u
  | Decimal.D5 u => 53 :: digits u
  | Decimal.D6 u => 54 :: digits u
  | Decimal.D7 u => 55 :: digits u
  | Decimal.D8 u => 56 :: digits u
  | Decimal.D9 u => 57 :: digits u
  end.

(** [str(n)] of an integer, as an f-string formats it: its decimal digits,
    after a minus sign when it is negative. *)
Definition str_int (n : Z) : text :=
  match Z.to_int n with
  | Decimal.Pos u => digits u
  | Decimal.Neg u => 45 :: digits u
  end.

Definition space : Z := 32.
Definition newline : Z := 10.
Definition light_vertical : Z := 9474.
Definition double_vertical : Z := 9553.
Definition light_horizontal : Z := 9472.
Definition double_horizontal : Z := 9552.
Definition corner_down_right : Z := 9484.
Definition corner_down_left : Z := 9488.
Definition corner_up_right : Z := 9492.
Definition corner_up_left : Z := 9496.

(** The body of [for bridge in self.solution] in [__str__]. *)
Definition bridge_symbols (bridge : Bridge.t) (symbol_dict : dict text)
  : result (dict text) :=
  let node1 := Bridge.node1 bridge in
  let node2 := Bridge.node2 bridge in
  if Island.x node1 =? Island.x node2 then
    let start := Z.min (Island.y node1) (Island.y node2) + 1 in
    let stop := Z.max (Island.y node1) (Island.y node2) in
    Ok (fold_left (fun d y =>
          dict_set d (Island.x node1, y)
            (if Bridge.single bridge then [space; light_vertical; space]
             else [space; double_vertical; space]))
        (range start stop) symbol_dict)
  else if Island.y node1 =? Island.y node2 then
    let start := Z.min (Island.x node1) (Island.x node2) + 1 in
    let stop := Z.max (Island.x node1) (Island.x node2) in
    Ok (fold_left (fun d x =>
          dict_set d (x, Island.y node1)
            (if Bridge.single bridge
             then [light_horizontal; light_horizontal; light_horizontal]
             else [double_horizontal; double_horizontal; double_horizontal]))
        (range start stop) symbol_dict)
  else Raise ValueError.

(** [symbol_dict.get(k, default)] *)
Definition get_default (symbol_dict : dict text) (k : pos) (default : text) : text :=
  match dict_get symbol_dict k with
  | Some s => s
  | None => default
  end.

(** What is written for the row [y] of the board, and for the spacing row
    under it. *)
Definition board_row (width : Z) (symbol_dict : dict text) (y : Z) (output : text) : text :=
  let output := output ++ [light_vertical] in
  let output :=
    fold_left (fun output x =>
      output ++ get_default symbol_dict (x, y) [space; space; space])
      (range 0 width) output in
  output ++ [light_vertical; newline].

Definition spacing_row (width : Z) (symbol_dict : dict text) (y : Z) (output : text)
  : text :=
  let output := output ++ [light_vertical] in
  let output :=
    fold_left (fun output x =>
      if option_text_eqb (dict_get symbol_dict (x, y)) (dict_get symbol_dict (x, y + 1))
         && (option_text_eqb (dict_get symbol_dict (x, y))
               (Some [space; light_vertical; space])
             || option_text_eqb (dict_get symbol_dict (x, y))
                  (Some [space; double_vertical; space]))
      then output ++ get_default symbol_dict (x, y) [space; space; space]
      else output ++ [space; space; space])
      (range 0 width) output in
  output ++ [light_vertical; newline].

(** The body of [for y in range(self.height)]. *)
Definition draw_row (width height : Z) (symbol_dict : dict text) (output : text) (y : Z)
  : text :=
  let output := board_row width symbol_dict y output in
  if negb (y =? height - 1)
  then spacing_row width symbol_dict y output
  else output.

(** [Puzzle.__str__]; [output] is what has been written to the StringIO. *)
Definition __str__ (self : Puzzle.t) : result text :=
  let board_width := Puzzle.width self * 3 in
  let symbol_dict :=
    dict_of island_pos (fun island => [space] ++ str_int (Island.degree island) ++ [space])
      (Puzzle.islands self) in
  symbol_dict <-
    match Puzzle.solution self with
    | Some solution => for_each solution bridge_symbols symbol_dict
    | None => Ok symbol_dict
    end ;;
  let output :=
    [corner_down_right] ++ text_mul [light_horizontal] board_width
    ++ [corner_down_left; newline] in
  let output :=
    fold_left (draw_row (Puzzle.width self) (Puzzle.height self) symbol_dict)
      (range 0 (Puzzle.height self)) output in
  Ok (output ++ [corner_up_right] ++ text_mul [light_horizontal] board_width
      ++ [corner_up_left]).

(** The bridge runs neither along a column nor along a row. *)
Definition askew (b : Bridge.t) : Prop :=
  Island.x (Bridge.node1 b) <> Island.x (Bridge.node2 b)
  /\ Island.y (Bridge.node1 b) <> Island.y (Bridge.node2 b).

(** Lines joined by newlines. *)
Fixpoint join_lines (lines : list text) : text :=
  match lines with
  | [] => []
  | [l] => l
  | l :: rest => l ++ [newline] ++ join_lines rest
  end.


(** A line of the drawing of a board of the given width: two border
    characters around three characters for each column, and no newline. *)
Definition board_line (width : Z) (l : text) : Prop :=
  Z.of_nat (length l) = 3 * width + 2 /\ ~ In newline l.


(** ** demo.py *)

(** The script of demo.py run with a solver: a puzzle is generated, printed
    without its solution, solved, and verified with the answer; it is printed
    again if it passes.  Printing is modelled by what it may raise, the
    conversion to a string; what is returned is the verdict, if there was an
    answer to verify. *)
Definition demo (solver : Solver) (fuel : nat) (r : Rng)
  : result (option (bool * string)) :=
  generated <- generate fuel 11 11 extreme r ;;
  let puzzle := without_solution generated in
  _ <- __str__ puzzle ;;
  solution <- solve solver puzzle ;;
  match solution with
  | Some solution =>
      let puzzle := with_solution puzzle solution in
      verdict <- check_solution puzzle ;;
      if fst verdict
      then _ <- __str__ puzzle ;; Ok (Some verdict)
      else Ok (Some verdict)
  | None => Ok None
  end.

(** * Properties *)

(** ** The error monad *)

Lemma bind_Ok {A B : Type} (m : result A) (k : A -> result B) (b : B) :
  bind m k = Ok b -> exists a, m = Ok a /\ k a = Ok b.
Proof. destruct m; simpl; intros H; try discriminate. eauto. Qed.

Ltac inv_bind H :=
  let a := fresh "a" in
  let Ha := fresh "Ha" in
  apply bind_Ok in H; destruct H as (a & Ha & H).

Tactic Notation "bind_inv" hyp(H) "as" ident(a) ident(Ha) :=
  apply bind_Ok in H; destruct H as (a & Ha & H).

(** ** Positions and dictionaries *)

Lemma pos_eqb_eq (p q : pos) : pos_eqb p q = true <-> p = q.
Proof.
  destruct p as [a b], q as [c d]; unfold pos_eqb; simpl.
  rewrite andb_true_iff, !Z.eqb_eq. split; [intros [-> ->] | intros [= -> ->]]; auto.
Qed.

Lemma pos_eqb_refl (p : pos) : pos_eqb p p = true.
Proof. now apply pos_eqb_eq. Qed.

Lemma pos_eqb_neq (p q : pos) : pos_eqb p q = false <-> p <> q.
Proof.
  rewrite <- pos_eqb_eq. destruct (pos_eqb p q); split; congruence.
Qed.

Lemma pos_eq_dec (p q : pos) : {p = q} + {p <> q}.
Proof.
  destruct (pos_eqb p q) eqn:E; [left; now apply pos_eqb_eq | right; now apply pos_eqb_neq].
Qed.

Section DictFacts.
Context {V : Type}.
Implicit Types (d : dict V) (k : pos) (v : V).

Lemma dict_get_set_same d k v : dict_get (dict_set d k v) k = Some v.
Proof.
  induction d as [|[k' v'] d IH]; simpl.
  - now rewrite pos_eqb_refl.
  - destruct (pos_eqb k' k) eqn:E; simpl; rewrite E; auto.
Qed.

Lemma dict_get_set_other d k k' v :
  k <> k' -> dict_get (dict_set d k v) k' = dict_get d k'.
Proof.
  intros Hne. induction d as [|[k0 v0] d IH]; simpl.
  - apply pos_eqb_neq in Hne. now rewrite Hne.
  - destruct (pos_eqb k0 k) eqn:E; simpl.
    + apply pos_eqb_eq in E; subst k0.
      apply pos_eqb_neq in Hne. now rewrite Hne.
    + now rewrite IH.
Qed.

Lemma dict_get_Some_In d k v : dict_get d k = Some v -> In (k, v) d.
Proof.
  induction d as [|[k' v'] d IH]; simpl; [discriminate|].
  destruct (pos_eqb k' k) eqn:E.
  - apply pos_eqb_eq in E; subst. intros [= ->]. now left.
  - auto.
Qed.

Lemma dict_get_In_keys d k : In k (dict_keys d) <-> exists v, dict_get d k = Some v.
Proof.
  induction d as [|[k' v'] d IH]; simpl.
  - split; [tauto | intros [v H]; discriminate].
  - destruct (pos_eqb k' k) eqn:E.
    + apply pos_eqb_eq in E. split; eauto.
    + apply pos_eqb_neq in E. rewrite <- IH. tauto.
Qed.

Lemma dict_get_None d k : dict_get d k = None <-> ~ In k (dict_keys d).
Proof.
  rewrite dict_get_In_keys. destruct (dict_get d k); split; try congruence.
  - intros H; exfalso; eauto.
  - intros _ [v' H]; discriminate.
Qed.

Lemma dict_keys_set_present d k v :
  In k (dict_keys d) -> dict_keys (dict_set d k v) = dict_keys d.
Proof.
  induction d as [|[k' v'] d IH]; simpl; [tauto|].
  destruct (pos_eqb k' k) eqn:E; simpl; auto.
  intros [->|H]; [now rewrite pos_eqb_refl in E|]. f_equal; auto.
Qed.

Lemma dict_keys_set_absent d k v :
  ~ In k (dict_keys d) -> dict_keys (dict_set d k v) = dict_keys d ++ [k].
Proof.
  induction d as [|[k' v'] d IH]; simpl; auto.
  destruct (pos_eqb k' k) eqn:E; simpl.
  - apply pos_eqb_eq in E. tauto.
  - intros H. f_equal. tauto.
Qed.

Lemma dict_keys_set_In d k v k' :
  In k' (dict_keys (dict_set d k v)) <-> k' = k \/ In k' (dict_keys d).
Proof.
  destruct (in_dec pos_eq_dec k (dict_keys d)) as [H|H].
  - rewrite dict_keys_set_present by auto. split; auto. intros [->|]; auto.
  - rewrite dict_keys_set_absent by auto. rewrite in_app_iff; simpl.
    split; intros [?|?]; auto. destruct H0; auto; tauto.
Qed.

Lemma dict_NoDup_set d k v :
  NoDup (dict_keys d) -> NoDup (dict_keys (dict_set d k v)).
Proof.
  intros Hd. destruct (in_dec pos_eq_dec k (dict_keys d)) as [H|H].
  - now rewrite dict_keys_set_present.
  - rewrite dict_keys_set_absent by auto.
    apply NoDup_rev in Hd. rewrite <- (rev_involutive (_ ++ _)).
    apply NoDup_rev. rewrite rev_app_distr; simpl. constructor; auto.
    now rewrite <- in_rev.
Qed.

Lemma dict_In_get d k v : NoDup (dict_keys d) -> In (k, v) d -> dict_get d k = Some v.
Proof.
  induction d as [|[k' v'] d IH]; simpl; [tauto|].
  intros Hd [[= -> ->]|H].
  - now rewrite pos_eqb_refl.
  - inversion Hd; subst. destruct (pos_eqb k' k) eqn:E; auto.
    apply pos_eqb_eq in E; subst. exfalso. apply H2.
    change k with (fst (k, v)). now apply in_map.
Qed.

Section DictOf.
Context {A : Type} (key : A -> pos) (value : A -> V).

Lemma dict_of_fold_keys (l : list A) d k :
  In k (dict_keys (fold_left (fun d a => dict_set d (key a) (value a)) l d))
  <-> In k (dict_keys d) \/ In k (map key l).
Proof.
  revert d. induction l as [|a l IH]; intros d; simpl; [tauto|].
  rewrite IH, dict_keys_set_In. intuition.
Qed.

Lemma dict_of_fold_NoDup (l : list A) d :
  NoDup (dict_keys d) ->
  NoDup (dict_keys (fold_left (fun d a => dict_set d (key a) (value a)) l d)).
Proof.
  revert d. induction l as [|a l IH]; intros d Hd; simpl; auto.
  apply IH. now apply dict_NoDup_set.
Qed.

Lemma dict_of_fold_get (l : list A) d k :
  ~ In k (map key l) ->
  dict_get (fold_left (fun d a => dict_set d (key a) (value a)) l d) k = dict_get d k.
Proof.
  revert d. induction l as [|a l IH]; intros d Hk; simpl in *; auto.
  rewrite IH by tauto. apply dict_get_set_other. intros E; apply Hk; auto.
Qed.

Lemma dict_of_keys (l : list A) k :
  In k (dict_keys (dict_of key value l)) <-> In k (map key l).
Proof. unfold dict_of. rewrite dict_of_fold_keys. simpl. tauto. Qed.

Lemma dict_of_NoDup (l : list A) : NoDup (dict_keys (dict_of key value l)).
Proof. apply dict_of_fold_NoDup. constructor. Qed.

(** With distinct keys every element is found under its key. *)
Lemma dict_of_get (l : list A) a :
  NoDup (map key l) -> In a l -> dict_get (dict_of key value l) (key a) = Some (value a).
Proof.
  unfold dict_of. generalize (@nil (pos * V)).
  induction l as [|a' l IH]; intros d Hnd Hin; simpl in *; [tauto|].
  inversion Hnd; subst. destruct Hin as [->|Hin].
  - rewrite dict_of_fold_get by auto. apply dict_get_set_same.
  - now apply IH.
Qed.

(** Every value of the dictionary is the value of some element. *)
Lemma dict_of_fold_values (l : list A) d (P : V -> Prop) :
  (forall k v, dict_get d k = Some v -> P v) ->
  (forall a, In a l -> P (value a)) ->
  forall k v,
    dict_get (fold_left (fun d a => dict_set d (key a) (value a)) l d) k = Some v -> P v.
Proof.
  revert d. induction l as [|a l IH]; intros d Hd Hl k v; simpl in *; [apply Hd|].
  apply IH; auto. intros k' v'.
  destruct (pos_eq_dec (key a) k') as [<-|Hne].
  - rewrite dict_get_set_same. intros [= <-]. auto.
  - rewrite dict_get_set_other by auto. apply Hd.
Qed.
End DictOf.
End DictFacts.

(** ** puzzle.py: the puzzles it checks when run *)

Example check_test_1 : check_solution test_solved_puzzle_1 = Ok (true, "Success"%string).
Proof. reflexivity. Qed.

Example check_test_3 :
  check_solution test_solved_puzzle_3 = Ok (false, "Islands do not match bridges"%string).
Proof. reflexivity. Qed.

Example check_test_4 :
  check_solution test_solved_puzzle_4 = Ok (false, "Islands are not fully connected"%string).
Proof. reflexivity. Qed.

(** ** puzzle.py: attaching and removing a solution *)

(** C9: for a puzzle with a solution attached, [without_solution] followed by
    [with_solution] of that same solution gives the puzzle back, and for
    every puzzle and every supplied solution the two steps leave the islands,
    the width and the height as they were. *)
Theorem with_solution_without_solution :
  (forall w h islands s,
     with_solution (without_solution (Puzzle.mk w h islands (Some s))) s
     = Puzzle.mk w h islands (Some s))
  /\ (forall p s,
        Puzzle.islands (with_solution (without_solution p) s) = Puzzle.islands p
        /\ Puzzle.width (with_solution (without_solution p) s) = Puzzle.width p
        /\ Puzzle.height (with_solution (without_solution p) s) = Puzzle.height p).
Proof.
  split.
  - intros w h islands s. reflexivity.
  - intros [w h islands sol] s. repeat split.
Qed.

(** ** The degree phase of [check_solution] *)

Lemma dict_sub_get (d : dict Z) k w v k' :
  dict_get d k = Some v ->
  dict_get (dict_set d k (v - w)) k'
  = match dict_get d k' with
    | Some v' => Some (v' - (if pos_eqb k k' then w else 0))
    | None => None
    end.
Proof.
  intros Hk. destruct (pos_eqb k k') eqn:E.
  - apply pos_eqb_eq in E; subst k'. now rewrite dict_get_set_same, Hk.
  - apply pos_eqb_neq in E. rewrite dict_get_set_other by auto.
    destruct (dict_get d k'); auto. now rewrite Z.sub_0_r.
Qed.

Lemma subtract_bridges_spec (solution : list Bridge.t) :
  forall d : dict Z,
    (forall b, In b solution ->
       In (island_pos (Bridge.node1 b)) (dict_keys d)
       /\ In (island_pos (Bridge.node2 b)) (dict_keys d)) ->
    exists d',
      subtract_bridges solution d = Ok d'
      /\ dict_keys d' = dict_keys d
      /\ forall k v, dict_get d k = Some v ->
           dict_get d' k = Some (v - incident_sum solution k).
Proof.
  induction solution as [|b rest IH]; intros d Hends; simpl.
  - exists d. repeat split; auto. intros k v ->. now rewrite Z.sub_0_r.
  - destruct (Hends b (or_introl eq_refl)) as [H1 H2].
    apply dict_get_In_keys in H1. destruct H1 as [v1 Hv1].
    unfold dict_sub at 1. rewrite Hv1. simpl.
    set (d1 := dict_set d (island_pos (Bridge.node1 b)) (v1 - bridge_weight b)).
    assert (K1 : dict_keys d1 = dict_keys d).
    { apply dict_keys_set_present. apply dict_get_In_keys; eauto. }
    rewrite <- K1 in H2. apply dict_get_In_keys in H2. destruct H2 as [v2 Hv2].
    unfold dict_sub. rewrite Hv2. simpl.
    set (d2 := dict_set d1 (island_pos (Bridge.node2 b)) (v2 - bridge_weight b)).
    assert (K2 : dict_keys d2 = dict_keys d1).
    { apply dict_keys_set_present. apply dict_get_In_keys; eauto. }
    destruct (IH d2) as (d' & Hd' & Kd' & Gd').
    { intros b' Hb'. rewrite K2, K1. apply Hends. now right. }
    exists d'. split; [exact Hd'|]. split; [congruence|].
    intros k v Hk.
    rewrite (Gd' k (v - (if pos_eqb (island_pos (Bridge.node1 b)) k
                         then bridge_weight b else 0)
                      - (if pos_eqb (island_pos (Bridge.node2 b)) k
                         then bridge_weight b else 0))).
    + apply f_equal. unfold incident_weight. lia.
    + unfold d2. rewrite (dict_sub_get _ _ (bridge_weight b) _ k Hv2).
      unfold d1. now rewrite (dict_sub_get _ _ (bridge_weight b) _ k Hv1), Hk.
Qed.

Lemma existsb_nonzero (d : dict Z) :
  existsb (fun kv => negb (snd kv =? 0)) d = true
  <-> exists k v, In (k, v) d /\ v <> 0.
Proof.
  rewrite existsb_exists. split.
  - intros [[k v] [Hin Hv]]. exists k, v. split; auto.
    simpl in Hv. apply negb_true_iff, Z.eqb_neq in Hv. auto.
  - intros (k & v & Hin & Hv). exists (k, v). split; auto.
    simpl. now apply negb_true_iff, Z.eqb_neq.
Qed.

(** The degree phase raises nothing when the bridges end on islands, and then
    fails exactly when some island keeps a residual. *)
Lemma degrees_match_spec (islands : list Island.t) (solution : list Bridge.t) :
  NoDup (map island_pos islands) ->
  endpoints_are_islands islands solution ->
  exists ok,
    degrees_match islands solution = Ok ok
    /\ (ok = false <-> exists i, In i islands /\ residual solution i <> 0).
Proof.
  intros Hnd Hends. unfold degrees_match.
  destruct (subtract_bridges_spec solution (dict_of island_pos Island.degree islands))
    as (d' & Hd' & Kd' & Gd').
  { intros b Hb. rewrite !dict_of_keys. now apply Hends. }
  rewrite Hd'. simpl. eexists; split; [reflexivity|].
  rewrite negb_false_iff, existsb_nonzero.
  assert (Hnd' : NoDup (dict_keys d')) by (rewrite Kd'; apply dict_of_NoDup).
  split.
  - intros (k & v & Hin & Hv).
    assert (Hk : In k (dict_keys d')).
    { change k with (fst (k, v)). now apply in_map. }
    rewrite Kd', dict_of_keys in Hk. apply in_map_iff in Hk.
    destruct Hk as (i & <- & Hi). exists i. split; auto.
    apply dict_In_get in Hin; auto.
    rewrite (Gd' _ _ (dict_of_get island_pos Island.degree _ _ Hnd Hi)) in Hin.
    injection Hin as <-. exact Hv.
  - intros (i & Hi & Hr). exists (island_pos i), (residual solution i). split; auto.
    apply dict_get_Some_In. apply Gd'. now apply dict_of_get.
Qed.

(** ** The connectivity phase of [check_solution] *)

Lemma reach_trans solution p q r :
  reach solution p q -> reach solution q r -> reach solution p r.
Proof.
  intros Hpq Hqr. induction Hqr; auto. eapply reach_step; eauto.
Qed.

Lemma adjacent_sym solution p q : adjacent solution p q -> adjacent solution q p.
Proof. intros (b & Hb & H). exists b. split; auto. tauto. Qed.

Lemma reach_sym solution p q : reach solution p q -> reach solution q p.
Proof.
  induction 1 as [|q r Hpq IH Hqr]; [constructor|].
  eapply reach_trans; [|exact IH].
  eapply reach_step; [constructor|]. now apply adjacent_sym.
Qed.

Lemma reach_more solution b p q :
  reach solution p q -> reach (solution ++ [b]) p q.
Proof.
  induction 1 as [|q r Hpq IH (b' & Hb' & H)]; [constructor|].
  eapply reach_step; [exact IH|]. exists b'. split; auto.
  apply in_or_app; now left.
Qed.

Lemma dict_append_get (d : dict (list pos)) k q l k' :
  dict_get d k = Some l ->
  dict_get (dict_set d k (l ++ [q])) k'
  = match dict_get d k' with
    | Some l' => Some (l' ++ (if pos_eqb k k' then [q] else []))
    | None => None
    end.
Proof.
  intros Hk. destruct (pos_eqb k k') eqn:E.
  - apply pos_eqb_eq in E; subst k'. now rewrite dict_get_set_same, Hk.
  - apply pos_eqb_neq in E. rewrite dict_get_set_other by auto.
    destruct (dict_get d k'); auto. now rewrite app_nil_r.
Qed.

Lemma dict_total_append (d : dict (list pos)) k q l :
  dict_get d k = Some l ->
  dict_total (dict_set d k (l ++ [q])) = S (dict_total d).
Proof.
  induction d as [|[k' l'] d IH]; simpl; [discriminate|].
  destruct (pos_eqb k' k) eqn:E; simpl.
  - intros [= ->]. rewrite length_app; simpl. lia.
  - intros H. rewrite IH by auto. lia.
Qed.

Lemma add_neighbours_spec (solution : list Bridge.t) :
  forall d : dict (list pos),
    (forall b, In b solution ->
       In (island_pos (Bridge.node1 b)) (dict_keys d)
       /\ In (island_pos (Bridge.node2 b)) (dict_keys d)) ->
    exists d',
      add_neighbours solution d = Ok d'
      /\ dict_keys d' = dict_keys d
      /\ dict_total d' = (dict_total d + 2 * length solution)%nat
      /\ forall k l, dict_get d k = Some l ->
           exists l', dict_get d' k = Some (l ++ l')
                      /\ forall q, In q l' <-> adjacent solution k q.
Proof.
  induction solution as [|b rest IH]; intros d Hends; simpl.
  - exists d. repeat split; auto. intros k l Hk. exists []. rewrite app_nil_r.
    split; auto. intros q. split; [contradiction|]. intros (b & [] & _).
  - destruct (Hends b (or_introl eq_refl)) as [H1 H2].
    set (p1 := island_pos (Bridge.node1 b)) in *.
    set (p2 := island_pos (Bridge.node2 b)) in *.
    apply dict_get_In_keys in H1. destruct H1 as [l1 Hl1].
    unfold dict_append at 1. rewrite Hl1. simpl.
    set (d1 := dict_set d p1 (l1 ++ [p2])).
    assert (K1 : dict_keys d1 = dict_keys d).
    { apply dict_keys_set_present. apply dict_get_In_keys; eauto. }
    rewrite <- K1 in H2. apply dict_get_In_keys in H2. destruct H2 as [l2 Hl2].
    unfold dict_append. rewrite Hl2. simpl.
    set (d2 := dict_set d1 p2 (l2 ++ [p1])).
    assert (K2 : dict_keys d2 = dict_keys d1).
    { apply dict_keys_set_present. apply dict_get_In_keys; eauto. }
    destruct (IH d2) as (d' & Hd' & Kd' & Td' & Gd').
    { intros b' Hb'. rewrite K2, K1. apply Hends. now right. }
    exists d'. split; [exact Hd'|]. split; [congruence|]. split.
    { rewrite Td'. unfold d2. rewrite (dict_total_append _ _ _ _ Hl2).
      unfold d1. rewrite (dict_total_append _ _ _ _ Hl1). lia. }
    intros k l Hk.
    destruct (Gd' k ((l ++ (if pos_eqb p1 k then [p2] else []))
                       ++ (if pos_eqb p2 k then [p1] else []))) as (l' & Hl' & Hadj).
    { unfold d2. rewrite (dict_append_get _ _ p1 _ k Hl2).
      unfold d1. now rewrite (dict_append_get _ _ p2 _ k Hl1), Hk. }
    exists ((if pos_eqb p1 k then [p2] else [])
            ++ (if pos_eqb p2 k then [p1] else []) ++ l').
    split; [now rewrite Hl', !app_assoc|].
    intros q. rewrite !in_app_iff, Hadj. unfold adjacent. split.
    + intros [H|[H|(b' & Hb' & H)]].
      * destruct (pos_eqb p1 k) eqn:E; [|contradiction].
        apply pos_eqb_eq in E. destruct H as [<-|[]].
        exists b. split; [now left|]. left. auto.
      * destruct (pos_eqb p2 k) eqn:E; [|contradiction].
        apply pos_eqb_eq in E. destruct H as [<-|[]].
        exists b. split; [now left|]. right. auto.
      * exists b'. split; [now right|]. exact H.
    + intros (b' & [<-|Hb'] & H).
      * fold p1 p2 in H. destruct H as [[<- <-]|[<- <-]].
        -- left. rewrite pos_eqb_refl. now left.
        -- right; left. rewrite pos_eqb_refl. now left.
      * right; right. eauto.
Qed.

Section Traversal.
Variables (solution : list Bridge.t) (neighbours : dict (list pos)) (start : pos).

Hypothesis neighbours_adjacent :
  forall k l, dict_get neighbours k = Some l ->
    forall q, In q l <-> adjacent solution k q.

Lemma bfs_sound fuel :
  forall visited_dict to_visit visited',
    bfs fuel neighbours visited_dict to_visit = Ok visited' ->
    bfs_inv solution start visited_dict to_visit ->
    forall p, dict_get visited' p = Some true <-> reach solution start p.
Proof.
  induction fuel as [|fuel IH]; intros vd q vd' Hrun Hinv;
    destruct q as [|cur q]; simpl in Hrun; try discriminate.
  - injection Hrun as <-. destruct Hinv as [Hv _ Hc Hs]. intros p. split; auto.
    induction 1 as [|a r Hpa IHr Har].
    + destruct Hs as [|[]]; auto.
    + destruct (Hc _ _ IHr Har) as [|[]]; auto.
  - injection Hrun as <-. destruct Hinv as [Hv _ Hc Hs]. intros p. split; auto.
    induction 1 as [|a r Hpa IHr Har].
    + destruct Hs as [|[]]; auto.
    + destruct (Hc _ _ IHr Har) as [|[]]; auto.
  - destruct Hinv as [Hv Hq Hc Hs].
    destruct (dict_get vd cur) as [[|]|] eqn:Ecur; try discriminate.
    + apply (IH _ _ _ Hrun). constructor; auto.
      * intros r Hr. apply Hq. now right.
      * intros p r Hp Hpr. destruct (Hc _ _ Hp Hpr) as [|[<-|]]; auto.
      * destruct Hs as [|[<-|]]; auto.
    + destruct (dict_get neighbours cur) as [ns|] eqn:Ens; try discriminate.
      assert (Hset : forall p, dict_get (dict_set vd cur true) p = Some true
                               <-> p = cur \/ dict_get vd p = Some true).
      { intros p. destruct (pos_eq_dec cur p) as [<-|Hne].
        - rewrite dict_get_set_same. tauto.
        - rewrite dict_get_set_other by auto. split; auto.
          intros [->|]; auto. congruence. }
      assert (Hcur : reach solution start cur) by (apply Hq; now left).
      apply (IH _ _ _ Hrun). constructor.
      * intros p Hp. apply Hset in Hp. destruct Hp as [->|]; auto.
      * intros r Hr. apply in_app_or in Hr. destruct Hr as [Hr|Hr].
        -- apply Hq. now right.
        -- eapply reach_step; [exact Hcur|].
           now apply (neighbours_adjacent _ _ Ens).
      * intros p r Hp Hpr. rewrite Hset, in_app_iff.
        apply Hset in Hp. destruct Hp as [->|Hp].
        -- right; right. now apply (neighbours_adjacent _ _ Ens).
        -- destruct (Hc _ _ Hp Hpr) as [|[<-|]]; auto.
      * rewrite Hset, in_app_iff. destruct Hs as [|[<-|]]; auto.
Qed.

Lemma bfs_keys fuel :
  forall visited_dict to_visit visited',
    bfs fuel neighbours visited_dict to_visit = Ok visited' ->
    dict_keys visited' = dict_keys visited_dict.
Proof.
  induction fuel as [|fuel IH]; intros vd q vd' Hrun;
    destruct q as [|cur q]; simpl in Hrun; try discriminate;
    try (injection Hrun as <-; reflexivity).
  destruct (dict_get vd cur) as [[|]|] eqn:Ecur; try discriminate; eauto.
  destruct (dict_get neighbours cur) as [ns|] eqn:Ens; try discriminate.
  rewrite (IH _ _ _ Hrun). apply dict_keys_set_present.
  apply dict_get_In_keys; eauto.
Qed.

Lemma pending_mark_le (nb : dict (list pos)) vd cur :
  (pending nb (dict_set vd cur true) <= pending nb vd)%nat.
Proof.
  induction nb as [|[k l] nb IH]; simpl; auto.
  destruct (pos_eq_dec cur k) as [<-|Hne].
  - rewrite dict_get_set_same. lia.
  - rewrite dict_get_set_other by auto. lia.
Qed.

Lemma pending_mark (nb : dict (list pos)) vd cur ns :
  dict_get vd cur = Some false ->
  dict_get nb cur = Some ns ->
  (pending nb (dict_set vd cur true) + length ns <= pending nb vd)%nat.
Proof.
  intros Hv. induction nb as [|[k l] nb IH]; simpl; [discriminate|].
  destruct (pos_eqb k cur) eqn:E.
  - apply pos_eqb_eq in E; subst k. intros [= ->].
    rewrite dict_get_set_same, Hv. pose proof (pending_mark_le nb vd cur). lia.
  - apply pos_eqb_neq in E. intros H. specialize (IH H).
    rewrite dict_get_set_other by auto. lia.
Qed.

(** The traversal ends without a KeyError within its fuel. *)
Lemma bfs_ok fuel :
  forall visited_dict to_visit,
    (forall q, In q to_visit -> In q (dict_keys visited_dict)) ->
    (forall k l q, dict_get neighbours k = Some l -> In q l ->
                   In q (dict_keys visited_dict)) ->
    (forall k, In k (dict_keys visited_dict) -> In k (dict_keys neighbours)) ->
    (length to_visit + pending neighbours visited_dict <= fuel)%nat ->
    exists visited', bfs fuel neighbours visited_dict to_visit = Ok visited'.
Proof.
  induction fuel as [|fuel IH]; intros vd q Hq Hn Hk Hfuel;
    destruct q as [|cur q]; simpl in *; eauto; [lia|].
  assert (Hcur : In cur (dict_keys vd)) by auto.
  apply dict_get_In_keys in Hcur. destruct Hcur as [[|] Ecur]; rewrite Ecur.
  - apply IH; auto. lia.
  - assert (Hcur : In cur (dict_keys neighbours)).
    { apply Hk. apply dict_get_In_keys; eauto. }
    apply dict_get_In_keys in Hcur. destruct Hcur as [ns Ens]. rewrite Ens.
    assert (K : dict_keys (dict_set vd cur true) = dict_keys vd).
    { apply dict_keys_set_present. apply dict_get_In_keys; eauto. }
    apply IH; rewrite ?K; auto.
    + intros r Hr. apply in_app_or in Hr. destruct Hr; eauto.
    + pose proof (pending_mark neighbours vd cur ns Ecur Ens).
      rewrite length_app. lia.
Qed.
End Traversal.

Lemma pending_le_total (nb : dict (list pos)) vd : (pending nb vd <= dict_total nb)%nat.
Proof.
  induction nb as [|[k l] nb IH]; simpl; auto.
  destruct (dict_get vd k) as [[|]|]; lia.
Qed.

Lemma dict_total_empty_lists (d : dict (list pos)) :
  (forall k v, In (k, v) d -> v = []) -> dict_total d = O.
Proof.
  induction d as [|[k l] d IH]; simpl; auto. intros H.
  rewrite (H k l) by auto. simpl. apply IH. intros k' v' Hin. eapply H; eauto.
Qed.

Lemma dict_of_const_get {A V : Type} (key : A -> pos) (c : V) (l : list A) k v :
  dict_get (dict_of key (fun _ => c) l) k = Some v -> v = c.
Proof.
  unfold dict_of. apply (dict_of_fold_values key (fun _ => c) l [] (fun v => v = c)).
  - intros k' v'. discriminate.
  - auto.
Qed.

Lemma py_index_0 {A : Type} (l : list A) (a : A) :
  hd_error l = Some a -> py_index l 0 = Ok a.
Proof.
  destruct l as [|a' l]; simpl; [discriminate|]. intros [= ->].
  unfold py_index, py_norm. simpl length.
  replace ((0 <=? 0) && (0 <? Z.of_nat (S (length l)))) with true.
  - reflexivity.
  - symmetry. apply andb_true_iff. split; [apply Z.leb_le | apply Z.ltb_lt]; lia.
Qed.

Lemma existsb_unvisited (d : dict bool) :
  existsb (fun kv => negb (snd kv)) d = true <-> exists k, In (k, false) d.
Proof.
  rewrite existsb_exists. split.
  - intros [[k [|]] [Hin Hv]]; [discriminate|]. eauto.
  - intros [k Hin]. exists (k, false). auto.
Qed.

(** The connectivity phase raises nothing and does not run out of fuel when
    the bridges end on islands; it passes exactly when every island is joined
    to the first one by bridges. *)
Lemma fully_connected_spec (islands : list Island.t) (solution : list Bridge.t)
  (first : Island.t) :
  endpoints_are_islands islands solution ->
  hd_error islands = Some first ->
  exists ok,
    fully_connected islands solution = Ok ok
    /\ (ok = true <->
        forall i, In i islands -> reach solution (island_pos first) (island_pos i))
    /\ (ok = false <->
        exists i, In i islands /\ ~ reach solution (island_pos first) (island_pos i)).
Proof.
  intros Hends Hfirst. unfold fully_connected.
  set (d0 := dict_of island_pos (fun _ : Island.t => @nil pos) islands).
  destruct (add_neighbours_spec solution d0) as (nb & Hnb & Knb & Tnb & Gnb).
  { intros b Hb. unfold d0. rewrite !dict_of_keys. now apply Hends. }
  rewrite Hnb. cbn [bind]. rewrite (py_index_0 _ _ Hfirst). cbn [bind].
  set (v0 := dict_of island_pos (fun _ : Island.t => false) islands).
  assert (Hfirst_in : In first islands).
  { destruct islands; simpl in Hfirst; [discriminate|]. injection Hfirst as ->. now left. }
  assert (Hadj : forall k l, dict_get nb k = Some l ->
                   forall q, In q l <-> adjacent solution k q).
  { intros k l Hk.
    assert (Hin : In k (dict_keys d0)).
    { rewrite <- Knb. apply dict_get_In_keys; eauto. }
    apply dict_get_In_keys in Hin. destruct Hin as [l0 Hl0].
    destruct (Gnb _ _ Hl0) as (l' & Hl' & H).
    apply dict_of_const_get in Hl0; subst l0. simpl in Hl'.
    rewrite Hk in Hl'. injection Hl' as ->. exact H. }
  assert (Hkeys : forall k, In k (dict_keys v0) <-> In k (map island_pos islands)).
  { intros k. unfold v0. apply dict_of_keys. }
  destruct (bfs_ok nb (bfs_fuel solution) v0 [island_pos first])
    as [v' Hrun].
  { intros q [<-|[]]. apply Hkeys. now apply in_map. }
  { intros k l q Hk Hq. apply Hkeys. apply (Hadj _ _ Hk) in Hq.
    destruct Hq as (b & Hb & [[_ <-]|[<- _]]); now apply Hends. }
  { intros k Hk. rewrite Knb. unfold d0. rewrite dict_of_keys. now apply Hkeys. }
  { pose proof (pending_le_total nb v0). rewrite Tnb in H.
    rewrite (dict_total_empty_lists d0) in H.
    - unfold bfs_fuel. simpl length. lia.
    - intros k v Hin. apply dict_In_get in Hin; [|apply dict_of_NoDup].
      now apply dict_of_const_get in Hin. }
  rewrite Hrun. cbn [bind]. eexists; split; [reflexivity|].
  assert (Hvis : forall p, dict_get v' p = Some true
                           <-> reach solution (island_pos first) p).
  { apply (bfs_sound solution nb (island_pos first) Hadj _ _ _ _ Hrun).
    constructor.
    - intros p Hp. apply dict_of_const_get in Hp. discriminate.
    - intros q [<-|[]]. constructor.
    - intros p r Hp. apply dict_of_const_get in Hp. discriminate.
    - right. now left. }
  assert (Kv' : dict_keys v' = dict_keys v0) by (eapply bfs_keys; eauto).
  assert (Hnd : NoDup (dict_keys v')) by (rewrite Kv'; apply dict_of_NoDup).
  assert (Hfail : existsb (fun kv => negb (snd kv)) v' = true <->
                  exists i, In i islands
                            /\ ~ reach solution (island_pos first) (island_pos i)).
  { rewrite existsb_unvisited. split.
    - intros [k Hin].
      assert (Hk : In k (dict_keys v')).
      { change k with (fst (k, false)). now apply in_map. }
      rewrite Kv' in Hk. apply Hkeys in Hk. apply in_map_iff in Hk.
      destruct Hk as (i & <- & Hi). exists i. split; auto.
      apply dict_In_get in Hin; auto. rewrite <- Hvis. congruence.
    - intros (i & Hi & Hr).
      assert (Hk : In (island_pos i) (dict_keys v')).
      { rewrite Kv'. apply Hkeys. now apply in_map. }
      apply dict_get_In_keys in Hk. destruct Hk as [[|] Hv].
      + exfalso. apply Hr. now apply Hvis.
      + exists (island_pos i). now apply dict_get_Some_In. }
  split.
  - rewrite negb_true_iff. split.
    + intros Hno i Hi.
      assert (Hk : In (island_pos i) (dict_keys v')).
      { rewrite Kv'. apply Hkeys. now apply in_map. }
      apply dict_get_In_keys in Hk. destruct Hk as [[|] Hv]; [now apply Hvis|].
      exfalso. apply dict_get_Some_In in Hv.
      assert (existsb (fun kv => negb (snd kv)) v' = true)
        by (apply existsb_unvisited; eauto).
      congruence.
    + intros Hall. destruct (existsb _ v') eqn:E; auto.
      destruct (proj1 Hfail eq_refl) as (i & Hi & Hr). exfalso. auto.
  - now rewrite negb_false_iff.
Qed.

(** ** The verifier, both phases *)



(** Without islands there is no first island to start from. *)
Example check_no_islands :
  check_solution (Puzzle.mk 4 4 [] (Some [])) = Raise IndexError.
Proof. reflexivity. Qed.

Example degree_failure_comes_first :
  check_solution mismatched_and_disconnected = degree_failure
  /\ fully_connected (Puzzle.islands mismatched_and_disconnected)
       [Bridge.mk (Island.mk 0 0 2) (Island.mk 3 0 2) false;
        Bridge.mk (Island.mk 0 3 1) (Island.mk 3 3 1) false] = Ok false.
Proof. split; reflexivity. Qed.

(** C3: for a puzzle whose bridges all end on islands of the puzzle and whose
    degree check passes, [check_solution] returns the failure "Islands are
    not fully connected" if and only if some island cannot be reached from
    the first island of the list along the bridges, taken as undirected edges
    between positions, which is what the breadth-first traversal leaves
    unvisited; otherwise it returns the pass result. *)
Theorem connectivity_check_iff_unreached :
  forall w h islands solution first,
    endpoints_are_islands islands solution ->
    degrees_match islands solution = Ok true ->
    hd_error islands = Some first ->
    let r := check_solution (Puzzle.mk w h islands (Some solution)) in
    (r = connectivity_failure <->
     exists i, In i islands /\ ~ reach solution (island_pos first) (island_pos i))
    /\ (r = pass <->
        forall i, In i islands -> reach solution (island_pos first) (island_pos i))
    /\ (r = connectivity_failure \/ r = pass).
Proof.
  intros w h islands solution first Hends Hdeg Hfirst r.
  destruct (fully_connected_spec islands solution first Hends Hfirst)
    as (ok & Hok & Htrue & Hfalse).
  assert (Hr : r = if ok then pass else connectivity_failure).
  { unfold r, check_solution; simpl. rewrite Hdeg; simpl. rewrite Hok; simpl.
    now destruct ok. }
  rewrite Hr, <- Htrue, <- Hfalse. destruct ok; repeat split; auto; discriminate.
Qed.

(** The theorem at the fourth puzzle of puzzle.py: two bridges on opposite
    sides of the board. *)
Lemma connectivity_check_iff_unreached_witness :
  check_solution test_solved_puzzle_4 = connectivity_failure
  <-> exists i, In i [Island.mk 0 0 2; Island.mk 0 3 1; Island.mk 3 0 2; Island.mk 3 3 1]
                /\ ~ reach [Bridge.mk (Island.mk 0 0 2) (Island.mk 3 0 2) false;
                            Bridge.mk (Island.mk 0 3 1) (Island.mk 3 3 1) true]
                           (island_pos (Island.mk 0 0 2)) (island_pos i).
Proof.
  apply (connectivity_check_iff_unreached 4 4
           [Island.mk 0 0 2; Island.mk 0 3 1; Island.mk 3 0 2; Island.mk 3 3 1]
           [Bridge.mk (Island.mk 0 0 2) (Island.mk 3 0 2) false;
            Bridge.mk (Island.mk 0 3 1) (Island.mk 3 3 1) true]
           (Island.mk 0 0 2)).
  - intros b [<-|[<-|[]]]; simpl; auto 6.
  - reflexivity.
  - reflexivity.
Defined.

(** ** Python indexing *)

Lemma py_norm_in_range (len i : Z) :
  0 <= i < len -> py_norm len i = Some (Z.to_nat i).
Proof.
  intros H. unfold py_norm.
  replace ((0 <=? i) && (i <? len)) with true; auto.
  symmetry. apply andb_true_iff. split; [apply Z.leb_le | apply Z.ltb_lt]; lia.
Qed.

Lemma py_norm_last (len : Z) : 0 < len -> py_norm len (-1) = Some (Z.to_nat (len - 1)).
Proof.
  intros H. unfold py_norm.
  change ((0 <=? -1) && (-1 <? len)) with false. cbv iota.
  replace ((- len <=? -1) && (-1 <? 0)) with true.
  - reflexivity.
  - symmetry. apply andb_true_iff. split; auto. apply Z.leb_le. lia.
Qed.

Lemma py_index_nth {A : Type} (l : list A) (i : Z) :
  0 <= i < Z.of_nat (length l) ->
  exists a, nth_error l (Z.to_nat i) = Some a /\ py_index l i = Ok a.
Proof.
  intros H. unfold py_index. rewrite py_norm_in_range by auto.
  destruct (nth_error l (Z.to_nat i)) as [a|] eqn:E; eauto.
  apply nth_error_None in E. lia.
Qed.

Lemma py_index_last {A : Type} (l : list A) :
  l <> [] -> py_index l (-1) = py_index l (Z.of_nat (length l) - 1).
Proof.
  intros H. assert (0 < Z.of_nat (length l)) by (destruct l; simpl; [tauto|lia]).
  unfold py_index. rewrite py_norm_last, py_norm_in_range by lia. reflexivity.
Qed.

Lemma list_update_length {A : Type} (l : list A) n f :
  length (list_update l n f) = length l.
Proof.
  revert n. induction l as [|a l IH]; intros [|n]; simpl; auto.
Qed.

Lemma list_update_nth_same {A : Type} (l : list A) n f a :
  nth_error l n = Some a -> nth_error (list_update l n f) n = Some (f a).
Proof.
  revert n. induction l as [|a' l IH]; intros [|n]; simpl; try discriminate; auto.
  now intros [= ->].
Qed.

Lemma list_update_nth_other {A : Type} (l : list A) n m f :
  n <> m -> nth_error (list_update l n f) m = nth_error l m.
Proof.
  revert n m. induction l as [|a l IH]; intros [|n] [|m] H; simpl; auto; try tauto.
Qed.

Lemma py_update_nth {A : Type} (l : list A) (i : Z) f :
  0 <= i < Z.of_nat (length l) ->
  py_update l i f = Ok (list_update l (Z.to_nat i) f).
Proof.
  intros H. unfold py_update. rewrite py_norm_in_range by auto.
  destruct (nth_error l (Z.to_nat i)) as [a|] eqn:E; eauto.
  apply nth_error_None in E. lia.
Qed.

(** ** The board: reading and changing nodes *)

Lemma within_bounds_iff g x y :
  within_bounds g x y = true <-> in_bounds g (x, y).
Proof.
  unfold within_bounds, in_bounds; simpl.
  rewrite !andb_true_iff, !Z.geb_le, !Z.ltb_lt. tauto.
Qed.

Lemma within_bounds_false g x y :
  within_bounds g x y = false <-> ~ in_bounds g (x, y).
Proof.
  rewrite <- within_bounds_iff. destruct (within_bounds g x y); split; congruence.
Qed.

Lemma cell_nth g x y :
  grid_wf g -> in_bounds g (x, y) ->
  exists column n,
    nth_error (Grid.grid g) (Z.to_nat x) = Some column
    /\ nth_error column (Z.to_nat y) = Some n
    /\ cell g x y = Ok n /\ Node.x n = x /\ Node.y n = y.
Proof.
  intros [Hlen Hcols] [Hx Hy]; simpl in *. unfold cell.
  destruct (py_index_nth (Grid.grid g) x) as (column & Hc & ->); [lia|].
  destruct (Hcols _ _ Hc) as [Hclen Hnodes]. simpl.
  destruct (py_index_nth column y) as (n & Hn & ->); [lia|].
  destruct (Hnodes _ _ Hn) as [Hnx Hny].
  exists column, n. repeat split; auto; lia.
Qed.

Lemma cell_ok g x y :
  grid_wf g -> in_bounds g (x, y) ->
  exists n, cell g x y = Ok n /\ Node.x n = x /\ Node.y n = y.
Proof.
  intros Hwf Hb. destruct (cell_nth g x y Hwf Hb) as (c & n & _ & _ & H). eauto.
Qed.

Lemma update_cell_ok g x y f n :
  grid_wf g -> in_bounds g (x, y) -> keeps_position f ->
  cell g x y = Ok n ->
  exists g',
    update_cell g x y f = Ok g'
    /\ grid_wf g'
    /\ Grid.width g' = Grid.width g /\ Grid.height g' = Grid.height g
    /\ cell g' x y = Ok (f n)
    /\ forall x' y', in_bounds g (x', y') -> (x', y') <> (x, y) ->
         cell g' x' y' = cell g x' y'.
Proof.
  intros Hwf Hb Hf Hn.
  destruct (cell_nth g x y Hwf Hb) as (column & n' & Hc & Hn' & Hcell & Hnx & Hny).
  assert (n' = n) by congruence. subst n'. clear Hcell.
  destruct Hwf as [Hlen Hcols]. destruct Hb as [Hx Hy]; simpl in Hx, Hy.
  destruct (Hcols _ _ Hc) as [Hclen Hnodes].
  unfold update_cell.
  destruct (py_index_nth (Grid.grid g) x) as (column' & Hc' & ->); [lia|].
  assert (column' = column) by congruence. subst column'. simpl.
  rewrite py_update_nth by lia. simpl. rewrite py_update_nth by lia. simpl.
  set (column' := list_update column (Z.to_nat y) f).
  set (grid' := list_update (Grid.grid g) (Z.to_nat x) (fun _ => column')).
  assert (Hgrid' : forall i, nth_error grid' i
            = if Nat.eqb (Z.to_nat x) i then Some column' else nth_error (Grid.grid g) i).
  { intros i. unfold grid'. destruct (Nat.eqb_spec (Z.to_nat x) i) as [<-|Hne].
    - now rewrite (list_update_nth_same _ _ _ column Hc).
    - now apply list_update_nth_other. }
  assert (Hcol' : forall j, nth_error column' j
            = if Nat.eqb (Z.to_nat y) j then Some (f n) else nth_error column j).
  { intros j. unfold column'. destruct (Nat.eqb_spec (Z.to_nat y) j) as [<-|Hne].
    - now rewrite (list_update_nth_same _ _ _ n Hn').
    - now apply list_update_nth_other. }
  assert (Hwf' : grid_wf (Grid.mk (Grid.width g) (Grid.height g) grid')).
  { split; simpl.
    - unfold grid'. now rewrite list_update_length.
    - intros i c Hi. rewrite Hgrid' in Hi.
      destruct (Nat.eqb_spec (Z.to_nat x) i) as [<-|Hne].
      + injection Hi as <-. split.
        * unfold column'. now rewrite list_update_length.
        * intros j m Hj. rewrite Hcol' in Hj.
          destruct (Nat.eqb_spec (Z.to_nat y) j) as [<-|Hne].
          -- injection Hj as <-. destruct (Hf n) as [-> ->]. now apply Hnodes.
          -- now apply Hnodes.
      + now apply Hcols. }
  eexists. split; [reflexivity|]. split; [exact Hwf'|]. repeat split.
  - destruct (cell_nth _ x y Hwf') as (c1 & n1 & Hc1 & Hn1 & -> & _);
      [split; simpl; lia|].
    simpl in Hc1. rewrite Hgrid', Nat.eqb_refl in Hc1. injection Hc1 as <-.
    rewrite Hcol', Nat.eqb_refl in Hn1. congruence.
  - intros x' y' Hb' Hne.
    destruct (cell_nth _ x' y' Hwf') as (c1 & n1 & Hc1 & Hn1 & -> & _);
      [destruct Hb'; split; simpl in *; lia|].
    destruct (cell_nth g x' y' (conj Hlen Hcols) Hb')
      as (c2 & n2 & Hc2 & Hn2 & -> & _).
    simpl in Hc1. rewrite Hgrid' in Hc1. destruct Hb' as [Hx' Hy']; simpl in *.
    destruct (Nat.eqb_spec (Z.to_nat x) (Z.to_nat x')) as [Ex|Ex].
    + injection Hc1 as <-. rewrite Hcol' in Hn1.
      assert (x' = x) by lia. subst x'.
      destruct (Nat.eqb_spec (Z.to_nat y) (Z.to_nat y')) as [Ey|Ey].
      * exfalso. apply Hne. f_equal. lia.
      * congruence.
    + congruence.
Qed.

Lemma keeps_position_to_island d : keeps_position (to_island d).
Proof. intros n. split; reflexivity. Qed.

Lemma keeps_position_to_bridge : keeps_position to_bridge.
Proof. intros n. split; reflexivity. Qed.

Lemma keeps_position_add_degree d : keeps_position (add_degree d).
Proof. intros n. split; reflexivity. Qed.

Lemma range_length a b : length (range a b) = Z.to_nat (b - a).
Proof. unfold range. now rewrite length_map, length_seq. Qed.

Lemma range_nth a b k :
  (k < Z.to_nat (b - a))%nat -> nth_error (range a b) k = Some (a + Z.of_nat k).
Proof.
  intros H. unfold range. rewrite nth_error_map, nth_error_seq.
  destruct (Nat.ltb_spec k (Z.to_nat (b - a))); [reflexivity | lia].
Qed.

Lemma range_In a b z : In z (range a b) <-> a <= z < b.
Proof.
  unfold range. rewrite in_map_iff. split.
  - intros (k & <- & Hk). apply in_seq in Hk. lia.
  - intros H. exists (Z.to_nat (z - a)). split; [lia|]. apply in_seq. lia.
Qed.

Lemma Grid_init_wf w h : grid_wf (Grid_init w h).
Proof.
  split; simpl.
  - now rewrite length_map, range_length, Z.sub_0_r.
  - intros i column Hi. rewrite nth_error_map in Hi.
    destruct (nth_error (range 0 w) i) as [x|] eqn:Ex; [|discriminate].
    injection Hi as <-. split.
    + now rewrite length_map, range_length, Z.sub_0_r.
    + intros j n Hj. rewrite nth_error_map in Hj.
      destruct (nth_error (range 0 h) j) as [y|] eqn:Ey; [|discriminate].
      injection Hj as <-. simpl.
      assert (Hi' : (i < length (range 0 w))%nat) by (apply nth_error_Some; congruence).
      assert (Hj' : (j < length (range 0 h))%nat) by (apply nth_error_Some; congruence).
      rewrite range_length in Hi', Hj'.
      rewrite range_nth in Ex, Ey by auto.
      injection Ex as <-. injection Ey as <-. split; lia.
Qed.

Lemma Grid_init_cell w h x y :
  0 <= x < w -> 0 <= y < h ->
  cell (Grid_init w h) x y = Ok (Node.mk x y NodeType.empty (-1)).
Proof.
  intros Hx Hy.
  destruct (cell_nth (Grid_init w h) x y (Grid_init_wf w h)) as (c & n & Hc & Hn & -> & _).
  { split; simpl; lia. }
  simpl in Hc. rewrite nth_error_map, range_nth in Hc by lia. injection Hc as <-.
  rewrite nth_error_map, range_nth in Hn by lia. injection Hn as <-.
  f_equal. f_equal; lia.
Qed.

(** ** Loops that append *)

Lemma for_each_app {A B : Type} (l : list A) (body : A -> list B -> result (list B))
  (P : A -> B -> Prop) :
  (forall a acc, In a l ->
     exists ext, body a acc = Ok (acc ++ ext) /\ forall b, In b ext <-> P a b) ->
  forall acc,
    exists ext, for_each l body acc = Ok (acc ++ ext)
                /\ forall b, In b ext <-> exists a, In a l /\ P a b.
Proof.
  induction l as [|a l IH]; intros Hbody acc; simpl.
  - exists []. rewrite app_nil_r. split; auto. intros b. split; [contradiction|].
    intros (a & [] & _).
  - destruct (Hbody a acc (or_introl eq_refl)) as (e1 & -> & H1). simpl.
    destruct (IH (fun a' acc' Hin => Hbody a' acc' (or_intror Hin)) (acc ++ e1))
      as (e2 & -> & H2).
    exists (e1 ++ e2). split; [now rewrite app_assoc|].
    intros b. rewrite in_app_iff, H1, H2. split.
    + intros [H|(a' & Ha' & H)]; eauto.
    + intros (a' & [<-|Ha'] & H); eauto.
Qed.

Lemma combine_seq_In {A : Type} (l : list A) (i : nat) (a : A) :
  forall s, In (i, a) (combine (seq s (length l)) l)
            <-> (s <= i)%nat /\ nth_error l (i - s) = Some a.
Proof.
  induction l as [|a' l IH]; intros s; simpl.
  - split; [contradiction|]. intros [_ H]. destruct (i - s)%nat; discriminate.
  - rewrite IH. split.
    + intros [[= <- <-]|[Hs H]].
      * rewrite Nat.sub_diag. auto.
      * split; [lia|]. replace (i - s)%nat with (S (i - S s)) by lia. exact H.
    + intros [Hs H]. destruct (i - s)%nat as [|k] eqn:E.
      * left. injection H as <-. f_equal. lia.
      * right. split; [lia|]. replace (i - S s)%nat with k by lia. exact H.
Qed.

Lemma enumerate_In {A : Type} (l : list A) (i : nat) (a : A) :
  In (i, a) (enumerate l) <-> nth_error l i = Some a.
Proof.
  unfold enumerate. rewrite combine_seq_In, Nat.sub_0_r.
  split; [tauto | split; [lia | auto]].
Qed.

(** ** puzzle.py: [Puzzle.to_grid] *)

Lemma in_bounds_same_size g g' p :
  Grid.width g' = Grid.width g -> Grid.height g' = Grid.height g ->
  in_bounds g' p <-> in_bounds g p.
Proof. unfold in_bounds. intros -> ->. tauto. Qed.

Lemma to_grid_loop (islands : list Island.t) :
  forall g done,
    grid_wf g ->
    (forall i, In i islands -> in_bounds g (island_pos i)) ->
    (forall x y, in_bounds g (x, y) ->
       exists n, cell g x y = Ok n
                 /\ (Node.type n = NodeType.island <-> In (x, y) done)) ->
    exists g',
      for_each islands (fun island puzzle_grid =>
        update_cell puzzle_grid (Island.x island) (Island.y island)
          (to_island (Island.degree island))) g = Ok g'
      /\ grid_wf g'
      /\ Grid.width g' = Grid.width g /\ Grid.height g' = Grid.height g
      /\ forall x y, in_bounds g (x, y) ->
           exists n, cell g' x y = Ok n
                     /\ (Node.type n = NodeType.island
                         <-> In (x, y) (done ++ map island_pos islands)).
Proof.
  induction islands as [|a islands IH]; intros g done Hwf Hin Hcells; simpl.
  - exists g. split; [reflexivity|]. split; [exact Hwf|].
    split; [reflexivity|]. split; [reflexivity|].
    intros x y Hb. rewrite app_nil_r. auto.
  - assert (Ha : in_bounds g (island_pos a)) by (apply Hin; now left).
    destruct (cell_ok g _ _ Hwf Ha) as (n & Hn & _).
    destruct (update_cell_ok g _ _ (to_island (Island.degree a)) n Hwf Ha
                (keeps_position_to_island _) Hn)
      as (g1 & -> & Hwf1 & Hw1 & Hh1 & Hsame & Hother).
    simpl.
    destruct (IH g1 (done ++ [island_pos a])) as (g' & Hg' & Hwf' & Hw' & Hh' & Hc'); auto.
    + intros i Hi. apply (in_bounds_same_size g g1); auto. apply Hin. now right.
    + intros x y Hb. apply (in_bounds_same_size g g1) in Hb; auto.
      destruct (pos_eq_dec (x, y) (island_pos a)) as [E|E].
      * injection E as -> ->. eexists; split; [exact Hsame|]. simpl.
        split; auto. intros _. apply in_or_app. right. now left.
      * rewrite (Hother _ _ Hb E). destruct (Hcells _ _ Hb) as (m & Hm & Him).
        exists m. split; auto. rewrite Him, in_app_iff. simpl.
        split; auto. intros [|[H|[]]]; auto. congruence.
    + exists g'. split; [exact Hg'|]. split; auto. split; [congruence|].
      split; [congruence|]. intros x y Hb.
      destruct (Hc' x y) as (m & Hm & Him).
      { apply (in_bounds_same_size g g1); auto. }
      exists m. split; auto. rewrite Him, <- app_assoc. reflexivity.
Qed.

(** The grid of a puzzle with its islands on the board: an island node
    exactly where the puzzle has an island. *)
Lemma to_grid_spec (p : Puzzle.t) :
  islands_in_bounds p ->
  exists g,
    to_grid p = Ok g
    /\ grid_wf g
    /\ Grid.width g = Puzzle.width p /\ Grid.height g = Puzzle.height p
    /\ forall x y, in_bounds g (x, y) ->
         exists n, cell g x y = Ok n
                   /\ (Node.type n = NodeType.island
                       <-> In (x, y) (map island_pos (Puzzle.islands p))).
Proof.
  intros Hin. unfold to_grid.
  destruct (to_grid_loop (Puzzle.islands p)
              (Grid_init (Puzzle.width p) (Puzzle.height p)) [])
    as (g & Hg & Hwf & Hw & Hh & Hc).
  - apply Grid_init_wf.
  - intros i Hi. apply Hin in Hi. exact Hi.
  - intros x y [Hx Hy]. simpl in Hx, Hy. rewrite Grid_init_cell by auto.
    eexists; split; [reflexivity|]. simpl. split; [discriminate|contradiction].
  - exists g. split; [exact Hg|]. split; auto. split; auto. split; auto.
    intros x y Hb. apply Hc. apply (in_bounds_same_size _ g); auto.
Qed.

(** ** solver.py: [get_possible_bridges] *)

Lemma no_island_on_spec g (cells : list (Z * Z)) :
  grid_wf g ->
  (forall c, In c cells -> in_bounds g c) ->
  exists ok,
    no_island_on g cells = Ok ok
    /\ (ok = true <-> forall c, In c cells -> ~ has_type g c NodeType.island).
Proof.
  intros Hwf. induction cells as [|c cells IH]; intros Hb; simpl.
  - exists true. split; auto. split; auto.
  - destruct (cell_ok g (fst c) (snd c) Hwf) as (n & Hn & _).
    { destruct c. apply Hb. now left. }
    rewrite Hn. simpl.
    destruct (NodeType.eqb (Node.type n) NodeType.island) eqn:E.
    + exists false. split; auto. split; [discriminate|].
      intros H. exfalso. apply (H c (or_introl eq_refl)).
      exists n. split; auto. destruct (Node.type n); auto; discriminate.
    + destruct IH as (ok & Hok & Hiff); [intros; apply Hb; now right|].
      exists ok. split; auto. rewrite Hiff. split.
      * intros H c' [<-|Hc']; auto.
        intros (n' & Hn' & Ht). rewrite Hn in Hn'. injection Hn' as <-.
        rewrite Ht in E. discriminate.
      * intros H c' Hc'. apply H. now right.
Qed.

Section Candidates.
Variables (p : Puzzle.t) (g : Grid.t).
Hypothesis p_in_bounds : islands_in_bounds p.
Hypothesis g_wf : grid_wf g.
Hypothesis g_width : Grid.width g = Puzzle.width p.
Hypothesis g_height : Grid.height g = Puzzle.height p.
Hypothesis g_islands :
  forall x y, in_bounds g (x, y) ->
    exists n, cell g x y = Ok n
              /\ (Node.type n = NodeType.island
                  <-> In (x, y) (map island_pos (Puzzle.islands p))).

Lemma island_cell c :
  in_bounds g c ->
  has_type g c NodeType.island <-> In c (map island_pos (Puzzle.islands p)).
Proof.
  destruct c as [x y]. intros Hb. destruct (g_islands x y Hb) as (n & Hn & Hiff).
  unfold has_type; simpl. rewrite <- Hiff. split.
  - intros (m & Hm & Ht). congruence.
  - eauto.
Qed.

Lemma island_in_bounds a : In a (Puzzle.islands p) -> in_bounds g (island_pos a).
Proof.
  intros Ha. apply p_in_bounds in Ha. unfold in_bounds; simpl.
  now rewrite g_width, g_height.
Qed.

Lemma clear_vertically a b :
  In a (Puzzle.islands p) -> In b (Puzzle.islands p) ->
  exists ok,
    no_island_on g
      (map (fun y => (Island.x a, y))
         (range (Z.min (Island.y a) (Island.y b) + 1) (Z.max (Island.y a) (Island.y b))))
    = Ok ok
    /\ (ok = true <-> ~ island_between_vertically (Puzzle.islands p) a b).
Proof.
  intros Ha Hb.
  pose proof (island_in_bounds a Ha) as [Hax Hay].
  pose proof (island_in_bounds b Hb) as [Hbx Hby]. simpl in *.
  assert (Hcells : forall c,
            In c (map (fun y => (Island.x a, y))
                    (range (Z.min (Island.y a) (Island.y b) + 1)
                           (Z.max (Island.y a) (Island.y b)))) ->
            in_bounds g c).
  { intros c Hc. apply in_map_iff in Hc. destruct Hc as (y & <- & Hy).
    apply range_In in Hy. split; simpl; lia. }
  destruct (no_island_on_spec g _ g_wf Hcells) as (ok & Hok & Hiff).
  exists ok. split; auto. rewrite Hiff. split.
  - intros H (k & Hk & Hkx & Hky).
    apply (H (Island.x a, Island.y k)).
    + apply in_map_iff. exists (Island.y k). split; auto. apply range_In. lia.
    + apply island_cell.
      * split; simpl; [lia|]. pose proof (island_in_bounds k Hk) as [_ H']. exact H'.
      * apply in_map_iff. exists k. split; auto. unfold island_pos. now rewrite Hkx.
  - intros H c Hc Hi. apply H. pose proof (Hcells c Hc) as Hcb.
    apply island_cell in Hi; auto.
    apply in_map_iff in Hc. destruct Hc as (y & <- & Hy). apply range_In in Hy.
    apply in_map_iff in Hi. destruct Hi as (k & Hkp & Hk).
    injection Hkp as Hkx Hky. exists k. repeat split; auto; lia.
Qed.

Lemma clear_horizontally a b :
  In a (Puzzle.islands p) -> In b (Puzzle.islands p) ->
  exists ok,
    no_island_on g
      (map (fun x => (x, Island.y a))
         (range (Z.min (Island.x a) (Island.x b) + 1) (Z.max (Island.x a) (Island.x b))))
    = Ok ok
    /\ (ok = true <-> ~ island_between_horizontally (Puzzle.islands p) a b).
Proof.
  intros Ha Hb.
  pose proof (island_in_bounds a Ha) as [Hax Hay].
  pose proof (island_in_bounds b Hb) as [Hbx Hby]. simpl in *.
  assert (Hcells : forall c,
            In c (map (fun x => (x, Island.y a))
                    (range (Z.min (Island.x a) (Island.x b) + 1)
                           (Z.max (Island.x a) (Island.x b)))) ->
            in_bounds g c).
  { intros c Hc. apply in_map_iff in Hc. destruct Hc as (x & <- & Hx).
    apply range_In in Hx. split; simpl; lia. }
  destruct (no_island_on_spec g _ g_wf Hcells) as (ok & Hok & Hiff).
  exists ok. split; auto. rewrite Hiff. split.
  - intros H (k & Hk & Hky & Hkx).
    apply (H (Island.x k, Island.y a)).
    + apply in_map_iff. exists (Island.x k). split; auto. apply range_In. lia.
    + apply island_cell.
      * split; simpl; [|lia]. pose proof (island_in_bounds k Hk) as [H' _]. exact H'.
      * apply in_map_iff. exists k. split; auto. unfold island_pos. now rewrite Hky.
  - intros H c Hc Hi. apply H. pose proof (Hcells c Hc) as Hcb.
    apply island_cell in Hi; auto.
    apply in_map_iff in Hc. destruct Hc as (x & <- & Hx). apply range_In in Hx.
    apply in_map_iff in Hi. destruct Hi as (k & Hkp & Hk).
    injection Hkp as Hkx Hky. exists k. repeat split; auto; lia.
Qed.
End Candidates.

Lemma possible_bridge_spec p g i j a b bridges :
  islands_in_bounds p -> grid_wf g ->
  Grid.width g = Puzzle.width p -> Grid.height g = Puzzle.height p ->
  (forall x y, in_bounds g (x, y) ->
     exists n, cell g x y = Ok n
               /\ (Node.type n = NodeType.island
                   <-> In (x, y) (map island_pos (Puzzle.islands p)))) ->
  nth_error (Puzzle.islands p) i = Some a ->
  nth_error (Puzzle.islands p) j = Some b ->
  exists ext,
    possible_bridge g i j a b bridges = Ok (bridges ++ ext)
    /\ forall c, In c ext <-> c = (i, j) /\ is_candidate (Puzzle.islands p) i j.
Proof.
  intros Hin Hwf Hw Hh Hcells Hi Hj.
  assert (Ha : In a (Puzzle.islands p)) by (eapply nth_error_In; eauto).
  assert (Hb : In b (Puzzle.islands p)) by (eapply nth_error_In; eauto).
  assert (Hcand : is_candidate (Puzzle.islands p) i j <->
            (i < j)%nat
            /\ ((Island.x a = Island.x b
                 /\ ~ island_between_vertically (Puzzle.islands p) a b)
                \/ (Island.y a = Island.y b
                    /\ ~ island_between_horizontally (Puzzle.islands p) a b))).
  { unfold is_candidate. split.
    - intros (Hlt & a' & b' & Ha' & Hb' & H).
      assert (a' = a) by congruence. assert (b' = b) by congruence. subst. auto.
    - intros [Hlt H]. split; auto. exists a, b. auto. }
  assert (Hnone : forall (P : Prop), ~ P ->
            exists ext : list (nat * nat), Ok bridges = Ok (bridges ++ ext)
              /\ forall c, In c ext <-> c = (i, j) /\ P).
  { intros P HP. exists []. rewrite app_nil_r. split; auto.
    intros c. split; [contradiction|tauto]. }
  assert (Hsome : forall (P : Prop) (ok : bool), (ok = true <-> P) ->
            exists ext : list (nat * nat),
              Ok (if ok then bridges ++ [(i, j)] else bridges) = Ok (bridges ++ ext)
              /\ forall c, In c ext <-> c = (i, j) /\ P).
  { intros P [|] Hok.
    - exists [(i, j)]. split; auto. intros c; simpl. split.
      + intros [<-|[]]. split; auto. now apply Hok.
      + intros [-> _]. auto.
    - apply Hnone. intros HP. apply Hok in HP. discriminate. }
  unfold possible_bridge.
  destruct (Nat.leb_spec j i) as [Hle|Hlt].
  { apply Hnone. rewrite Hcand. lia. }
  destruct (Z.eqb_spec (Island.x a) (Island.x b)) as [Ex|Ex].
  { destruct (clear_vertically p g Hin Hwf Hw Hh Hcells a b Ha Hb) as (ok & -> & Hok).
    simpl. apply Hsome. rewrite Hok, Hcand. split.
    - intros H. split; auto.
    - intros [_ [[_ H]|[Ey _]]]; [exact H|].
      intros (k & _ & _ & Hk). lia. }
  destruct (Z.eqb_spec (Island.y a) (Island.y b)) as [Ey|Ey].
  { destruct (clear_horizontally p g Hin Hwf Hw Hh Hcells a b Ha Hb) as (ok & -> & Hok).
    simpl. apply Hsome. rewrite Hok, Hcand. split.
    - intros H. split; auto.
    - intros [_ [[Ex' _]|[_ H]]]; [contradiction | exact H]. }
  apply Hnone. rewrite Hcand. tauto.
Qed.

Lemma possible_bridges_exact :
  forall p : Puzzle.t,
    islands_in_bounds p ->
    exists g bridges,
      to_grid p = Ok g
      /\ get_possible_bridges p g = Ok bridges
      /\ (forall i j, In (i, j) bridges <-> is_candidate (Puzzle.islands p) i j)
      /\ (forall s, to_grid (with_solution p s) = Ok g
                    /\ get_possible_bridges (with_solution p s) g = Ok bridges).
Proof.
  intros p Hin.
  destruct (to_grid_spec p Hin) as (g & Hg & Hwf & Hw & Hh & Hcells).
  unfold get_possible_bridges.
  destruct (for_each_app (enumerate (Puzzle.islands p))
              (fun '(i, island_i) bridges =>
                 for_each (enumerate (Puzzle.islands p))
                   (fun '(j, island_j) bridges =>
                      possible_bridge g i j island_i island_j bridges) bridges)
              (fun ia c => exists j, c = (fst ia, j)
                                     /\ is_candidate (Puzzle.islands p) (fst ia) j)) with (acc := @nil (nat * nat))
    as (ext & Hext & Hmem).
  { intros [i a] acc Hi. apply enumerate_In in Hi.
    destruct (for_each_app (enumerate (Puzzle.islands p))
                (fun '(j, island_j) bridges =>
                   possible_bridge g i j a island_j bridges)
                (fun jb c => c = (i, fst jb)
                             /\ is_candidate (Puzzle.islands p) i (fst jb))) with (acc := acc)
      as (ext & Hext & Hmem).
    { intros [j b] acc' Hj. apply enumerate_In in Hj.
      apply (possible_bridge_spec p g i j a b acc'); auto. }
    exists ext. split; [exact Hext|]. intros c. rewrite Hmem. simpl. split.
    - intros ([j b] & _ & H). eauto.
    - intros (j & -> & Hc). pose proof Hc as (_ & a' & b & _ & Hb & _).
      exists (j, b). split; auto. now apply enumerate_In. }
  exists g, ext. split; [exact Hg|]. split; [exact Hext|]. split.
  - intros i j. rewrite Hmem. split.
    + intros ([i' a] & _ & j' & [= -> ->] & H). exact H.
    + intros Hc. pose proof Hc as (_ & a & b & Ha & _).
      exists (i, a). split; [now apply enumerate_In|]. exists j. auto.
  - intros s. split; [exact Hg | exact Hext].
Qed.

(** C4: for a puzzle whose islands have distinct positions on its board,
    [get_possible_bridges] on the grid of the puzzle returns exactly
    the index pairs (i, j) with i < j whose islands share an x or a y
    coordinate with no island of the puzzle strictly between them on that
    line; the test reads the positions of the islands only, so any solution
    attached to the puzzle leaves the result as it is. *)
Theorem get_possible_bridges_spec :
  forall p : Puzzle.t,
    NoDup (map island_pos (Puzzle.islands p)) ->
    islands_in_bounds p ->
    exists g bridges,
      to_grid p = Ok g
      /\ get_possible_bridges p g = Ok bridges
      /\ (forall i j, In (i, j) bridges <-> is_candidate (Puzzle.islands p) i j)
      /\ (forall s, to_grid (with_solution p s) = Ok g
                    /\ get_possible_bridges (with_solution p s) g = Ok bridges).
Proof.
  intros p _ Hin. now apply possible_bridges_exact.
Qed.

(** The theorem at the islands of the first puzzle of puzzle.py. *)
Lemma get_possible_bridges_spec_witness :
  exists g bridges,
    to_grid test_solved_puzzle_1 = Ok g
    /\ get_possible_bridges test_solved_puzzle_1 g = Ok bridges
    /\ (forall i j, In (i, j) bridges
                    <-> is_candidate (Puzzle.islands test_solved_puzzle_1) i j)
    /\ (forall s, to_grid (with_solution test_solved_puzzle_1 s) = Ok g
                  /\ get_possible_bridges (with_solution test_solved_puzzle_1 s) g
                     = Ok bridges).
Proof.
  apply (get_possible_bridges_spec test_solved_puzzle_1).
  - repeat constructor; simpl; intuition discriminate.
  - intros i [<-|[<-|[<-|[]]]]; simpl; lia.
Defined.

Example possible_bridges_test_1 :
  (g <- to_grid test_solved_puzzle_1 ;; get_possible_bridges test_solved_puzzle_1 g)
  = Ok [(0, 1); (0, 2)]%nat.
Proof. reflexivity. Qed.

(** ** solver.py: [get_crossing_bridges] *)

Lemma island_at_nth p i a :
  nth_error (Puzzle.islands p) i = Some a -> island_at p i = Ok a.
Proof.
  intros H. unfold island_at.
  destruct (py_index_nth (Puzzle.islands p) (Z.of_nat i)) as (a' & Ha' & ->).
  - assert (i < length (Puzzle.islands p))%nat by (apply nth_error_Some; congruence). lia.
  - rewrite Nat2Z.id in Ha'. congruence.
Qed.

Lemma crossing_pair_spec p m n c1 c2 acc :
  is_candidate (Puzzle.islands p) (fst c1) (snd c1) ->
  is_candidate (Puzzle.islands p) (fst c2) (snd c2) ->
  exists ext,
    crossing_pair p m n c1 c2 acc = Ok (acc ++ ext)
    /\ forall x, In x ext <-> x = (c1, c2) /\ (m < n)%nat /\ crossing (Puzzle.islands p) c1 c2.
Proof.
  intros (_ & a & b & Ha & Hb & Hab) (_ & c & d & Hc & Hd & Hcd).
  assert (Hcross : crossing (Puzzle.islands p) c1 c2
                   <-> properly_cross a b c d \/ properly_cross c d a b).
  { split.
    - intros (a' & b' & c' & d' & Ha' & Hb' & Hc' & Hd' & H).
      assert (a' = a) by congruence. assert (b' = b) by congruence.
      assert (c' = c) by congruence. assert (d' = d) by congruence. now subst.
    - intros H. exists a, b, c, d. auto. }
  assert (Hnone : forall (P : Prop), ~ P ->
            exists ext : list ((nat * nat) * (nat * nat)), Ok acc = Ok (acc ++ ext)
              /\ forall x, In x ext <-> x = (c1, c2) /\ P).
  { intros P HP. exists []. rewrite app_nil_r. split; auto.
    intros x. split; [contradiction|tauto]. }
  unfold crossing_pair.
  destruct (Nat.leb_spec n m) as [Hle|Hlt].
  { apply Hnone. lia. }
  rewrite (island_at_nth p _ a Ha), (island_at_nth p _ b Hb),
          (island_at_nth p _ c Hc), (island_at_nth p _ d Hd). cbn [bind].
  unfold properly_cross in Hcross.
  destruct (Z.eqb_spec (Island.y a) (Island.y b)) as [E1|E1];
    destruct (Z.eqb_spec (Island.y c) (Island.y d)) as [E2|E2]; cbn [Bool.eqb fst snd].
  - apply Hnone. rewrite Hcross. lia.
  - match goal with |- context [if ?cond then _ else _] => destruct cond eqn:Econd end.
    + exists [(c1, c2)]. split; auto. intros x; simpl.
      rewrite !andb_true_iff, !Z.ltb_lt in Econd. rewrite Hcross.
      split; [intros [<-|[]]|intros [-> _]; auto].
      split; auto. split; auto. left. lia.
    + apply Hnone. rewrite Hcross. intros [_ [H|H]]; [|lia].
      assert (Econd' : (Z.min (Island.y c) (Island.y d) <? Island.y a)
                       && (Island.y a <? Z.max (Island.y c) (Island.y d))
                       && (Z.min (Island.x a) (Island.x b) <? Island.x c)
                       && (Island.x c <? Z.max (Island.x a) (Island.x b)) = true).
      { rewrite !andb_true_iff, !Z.ltb_lt. lia. }
      congruence.
  - match goal with |- context [if ?cond then _ else _] => destruct cond eqn:Econd end.
    + exists [(c1, c2)]. split; auto. intros x; simpl.
      rewrite !andb_true_iff, !Z.ltb_lt in Econd. rewrite Hcross.
      split; [intros [<-|[]]|intros [-> _]; auto].
      split; auto. split; auto. right. lia.
    + apply Hnone. rewrite Hcross. intros [_ [H|H]]; [lia|].
      assert (Econd' : (Z.min (Island.y a) (Island.y b) <? Island.y c)
                       && (Island.y c <? Z.max (Island.y a) (Island.y b))
                       && (Z.min (Island.x c) (Island.x d) <? Island.x a)
                       && (Island.x a <? Z.max (Island.x c) (Island.x d)) = true).
      { rewrite !andb_true_iff, !Z.ltb_lt. lia. }
      congruence.
  - apply Hnone. rewrite Hcross. lia.
Qed.

Lemma get_crossing_bridges_general p potential_bridges :
  (forall c, In c potential_bridges ->
             is_candidate (Puzzle.islands p) (fst c) (snd c)) ->
  exists crossings,
    get_crossing_bridges p potential_bridges = Ok crossings
    /\ forall c1 c2, In (c1, c2) crossings
                     <-> listed_in_order potential_bridges c1 c2
                         /\ crossing (Puzzle.islands p) c1 c2.
Proof.
  intros Hcand. unfold get_crossing_bridges.
  destruct (for_each_app (enumerate potential_bridges)
              (fun '(index_1, c1) crossing =>
                 for_each (enumerate potential_bridges)
                   (fun '(index_2, c2) crossing =>
                      crossing_pair p index_1 index_2 c1 c2 crossing) crossing)
              (fun mc x => exists n c2,
                   nth_error potential_bridges n = Some c2
                   /\ x = (snd mc, c2) /\ (fst mc < n)%nat
                   /\ crossing (Puzzle.islands p) (snd mc) c2))
    with (acc := @nil ((nat * nat) * (nat * nat)))
    as (ext & Hext & Hmem).
  { intros [m c1] acc Hm. apply enumerate_In in Hm.
    destruct (for_each_app (enumerate potential_bridges)
                (fun '(index_2, c2) crossing =>
                   crossing_pair p m index_2 c1 c2 crossing)
                (fun nc x => x = (c1, snd nc) /\ (m < fst nc)%nat
                             /\ crossing (Puzzle.islands p) c1 (snd nc)))
      with (acc := acc) as (ext & Hext & Hmem).
    { intros [n c2] acc' Hn. apply enumerate_In in Hn.
      apply crossing_pair_spec; apply Hcand; eapply nth_error_In; eauto. }
    exists ext. split; [exact Hext|]. intros x. rewrite Hmem. simpl. split.
    - intros ([n c2] & Hn & H). apply enumerate_In in Hn. exists n, c2. tauto.
    - intros (n & c2 & Hn & H). exists (n, c2). split; [now apply enumerate_In|]. exact H. }
  exists ext. split; [exact Hext|]. intros c1 c2. rewrite Hmem. split.
  - intros ([m c1'] & Hm & n & c2' & Hn & [= -> ->] & Hlt & Hc).
    apply enumerate_In in Hm. split; auto. exists m, n. auto.
  - intros [(m & n & Hlt & Hm & Hn) Hc].
    exists (m, c1). split; [now apply enumerate_In|]. exists n, c2. auto.
Qed.

Lemma crossing_orientations islands c1 c2 :
  crossing islands c1 c2 ->
  ~ (is_horizontal islands c1 /\ is_horizontal islands c2)
  /\ ~ (is_vertical islands c1 /\ is_vertical islands c2).
Proof.
  intros (a & b & c & d & Ha & Hb & Hc & Hd & H). split.
  - intros [(a' & b' & Ha' & Hb' & H1) (c' & d' & Hc' & Hd' & H2)].
    assert (a' = a) by congruence. assert (b' = b) by congruence.
    assert (c' = c) by congruence. assert (d' = d) by congruence. subst.
    unfold properly_cross in H. lia.
  - intros [(a' & b' & Ha' & Hb' & H1) (c' & d' & Hc' & Hd' & H2)].
    assert (a' = a) by congruence. assert (b' = b) by congruence.
    assert (c' = c) by congruence. assert (d' = d) by congruence. subst.
    unfold properly_cross in H. lia.
Qed.

Lemma crossing_sym islands c1 c2 : crossing islands c1 c2 -> crossing islands c2 c1.
Proof.
  intros (a & b & c & d & Ha & Hb & Hc & Hd & H).
  exists c, d, a, b. tauto.
Qed.

Lemma crossing_irrefl islands c : ~ crossing islands c c.
Proof.
  intros (a & b & a' & b' & Ha & Hb & Ha' & Hb' & H).
  assert (a' = a) by congruence. assert (b' = b) by congruence. subst.
  unfold properly_cross in H. lia.
Qed.

(** C5: for a puzzle whose islands have distinct positions on its board and
    the candidate list [get_possible_bridges] produces from it,
    [get_crossing_bridges] returns exactly the pairs of candidates, each
    unordered pair once and in the order of the list, that consist of a
    horizontal and a vertical candidate where the fixed y of the horizontal
    one lies strictly between the two y of the vertical one and the fixed x
    of the vertical one strictly between the two x of the horizontal one; two
    candidates of the same orientation are never returned. *)
Theorem get_crossing_bridges_spec :
  forall p g potential_bridges,
    NoDup (map island_pos (Puzzle.islands p)) ->
    islands_in_bounds p ->
    to_grid p = Ok g ->
    get_possible_bridges p g = Ok potential_bridges ->
    exists crossings,
      get_crossing_bridges p potential_bridges = Ok crossings
      /\ (forall c1 c2, In (c1, c2) crossings
                        <-> listed_in_order potential_bridges c1 c2
                            /\ crossing (Puzzle.islands p) c1 c2)
      /\ (forall c1 c2, In (c1, c2) crossings \/ In (c2, c1) crossings
                        <-> In c1 potential_bridges /\ In c2 potential_bridges
                            /\ crossing (Puzzle.islands p) c1 c2)
      /\ (forall c1 c2, In (c1, c2) crossings ->
            ~ (is_horizontal (Puzzle.islands p) c1 /\ is_horizontal (Puzzle.islands p) c2)
            /\ ~ (is_vertical (Puzzle.islands p) c1 /\ is_vertical (Puzzle.islands p) c2)).
Proof.
  intros p g pb _ Hin Hg Hpb.
  destruct (possible_bridges_exact p Hin) as (g' & pb' & Hg' & Hpb' & Hcand & _).
  assert (g' = g) by congruence. subst g'.
  assert (pb' = pb) by congruence. subst pb'.
  destruct (get_crossing_bridges_general p pb) as (cr & Hcr & Hmem).
  { intros [i j] Hc. now apply Hcand. }
  exists cr. split; [exact Hcr|]. split; [exact Hmem|]. split.
  - intros c1 c2. rewrite !Hmem. split.
    + intros [[(m & n & _ & Hm & Hn) Hc]|[(m & n & _ & Hm & Hn) Hc]].
      * repeat split; auto; eapply nth_error_In; eauto.
      * split; [|split]; [eapply nth_error_In; eauto ..|]. now apply crossing_sym.
    + intros (H1 & H2 & Hc).
      apply In_nth_error in H1. destruct H1 as [m Hm].
      apply In_nth_error in H2. destruct H2 as [n Hn].
      destruct (Nat.lt_total m n) as [Hlt|[->|Hlt]].
      * left. split; auto. exists m, n. auto.
      * exfalso. assert (c1 = c2) by congruence. subst.
        now apply crossing_irrefl in Hc.
      * right. split; [|now apply crossing_sym]. exists n, m. auto.
  - intros c1 c2 Hc. apply Hmem in Hc. now apply crossing_orientations.
Qed.

(** The theorem at the two candidates of a board with four islands around
    its middle, which cross. *)
Lemma get_crossing_bridges_spec_witness :
  exists crossings,
    get_crossing_bridges crossing_puzzle [(0, 1); (2, 3)]%nat = Ok crossings
    /\ (forall c1 c2, In (c1, c2) crossings
                      <-> listed_in_order [(0, 1); (2, 3)]%nat c1 c2
                          /\ crossing (Puzzle.islands crossing_puzzle) c1 c2)
    /\ (forall c1 c2, In (c1, c2) crossings \/ In (c2, c1) crossings
                      <-> In c1 [(0, 1); (2, 3)]%nat /\ In c2 [(0, 1); (2, 3)]%nat
                          /\ crossing (Puzzle.islands crossing_puzzle) c1 c2)
    /\ (forall c1 c2, In (c1, c2) crossings ->
          ~ (is_horizontal (Puzzle.islands crossing_puzzle) c1
             /\ is_horizontal (Puzzle.islands crossing_puzzle) c2)
          /\ ~ (is_vertical (Puzzle.islands crossing_puzzle) c1
                /\ is_vertical (Puzzle.islands crossing_puzzle) c2)).
Proof.
  eapply (get_crossing_bridges_spec crossing_puzzle).
  - repeat constructor; simpl; intuition discriminate.
  - intros i [<-|[<-|[<-|[<-|[]]]]]; simpl; lia.
  - reflexivity.
  - reflexivity.
Defined.

Example crossing_bridges_of_crossing_puzzle :
  get_crossing_bridges crossing_puzzle [(0, 1); (2, 3)]%nat
  = Ok [((0, 1), (2, 3))]%nat.
Proof. reflexivity. Qed.

(** ** solver.py: the integer program *)

Lemma for_each_inv {A S : Type} (l : list A) (body : A -> S -> result S)
  (I : S -> Prop) :
  (forall a s s', In a l -> I s -> body a s = Ok s' -> I s') ->
  forall s s', I s -> for_each l body s = Ok s' -> I s'.
Proof.
  induction l as [|a l IH]; intros Hbody s s' Hs Hrun; simpl in Hrun.
  - now injection Hrun as <-.
  - inv_bind Hrun. eapply IH; [| |exact Hrun].
    + intros; eapply Hbody; eauto. now right.
    + eapply Hbody; eauto. now left.
Qed.

(** Whatever the grid, the candidates are pairs of indices of islands. *)
Lemma possible_bridges_indices p g bridges :
  get_possible_bridges p g = Ok bridges ->
  forall i j, In (i, j) bridges ->
    exists a b, nth_error (Puzzle.islands p) i = Some a
                /\ nth_error (Puzzle.islands p) j = Some b.
Proof.
  unfold get_possible_bridges.
  set (I := fun bridges : list (nat * nat) =>
              forall i j, In (i, j) bridges ->
                exists a b, nth_error (Puzzle.islands p) i = Some a
                            /\ nth_error (Puzzle.islands p) j = Some b).
  intros Hrun. change (I bridges). revert Hrun. apply for_each_inv; [|intros i j []].
  intros [i a] s s' Hi Hs. apply enumerate_In in Hi.
  apply for_each_inv; auto.
  intros [j b] t t' Hj Ht. apply enumerate_In in Hj.
  unfold possible_bridge.
  assert (Hadd : I (t ++ [(i, j)])).
  { intros i' j' Hin. apply in_app_or in Hin. destruct Hin as [|[[= <- <-]|[]]]; eauto. }
  destruct (j <=? i)%nat; [now intros [= <-]|].
  destruct (Island.x a =? Island.x b).
  { intros H. inv_bind H. injection H as <-. now destruct a0. }
  destruct (Island.y a =? Island.y b).
  { intros H. inv_bind H. injection H as <-. now destruct a0. }
  now intros [= <-].
Qed.

Lemma lp_model_inv p possible_bridges problem :
  lp_model p = Ok (possible_bridges, problem) ->
  exists g crossing_bridges,
    to_grid p = Ok g
    /\ get_possible_bridges p g = Ok possible_bridges
    /\ get_crossing_bridges p possible_bridges = Ok crossing_bridges
    /\ problem = lp_problem p possible_bridges crossing_bridges.
Proof.
  unfold lp_model. intros H. inv_bind H. inv_bind H. inv_bind H.
  injection H as <- <-. eauto 6.
Qed.

Lemma feasible_constraint problem a c :
  feasible problem a = true -> In c (constraints problem) -> constraint_holds a c = true.
Proof.
  unfold feasible. rewrite andb_true_iff, !forallb_forall. intros [_ H]. apply H.
Qed.

Lemma feasible_variable problem a v :
  feasible problem a = true -> In v (variables problem) -> variable_holds a v = true.
Proof.
  unfold feasible. rewrite andb_true_iff, !forallb_forall. intros [H _]. apply H.
Qed.

Lemma flow_nonnegative p possible_bridges crossing_bridges a i j :
  feasible (lp_problem p possible_bridges crossing_bridges) a = true ->
  In (i, j) possible_bridges ->
  (0 <= a (f_ i j))%Q /\ (0 <= a (f_ j i))%Q.
Proof.
  intros Hf Hin. split.
  - assert (Hv : variable_holds a
                   (mkVar (f_ i j) (Some 0) (Some (lp_island_count p - 1)) Continuous) = true).
    { apply (feasible_variable _ _ _ Hf). simpl. unfold lp_variables.
      apply in_flat_map. exists (i, j). split; auto. simpl. auto. }
    unfold variable_holds in Hv. simpl in Hv.
    rewrite !andb_true_iff in Hv. destruct Hv as [[Hv _] _].
    now apply Qle_bool_iff in Hv.
  - assert (Hv : variable_holds a
                   (mkVar (f_ j i) (Some 0) (Some (lp_island_count p - 1)) Continuous) = true).
    { apply (feasible_variable _ _ _ Hf). simpl. unfold lp_variables.
      apply in_flat_map. exists (i, j). split; auto. simpl. auto. }
    unfold variable_holds in Hv. simpl in Hv.
    rewrite !andb_true_iff in Hv. destruct Hv as [[Hv _] _].
    now apply Qle_bool_iff in Hv.
Qed.

Lemma flow_capacity_sum p possible_bridges crossing_bridges a i j :
  feasible (lp_problem p possible_bridges crossing_bridges) a = true ->
  In (i, j) possible_bridges ->
  (a (f_ i j) + a (f_ j i) <= inject_Z (lp_island_count p - 1) * a (y_ i j))%Q.
Proof.
  intros Hf Hin.
  assert (Hc : constraint_holds a
                 (mkConstraint (lpSum [f_ i j; f_ j i]) LpLE
                    (lpScale (lp_island_count p - 1) (y_ i j))) = true).
  { apply (feasible_constraint _ _ _ Hf). simpl. rewrite !in_app_iff.
    do 4 right. unfold lp_flow_capacity. apply in_map_iff. exists (i, j). auto. }
  unfold constraint_holds in Hc. simpl in Hc. apply Qle_bool_iff in Hc.
  unfold eval_affine in Hc. simpl in Hc.
  set (cap := (inject_Z (lp_island_count p - 1) * a (y_ i j))%Q) in *.
  change (inject_Z 1) with 1%Q in Hc. change (inject_Z 0) with 0%Q in Hc.
  lra.
Qed.

(** C6: in the model [solve] builds, every feasible assignment bounds the
    flow of each candidate bridge (i, j), in each of its two directions, by
    (island count - 1) times its existence indicator y. *)
Theorem flow_capacity_bound :
  forall p possible_bridges problem (a : assignment),
    lp_model p = Ok (possible_bridges, problem) ->
    feasible problem a = true ->
    forall i j, In (i, j) possible_bridges ->
      (a (f_ i j) <= inject_Z (lp_island_count p - 1) * a (y_ i j))%Q
      /\ (a (f_ j i) <= inject_Z (lp_island_count p - 1) * a (y_ i j))%Q.
Proof.
  intros p pb problem a Hmodel Hf i j Hin.
  apply lp_model_inv in Hmodel. destruct Hmodel as (g & cr & _ & _ & _ & ->).
  pose proof (flow_nonnegative _ _ _ _ _ _ Hf Hin) as [H1 H2].
  pose proof (flow_capacity_sum _ _ _ _ _ _ Hf Hin) as H.
  set (cap := (inject_Z (lp_island_count p - 1) * a (y_ i j))%Q) in *.
  split; lra.
Qed.

Example two_island_model :
  exists problem,
    lp_model two_island_puzzle = Ok ([(0, 1)]%nat, problem)
    /\ feasible problem two_island_assignment = true.
Proof. eexists. split; reflexivity. Qed.

(** The theorem at two islands facing each other and the flow of one unit
    from the first to the second. *)
Lemma flow_capacity_bound_witness :
  (two_island_assignment (f_ 0 1)
   <= inject_Z (lp_island_count two_island_puzzle - 1) * two_island_assignment (y_ 0 1))%Q
  /\ (two_island_assignment (f_ 1 0)
      <= inject_Z (lp_island_count two_island_puzzle - 1) * two_island_assignment (y_ 0 1))%Q.
Proof.
  eapply (flow_capacity_bound two_island_puzzle).
  - reflexivity.
  - reflexivity.
  - now left.
Defined.

(** ** solver.py: [solve] *)

Lemma read_solution_loop islands_of value (p : Puzzle.t) :
  islands_of = Puzzle.islands p ->
  forall possible_bridges acc,
    (forall i j, In (i, j) possible_bridges ->
       exists a b, nth_error islands_of i = Some a /\ nth_error islands_of j = Some b) ->
    exists solution,
      for_each possible_bridges (fun '(i, j) solution =>
        match value (b_ i j) with
        | Some bridge_count =>
            if negb (Qle_bool bridge_count (1 # 2))
            then island_i <- island_at p i ;;
                 island_j <- island_at p j ;;
                 Ok (solution ++
                     [Bridge.mk island_i island_j (py_round bridge_count =? 1)])
            else Ok solution
        | None => Ok solution
        end) acc = Ok (acc ++ solution)
      /\ reads islands_of value possible_bridges solution.
Proof.
  intros ->. induction possible_bridges as [|[i j] rest IH]; intros acc Hidx.
  - exists []. rewrite app_nil_r. split; [reflexivity|constructor].
  - cbn [for_each].
    assert (Hrest : forall i' j', In (i', j') rest ->
              exists a b, nth_error (Puzzle.islands p) i' = Some a
                          /\ nth_error (Puzzle.islands p) j' = Some b).
    { intros; apply Hidx; now right. }
    destruct (value (b_ i j)) as [c|] eqn:Ev.
    + destruct (Qle_bool c (1 # 2)) eqn:Ec; cbn [negb bind].
      * destruct (IH acc Hrest) as (sol & Hsol & Hreads).
        exists sol. split; auto. apply reads_skip; auto.
        right. exists c. split; auto. now apply Qle_bool_iff.
      * destruct (Hidx i j (or_introl eq_refl)) as (a & b & Ha & Hb).
        rewrite (island_at_nth p i a Ha), (island_at_nth p j b Hb). cbn [bind].
        destruct (IH (acc ++ [Bridge.mk a b (py_round c =? 1)]) Hrest)
          as (sol & Hsol & Hreads).
        exists (Bridge.mk a b (py_round c =? 1) :: sol).
        split; [now rewrite Hsol, <- app_assoc|].
        apply reads_bridge; auto.
        apply Qnot_le_lt. intros Hle. apply Qle_bool_iff in Hle. congruence.
    + cbn [bind]. destruct (IH acc Hrest) as (sol & Hsol & Hreads).
      exists sol. split; auto. apply reads_skip; auto.
Qed.

Lemma string_in_two s a b :
  string_in s [a; b] = true <-> s = a \/ s = b.
Proof.
  unfold string_in; simpl. rewrite !orb_true_iff, !String.eqb_eq. intuition discriminate.
Qed.

(** C7: once the model is built and handed to the external solver, a status
    that is neither "Optimal" nor "Feasible" makes [solve] return [None]
    without raising; with one of these two statuses [solve] returns, in the
    order of the candidates, one bridge for each candidate whose solved value
    of b exceeds 0.5, between the two islands of that candidate, with
    [single] true exactly when the value rounds to 1. *)
Theorem solve_result :
  forall (solver : Solver) p possible_bridges problem,
    lp_model p = Ok (possible_bridges, problem) ->
    (fst (solver problem) <> "Optimal"%string ->
     fst (solver problem) <> "Feasible"%string ->
     solve solver p = Ok None)
    /\ (fst (solver problem) = "Optimal"%string
        \/ fst (solver problem) = "Feasible"%string ->
        exists solution,
          solve solver p = Ok (Some solution)
          /\ reads (Puzzle.islands p) (snd (solver problem)) possible_bridges solution).
Proof.
  intros solver p pb problem Hmodel.
  unfold solve. rewrite Hmodel. cbn [bind].
  destruct (solver problem) as [status value]. cbn [fst snd]. split.
  - intros H1 H2. destruct (string_in status _) eqn:E; auto.
    apply string_in_two in E. tauto.
  - intros H. apply string_in_two in H. rewrite H.
    apply lp_model_inv in Hmodel. destruct Hmodel as (g & cr & _ & Hpb & _).
    destruct (read_solution_loop _ value p eq_refl pb [] (possible_bridges_indices p g pb Hpb))
      as (sol & Hsol & Hreads).
    unfold read_solution. rewrite Hsol. cbn [bind app]. eauto.
Qed.

(** The theorem at two islands facing each other, with a solver that
    answers "Optimal" with one single bridge, and with one that answers
    "Infeasible". *)
Lemma solve_result_witness :
  ((fst (optimal_solver (lp_problem two_island_puzzle [(0, 1)]%nat [])) <> "Optimal"%string ->
    fst (optimal_solver (lp_problem two_island_puzzle [(0, 1)]%nat [])) <> "Feasible"%string ->
    solve optimal_solver two_island_puzzle = Ok None)
   /\ (fst (optimal_solver (lp_problem two_island_puzzle [(0, 1)]%nat [])) = "Optimal"%string
       \/ fst (optimal_solver (lp_problem two_island_puzzle [(0, 1)]%nat [])) = "Feasible"%string ->
       exists solution,
         solve optimal_solver two_island_puzzle = Ok (Some solution)
         /\ reads (Puzzle.islands two_island_puzzle)
              (snd (optimal_solver (lp_problem two_island_puzzle [(0, 1)]%nat [])))
              [(0, 1)]%nat solution))
  /\ solve infeasible_solver two_island_puzzle = Ok None.
Proof.
  split.
  - apply (solve_result optimal_solver two_island_puzzle). reflexivity.
  - apply (solve_result infeasible_solver two_island_puzzle [(0, 1)]%nat
             (lp_problem two_island_puzzle [(0, 1)]%nat []) eq_refl);
      simpl; discriminate.
Defined.

Example solve_two_islands :
  solve optimal_solver two_island_puzzle
  = Ok (Some [Bridge.mk (Island.mk 0 0 1) (Island.mk 2 0 1) true]).
Proof. reflexivity. Qed.

Example py_round_ties :
  py_round (1 # 2) = 0 /\ py_round (3 # 2) = 2 /\ py_round (5 # 2) = 2
  /\ py_round (14 # 10) = 1 /\ py_round (2 # 1) = 2.
Proof. repeat split. Qed.

(** ** The random draws *)

Lemma randint_range a b r z r' : randint a b r = Ok (z, r') -> a <= z <= b.
Proof.
  unfold randint. destruct (Z.leb_spec a b) as [Hle|]; [|discriminate].
  destruct (next_draw r) as [k r1]. intros [= <- _].
  pose proof (Z.mod_pos_bound (Z.of_nat k) (b - a + 1)). lia.
Qed.

Lemma choice_In {A : Type} (l : list A) r a r' : choice l r = Ok (a, r') -> In a l.
Proof.
  unfold choice. destruct (next_draw r) as [k r1].
  destruct (nth_error l (k mod length l)%nat) as [a'|] eqn:E; [|discriminate].
  intros [= <- _]. eapply nth_error_In; eauto.
Qed.

(** ** grid.py: the direction and the length of a new bridge *)

Lemma and3_true c a b : and3 c a b = Ok true -> c = true /\ a = Ok true /\ b = Ok true.
Proof.
  unfold and3. destruct c; [|discriminate]. destruct a as [[|]| |]; simpl; try discriminate.
  auto.
Qed.

Lemma cell_is_empty_true g x y :
  cell_is_empty g x y = Ok true -> has_type g (x, y) NodeType.empty.
Proof.
  unfold cell_is_empty. intros H. inv_bind H. injection H as H.
  exists a. split; auto. destruct (Node.type a); auto; discriminate.
Qed.

Lemma step_from_unfold x y d k :
  step_from x y d k
  = match d with
    | UP => (x, y - k)
    | DOWN => (x, y + k)
    | LEFT => (x - k, y)
    | RIGHT => (x + k, y)
    end.
Proof. unfold step_from. destruct d; cbn [get_vector fst snd]; f_equal; lia. Qed.

(** A direction is offered only when the next two nodes are on the board and
    empty. *)
Lemma get_random_direction_spec g x y r d r' :
  in_bounds g (x, y) ->
  get_random_direction g x y r = Ok (Some d, r') ->
  forall k, 1 <= k <= 2 ->
    in_bounds g (step_from x y d k) /\ has_type g (step_from x y d k) NodeType.empty.
Proof.
  intros [Hx Hy]; simpl in Hx, Hy. unfold get_random_direction. intros H.
  inv_bind H. rename a into up, Ha into Hup.
  inv_bind H. rename a into down, Ha into Hdown.
  inv_bind H. rename a into left, Ha into Hleft.
  inv_bind H. rename a into right, Ha into Hright.
  destruct (length _ =? 0)%nat; [discriminate|].
  inv_bind H. destruct a as [d' r'']. injection H as -> ->.
  apply choice_In in Ha. rewrite !in_app_iff in Ha.
  assert (Hcases : (up = true /\ d = UP) \/ (down = true /\ d = DOWN)
                   \/ (left = true /\ d = LEFT) \/ (right = true /\ d = RIGHT)).
  { destruct Ha as [Ha|[Ha|[Ha|Ha]]];
      [destruct up | destruct down | destruct left | destruct right];
      simpl in Ha; try contradiction; destruct Ha as [<-|[]]; auto 6. }
  intros k Hk. assert (k = 1 \/ k = 2) as Hk' by lia. clear Hk.
  rewrite step_from_unfold.
  destruct Hcases as [[-> ->]|[[-> ->]|[[-> ->]|[-> ->]]]].
  - apply and3_true in Hup. destruct Hup as (Hc & H1 & H2).
    apply Z.geb_le in Hc. apply cell_is_empty_true in H1, H2.
    destruct Hk' as [->| ->]; (split; [split; simpl; lia | assumption]).
  - apply and3_true in Hdown. destruct Hdown as (Hc & H1 & H2).
    apply Z.ltb_lt in Hc. apply cell_is_empty_true in H1, H2.
    destruct Hk' as [->| ->]; (split; [split; simpl; lia | assumption]).
  - apply and3_true in Hleft. destruct Hleft as (Hc & H1 & H2).
    apply Z.geb_le in Hc. apply cell_is_empty_true in H1, H2.
    destruct Hk' as [->| ->]; (split; [split; simpl; lia | assumption]).
  - apply and3_true in Hright. destruct Hright as (Hc & H1 & H2).
    apply Z.ltb_lt in Hc. apply cell_is_empty_true in H1, H2.
    destruct Hk' as [->| ->]; (split; [split; simpl; lia | assumption]).
Qed.

(** The walk of [get_random_bridge_length] counts nodes on the board that
    are empty. *)
Lemma max_length_loop_spec fuel g d :
  forall x y k m m',
    max_length_loop fuel g (get_vector d) (fst (step_from x y d k))
      (snd (step_from x y d k)) m = Ok m' ->
    m <= m'
    /\ forall j, 0 <= j < m' - m ->
         in_bounds g (step_from x y d (k + j))
         /\ has_type g (step_from x y d (k + j)) NodeType.empty.
Proof.
  induction fuel as [|fuel IH]; intros x y k m m' H; simpl in H; [discriminate|].
  destruct (within_bounds g _ _) eqn:Eb; simpl in H.
  2:{ injection H as <-. split; [lia|]. intros j Hj. lia. }
  inv_bind H. rename a into node.
  destruct (NodeType.eqb (Node.type node) NodeType.empty) eqn:Et; simpl in H.
  2:{ injection H as <-. split; [lia|]. intros j Hj. lia. }
  replace (x + fst (get_vector d) * k + fst (get_vector d))
    with (fst (step_from x y d (k + 1))) in H by (unfold step_from; cbn [fst snd]; lia).
  replace (y + snd (get_vector d) * k + snd (get_vector d))
    with (snd (step_from x y d (k + 1))) in H by (unfold step_from; cbn [fst snd]; lia).
  apply IH in H. destruct H as [Hle Hrest]. split; [lia|].
  intros j Hj. destruct (Z.eq_dec j 0) as [->|Hne].
  - rewrite Z.add_0_r. split.
    + apply within_bounds_iff. now destruct (step_from x y d k).
    + exists node. split; auto. destruct (Node.type node); auto; discriminate.
  - replace (k + j) with (k + 1 + (j - 1)) by lia. apply Hrest. lia.
Qed.

(** The walk ends within its fuel: every step leaves one node less before
    the edge of the board. *)
Lemma max_length_loop_total g d :
  grid_wf g ->
  forall fuel x y k m,
    (0 < fuel)%nat ->
    (in_bounds g (step_from x y d k) ->
     to_edge g d (step_from x y d k) < Z.of_nat fuel) ->
    exists m',
      max_length_loop fuel g (get_vector d) (fst (step_from x y d k))
        (snd (step_from x y d k)) m = Ok m'.
Proof.
  intros Hwf. induction fuel as [|fuel IH]; intros x y k m Hpos Hfuel; [lia|].
  cbn [max_length_loop]. destruct (within_bounds g _ _) eqn:Eb; cbn [negb]; [|eauto].
  assert (Hb : in_bounds g (step_from x y d k)).
  { apply within_bounds_iff in Eb. now destruct (step_from x y d k). }
  specialize (Hfuel Hb).
  destruct (cell_ok g (fst (step_from x y d k)) (snd (step_from x y d k)) Hwf Hb)
    as (n & Hn & _).
  rewrite Hn. cbn [bind].
  destruct (NodeType.eqb (Node.type n) NodeType.empty); cbn [negb]; [|eauto].
  replace (fst (step_from x y d k) + fst (get_vector d))
    with (fst (step_from x y d (k + 1))) by (unfold step_from; cbn [fst snd]; lia).
  replace (snd (step_from x y d k) + snd (get_vector d))
    with (snd (step_from x y d (k + 1))) by (unfold step_from; cbn [fst snd]; lia).
  assert (Hedge : 1 <= to_edge g d (step_from x y d k)
                  /\ to_edge g d (step_from x y d (k + 1))
                     = to_edge g d (step_from x y d k) - 1).
  { destruct Hb as [Hbx Hby]. rewrite !step_from_unfold in *.
    destruct d; simpl in *; lia. }
  apply IH; [lia|]. intros _. lia.
Qed.

Lemma to_edge_bound g d p :
  in_bounds g p -> to_edge g d p <= Grid.width g + Grid.height g.
Proof. intros [Hx Hy]. destruct d; simpl; lia. Qed.

(** [get_random_bridge_length] returns a length whose bridge and end node
    lie on nodes that the walk found on the board and empty. *)
Lemma get_random_bridge_length_spec g x y d shorter r len r' :
  get_random_bridge_length g x y d shorter r = Ok (len, r') ->
  1 <= len
  /\ forall k, 3 <= k <= len + 1 ->
       in_bounds g (step_from x y d k)
       /\ has_type g (step_from x y d k) NodeType.empty.
Proof.
  unfold get_random_bridge_length. intros H. inv_bind H. rename a into max_length.
  change (x + fst (get_vector d) * 3) with (fst (step_from x y d 3)) in Ha.
  change (y + snd (get_vector d) * 3) with (snd (step_from x y d 3)) in Ha.
  apply max_length_loop_spec in Ha. destruct Ha as [Hle Hrun].
  assert (Hlen : 1 <= len <= max_length).
  { destruct shorter.
    - inv_bind H. destruct a as [a r1]. inv_bind H. destruct a0 as [b r2].
      injection H as <- _. apply randint_range in Ha, Ha0. lia.
    - apply randint_range in H. lia. }
  split; [lia|]. intros k Hk.
  replace k with (3 + (k - 3)) by lia. apply Hrun. lia.
Qed.

Lemma get_random_bridge_length_total g x y d shorter r :
  grid_wf g ->
  exists len r', get_random_bridge_length g x y d shorter r = Ok (len, r').
Proof.
  intros Hwf. unfold get_random_bridge_length.
  destruct (max_length_loop_total g d Hwf (max_length_fuel g) x y 3 1)
    as [max_length Hmax].
  - unfold max_length_fuel. lia.
  - intros Hb. pose proof (to_edge_bound g d _ Hb). destruct Hb as [Hx Hy].
    unfold max_length_fuel. lia.
  - change (x + fst (get_vector d) * 3) with (fst (step_from x y d 3)).
    change (y + snd (get_vector d) * 3) with (snd (step_from x y d 3)).
    rewrite Hmax. cbn [bind].
    pose proof Hmax as Hspec. apply max_length_loop_spec in Hspec.
    destruct Hspec as [Hle _].
    assert (Hr : forall r0, exists z r1, randint 1 max_length r0 = Ok (z, r1)).
    { intros r0. unfold randint. destruct (Z.leb_spec 1 max_length); [|lia].
      destruct (next_draw r0). eauto. }
    destruct shorter.
    + destruct (Hr r) as (a & r1 & ->). cbn [bind].
      destruct (Hr r1) as (b & r2 & ->). cbn [bind]. eauto.
    + destruct (Hr r) as (a & r1 & ->). eauto.
Qed.

(** From the start island to the end node of the new bridge, every node is
    on the board and empty. *)
Lemma bridge_run_clear g x y rd d rd' shorter r len r' :
  in_bounds g (x, y) ->
  get_random_direction g x y rd = Ok (Some d, rd') ->
  get_random_bridge_length g x y d shorter r = Ok (len, r') ->
  1 <= len
  /\ forall k, 1 <= k <= len + 1 ->
       in_bounds g (step_from x y d k)
       /\ has_type g (step_from x y d k) NodeType.empty.
Proof.
  intros Hb Hd Hl. apply get_random_bridge_length_spec in Hl. destruct Hl as [Hlen Hfar].
  split; auto. intros k Hk. destruct (Z_le_gt_dec k 2).
  - eapply get_random_direction_spec; eauto. lia.
  - apply Hfar. lia.
Qed.

(** ** grid.py: [add_bridge] *)

Lemma has_type_unique g p t1 t2 : has_type g p t1 -> has_type g p t2 -> t1 = t2.
Proof. intros (n1 & H1 & <-) (n2 & H2 & <-). congruence. Qed.

Lemma add_bridge_loop x y d (ks : list Z) :
  forall g,
    grid_wf g ->
    (forall i, In i ks -> in_bounds g (step_from x y d (i + 1))) ->
    exists g',
      for_each ks (fun i g =>
        update_cell g (x + fst (get_vector d) * (i + 1))
          (y + snd (get_vector d) * (i + 1)) to_bridge) g = Ok g'
      /\ grid_wf g'
      /\ Grid.width g' = Grid.width g /\ Grid.height g' = Grid.height g
      /\ (forall i, In i ks -> has_type g' (step_from x y d (i + 1)) NodeType.bridge)
      /\ (forall p, in_bounds g p ->
            (forall i, In i ks -> p <> step_from x y d (i + 1)) ->
            cell g' (fst p) (snd p) = cell g (fst p) (snd p)).
Proof.
  induction ks as [|i ks IH]; intros g Hwf Hb.
  - exists g. split; [reflexivity|]. split; [exact Hwf|].
    split; [reflexivity|]. split; [reflexivity|]. split; [intros i []|reflexivity].
  - cbn [for_each].
    assert (Hi : in_bounds g (step_from x y d (i + 1))) by (apply Hb; now left).
    destruct (cell_ok g (fst (step_from x y d (i + 1))) (snd (step_from x y d (i + 1)))
                Hwf Hi) as (n & Hn & _).
    destruct (update_cell_ok g _ _ to_bridge n Hwf Hi keeps_position_to_bridge Hn)
      as (g1 & Hg1 & Hwf1 & Hw1 & Hh1 & Hsame & Hother).
    rewrite Hg1. cbn [bind].
    destruct (IH g1 Hwf1) as (g' & Hg' & Hwf' & Hw' & Hh' & Hbridge & Hrest).
    { intros j Hj. apply (in_bounds_same_size g g1); auto. apply Hb. now right. }
    exists g'. split; [exact Hg'|]. split; [exact Hwf'|].
    split; [congruence|]. split; [congruence|]. split.
    + intros j [<-|Hj]; [|now apply Hbridge].
      destruct (in_dec pos_eq_dec (step_from x y d (i + 1))
                  (map (fun j => step_from x y d (j + 1)) ks)) as [Hin|Hout].
      * apply in_map_iff in Hin. destruct Hin as (j & <- & Hj). now apply Hbridge.
      * exists (to_bridge n). split; [|reflexivity].
        rewrite Hrest; auto.
        -- apply (in_bounds_same_size g g1); auto.
        -- intros j Hj E. apply Hout. apply in_map_iff. exists j. auto.
    + intros p Hp Hne. rewrite Hrest.
      * destruct p as [px py]. apply Hother; auto. apply Hne. now left.
      * apply (in_bounds_same_size g g1); auto.
      * intros j Hj. apply Hne. now right.
Qed.

Lemma add_bridge_spec g x y len d :
  grid_wf g ->
  (forall k, 1 <= k <= len -> in_bounds g (step_from x y d k)) ->
  exists g',
    add_bridge g x y len d = Ok g'
    /\ grid_wf g'
    /\ Grid.width g' = Grid.width g /\ Grid.height g' = Grid.height g
    /\ (forall k, 1 <= k <= len -> has_type g' (step_from x y d k) NodeType.bridge)
    /\ (forall p, in_bounds g p ->
          (forall k, 1 <= k <= len -> p <> step_from x y d k) ->
          cell g' (fst p) (snd p) = cell g (fst p) (snd p)).
Proof.
  intros Hwf Hb. unfold add_bridge.
  destruct (add_bridge_loop x y d (range 0 len) g Hwf)
    as (g' & Hg' & Hwf' & Hw' & Hh' & Hbridge & Hrest).
  { intros i Hi. apply range_In in Hi. apply Hb. lia. }
  exists g'. split; [exact Hg'|]. split; [exact Hwf'|].
  split; [exact Hw'|]. split; [exact Hh'|]. split.
  - intros k Hk. replace k with (k - 1 + 1) by lia. apply Hbridge.
    apply range_In. lia.
  - intros p Hp Hne. apply Hrest; auto. intros i Hi. apply range_In in Hi.
    apply Hne. lia.
Qed.

Lemma step_from_injective x y d k k' : step_from x y d k = step_from x y d k' -> k = k'.
Proof. rewrite !step_from_unfold. destruct d; intros [= H]; lia. Qed.

Lemma step_from_0 x y d : step_from x y d 0 = (x, y).
Proof. rewrite step_from_unfold. destruct d; f_equal; lia. Qed.

(** The three changes that commit a new bridge: the degree of the start
    island, the new island at the end, the bridge nodes between them. *)
Lemma commit_cells g x y d len t ns :
  grid_wf g -> in_bounds g (x, y) -> cell g x y = Ok ns ->
  1 <= len ->
  (forall k, 1 <= k <= len + 1 -> in_bounds g (step_from x y d k)) ->
  exists ne g1 g2 g3,
    cell g (fst (step_from x y d (len + 1))) (snd (step_from x y d (len + 1))) = Ok ne
    /\ Node.x ne = fst (step_from x y d (len + 1))
    /\ Node.y ne = snd (step_from x y d (len + 1))
    /\ update_cell g x y (add_degree t) = Ok g1
    /\ update_cell g1 (Node.x ne) (Node.y ne) (to_island t) = Ok g2
    /\ add_bridge g2 x y len d = Ok g3
    /\ grid_wf g3
    /\ Grid.width g3 = Grid.width g /\ Grid.height g3 = Grid.height g
    /\ cell g3 x y = Ok (add_degree t ns)
    /\ cell g3 (Node.x ne) (Node.y ne) = Ok (to_island t ne)
    /\ (forall k, 1 <= k <= len -> has_type g3 (step_from x y d k) NodeType.bridge)
    /\ (forall p, in_bounds g p -> p <> (x, y) ->
          (forall k, 1 <= k <= len + 1 -> p <> step_from x y d k) ->
          cell g3 (fst p) (snd p) = cell g (fst p) (snd p)).
Proof.
  intros Hwf Hs Hns Hlen Hrun.
  set (e := step_from x y d (len + 1)).
  assert (He : in_bounds g e) by (apply Hrun; lia).
  assert (Hes : e <> (x, y)).
  { rewrite <- (step_from_0 x y d). intros E. apply step_from_injective in E. lia. }
  destruct (cell_ok g (fst e) (snd e) Hwf) as (ne & Hne & Hnx & Hny).
  { now destruct e. }
  destruct (update_cell_ok g x y (add_degree t) ns Hwf Hs (keeps_position_add_degree t) Hns)
    as (g1 & Hg1 & Hwf1 & Hw1 & Hh1 & Hsame1 & Hother1).
  assert (He1 : in_bounds g1 (fst e, snd e)).
  { apply (in_bounds_same_size g g1); auto. }
  assert (Hne1 : cell g1 (fst e) (snd e) = Ok ne).
  { rewrite Hother1; auto; now destruct e. }
  destruct (update_cell_ok g1 (fst e) (snd e) (to_island t) ne Hwf1 He1
              (keeps_position_to_island t) Hne1)
    as (g2 & Hg2 & Hwf2 & Hw2 & Hh2 & Hsame2 & Hother2).
  destruct (add_bridge_spec g2 x y len d Hwf2)
    as (g3 & Hg3 & Hwf3 & Hw3 & Hh3 & Hbridge & Hrest).
  { intros k Hk. apply (in_bounds_same_size g1 g2); auto.
    apply (in_bounds_same_size g g1); auto. apply Hrun. lia. }
  assert (Hb2 : forall p, in_bounds g p -> in_bounds g2 p).
  { intros p Hp. apply (in_bounds_same_size g1 g2); auto.
    apply (in_bounds_same_size g g1); auto. }
  exists ne, g1, g2, g3. rewrite Hnx, Hny.
  split; [exact Hne|]. split; [reflexivity|]. split; [reflexivity|].
  split; [exact Hg1|]. split; [exact Hg2|]. split; [exact Hg3|].
  split; [exact Hwf3|]. split; [congruence|]. split; [congruence|]. split.
  { pose proof (Hrest (x, y)) as H. cbn [fst snd] in H. rewrite H.
    - rewrite Hother2; [exact Hsame1 | apply (in_bounds_same_size g g1); auto |].
      intros E. apply Hes. destruct e. now symmetry.
    - now apply Hb2.
    - intros k Hk. rewrite <- (step_from_0 x y d) at 1.
      intros E. apply step_from_injective in E. lia. }
  split.
  { pose proof (Hrest (fst e, snd e)) as H. cbn [fst snd] in H. rewrite H.
    - exact Hsame2.
    - now apply Hb2.
    - intros k Hk E. replace (fst e, snd e) with e in E by now destruct e.
      apply step_from_injective in E. lia. }
  split; [exact Hbridge|].
  intros p Hp Hps Hprun. rewrite Hrest; auto.
  - destruct p as [px py]. cbn [fst snd]. rewrite Hother2.
    + apply Hother1; auto.
    + apply (in_bounds_same_size g g1); auto.
    + intros E. apply (Hprun (len + 1)); [lia|]. fold e. destruct e. exact E.
  - intros k Hk. apply Hprun. lia.
Qed.

(** ** generator.py: what every iteration finds *)

Lemma incident_sum_app solution b p :
  incident_sum (solution ++ [b]) p = incident_sum solution p + incident_weight b p.
Proof.
  induction solution as [|b' solution IH]; simpl; [lia|]. rewrite IH. lia.
Qed.

Lemma incident_sum_no_end solution p :
  (forall b, In b solution ->
     island_pos (Bridge.node1 b) <> p /\ island_pos (Bridge.node2 b) <> p) ->
  incident_sum solution p = 0.
Proof.
  induction solution as [|b solution IH]; intros H; simpl; auto.
  rewrite IH by (intros; apply H; now right).
  destruct (H b (or_introl eq_refl)) as [H1 H2].
  apply pos_eqb_neq in H1, H2. unfold incident_weight. rewrite H1, H2. reflexivity.
Qed.

Lemma on_bridge_run x y d len k single :
  1 <= k <= len ->
  on_bridge (Bridge.mk (Island.mk x y 0)
               (Island.mk (fst (step_from x y d (len + 1)))
                          (snd (step_from x y d (len + 1))) 0) single)
            (step_from x y d k).
Proof.
  intros Hk. unfold on_bridge. rewrite !step_from_unfold.
  destruct d; cbn [island_pos Bridge.node1 Bridge.node2 Island.x Island.y fst snd]; lia.
Qed.

Lemma commit_preserves st x y d len t ns r :
  gen_inv st ->
  island_node (gen_grid st) (x, y) ->
  cell (gen_grid st) x y = Ok ns ->
  1 <= len ->
  (forall k, 1 <= k <= len + 1 ->
     in_bounds (gen_grid st) (step_from x y d k)
     /\ has_type (gen_grid st) (step_from x y d k) NodeType.empty) ->
  t = 1 \/ t = 2 ->
  exists ne g1 g2 g3,
    cell (gen_grid st) (fst (step_from x y d (len + 1)))
      (snd (step_from x y d (len + 1))) = Ok ne
    /\ update_cell (gen_grid st) x y (add_degree t) = Ok g1
    /\ update_cell g1 (Node.x ne) (Node.y ne) (to_island t) = Ok g2
    /\ add_bridge g2 x y len d = Ok g3
    /\ Grid.width g3 = Grid.width (gen_grid st)
    /\ Grid.height g3 = Grid.height (gen_grid st)
    /\ gen_inv (mkGen g3 (to_expand st ++ [node_ref ne]) (island_count st + 1)
                 (gen_solution st ++
                  [Bridge.mk (Island.mk x y 0) (Island.mk (Node.x ne) (Node.y ne) 0)
                     (t =? 1)]) r).
Proof.
  intros [Hwf Hexp Hends Hdeg (root & Hroot & Hconn) (l & Hnd & Hl & Hlen) Hbr]
         [Hsb Hst] Hns Hlen1 Hrun Ht.
  set (g := gen_grid st) in *. set (sol := gen_solution st) in *.
  destruct (commit_cells g x y d len t ns Hwf Hsb Hns Hlen1 (fun k Hk => proj1 (Hrun k Hk)))
    as (ne & g1 & g2 & g3 & Hne & Hnx & Hny & Hg1 & Hg2 & Hg3 & Hwf3 & Hw3 & Hh3
        & Hs3 & He3 & Hrun3 & Hrest3).
  set (e := step_from x y d (len + 1)) in *.
  assert (Heq : (Node.x ne, Node.y ne) = e) by (rewrite Hnx, Hny; now destruct e).
  exists ne, g1, g2, g3. split; [exact Hne|]. split; [exact Hg1|].
  split; [exact Hg2|]. split; [exact Hg3|]. split; [exact Hw3|]. split; [exact Hh3|].
  unfold node_ref. rewrite Hnx, Hny in He3. rewrite Heq.
  replace (Island.mk (Node.x ne) (Node.y ne) 0) with (Island.mk (fst e) (snd e) 0)
    by (now rewrite Hnx, Hny).
  set (b := Bridge.mk (Island.mk x y 0) (Island.mk (fst e) (snd e) 0) (t =? 1)).
  assert (Hb1 : island_pos (Bridge.node1 b) = (x, y)) by reflexivity.
  assert (Hb2 : island_pos (Bridge.node2 b) = e) by (now destruct e).
  assert (Hbw : bridge_weight b = t) by (destruct Ht as [-> | ->]; reflexivity).
  assert (Hes : e <> (x, y)).
  { rewrite <- (step_from_0 x y d). intros E. apply step_from_injective in E. lia. }
  assert (Heb : in_bounds g e) by (apply Hrun; lia).
  assert (Hee : has_type g e NodeType.empty) by (apply Hrun; lia).
  assert (Hb3 : forall p, in_bounds g3 p <-> in_bounds g p).
  { intros p. now apply in_bounds_same_size. }
  assert (Hclass : forall p,
            p = (x, y) \/ p = e \/ (exists k, 1 <= k <= len /\ p = step_from x y d k)
            \/ (p <> (x, y) /\ forall k, 1 <= k <= len + 1 -> p <> step_from x y d k)).
  { intros p. destruct (pos_eq_dec p (x, y)) as [|Hps]; auto.
    destruct (in_dec pos_eq_dec p (map (step_from x y d) (range 1 (len + 2))))
      as [Hin|Hout].
    - apply in_map_iff in Hin. destruct Hin as (k & <- & Hk). apply range_In in Hk.
      destruct (Z.eq_dec k (len + 1)) as [->|]; auto.
      right; right; left. exists k. split; auto. lia.
    - right; right; right. split; auto. intros k Hk ->. apply Hout.
      apply in_map. apply range_In. lia. }
  assert (Htype_s : Node.type ns = NodeType.island).
  { destruct Hst as (n & Hn & Ht'). cbn [fst snd] in Hn. congruence. }
  assert (Hisl : forall p, island_node g3 p <-> p = e \/ island_node g p).
  { intros p. unfold island_node. rewrite Hb3. split.
    - intros [Hp Hi]. destruct (Hclass p) as [->|[->|[(k & Hk & ->)|[Hps Hprun]]]]; auto.
      + exfalso. pose proof (has_type_unique _ _ _ _ Hi (Hrun3 k Hk)). discriminate.
      + right. split; auto. destruct Hi as (n & Hn & Ht').
        rewrite Hrest3 in Hn by auto. exists n. auto.
    - intros [->|[Hp Hi]].
      + split; auto. exists (to_island t ne). split; auto.
      + split; auto. destruct (Hclass p) as [->|[->|[(k & Hk & ->)|[Hps Hprun]]]].
        * exists (add_degree t ns). split; auto.
        * exists (to_island t ne). split; auto.
        * exfalso.
          assert (Hk' : 1 <= k <= len + 1) by lia.
          pose proof (has_type_unique _ _ _ _ Hi (proj2 (Hrun k Hk'))). discriminate.
        * destruct Hi as (n & Hn & Ht'). exists n. split; auto.
          rewrite Hrest3; auto. }
  assert (He_not : ~ island_node g e).
  { intros [_ Hi]. pose proof (has_type_unique _ _ _ _ Hi Hee). discriminate. }
  constructor; cbn [gen_grid to_expand gen_solution island_count].
  - exact Hwf3.
  - intros p Hp. apply Hisl. apply in_app_or in Hp.
    destruct Hp as [Hp|[<-|[]]]; [right; now apply Hexp | now left].
  - intros b' Hb'. rewrite !Hisl. apply in_app_or in Hb'.
    destruct Hb' as [Hb'|[<-|[]]].
    + destruct (Hends b' Hb'). auto.
    + rewrite Hb1, Hb2. split; auto. right. split; auto.
  - intros p n Hp Hn Htn. apply Hb3 in Hp. rewrite incident_sum_app.
    unfold incident_weight. rewrite Hb1, Hb2, Hbw.
    destruct (Hclass p) as [->|[->|[(k & Hk & ->)|[Hps Hprun]]]].
    + cbn [fst snd] in Hn. rewrite Hs3 in Hn. injection Hn as <-.
      rewrite pos_eqb_refl. apply pos_eqb_neq in Hes. rewrite Hes.
      cbn [add_degree Node.degree].
      rewrite (Hdeg (x, y) ns); auto. lia.
    + rewrite He3 in Hn. injection Hn as <-.
      rewrite pos_eqb_refl.
      assert (Hse : pos_eqb (x, y) e = false).
      { apply pos_eqb_neq. intros E. now apply Hes. }
      rewrite Hse. cbn [to_island Node.degree].
      rewrite incident_sum_no_end; [lia|].
      intros b' Hb'. destruct (Hends b' Hb') as [H1 H2].
      split; intros E; apply He_not; congruence.
    + exfalso.
      assert (Hi : has_type g3 (step_from x y d k) NodeType.island) by (exists n; auto).
      pose proof (has_type_unique _ _ _ _ Hi (Hrun3 k Hk)). discriminate.
    + rewrite Hrest3 in Hn by auto.
      assert (H1 : pos_eqb (x, y) p = false).
      { apply pos_eqb_neq. intros E. now apply Hps. }
      assert (H2 : pos_eqb e p = false).
      { apply pos_eqb_neq. intros E. apply (Hprun (len + 1)); [lia|]. now symmetry. }
      rewrite H1, H2. rewrite (Hdeg p n); auto. lia.
  - exists root. split; [apply Hisl; auto|].
    intros p Hp. apply Hisl in Hp. destruct Hp as [->|Hp].
    + apply reach_step with (q := (x, y)).
      * apply reach_more. apply Hconn. split; auto.
      * exists b. split; [apply in_or_app; right; now left|]. left. auto.
    + apply reach_more. now apply Hconn.
  - exists (e :: l). split; [|split].
    + constructor; auto. intros Hin. apply Hl in Hin. now apply He_not.
    + intros p. rewrite Hisl. simpl. rewrite Hl. intuition.
    + simpl length. lia.
  - intros p Hp Hpb. apply Hb3 in Hp.
    destruct (Hclass p) as [->|[->|[(k & Hk & ->)|[Hps Hprun]]]].
    + exfalso.
      assert (Hi : has_type g3 (x, y) NodeType.island).
      { exists (add_degree t ns). split; auto. }
      pose proof (has_type_unique _ _ _ _ Hi Hpb). discriminate.
    + exfalso.
      assert (Hi : has_type g3 e NodeType.island).
      { exists (to_island t ne). split; auto. }
      pose proof (has_type_unique _ _ _ _ Hi Hpb). discriminate.
    + exists b. split; [apply in_or_app; right; now left|].
      exact (on_bridge_run x y d len k (t =? 1) Hk).
    + destruct (Hbr p Hp) as (b' & Hb' & Hon).
      * destruct Hpb as (n & Hn & Htn). rewrite Hrest3 in Hn by auto. exists n. auto.
      * exists b'. split; auto. apply in_or_app. now left.
Qed.

Lemma remove_ref_In r a l : In r (remove_ref a l) -> In r l.
Proof.
  induction l as [|r' l IH]; simpl; auto.
  destruct (pos_eqb r' a); simpl; intuition.
Qed.

Lemma gen_inv_same_grid st expand r :
  gen_inv st ->
  (forall a, In a expand -> In a (to_expand st)) ->
  gen_inv (mkGen (gen_grid st) expand (island_count st) (gen_solution st) r).
Proof.
  intros [Hwf Hexp Hends Hdeg Hconn Hcount Hbr] Hsub.
  constructor; cbn [gen_grid to_expand gen_solution island_count]; auto.
Qed.

Lemma get_random_bridge_thickness_spec g x y max_degree odds r t r' :
  get_random_bridge_thickness g x y max_degree odds r = Ok (t, r') -> t = 1 \/ t = 2.
Proof.
  unfold get_random_bridge_thickness. intros H. inv_bind H.
  destruct (max_degree - Node.degree a >=? 2).
  - destruct (random r) as [u r1]. injection H as <- _.
    destruct (float_ltb u odds); auto.
  - injection H as <- _. auto.
Qed.

(** A pass of the loop body keeps what the iterations find. *)
Lemma cycle_preserves max_degree odds shorter st st' :
  gen_inv st -> cycle max_degree odds shorter st = Ok st' ->
  gen_inv st'
  /\ Grid.width (gen_grid st') = Grid.width (gen_grid st)
  /\ Grid.height (gen_grid st') = Grid.height (gen_grid st)
  /\ island_count st <= island_count st' <= island_count st + 1.
Proof.
  intros Hinv H. unfold cycle in H.
  assert (Hsame : forall expand r,
            (forall a, In a expand -> In a (to_expand st)) ->
            let st1 := mkGen (gen_grid st) expand (island_count st) (gen_solution st) r in
            gen_inv st1
            /\ Grid.width (gen_grid st1) = Grid.width (gen_grid st)
            /\ Grid.height (gen_grid st1) = Grid.height (gen_grid st)
            /\ island_count st <= island_count st1 <= island_count st + 1).
  { intros expand r Hsub st1. split; [now apply gen_inv_same_grid|].
    cbn [st1 gen_grid island_count]. repeat split; lia. }
  inv_bind H. destruct a as [start_ref r1]. rename Ha into Hchoice.
  inv_bind H. rename a into start_node, Ha into Hstart.
  inv_bind H. destruct a as [dir r2]. rename Ha into Hdir.
  assert (Hsub : forall a, In a (remove_ref start_ref (to_expand st)) ->
                           In a (to_expand st)).
  { intros a. apply remove_ref_In. }
  destruct dir as [d|].
  2:{ injection H as <-. now apply Hsame. }
  destruct (Node.degree start_node >=? max_degree).
  { injection H as <-. now apply Hsame. }
  inv_bind H. destruct a as [t r3]. rename Ha into Hthick.
  inv_bind H. destruct a as [len r4]. rename Ha into Hlen.
  inv_bind H. rename a into end_node, Ha into Hend.
  inv_bind H. rename a into found, Ha into Hadj.
  destruct found.
  { injection H as <-. apply Hsame; auto. }
  inv_bind H. rename a into g1, Ha into Hg1.
  inv_bind H. rename a into g2, Ha into Hg2.
  inv_bind H. rename a into g3, Ha into Hg3.
  injection H as <-.
  pose proof (inv_expand _ Hinv start_ref (choice_In _ _ _ _ Hchoice)) as Hisl.
  pose proof (inv_wf _ Hinv) as Hwf.
  destruct start_ref as [x y]. cbn [fst snd] in *.
  destruct (cell_ok (gen_grid st) x y Hwf (proj1 Hisl)) as (ns & Hns & Hnx & Hny).
  assert (ns = start_node) by congruence. subst ns.
  rewrite Hnx, Hny in *.
  apply get_random_bridge_thickness_spec in Hthick.
  destruct (bridge_run_clear (gen_grid st) x y r1 d r2 shorter r3 len r4
              (proj1 Hisl) Hdir Hlen) as [Hlen1 Hrun].
  destruct (commit_preserves st x y d len t start_node r4 Hinv Hisl Hstart Hlen1 Hrun Hthick)
    as (ne & g1' & g2' & g3' & Hne & Hg1' & Hg2' & Hg3' & Hw' & Hh' & Hinv').
  change (cell (gen_grid st) (x + fst (get_vector d) * (len + 1))
            (y + snd (get_vector d) * (len + 1)) = Ok ne) in Hne.
  assert (ne = end_node) by congruence. subst ne.
  assert (g1' = g1) by congruence. subst g1'.
  assert (g2' = g2) by congruence. subst g2'.
  assert (g3' = g3) by congruence. subst g3'.
  split; [exact Hinv'|]. cbn [gen_grid island_count]. repeat split; auto; lia.
Qed.

Lemma place_seed_inv width height r st :
  place_seed width height r = Ok st ->
  gen_inv st
  /\ Grid.width (gen_grid st) = width /\ Grid.height (gen_grid st) = height.
Proof.
  unfold place_seed. intros H.
  bind_inv H as sx Hx. destruct sx as [seed_x r1].
  bind_inv H as column Hcol.
  bind_inv H as sy Hy. destruct sy as [seed_y r2].
  bind_inv H as seed Hseed.
  bind_inv H as grid Hgrid.
  injection H as <-. cbn [gen_grid].
  apply randint_range in Hx, Hy.
  assert (Hcell : cell (Grid_init width height) seed_x seed_y = Ok seed).
  { unfold cell. rewrite Hcol. exact Hseed. }
  rewrite Grid_init_cell in Hcell by lia. injection Hcell as <-.
  cbn [Node.x Node.y] in Hgrid. unfold node_ref; cbn [Node.x Node.y].
  set (g0 := Grid_init width height) in *.
  assert (Hb : in_bounds g0 (seed_x, seed_y)) by (split; simpl; lia).
  destruct (update_cell_ok g0 seed_x seed_y (to_island 0)
              (Node.mk seed_x seed_y NodeType.empty (-1))
              (Grid_init_wf width height) Hb (keeps_position_to_island 0))
    as (g' & Hg' & Hwf & Hw & Hh & Hsame & Hother).
  { apply Grid_init_cell; lia. }
  assert (g' = grid) by congruence. subst g'.
  assert (Hb' : forall p, in_bounds grid p <-> in_bounds g0 p).
  { intros p. now apply in_bounds_same_size. }
  assert (Hseed_isl : island_node grid (seed_x, seed_y)).
  { split; [now apply Hb'|]. eexists. split; [exact Hsame|reflexivity]. }
  assert (Hothers : forall p, in_bounds grid p -> p <> (seed_x, seed_y) ->
                              has_type grid p NodeType.empty).
  { intros [px py] Hp Hne. apply Hb' in Hp. eexists. split.
    - cbn [fst snd]. rewrite Hother by auto. destruct Hp as [Hpx Hpy].
      apply Grid_init_cell; simpl in *; lia.
    - reflexivity. }
  assert (Honly : forall p, island_node grid p -> p = (seed_x, seed_y)).
  { intros p [Hp Hi]. destruct (pos_eq_dec p (seed_x, seed_y)) as [|Hne]; auto.
    pose proof (has_type_unique _ _ _ _ Hi (Hothers p Hp Hne)). discriminate. }
  split; [|split; [exact Hw | exact Hh]].
  constructor; cbn [gen_grid to_expand gen_solution island_count].
  - exact Hwf.
  - intros p [<-|[]]. exact Hseed_isl.
  - intros b [].
  - intros p n Hp Hn Ht. 
    assert (Hp' : p = (seed_x, seed_y)) by (apply Honly; split; auto; exists n; auto).
    subst p. cbn [fst snd] in Hn. rewrite Hsame in Hn. injection Hn as <-. reflexivity.
  - exists (seed_x, seed_y). split; auto. intros p Hp. apply Honly in Hp. subst.
    constructor.
  - exists [(seed_x, seed_y)]. split; [|split].
    + constructor; [intros []|constructor].
    + intros p. simpl. split.
      * intros [<-|[]]. exact Hseed_isl.
      * intros Hp. left. symmetry. now apply Honly.
    + reflexivity.
  - intros p Hp Hbr. exfalso.
    destruct (pos_eq_dec p (seed_x, seed_y)) as [->|Hne].
    + destruct Hseed_isl as [_ Hi].
      pose proof (has_type_unique _ _ _ _ Hi Hbr). discriminate.
    + pose proof (has_type_unique _ _ _ _ (Hothers p Hp Hne) Hbr). discriminate.
Qed.

Lemma iteration_inv width height max_degree odds shorter st :
  iteration width height max_degree odds shorter st -> gen_inv st.
Proof.
  induction 1 as [r st Hseed|st st' _ IH Hc].
  - exact (proj1 (place_seed_inv width height r st Hseed)).
  - exact (proj1 (cycle_preserves max_degree odds shorter st st' IH Hc)).
Qed.


(** C10: in every iteration of [generate_candidate] in which
    [get_random_direction] returns a direction for the chosen start island,
    the end node computed from any length that [get_random_bridge_length]
    returns in that direction lies within the bounds of the grid, and so does
    every node between the start island and it; the accesses of the commit
    step (the end node, the two islands, the bridge nodes) raise no
    IndexError, whatever the thickness. *)
Theorem bridge_stays_on_board :
  forall width height max_degree odds shorter st start_ref r1 start_node d r2 r3 len r4,
    iteration width height max_degree odds shorter st ->
    choice (to_expand st) (gen_rng st) = Ok (start_ref, r1) ->
    cell (gen_grid st) (fst start_ref) (snd start_ref) = Ok start_node ->
    get_random_direction (gen_grid st) (Node.x start_node) (Node.y start_node) r1
    = Ok (Some d, r2) ->
    get_random_bridge_length (gen_grid st) (Node.x start_node) (Node.y start_node)
      d shorter r3 = Ok (len, r4) ->
    let grid := gen_grid st in
    let bridge_vector := get_vector d in
    let end_node_x := Node.x start_node + fst bridge_vector * (len + 1) in
    let end_node_y := Node.y start_node + snd bridge_vector * (len + 1) in
    within_bounds grid end_node_x end_node_y = true
    /\ (forall i, In i (range 0 len) ->
          within_bounds grid (Node.x start_node + fst bridge_vector * (i + 1))
            (Node.y start_node + snd bridge_vector * (i + 1)) = true)
    /\ (forall thickness, exists end_node g1 g2 g3,
          cell grid end_node_x end_node_y = Ok end_node
          /\ update_cell grid (fst start_ref) (snd start_ref) (add_degree thickness)
             = Ok g1
          /\ update_cell g1 (Node.x end_node) (Node.y end_node) (to_island thickness)
             = Ok g2
          /\ add_bridge g2 (Node.x start_node) (Node.y start_node) len d = Ok g3).
Proof.
  intros width height max_degree odds shorter st [x y] r1 start_node d r2 r3 len r4
         Hit Hchoice Hstart Hdir Hlen grid v ex ey.
  apply iteration_inv in Hit.
  pose proof (inv_expand _ Hit (x, y) (choice_In _ _ _ _ Hchoice)) as [Hb Hi].
  pose proof (inv_wf _ Hit) as Hwf. subst grid v ex ey. cbn [fst snd] in *.
  destruct (cell_ok (gen_grid st) x y Hwf Hb) as (ns & Hns & Hnx & Hny).
  assert (ns = start_node) by congruence. subst ns. rewrite Hnx, Hny in *.
  destruct (bridge_run_clear (gen_grid st) x y r1 d r2 shorter r3 len r4 Hb Hdir Hlen)
    as [Hlen1 Hrun].
  split; [|split].
  - apply within_bounds_iff. apply (Hrun (len + 1)). lia.
  - intros i Hin. apply range_In in Hin. apply within_bounds_iff.
    apply (Hrun (i + 1)). lia.
  - intros t.
    destruct (commit_cells (gen_grid st) x y d len t start_node Hwf Hb Hstart Hlen1
                (fun k Hk => proj1 (Hrun k Hk)))
      as (ne & g1 & g2 & g3 & Hne & _ & _ & Hg1 & Hg2 & Hg3 & _).
    exists ne, g1, g2, g3. auto.
Qed.

Example seeded_state_iteration :
  iteration 4 4 8 (single_bridge_odds (settings easy)) false seeded_state.
Proof.
  exact (iteration_first 4 4 8 (single_bridge_odds (settings easy)) false
           zero_rng seeded_state eq_refl).
Qed.

(** The theorem at the first iteration on a 4 by 4 board with the seed at
    (0, 0): the direction is DOWN, the length 1, the end node (0, 2). *)
Lemma bridge_stays_on_board_witness :
  within_bounds seeded_board 0 2 = true
  /\ (forall i, In i (range 0 1) ->
        within_bounds seeded_board (0 + 0 * (i + 1)) (0 + 1 * (i + 1)) = true)
  /\ (forall thickness, exists end_node g1 g2 g3,
        cell seeded_board 0 2 = Ok end_node
        /\ update_cell seeded_board 0 0 (add_degree thickness) = Ok g1
        /\ update_cell g1 (Node.x end_node) (Node.y end_node) (to_island thickness)
           = Ok g2
        /\ add_bridge g2 0 0 1 DOWN = Ok g3).
Proof.
  exact (bridge_stays_on_board 4 4 8 (single_bridge_odds (settings easy)) false
           seeded_state (0, 0) (mkRng (fun _ => O) 3)
           (Node.mk 0 0 NodeType.island 0) DOWN (mkRng (fun _ => O) 4)
           (mkRng (fun _ => O) 4) 1 (mkRng (fun _ => O) 5)
           seeded_state_iteration eq_refl eq_refl eq_refl eq_refl).
Defined.

(** ** grid.py: [to_puzzle] *)

Lemma for_each_app_NoDup {A B K : Type} (key : B -> K) (l : list A)
  (body : A -> list B -> result (list B)) (P : A -> B -> Prop) :
  NoDup l ->
  (forall a acc, In a l ->
     exists ext, body a acc = Ok (acc ++ ext)
                 /\ NoDup (map key ext) /\ forall b, In b ext <-> P a b) ->
  (forall a a' b b', P a b -> P a' b' -> key b = key b' -> a = a') ->
  forall acc,
    exists ext, for_each l body acc = Ok (acc ++ ext)
                /\ NoDup (map key ext)
                /\ forall b, In b ext <-> exists a, In a l /\ P a b.
Proof.
  intros Hnd Hbody Hkey. induction l as [|a l IH]; intros acc; simpl.
  - exists []. rewrite app_nil_r. split; auto. split; [constructor|].
    intros b. split; [contradiction|]. intros (a & [] & _).
  - inversion Hnd as [|a' l' Ha Hl]; subst.
    destruct (Hbody a acc (or_introl eq_refl)) as (e1 & -> & N1 & H1). simpl.
    destruct (IH Hl (fun a' acc' Hin => Hbody a' acc' (or_intror Hin)) (acc ++ e1))
      as (e2 & -> & N2 & H2).
    exists (e1 ++ e2). split; [now rewrite app_assoc|]. split.
    + rewrite map_app. apply NoDup_app; auto.
      intros k Hk1 Hk2. apply in_map_iff in Hk1, Hk2.
      destruct Hk1 as (b1 & <- & Hb1). destruct Hk2 as (b2 & E & Hb2).
      apply H1 in Hb1. apply H2 in Hb2. destruct Hb2 as (a2 & Ha2 & Hb2).
      assert (a2 = a) by (eapply Hkey; eauto). subst. contradiction.
    + intros b. rewrite in_app_iff, H1, H2. split.
      * intros [H|(a' & Ha' & H)]; eauto.
      * intros (a' & [<-|Ha'] & H); eauto.
Qed.

Lemma range_NoDup a b : NoDup (range a b).
Proof.
  unfold range. generalize (seq_NoDup (Z.to_nat (b - a)) 0).
  generalize (seq 0 (Z.to_nat (b - a))).
  induction l as [|k l IH]; intros H; simpl; [constructor|].
  inversion H; subst. constructor; auto.
  intros Hin. apply in_map_iff in Hin. destruct Hin as (k' & E & Hk').
  assert (k' = k) by lia. subst. contradiction.
Qed.

(** The islands of the puzzle of a grid: one for each island node, with its
    position and its degree, no position twice. *)
Lemma to_puzzle_spec g :
  grid_wf g ->
  exists islands,
    to_puzzle g = Ok (Puzzle.mk (Grid.width g) (Grid.height g) islands None)
    /\ NoDup (map island_pos islands)
    /\ forall i, In i islands <->
         in_bounds g (island_pos i)
         /\ exists n, cell g (Island.x i) (Island.y i) = Ok n
                      /\ Node.type n = NodeType.island
                      /\ Node.degree n = Island.degree i.
Proof.
  intros Hwf. unfold to_puzzle.
  set (Q := fun (x y : Z) (i : Island.t) =>
              Island.x i = x /\ Island.y i = y
              /\ exists n, cell g x y = Ok n /\ Node.type n = NodeType.island
                           /\ Node.degree n = Island.degree i).
  destruct (for_each_app_NoDup island_pos (range 0 (Grid.width g))
              (fun x islands =>
                 for_each (range 0 (Grid.height g)) (fun y islands =>
                   node <- cell g x y ;;
                   if NodeType.eqb (Node.type node) NodeType.island
                   then Ok (islands ++ [Island.mk x y (Node.degree node)])
                   else Ok islands) islands)
              (fun x i => exists y, In y (range 0 (Grid.height g)) /\ Q x y i))
    with (acc := @nil Island.t) as (islands & Hrun & Hnd & Hmem).
  - apply range_NoDup.
  - intros x acc Hx. apply range_In in Hx.
    apply (for_each_app_NoDup island_pos (range 0 (Grid.height g))
             (fun y islands =>
                node <- cell g x y ;;
                if NodeType.eqb (Node.type node) NodeType.island
                then Ok (islands ++ [Island.mk x y (Node.degree node)])
                else Ok islands)
             (Q x)).
    + apply range_NoDup.
    + intros y acc' Hy. apply range_In in Hy.
      destruct (cell_ok g x y Hwf) as (n & Hn & _); [split; simpl; lia|].
      rewrite Hn. cbn [bind].
      destruct (NodeType.eqb (Node.type n) NodeType.island) eqn:Et.
      * exists [Island.mk x y (Node.degree n)]. split; auto.
        split; [repeat constructor; intros []|].
        intros i. simpl. unfold Q. split.
        -- intros [<-|[]]. simpl. repeat split. exists n. repeat split; auto.
           destruct (Node.type n); auto; discriminate.
        -- intros (Ex & Ey & n' & Hn' & _ & Hd). left.
           assert (n' = n) by congruence. subst. destruct i; simpl in *. congruence.
      * exists []. rewrite app_nil_r. split; auto. split; [constructor|].
        intros i. split; [contradiction|]. intros (_ & _ & n' & Hn' & Ht & _).
        assert (n' = n) by congruence. subst. rewrite Ht in Et. discriminate.
    + intros y y' i i' (_ & Hy & _) (_ & Hy' & _) E.
      injection E as _ E. congruence.
  - intros x x' i i' (y & _ & Hx & _) (y' & _ & Hx' & _) E.
    injection E as E _. congruence.
  - rewrite Hrun. cbn [bind app]. exists islands. split; auto. split; auto.
    intros i. rewrite Hmem. unfold Q, in_bounds. cbn [island_pos fst snd]. split.
    + intros (x & Hx & y & Hy & Ex & Ey & Hn). apply range_In in Hx, Hy. subst.
      split; [lia|]. exact Hn.
    + intros ([Hx Hy] & Hn). exists (Island.x i). split; [apply range_In; lia|].
      exists (Island.y i). split; [apply range_In; lia|]. auto.
Qed.

(** ** The planted solution passes the verifier *)

Lemma island_node_listed g islands :
  (forall i, In i islands <->
     in_bounds g (island_pos i)
     /\ exists n, cell g (Island.x i) (Island.y i) = Ok n
                  /\ Node.type n = NodeType.island
                  /\ Node.degree n = Island.degree i) ->
  forall q, island_node g q <-> In q (map island_pos islands).
Proof.
  intros Hmem q. split.
  - intros [Hb (n & Hn & Ht)]. apply in_map_iff.
    exists (Island.mk (fst q) (snd q) (Node.degree n)). split; [now destruct q|].
    apply Hmem. split; [now destruct q|]. exists n. auto.
  - intros Hin. apply in_map_iff in Hin. destruct Hin as (i & <- & Hi).
    apply Hmem in Hi. destruct Hi as [Hb (n & Hn & Ht & _)].
    split; auto. exists n. auto.
Qed.

Lemma planted_solution_passes st islands w h :
  gen_inv st ->
  to_puzzle (gen_grid st) = Ok (Puzzle.mk w h islands None) ->
  check_solution (Puzzle.mk w h islands (Some (gen_solution st))) = pass.
Proof.
  intros [Hwf Hexp Hends Hdeg (root & Hroot & Hconn) _ _] Hp.
  destruct (to_puzzle_spec (gen_grid st) Hwf) as (islands' & Hp' & Hnd & Hmem).
  rewrite Hp in Hp'. injection Hp' as _ _ <-.
  pose proof (island_node_listed (gen_grid st) islands Hmem) as Hlisted.
  assert (Hendp : endpoints_are_islands islands (gen_solution st)).
  { intros b Hb. destruct (Hends b Hb) as [H1 H2]. split; now apply Hlisted. }
  destruct (degrees_match_spec islands (gen_solution st) Hnd Hendp) as (ok & Hok & Hiff).
  assert (ok = true).
  { destruct ok; auto. destruct (proj1 Hiff eq_refl) as (i & Hi & Hr).
    exfalso. apply Hr. apply Hmem in Hi. destruct Hi as [Hb (n & Hn & Ht & Hd)].
    unfold residual. rewrite <- Hd. rewrite (Hdeg (island_pos i) n); auto. lia. }
  subst ok.
  destruct islands as [|first rest].
  { exfalso. apply Hlisted in Hroot. contradiction. }
  destruct (fully_connected_spec (first :: rest) (gen_solution st) first Hendp eq_refl)
    as (ok & Hconnected & Htrue & _).
  assert (ok = true).
  { apply Htrue. intros i Hi.
    apply reach_trans with (q := root).
    - apply reach_sym. apply Hconn. apply Hlisted. apply in_map. now left.
    - apply Hconn. apply Hlisted. now apply in_map. }
  subst ok.
  unfold check_solution. cbn [Puzzle.solution Puzzle.islands].
  rewrite Hok. cbn [bind negb]. rewrite Hconnected. reflexivity.
Qed.

(** ** generator.py: [generate_candidate] and [generate] *)

Lemma cycles_preserve max_degree odds shorter min_island_count n :
  forall st st',
    gen_inv st ->
    cycles max_degree odds shorter min_island_count n st = Ok st' ->
    gen_inv st'
    /\ Grid.width (gen_grid st') = Grid.width (gen_grid st)
    /\ Grid.height (gen_grid st') = Grid.height (gen_grid st).
Proof.
  induction n as [|n IH]; intros st st' Hinv H; simpl in H.
  - injection H as <-. auto.
  - destruct (length (to_expand st) =? 0)%nat; [injection H as <-; auto|].
    destruct (island_count st >=? min_island_count); [injection H as <-; auto|].
    inv_bind H. rename a into st1.
    destruct (cycle_preserves max_degree odds shorter st st1 Hinv Ha)
      as (Hinv1 & Hw1 & Hh1 & _).
    destruct (IH st1 st' Hinv1 H) as (Hinv' & Hw' & Hh').
    split; auto. split; congruence.
Qed.

Lemma generate_candidate_spec width height max_degree odds shorter min_island_count
  max_cycles r grid count solution r' :
  generate_candidate width height max_degree odds shorter min_island_count max_cycles r
  = Ok (grid, count, solution, r') ->
  exists st,
    gen_inv st /\ gen_grid st = grid /\ island_count st = count
    /\ gen_solution st = solution
    /\ Grid.width grid = width /\ Grid.height grid = height.
Proof.
  unfold generate_candidate. intros H.
  bind_inv H as st0 Hseed.
  bind_inv H as st Hcycles.
  injection H as <- <- <- _.
  destruct (place_seed_inv width height r st0 Hseed) as (Hinv0 & Hw0 & Hh0).
  destruct (cycles_preserve _ _ _ _ _ _ _ Hinv0 Hcycles) as (Hinv & Hw & Hh).
  exists st.
  split; [exact Hinv|]. split; [reflexivity|]. split; [reflexivity|].
  split; [reflexivity|]. split; congruence.
Qed.

Lemma all_empty_false g cells :
  all_empty g cells = Ok false ->
  exists c n, In c cells /\ cell g (fst c) (snd c) = Ok n
              /\ Node.type n <> NodeType.empty.
Proof.
  unfold all_empty.
  assert (H : forall acc,
            for_each cells (fun c acc =>
              e <- cell_is_empty g (fst c) (snd c) ;; Ok (acc && e)) acc = Ok false ->
            acc = false
            \/ exists c n, In c cells /\ cell g (fst c) (snd c) = Ok n
                           /\ Node.type n <> NodeType.empty).
  { induction cells as [|c cells IH]; intros acc Hrun; simpl in Hrun.
    - injection Hrun as ->. auto.
    - bind_inv Hrun as s' Hbody. bind_inv Hbody as e He. injection Hbody as <-.
      unfold cell_is_empty in He. bind_inv He as node Hnode. injection He as <-.
      apply IH in Hrun. destruct Hrun as [Hacc|(c' & n & Hc' & Hn)].
      + apply andb_false_iff in Hacc. destruct Hacc as [|Ht]; auto.
        right. exists c, node. split; [now left|]. split; auto.
        intros E. rewrite E in Ht. discriminate.
      + right. exists c', n. split; [now right|]. exact Hn. }
  intros Hrun. apply H in Hrun. destruct Hrun as [|]; [discriminate|auto].
Qed.

Lemma py_index_nonneg {A : Type} (l : list A) i a :
  0 <= i -> py_index l i = Ok a -> i < Z.of_nat (length l).
Proof.
  intros Hi. unfold py_index, py_norm.
  destruct (Z.ltb_spec i (Z.of_nat (length l))); auto.
  replace (0 <=? i) with true by (symmetry; now apply Z.leb_le). cbn [andb].
  replace (i <? 0) with false by (symmetry; apply Z.ltb_ge; lia).
  rewrite andb_false_r. discriminate.
Qed.

Lemma py_index_last_Ok {A : Type} (l : list A) a :
  py_index l (-1) = Ok a ->
  0 < Z.of_nat (length l) /\ py_index l (Z.of_nat (length l) - 1) = Ok a.
Proof.
  intros H. destruct l as [|a' l]; [discriminate|].
  split; [simpl; lia|]. rewrite <- py_index_last; auto. discriminate.
Qed.

Lemma cell_in_range g x y n :
  grid_wf g -> 0 <= x -> 0 <= y -> cell g x y = Ok n -> in_bounds g (x, y).
Proof.
  intros [Hlen Hcols] Hx Hy H. unfold cell in H. inv_bind H. rename a into column.
  pose proof (py_index_nonneg _ _ _ Hx Ha) as Hx'.
  pose proof (py_index_nonneg _ _ _ Hy H) as Hy'.
  destruct (py_index_nth (Grid.grid g) x) as (c & Hc & Hc'); [lia|].
  assert (c = column) by congruence. subst c.
  destruct (Hcols _ _ Hc) as [Hclen _].
  split; simpl; lia.
Qed.

Lemma cell_last_row g x n :
  grid_wf g -> 0 <= x -> cell g x (-1) = Ok n ->
  cell g x (Grid.height g - 1) = Ok n.
Proof.
  intros [Hlen Hcols] Hx H. unfold cell in *. inv_bind H. rename a into column.
  rewrite Ha. cbn [bind].
  pose proof (py_index_nonneg _ _ _ Hx Ha) as Hx'.
  destruct (py_index_nth (Grid.grid g) x) as (c & Hc & Hc'); [lia|].
  assert (c = column) by congruence. subst c.
  destruct (Hcols _ _ Hc) as [Hclen _].
  apply py_index_last_Ok in H. destruct H as [Hpos H].
  rewrite Hclen in H, Hpos. rewrite Z2Nat.id in H by lia. exact H.
Qed.

Lemma cell_last_column g y n :
  grid_wf g -> cell g (-1) y = Ok n ->
  cell g (Grid.width g - 1) y = Ok n.
Proof.
  intros [Hlen Hcols] H. unfold cell in *. inv_bind H. rename a into column.
  apply py_index_last_Ok in Ha. destruct Ha as [Hpos Ha].
  rewrite Hlen in Ha, Hpos. rewrite Z2Nat.id in Ha by lia.
  rewrite Ha. exact H.
Qed.

(** A node that is not empty on an outer line of the board shares that line
    with an island: a bridge node lies strictly between its two islands, so a
    bridge through an outer line runs along it. *)
Lemma outer_line_island st p n :
  gen_inv st ->
  in_bounds (gen_grid st) p ->
  cell (gen_grid st) (fst p) (snd p) = Ok n ->
  Node.type n <> NodeType.empty ->
  (snd p = 0 \/ snd p = Grid.height (gen_grid st) - 1 ->
   exists q, island_node (gen_grid st) q /\ snd q = snd p)
  /\ (fst p = 0 \/ fst p = Grid.width (gen_grid st) - 1 ->
      exists q, island_node (gen_grid st) q /\ fst q = fst p).
Proof.
  intros Hinv Hb Hn Ht.
  destruct (Node.type n) eqn:E; [congruence| |].
  - assert (Hi : island_node (gen_grid st) p) by (split; auto; exists n; auto).
    split; intros _; exists p; auto.
  - destruct (inv_bridges _ Hinv p Hb) as (b & Hin & Hon); [exists n; auto|].
    destruct (inv_ends _ Hinv b Hin) as [[[H1x H1y] I1] [[H2x H2y] I2]].
    unfold on_bridge in Hon. cbn zeta in Hon.
    set (p1 := island_pos (Bridge.node1 b)) in *.
    set (p2 := island_pos (Bridge.node2 b)) in *.
    assert (Hp1 : island_node (gen_grid st) p1) by (split; [split|]; auto).
    destruct Hb as [Hbx Hby].
    split; intros Hline.
    + destruct Hon as [(Ex & Epx & Hy)|(Ey & Epy & Hx)]; [lia|].
      exists p1. split; auto.
    + destruct Hon as [(Ex & Epx & Hy)|(Ey & Epy & Hx)]; [|lia].
      exists p1. split; auto.
Qed.

Lemma is_candidate_full_spec st :
  gen_inv st ->
  is_candidate_full (gen_grid st) = Ok true ->
  (exists q, island_node (gen_grid st) q /\ snd q = 0)
  /\ (exists q, island_node (gen_grid st) q /\ snd q = Grid.height (gen_grid st) - 1)
  /\ (exists q, island_node (gen_grid st) q /\ fst q = 0)
  /\ (exists q, island_node (gen_grid st) q /\ fst q = Grid.width (gen_grid st) - 1).
Proof.
  intros Hinv H. pose proof (inv_wf _ Hinv) as Hwf. set (g := gen_grid st) in *.
  unfold is_candidate_full in H.
  inv_bind H. destruct a; [discriminate|]. rename Ha into Htop.
  inv_bind H. destruct a; [discriminate|]. rename Ha into Hbottom.
  inv_bind H. destruct a; [discriminate|]. rename Ha into Hfirst.
  inv_bind H. destruct a; [discriminate|]. rename Ha into Hlast. clear H.
  apply all_empty_false in Htop, Hbottom, Hfirst, Hlast.
  split; [|split; [|split]].
  - destruct Htop as (c & n & Hc & Hn & Ht).
    apply in_map_iff in Hc. destruct Hc as (i & <- & Hi). apply range_In in Hi.
    cbn [fst snd] in Hn.
    assert (Hb : in_bounds g (i, 0)) by (apply (cell_in_range g i 0 n); auto; lia).
    destruct (outer_line_island st (i, 0) n Hinv Hb Hn Ht) as [H _].
    apply H. now left.
  - destruct Hbottom as (c & n & Hc & Hn & Ht).
    apply in_map_iff in Hc. destruct Hc as (i & <- & Hi). apply range_In in Hi.
    cbn [fst snd] in Hn. apply cell_last_row in Hn; auto; [|lia].
    assert (Hb : in_bounds g (i, Grid.height g - 1)).
    { destruct (Z_lt_le_dec (Grid.height g - 1) 0) as [Hneg|Hpos].
      - exfalso. destruct Hwf as [Hlen Hcols]. unfold cell in Hn. inv_bind Hn.
        assert (Hi' : 0 <= i) by lia.
        pose proof (py_index_nonneg _ _ _ Hi' Ha) as Hx'.
        destruct (py_index_nth (Grid.grid g) i) as (c & Hc & Hc'); [lia|].
        assert (c = a) by congruence. subst c.
        destruct (Hcols _ _ Hc) as [Hclen _].
        assert (a = []) by (destruct a; auto; simpl in Hclen; lia). subst a.
        unfold py_index, py_norm in Hn. simpl length in Hn.
        destruct ((0 <=? Grid.height g - 1) && (Grid.height g - 1 <? Z.of_nat 0));
          [destruct (Z.to_nat _); discriminate|].
        destruct ((- Z.of_nat 0 <=? Grid.height g - 1) && (Grid.height g - 1 <? 0));
          [destruct (Z.to_nat _); discriminate|discriminate].
      - apply (cell_in_range g i (Grid.height g - 1) n); auto; lia. }
    destruct (outer_line_island st (i, Grid.height g - 1) n Hinv Hb Hn Ht) as [H _].
    apply H. now right.
  - destruct Hfirst as (c & n & Hc & Hn & Ht).
    apply in_map_iff in Hc. destruct Hc as (i & <- & Hi). apply range_In in Hi.
    cbn [fst snd] in Hn.
    assert (Hb : in_bounds g (0, i)) by (apply (cell_in_range g 0 i n); auto; lia).
    destruct (outer_line_island st (0, i) n Hinv Hb Hn Ht) as [_ H].
    apply H. now left.
  - destruct Hlast as (c & n & Hc & Hn & Ht).
    apply in_map_iff in Hc. destruct Hc as (i & <- & Hi). apply range_In in Hi.
    cbn [fst snd] in Hn. apply cell_last_column in Hn; auto.
    assert (Hb : in_bounds g (Grid.width g - 1, i)).
    { destruct (Z_lt_le_dec (Grid.width g - 1) 0) as [Hneg|Hpos].
      - exfalso. destruct Hwf as [Hlen Hcols]. unfold cell in Hn. inv_bind Hn.
        assert (Hnil : Grid.grid g = []).
        { destruct (Grid.grid g); auto. simpl in Hlen. lia. }
        rewrite Hnil in Ha. unfold py_index, py_norm in Ha. simpl length in Ha.
        destruct ((0 <=? Grid.width g - 1) && (Grid.width g - 1 <? Z.of_nat 0));
          [destruct (Z.to_nat _); discriminate|].
        destruct ((- Z.of_nat 0 <=? Grid.width g - 1) && (Grid.width g - 1 <? 0));
          [destruct (Z.to_nat _); discriminate|discriminate].
      - apply (cell_in_range g (Grid.width g - 1) i n); auto; lia. }
    destruct (outer_line_island st (Grid.width g - 1, i) n Hinv Hb Hn Ht) as [_ H].
    apply H. now right.
Qed.

Lemma min_island_count_of_ge width height density m :
  min_island_count_of width height density = Ok m -> 4 <= m.
Proof.
  unfold min_island_count_of. intros H.
  bind_inv H as area Harea. bind_inv H as q Hq. bind_inv H as n Hn.
  injection H as <-. lia.
Qed.

(** What an accepted attempt of [generate] leaves: a state of the loop of
    [generate_candidate] with enough islands for the density then in force
    and a full board, and the puzzle read off its grid. *)
Lemma generate_loop_result fuel :
  forall width height s density r p,
    generate_loop fuel width height s density r = Ok p ->
    exists k m st islands,
      min_island_count_of width height (loosened k density) = Ok m
      /\ gen_inv st
      /\ Grid.width (gen_grid st) = width /\ Grid.height (gen_grid st) = height
      /\ m <= island_count st
      /\ is_candidate_full (gen_grid st) = Ok true
      /\ to_puzzle (gen_grid st) = Ok (Puzzle.mk width height islands None)
      /\ p = Puzzle.mk width height islands (Some (gen_solution st)).
Proof.
  induction fuel as [|fuel IH]; intros width height s density r p H;
    cbn [generate_loop] in H; [discriminate|].
  bind_inv H as m Hm.
  bind_inv H as attempt Hattempt. destruct attempt as [[[grid count] solution] r'].
  destruct (Z.ltb_spec count m) as [Hshort|Henough].
  - apply IH in H. destruct H as (k & m' & st & islands & Hm' & Hrest).
    exists (S k), m', st, islands. split; [|exact Hrest].
    unfold loosened in *. now rewrite Nat.iter_succ_r.
  - bind_inv H as full Hfull. destruct full.
    + bind_inv H as puzzle Hpuzzle. injection H as <-.
      apply generate_candidate_spec in Hattempt.
      destruct Hattempt as (st & Hinv & <- & <- & <- & Hw & Hh).
      destruct (to_puzzle_spec (gen_grid st) (inv_wf _ Hinv)) as (islands & Hp & _).
      rewrite Hp in Hpuzzle. injection Hpuzzle as <-. rewrite Hw, Hh in Hp.
      exists O, m, st, islands. rewrite Hw, Hh. cbn [loosened Nat.iter].
      repeat (split; [assumption || reflexivity|]). reflexivity.
    + apply IH in H. exact H.
Qed.

(** C1: whatever the board size, the tier and the random draws, a puzzle
    that [generate] returns passes [check_solution] with the solution that
    was planted in it. *)
Theorem generated_puzzle_passes :
  forall fuel width height difficulty r p,
    generate fuel width height difficulty r = Ok p ->
    check_solution p = pass.
Proof.
  intros fuel width height difficulty r p H. unfold generate in H.
  apply generate_loop_result in H.
  destruct H as (k & m & st & islands & _ & Hinv & _ & _ & _ & _ & Hp & ->).
  eapply planted_solution_passes; eauto.
Qed.

Example generate_five_islands :
  generate 1 4 4 easy five_island_rng
  = Ok (Puzzle.mk 4 4
          [Island.mk 0 0 2; Island.mk 0 3 2; Island.mk 2 0 2; Island.mk 2 2 1;
           Island.mk 3 3 1]
          (Some [Bridge.mk (Island.mk 0 0 0) (Island.mk 2 0 0) true;
                 Bridge.mk (Island.mk 0 0 0) (Island.mk 0 3 0) true;
                 Bridge.mk (Island.mk 0 3 0) (Island.mk 3 3 0) true;
                 Bridge.mk (Island.mk 2 0 0) (Island.mk 2 2 0) true])).
Proof. vm_compute. reflexivity. Qed.

(** The theorem at a run on a 4 by 4 board of the easy tier that places five
    islands. *)
Lemma generated_puzzle_passes_witness :
  check_solution
    (Puzzle.mk 4 4
       [Island.mk 0 0 2; Island.mk 0 3 2; Island.mk 2 0 2; Island.mk 2 2 1;
        Island.mk 3 3 1]
       (Some [Bridge.mk (Island.mk 0 0 0) (Island.mk 2 0 0) true;
              Bridge.mk (Island.mk 0 0 0) (Island.mk 0 3 0) true;
              Bridge.mk (Island.mk 0 3 0) (Island.mk 3 3 0) true;
              Bridge.mk (Island.mk 2 0 0) (Island.mk 2 2 0) true]))
  = pass.
Proof.
  apply (generated_puzzle_passes 1 4 4 easy five_island_rng).
  vm_compute. reflexivity.
Defined.

Lemma island_count_listed st islands :
  gen_inv st ->
  NoDup (map island_pos islands) ->
  (forall q, island_node (gen_grid st) q <-> In q (map island_pos islands)) ->
  Z.of_nat (length islands) = island_count st + 1.
Proof.
  intros Hinv Hnd Hlisted. destruct (inv_count _ Hinv) as (l & Hl & Hmem & Hlen).
  rewrite <- Hlen. f_equal. rewrite <- (length_map island_pos islands).
  apply Permutation_length. apply NoDup_Permutation; auto.
  intros q. now rewrite <- Hlisted, Hmem.
Qed.

(** The density after the rejected attempts is that of the start plus
    [decay] for each attempt that fell short. *)
Lemma rejected_density width height s density r k density' r' :
  rejected width height s density r k density' r' -> density' = loosened k density.
Proof.
  induction 1 as [density r| density r m grid count solution r1 k density' r' _ _ _ _ IH
                 | density r m grid count solution r1 k density' r' _ _ _ _ _ IH].
  - reflexivity.
  - rewrite IH. unfold loosened. now rewrite Nat.iter_succ_r.
  - exact IH.
Qed.

(** The loop of [generate] returns [p] only through rejected attempts
    followed by an accepted one. *)
Lemma generate_loop_attempts fuel :
  forall width height s density r p,
    generate_loop fuel width height s density r = Ok p ->
    exists k m r0,
      rejected width height s density r k (loosened k density) r0
      /\ accepted width height s (loosened k density) r0 m p.
Proof.
  induction fuel as [|fuel IH]; intros width height s density r p H;
    cbn [generate_loop] in H; [discriminate|].
  bind_inv H as m Hm.
  bind_inv H as attempt Hattempt. destruct attempt as [[[grid count] solution] r'].
  destruct (Z.ltb_spec count m) as [Hshort|Henough].
  - apply IH in H. destruct H as (k & m' & r0 & Hrej & Hacc).
    exists (S k), m', r0.
    assert (E : loosened (S k) density = loosened k (float_add density decay)).
    { unfold loosened. now rewrite Nat.iter_succ_r. }
    rewrite E. split; [|exact Hacc].
    exact (rejected_short _ _ _ _ _ _ _ _ _ _ _ _ _ Hm Hattempt Hshort Hrej).
  - bind_inv H as full Hfull. destruct full.
    + bind_inv H as puzzle Hpuzzle. injection H as <-.
      exists O, m, r. cbn [loosened Nat.iter]. split; [apply rejected_none|].
      exists grid, count, solution, r', puzzle. auto 10.
    + apply IH in H. destruct H as (k & m' & r0 & Hrej & Hacc).
      exists k, m', r0. split; [|exact Hacc].
      exact (rejected_not_full _ _ _ _ _ _ _ _ _ _ _ _ _ Hm Hattempt Henough Hfull Hrej).
Qed.

(** Conversely, rejected attempts followed by an accepted one make the loop
    return, given the attempts it needs. *)
Lemma attempts_return width height s density r k density' r0 m p :
  rejected width height s density r k density' r0 ->
  accepted width height s density' r0 m p ->
  exists fuel, generate_loop fuel width height s density r = Ok p.
Proof.
  induction 1 as [density r
                 | density r m1 grid count solution r1 k density' r' Hm Hc Hlt _ IH
                 | density r m1 grid count solution r1 k density' r' Hm Hc Hle Hfull _ IH];
    intros Hacc.
  - destruct Hacc as (grid & count & solution & r' & puzzle & Hm & Hc & Hle & Hfull
                      & Hp & ->).
    exists 1%nat. cbn [generate_loop]. rewrite Hm. cbn [bind]. rewrite Hc. cbn [bind].
    destruct (Z.ltb_spec count m) as [|_]; [lia|].
    rewrite Hfull. cbn [bind]. rewrite Hp. reflexivity.
  - destruct (IH Hacc) as [fuel Hf]. exists (S fuel).
    cbn [generate_loop]. rewrite Hm. cbn [bind]. rewrite Hc. cbn [bind].
    destruct (Z.ltb_spec count m1) as [_|]; [exact Hf|lia].
  - destruct (IH Hacc) as [fuel Hf]. exists (S fuel).
    cbn [generate_loop]. rewrite Hm. cbn [bind]. rewrite Hc. cbn [bind].
    destruct (Z.ltb_spec count m1) as [|_]; [lia|].
    rewrite Hfull. cbn [bind]. exact Hf.
Qed.

(** The attempts of a run are those and no others: the number of attempts
    that fell short before the accepted one, the density and the oracle at
    the accepted attempt, its threshold and the puzzle are determined by the
    start. *)
Lemma attempts_unique width height s density r k1 d1 r1 m1 p1 :
  rejected width height s density r k1 d1 r1 ->
  accepted width height s d1 r1 m1 p1 ->
  forall k2 d2 r2 m2 p2,
    rejected width height s density r k2 d2 r2 ->
    accepted width height s d2 r2 m2 p2 ->
    k1 = k2 /\ d1 = d2 /\ r1 = r2 /\ m1 = m2 /\ p1 = p2.
Proof.
  induction 1 as [density r
                 | density r m grid count solution r' k density' r'' Hm Hc Hlt _ IH
                 | density r m grid count solution r' k density' r'' Hm Hc Hle Hfull _ IH];
    intros Hacc k2 d2 r2 m2 p2 Hrej2 Hacc2.
  - destruct Hacc as (grid & count & solution & r' & puzzle & Hm & Hc & Hle & Hfull
                      & Hp & ->).
    inversion Hrej2 as [density0 r0
                       | density0 r0 m' grid' count' solution' r1' k' d' r'' Hm' Hc' Hlt' _
                       | density0 r0 m' grid' count' solution' r1' k' d' r'' Hm' Hc' Hle'
                           Hfull' _]; subst.
    + destruct Hacc2 as (grid2 & count2 & solution2 & r2' & puzzle2 & Hm2 & Hc2 & _ & _
                         & Hp2 & ->).
      assert (m1 = m2) by congruence. subst m2.
      assert (E : (grid, count, solution, r') = (grid2, count2, solution2, r2'))
        by congruence.
      injection E as <- <- <- <-.
      assert (puzzle = puzzle2) by congruence. subst. auto.
    + assert (m1 = m') by congruence. subst m'.
      assert (E : (grid, count, solution, r') = (grid', count', solution', r1'))
        by congruence.
      injection E as <- <- <- <-. lia.
    + assert (m1 = m') by congruence. subst m'.
      assert (E : (grid, count, solution, r') = (grid', count', solution', r1'))
        by congruence.
      injection E as <- <- <- <-. congruence.
  - inversion Hrej2 as [density0 r0
                       | density0 r0 m' grid' count' solution' r1' k' d' r3 Hm' Hc' Hlt' Hrest
                       | density0 r0 m' grid' count' solution' r1' k' d' r3 Hm' Hc' Hle'
                           Hfull' Hrest]; subst.
    + destruct Hacc2 as (grid2 & count2 & solution2 & r2' & puzzle2 & Hm2 & Hc2 & Hle2 & _).
      assert (m = m2) by congruence. subst m2.
      assert (E : (grid, count, solution, r') = (grid2, count2, solution2, r2'))
        by congruence.
      injection E as <- <- <- <-. lia.
    + assert (m = m') by congruence. subst m'.
      assert (E : (grid, count, solution, r') = (grid', count', solution', r1'))
        by congruence.
      injection E as <- <- <- <-.
      destruct (IH Hacc _ _ _ _ _ Hrest Hacc2) as (-> & Hrest'). auto.
    + assert (m = m') by congruence. subst m'.
      assert (E : (grid, count, solution, r') = (grid', count', solution', r1'))
        by congruence.
      injection E as <- <- <- <-. lia.
  - inversion Hrej2 as [density0 r0
                       | density0 r0 m' grid' count' solution' r1' k' d' r3 Hm' Hc' Hlt' Hrest
                       | density0 r0 m' grid' count' solution' r1' k' d' r3 Hm' Hc' Hle'
                           Hfull' Hrest]; subst.
    + destruct Hacc2 as (grid2 & count2 & solution2 & r2' & puzzle2 & Hm2 & Hc2 & _ & Hfull2
                         & _).
      assert (m = m2) by congruence. subst m2.
      assert (E : (grid, count, solution, r') = (grid2, count2, solution2, r2'))
        by congruence.
      injection E as <- <- <- <-. congruence.
    + assert (m = m') by congruence. subst m'.
      assert (E : (grid, count, solution, r') = (grid', count', solution', r1'))
        by congruence.
      injection E as <- <- <- <-. lia.
    + assert (m = m') by congruence. subst m'.
      assert (E : (grid, count, solution, r') = (grid', count', solution', r1'))
        by congruence.
      injection E as <- <- <- <-.
      exact (IH Hacc _ _ _ _ _ Hrest Hacc2).
Qed.

(** [generate] returns a puzzle, given attempts enough, exactly when its
    attempts are rejected up to one that is accepted with that puzzle. *)
Lemma generate_returns_iff_attempts width height difficulty r p :
  (exists fuel, generate fuel width height difficulty r = Ok p)
  <-> exists k m r0,
        rejected width height (settings difficulty)
          (max_island_density (settings difficulty)) r k
          (loosened k (max_island_density (settings difficulty))) r0
        /\ accepted width height (settings difficulty)
             (loosened k (max_island_density (settings difficulty))) r0 m p.
Proof.
  split.
  - intros [fuel H]. unfold generate in H. now apply generate_loop_attempts in H.
  - intros (k & m & r0 & Hrej & Hacc). unfold generate.
    exact (attempts_return _ _ _ _ _ _ _ _ _ _ Hrej Hacc).
Qed.

(** C8, as amended: when [generate] returns, the puzzle has the size asked
    for.  The attempts before the accepted one were rejected, [k] of them
    because they fell short of their threshold, and the accepted attempt ran
    at the density of the tier plus 0.01 for each of these [k] attempts, and
    for no other; the puzzle has one island more than the threshold
    max(4, floor(width * height / density)) of that density, hence at least
    five islands; and each of the four outer lines of its board holds an
    island. *)
Theorem generate_result :
  forall fuel width height difficulty r p,
    generate fuel width height difficulty r = Ok p ->
    Puzzle.width p = width /\ Puzzle.height p = height
    /\ (exists k m r0,
          rejected width height (settings difficulty)
            (max_island_density (settings difficulty)) r k
            (loosened k (max_island_density (settings difficulty))) r0
          /\ accepted width height (settings difficulty)
               (loosened k (max_island_density (settings difficulty))) r0 m p
          /\ min_island_count_of width height
               (loosened k (max_island_density (settings difficulty))) = Ok m
          /\ m + 1 <= Z.of_nat (length (Puzzle.islands p)))
    /\ 5 <= Z.of_nat (length (Puzzle.islands p))
    /\ outer_lines_used p.
Proof.
  intros fuel width height difficulty r p H. unfold generate in H.
  apply generate_loop_attempts in H. destruct H as (k & m & r0 & Hrej & Hacc).
  pose proof Hacc as Hacc'.
  destruct Hacc' as (grid & count & solution & r' & puzzle & Hm & Hattempt & Hcount
                     & Hfull & Hp & ->).
  apply generate_candidate_spec in Hattempt.
  destruct Hattempt as (st & Hinv & <- & <- & <- & Hw & Hh).
  destruct (to_puzzle_spec (gen_grid st) (inv_wf _ Hinv)) as (islands & Hp' & Hnd & Hmem).
  rewrite Hp in Hp'. injection Hp' as ->.
  pose proof (island_node_listed (gen_grid st) islands Hmem) as Hlisted.
  pose proof (island_count_listed st islands Hinv Hnd Hlisted) as Hlen.
  pose proof (min_island_count_of_ge _ _ _ _ Hm) as Hm4.
  unfold with_solution. cbn [Puzzle.width Puzzle.height Puzzle.islands].
  split; [exact Hw|]. split; [exact Hh|]. split.
  { exists k, m, r0. split; [exact Hrej|]. split; [exact Hacc|]. split; [exact Hm|]. lia. }
  split; [lia|].
  destruct (is_candidate_full_spec st Hinv Hfull) as (Htop & Hbottom & Hfirst & Hlast).
  assert (Hisland : forall q, island_node (gen_grid st) q ->
            exists i, In i islands /\ Island.x i = fst q /\ Island.y i = snd q).
  { intros q Hq. apply Hlisted in Hq. apply in_map_iff in Hq.
    destruct Hq as (i & <- & Hi). exists i. auto. }
  unfold outer_lines_used. cbn [Puzzle.width Puzzle.height Puzzle.islands].
  destruct Htop as (q1 & Hq1 & E1). destruct (Hisland q1 Hq1) as (i1 & Hi1 & _ & Hy1).
  destruct Hbottom as (q2 & Hq2 & E2). destruct (Hisland q2 Hq2) as (i2 & Hi2 & _ & Hy2).
  destruct Hfirst as (q3 & Hq3 & E3). destruct (Hisland q3 Hq3) as (i3 & Hi3 & Hx3 & _).
  destruct Hlast as (q4 & Hq4 & E4). destruct (Hisland q4 Hq4) as (i4 & Hi4 & Hx4 & _).
  split; [exists i1; split; auto; congruence|].
  split; [exists i2; split; auto; congruence|].
  split; [exists i3; split; auto; congruence|].
  exists i4; split; auto; congruence.
Qed.

(** The theorem at the run that places five islands on a 4 by 4 board. *)
Lemma generate_result_witness :
  let p := Puzzle.mk 4 4
             [Island.mk 0 0 2; Island.mk 0 3 2; Island.mk 2 0 2; Island.mk 2 2 1;
              Island.mk 3 3 1]
             (Some [Bridge.mk (Island.mk 0 0 0) (Island.mk 2 0 0) true;
                    Bridge.mk (Island.mk 0 0 0) (Island.mk 0 3 0) true;
                    Bridge.mk (Island.mk 0 3 0) (Island.mk 3 3 0) true;
                    Bridge.mk (Island.mk 2 0 0) (Island.mk 2 2 0) true]) in
  Puzzle.width p = 4 /\ Puzzle.height p = 4
  /\ (exists k m r0,
        rejected 4 4 (settings easy) (max_island_density (settings easy))
          five_island_rng k (loosened k (max_island_density (settings easy))) r0
        /\ accepted 4 4 (settings easy)
             (loosened k (max_island_density (settings easy))) r0 m p
        /\ min_island_count_of 4 4 (loosened k (max_island_density (settings easy))) = Ok m
        /\ m + 1 <= Z.of_nat (length (Puzzle.islands p)))
  /\ 5 <= Z.of_nat (length (Puzzle.islands p))
  /\ outer_lines_used p.
Proof.
  apply (generate_result 1 4 4 easy five_island_rng).
  vm_compute. reflexivity.
Defined.

(** ** generator.py: attempts that never succeed, attempts that loosen the
    density *)

(** A run of the loop that ends with nothing left to expand, short of its
    island count, ends in the same state under any higher count and any
    longer budget of cycles. *)
Lemma cycles_exhausted max_degree odds shorter m0 m :
  m0 <= m ->
  forall n0 st st',
    cycles max_degree odds shorter m0 n0 st = Ok st' ->
    to_expand st' = [] -> island_count st' < m0 ->
    forall n, (n0 <= n)%nat -> cycles max_degree odds shorter m n st = Ok st'.
Proof.
  intros Hm.
  assert (Hstop : forall st n, to_expand st = [] ->
            cycles max_degree odds shorter m n st = Ok st).
  { intros st [|n] He; simpl; auto. now rewrite He. }
  induction n0 as [|n0 IH]; intros st st' Hrun Hempty Hshort n Hn; simpl in Hrun.
  - injection Hrun as <-. now apply Hstop.
  - destruct (length (to_expand st) =? 0)%nat eqn:El.
    { injection Hrun as <-. now apply Hstop. }
    destruct (Z.geb_spec (island_count st) m0) as [Hge|Hlt].
    { injection Hrun as <-. lia. }
    bind_inv Hrun as st1 Hcycle.
    destruct n as [|n]; [lia|]. simpl. rewrite El.
    destruct (Z.geb_spec (island_count st) m) as [Hge'|_]; [lia|].
    rewrite Hcycle. cbn [bind]. apply (IH st1 st'); auto. lia.
Qed.

(** With every draw 0 an attempt on the 4 by 4 board of the easy tier places
    the islands (0, 0), (0, 2), (2, 0), (2, 2) and can expand none of them. *)
Lemma zero_attempt_exhausted c :
  exists st0 st',
    place_seed 4 4 (mkRng (fun _ => O) c) = Ok st0
    /\ cycles 8 (single_bridge_odds (settings easy)) false 4 40 st0 = Ok st'
    /\ to_expand st' = [] /\ island_count st' = 3
    /\ gen_rng st' = mkRng (fun _ => O) (18 + c).
Proof.
  eexists. eexists. split; [vm_compute; reflexivity|].
  split; [vm_compute; reflexivity|]. repeat split.
Qed.

Lemma zero_attempt_short m c :
  4 <= m ->
  exists grid solution,
    generate_candidate 4 4 8 (single_bridge_odds (settings easy)) false m (m * 10)
      (mkRng (fun _ => O) c)
    = Ok (grid, 3, solution, mkRng (fun _ => O) (18 + c)).
Proof.
  intros Hm. destruct (zero_attempt_exhausted c) as (st0 & st' & Hseed & Hrun & He & Hc & Hr).
  unfold generate_candidate. rewrite Hseed. cbn [bind].
  rewrite (cycles_exhausted 8 (single_bridge_odds (settings easy)) false 4 m Hm
             40 st0 st' Hrun He) by lia.
  cbn [bind]. rewrite Hc, Hr. eauto.
Qed.

Lemma zero_rng_never_returns fuel :
  forall density c p,
    generate_loop fuel 4 4 (settings easy) density (mkRng (fun _ => O) c) <> Ok p.
Proof.
  induction fuel as [|fuel IH]; intros density c p; cbn [generate_loop]; [discriminate|].
  destruct (min_island_count_of 4 4 density) as [m| |] eqn:Em; cbn [bind];
    try discriminate.
  pose proof (min_island_count_of_ge _ _ _ _ Em) as Hm.
  destruct (zero_attempt_short m c Hm) as (grid & solution & Hattempt).
  cbn [max_degree single_bridge_odds shorter_bridges settings] in *.
  rewrite Hattempt. cbn [bind].
  destruct (Z.ltb_spec 3 m) as [_|]; [|lia]. apply IH.
Qed.

(** C8, as stated, fails twice on a 4 by 4 board.  On the easy tier, with
    every random draw 0, no attempt reaches four bridges, so [generate]
    returns no puzzle however many attempts it is given.  On the extreme
    tier the threshold of the tier is 6; after 72 attempts that fell short
    the density has grown from 2.5 to 3.22 and the threshold to 4, and the
    73rd attempt is accepted with five islands. *)
Lemma generate_may_not_return_or_fall_short :
  (forall fuel p, generate fuel 4 4 easy zero_rng <> Ok p)
  /\ (exists p,
        generate 73 4 4 extreme (late_rng 1512) = Ok p
        /\ min_island_count_of 4 4 (max_island_density (settings extreme)) = Ok 6
        /\ Z.of_nat (length (Puzzle.islands p)) = 5).
Proof.
  split.
  - intros fuel p. apply zero_rng_never_returns.
  - eexists. split; [vm_compute; reflexivity|]. split; reflexivity.
Qed.

(** The run on the extreme tier, attempt by attempt: 72 attempts fall short,
    each after 21 draws, and the 73rd starts at the density of the tier plus
    72 times 0.01 with the oracle at its draw 1512. *)
Example late_run_attempts :
  rejected 4 4 (settings extreme) (max_island_density (settings extreme))
    (late_rng 1512) 72
    (loosened 72 (max_island_density (settings extreme)))
    (mkRng (draws (late_rng 1512)) 1512).
Proof.
  do 72 (eapply rejected_short;
         [vm_compute; reflexivity | vm_compute; reflexivity | reflexivity |]).
  apply rejected_none.
Qed.

(** A rejected attempt that did not fall short leaves the density as it is:
    on the 5 by 5 board the first attempt reaches the threshold 4 on a board
    that is not full, and the second is accepted at the density of the tier,
    no attempt having fallen short. *)
Example two_attempt_run :
  exists p,
    rejected 5 5 (settings easy) (max_island_density (settings easy)) two_attempt_rng 0
      (max_island_density (settings easy)) (mkRng (draws two_attempt_rng) 18)
    /\ accepted 5 5 (settings easy) (max_island_density (settings easy))
         (mkRng (draws two_attempt_rng) 18) 4 p
    /\ generate 2 5 5 easy two_attempt_rng = Ok p.
Proof.
  eexists. split; [|split].
  3: (vm_compute; reflexivity).
  - eapply rejected_not_full;
      [vm_compute; reflexivity | vm_compute; reflexivity | lia | vm_compute; reflexivity |].
    apply rejected_none.
  - unfold accepted. do 5 eexists.
    split; [vm_compute; reflexivity|]. split; [vm_compute; reflexivity|].
    split; [lia|]. split; [vm_compute; reflexivity|].
    split; [vm_compute; reflexivity|]. reflexivity.
Qed.

(** * Further properties *)

(** ** The outcomes of [check_solution] *)

Lemma subtract_bridges_KeyError (solution : list Bridge.t) :
  forall d : dict Z,
    ~ (forall b, In b solution ->
         In (island_pos (Bridge.node1 b)) (dict_keys d)
         /\ In (island_pos (Bridge.node2 b)) (dict_keys d)) ->
    subtract_bridges solution d = Raise KeyError.
Proof.
  induction solution as [|b rest IH]; intros d Hbad.
  - exfalso. apply Hbad. intros b [].
  - cbn [subtract_bridges]. unfold dict_sub at 1.
    destruct (dict_get d (island_pos (Bridge.node1 b))) as [v1|] eqn:E1; [|reflexivity].
    cbn [bind]. unfold dict_sub at 1.
    assert (K1 : In (island_pos (Bridge.node1 b)) (dict_keys d))
      by (apply dict_get_In_keys; eauto).
    pose proof (dict_keys_set_present d _ (v1 - bridge_weight b) K1) as Hk1.
    destruct (dict_get (dict_set d (island_pos (Bridge.node1 b)) (v1 - bridge_weight b))
                (island_pos (Bridge.node2 b))) as [v2|] eqn:E2; [|reflexivity].
    cbn [bind].
    assert (K2 : In (island_pos (Bridge.node2 b))
                   (dict_keys (dict_set d (island_pos (Bridge.node1 b))
                                 (v1 - bridge_weight b))))
      by (apply dict_get_In_keys; eauto).
    apply IH. intros Hall. apply Hbad. intros b' [<-|Hb'].
    + split; [exact K1|]. now rewrite Hk1 in K2.
    + rewrite dict_keys_set_present, Hk1 in Hall by exact K2. now apply Hall.
Qed.

Lemma check_solution_returns w h islands solution :
  endpoints_are_islands islands solution -> islands <> [] ->
  let r := check_solution (Puzzle.mk w h islands (Some solution)) in
  r = degree_failure \/ r = connectivity_failure \/ r = pass.
Proof.
  intros Hends Hne r. subst r.
  unfold check_solution. cbn [Puzzle.solution Puzzle.islands].
  destruct (subtract_bridges_spec solution (dict_of island_pos Island.degree islands))
    as (d' & Hd' & _).
  { intros b Hb. destruct (Hends b Hb). split; now apply dict_of_keys. }
  unfold degrees_match. rewrite Hd'. cbn [bind].
  destruct (negb (negb _)); [now left|].
  destruct islands as [|first rest]; [congruence|].
  destruct (fully_connected_spec (first :: rest) solution first Hends eq_refl)
    as (ok & Hok & _).
  rewrite Hok. cbn [bind]. destruct ok; cbn [negb]; auto.
Qed.

(** X1: what [check_solution] does with any puzzle: without a solution the
    assertion fails; a bridge with an end that is on no island raises
    KeyError; with no island at all it raises IndexError; in every other case
    it returns one of its three verdicts. *)
Theorem check_solution_outcomes :
  forall w h islands solution,
    check_solution (Puzzle.mk w h islands None) = Raise AssertionError
    /\ (~ endpoints_are_islands islands solution ->
        check_solution (Puzzle.mk w h islands (Some solution)) = Raise KeyError)
    /\ (endpoints_are_islands islands solution -> islands = [] ->
        check_solution (Puzzle.mk w h islands (Some solution)) = Raise IndexError)
    /\ (endpoints_are_islands islands solution -> islands <> [] ->
        let r := check_solution (Puzzle.mk w h islands (Some solution)) in
        r = degree_failure \/ r = connectivity_failure \/ r = pass).
Proof.
  intros w h islands solution. split; [reflexivity|]. split; [|split].
  - intros Hbad. unfold check_solution, degrees_match. cbn [Puzzle.solution Puzzle.islands].
    rewrite subtract_bridges_KeyError; [reflexivity|].
    intros Hall. apply Hbad. intros b Hb. destruct (Hall b Hb) as [H1 H2].
    split; now apply (dict_of_keys island_pos Island.degree).
  - intros Hends ->. destruct solution as [|b rest]; [reflexivity|].
    destruct (Hends b (or_introl eq_refl)) as [[] _].
  - intros Hends Hne. now apply check_solution_returns.
Qed.

Example check_stray_bridge : check_solution stray_bridge_puzzle = Raise KeyError.
Proof. reflexivity. Qed.

(** ** The verdict does not depend on the order of the lists *)

Lemma check_solution_verdict w h islands solution first :
  NoDup (map island_pos islands) ->
  endpoints_are_islands islands solution ->
  hd_error islands = Some first ->
  let r := check_solution (Puzzle.mk w h islands (Some solution)) in
  ((exists i, In i islands /\ residual solution i <> 0) /\ r = degree_failure)
  \/ ((forall i, In i islands -> residual solution i = 0)
      /\ (exists i, In i islands /\ ~ reach solution (island_pos first) (island_pos i))
      /\ r = connectivity_failure)
  \/ ((forall i, In i islands -> residual solution i = 0)
      /\ (forall i, In i islands -> reach solution (island_pos first) (island_pos i))
      /\ r = pass).
Proof.
  intros Hnd Hends Hfirst r. subst r.
  destruct (degrees_match_spec islands solution Hnd Hends) as (ok & Hok & Hiff).
  destruct (fully_connected_spec islands solution first Hends Hfirst)
    as (c & Hc & Htrue & Hfalse).
  unfold check_solution. cbn [Puzzle.solution Puzzle.islands]. rewrite Hok. cbn [bind].
  destruct ok; cbn [negb].
  - assert (Hzero : forall i, In i islands -> residual solution i = 0).
    { intros i Hi. destruct (Z.eq_dec (residual solution i) 0) as [|Hne]; [assumption|].
      assert (true = false) by (apply Hiff; eauto). discriminate. }
    rewrite Hc. cbn [bind]. destruct c; cbn [negb].
    + right. right. split; [exact Hzero|]. split; [now apply Htrue|reflexivity].
    + right. left. split; [exact Hzero|]. split; [now apply Hfalse|reflexivity].
  - left. split; [now apply Hiff|reflexivity].
Qed.

Lemma incident_weight_flip b p : incident_weight (flip b) p = incident_weight b p.
Proof. unfold incident_weight, flip, bridge_weight. cbn. lia. Qed.

Lemma incident_sum_Permutation s s' p :
  Permutation s s' -> incident_sum s p = incident_sum s' p.
Proof.
  unfold incident_sum. induction 1; cbn [fold_right] in *; lia.
Qed.

Lemma incident_sum_flips (f : Bridge.t -> bool) s p :
  incident_sum (map (fun b => if f b then flip b else b) s) p = incident_sum s p.
Proof.
  induction s as [|b s IH]; [reflexivity|].
  unfold incident_sum in *. cbn [map fold_right]. rewrite IH.
  destruct (f b); [rewrite incident_weight_flip|]; reflexivity.
Qed.

Lemma reach_ext s s' :
  (forall p q, adjacent s p q -> adjacent s' p q) ->
  forall p q, reach s p q -> reach s' p q.
Proof.
  intros Hadj p q H. induction H as [|q r _ IH Hqr]; [constructor|].
  apply reach_step with (q := q); auto.
Qed.

Lemma adjacent_rearranged (f : Bridge.t -> bool) s s' p q :
  Permutation s s' ->
  adjacent (map (fun b => if f b then flip b else b) s') p q <-> adjacent s p q.
Proof.
  intros Hperm. split.
  - intros (b' & Hb' & H). apply in_map_iff in Hb' as (b & <- & Hb).
    exists b. split; [eapply Permutation_in; [symmetry; eassumption|assumption]|].
    destruct (f b); cbn in H; tauto.
  - intros (b & Hb & H). exists (if f b then flip b else b). split.
    + apply in_map_iff. exists b. split; [reflexivity|].
      eapply Permutation_in; eassumption.
    + destruct (f b); cbn; tauto.
Qed.

(** X2: the verdict of [check_solution] is the same whatever the order in
    which the islands and the bridges are listed, and whichever end of a
    bridge is written first, when no two islands share a position and the
    bridges end on islands. *)
Theorem check_solution_order_independent :
  forall w h w' h' islands islands' solution solution' (f : Bridge.t -> bool),
    NoDup (map island_pos islands) ->
    endpoints_are_islands islands solution ->
    Permutation islands islands' ->
    Permutation solution solution' ->
    check_solution
      (Puzzle.mk w' h' islands' (Some (map (fun b => if f b then flip b else b) solution')))
    = check_solution (Puzzle.mk w h islands (Some solution)).
Proof.
  intros w h w' h' islands islands' solution solution' f Hnd Hends Hpi Hps.
  set (s2 := map (fun b => if f b then flip b else b) solution').
  assert (Hsum : forall p, incident_sum s2 p = incident_sum solution p).
  { intros p. unfold s2. rewrite incident_sum_flips. symmetry.
    now apply incident_sum_Permutation. }
  assert (Hadj : forall p q, adjacent s2 p q <-> adjacent solution p q)
    by (intros p q; now apply adjacent_rearranged).
  assert (Hreach : forall p q, reach s2 p q <-> reach solution p q).
  { intros p q. split; apply reach_ext; intros a b; apply Hadj. }
  assert (Hin : forall i, In i islands' <-> In i islands).
  { intros i. split; apply Permutation_in; [symmetry|]; assumption. }
  assert (Hnd' : NoDup (map island_pos islands')).
  { eapply Permutation_NoDup; [|exact Hnd]. now apply Permutation_map. }
  assert (Hends' : endpoints_are_islands islands' s2).
  { intros b' Hb'. apply in_map_iff in Hb' as (b & <- & Hb).
    apply Permutation_in with (l' := solution) in Hb; [|now symmetry].
    destruct (Hends b Hb) as [H1 H2].
    assert (Hm : forall q, In q (map island_pos islands) -> In q (map island_pos islands')).
    { intros q. apply Permutation_in. now apply Permutation_map. }
    destruct (f b); cbn; auto. }
  destruct islands as [|first rest].
  { apply Permutation_nil in Hpi. subst islands'.
    destruct solution as [|b ?]; [|destruct (Hends b (or_introl eq_refl)) as [[] _]].
    apply Permutation_nil in Hps. subst solution'. reflexivity. }
  destruct islands' as [|first' rest'].
  { symmetry in Hpi. apply Permutation_nil in Hpi. discriminate. }
  assert (Hres : forall i, residual s2 i = residual solution i)
    by (intros i; unfold residual; now rewrite Hsum).
  pose proof (check_solution_verdict w h (first :: rest) solution first Hnd Hends eq_refl)
    as V.
  pose proof (check_solution_verdict w' h' (first' :: rest') s2 first' Hnd' Hends' eq_refl)
    as V'.
  cbv zeta in V, V'.
  assert (Hall : (forall i, In i (first :: rest) ->
                    reach solution (island_pos first) (island_pos i))
                 <-> (forall i, In i (first' :: rest') ->
                        reach s2 (island_pos first') (island_pos i))).
  { split; intros H i Hi.
    - apply Hreach. apply reach_trans with (q := island_pos first).
      + apply reach_sym. apply H. apply Hin. now left.
      + apply H. now apply Hin.
    - apply reach_trans with (q := island_pos first').
      + apply reach_sym. apply Hreach. apply H. apply Hin. now left.
      + apply Hreach. apply H. now apply Hin. }
  destruct V as [[(i & Hi & Hr) ->]|[(Hz & (i & Hi & Hr) & ->)|(Hz & Hr & ->)]];
    destruct V' as [[(i' & Hi' & Hr') ->]|[(Hz' & (i' & Hi' & Hr') & ->)|(Hz' & Hr' & ->)]];
    try reflexivity; exfalso.
  - apply Hr. rewrite <- Hres. apply Hz'. now apply Hin.
  - apply Hr. rewrite <- Hres. apply Hz'. now apply Hin.
  - apply Hr'. rewrite Hres. apply Hz. now apply Hin.
  - apply Hr. now apply (proj2 Hall).
  - apply Hr'. rewrite Hres. apply Hz. now apply Hin.
  - apply Hr'. now apply (proj1 Hall).
Qed.

Lemma check_solution_order_independent_witness :
  check_solution
    (Puzzle.mk 9 9 [Island.mk 3 0 1; Island.mk 0 3 2; Island.mk 0 0 3]
       (Some (map (fun b => if Bridge.single b then flip b else b)
                [Bridge.mk (Island.mk 0 0 3) (Island.mk 3 0 1) true;
                 Bridge.mk (Island.mk 0 0 3) (Island.mk 0 3 2) false])))
  = check_solution test_solved_puzzle_1.
Proof.
  apply (check_solution_order_independent 4 4 9 9
           [Island.mk 0 0 3; Island.mk 0 3 2; Island.mk 3 0 1]
           [Island.mk 3 0 1; Island.mk 0 3 2; Island.mk 0 0 3]
           [Bridge.mk (Island.mk 0 0 3) (Island.mk 0 3 2) false;
            Bridge.mk (Island.mk 0 0 3) (Island.mk 3 0 1) true]
           [Bridge.mk (Island.mk 0 0 3) (Island.mk 3 0 1) true;
            Bridge.mk (Island.mk 0 0 3) (Island.mk 0 3 2) false]
           Bridge.single).
  - unfold island_pos. cbn.
    repeat (apply NoDup_cons; [cbn; intuition congruence|]). apply NoDup_nil.
  - intros b [<-|[<-|[]]]; unfold island_pos; cbn; intuition.
  - change [Island.mk 0 0 3; Island.mk 0 3 2; Island.mk 3 0 1]
      with (rev [Island.mk 3 0 1; Island.mk 0 3 2; Island.mk 0 0 3]).
    symmetry. apply Permutation_rev.
  - apply perm_swap.
Defined.

(** ** [to_puzzle] and [to_grid] *)

Lemma StronglySorted_app {A : Type} (R : A -> A -> Prop) (l1 l2 : list A) :
  StronglySorted R l1 -> StronglySorted R l2 ->
  (forall a b, In a l1 -> In b l2 -> R a b) ->
  StronglySorted R (l1 ++ l2).
Proof.
  intros H1 H2 H12. induction H1 as [|a l1 Hs IH Ha]; [exact H2|].
  cbn [app]. constructor.
  - apply IH. intros x y Hx Hy. apply H12; [now right|assumption].
  - apply Forall_app. split; [exact Ha|].
    apply Forall_forall. intros b Hb. apply H12; [now left|assumption].
Qed.

Lemma range_sorted a b : StronglySorted Z.lt (range a b).
Proof.
  unfold range. generalize (Z.to_nat (b - a)) as n. generalize 0%nat as s.
  intros s n. revert s. induction n as [|n IH]; intros s; cbn [seq map]; constructor.
  - apply IH.
  - apply Forall_forall. intros z Hz. apply in_map_iff in Hz as (k & <- & Hk).
    apply in_seq in Hk. lia.
Qed.

Lemma for_each_app_sorted {A B : Type} (R : A -> A -> Prop) (lt : B -> B -> Prop)
  (l : list A) (body : A -> list B -> result (list B)) (P : A -> B -> Prop) :
  StronglySorted R l ->
  (forall a acc, In a l ->
     exists ext, body a acc = Ok (acc ++ ext)
                 /\ StronglySorted lt ext /\ forall b, In b ext -> P a b) ->
  (forall a a' b b', R a a' -> P a b -> P a' b' -> lt b b') ->
  forall acc,
    exists ext, for_each l body acc = Ok (acc ++ ext)
                /\ StronglySorted lt ext
                /\ forall b, In b ext -> exists a, In a l /\ P a b.
Proof.
  intros Hs Hbody Hlt. induction Hs as [|a l Hs IH Ha]; intros acc; cbn [for_each].
  - exists []. rewrite app_nil_r. split; [reflexivity|]. split; [constructor|].
    intros b [].
  - destruct (Hbody a acc (or_introl eq_refl)) as (e1 & -> & S1 & H1). cbn [bind].
    destruct (IH (fun a' acc' Hin => Hbody a' acc' (or_intror Hin)) (acc ++ e1))
      as (e2 & -> & S2 & H2).
    exists (e1 ++ e2). split; [now rewrite app_assoc|]. split.
    + apply StronglySorted_app; auto. intros b b' Hb Hb'.
      destruct (H2 b' Hb') as (a' & Ha' & Hp').
      apply (Hlt a a'); auto. rewrite Forall_forall in Ha. now apply Ha.
    + intros b Hb. apply in_app_iff in Hb as [Hb|Hb].
      * exists a. split; [now left|auto].
      * destruct (H2 b Hb) as (a' & Ha' & Hp'). exists a'. split; [now right|auto].
Qed.

Lemma to_puzzle_sorted g islands :
  grid_wf g ->
  to_puzzle g = Ok (Puzzle.mk (Grid.width g) (Grid.height g) islands None) ->
  StronglySorted scan_lt islands.
Proof.
  intros Hwf Hp. unfold to_puzzle in Hp.
  destruct (for_each_app_sorted Z.lt scan_lt (range 0 (Grid.width g))
              (fun x islands =>
                 for_each (range 0 (Grid.height g)) (fun y islands =>
                   node <- cell g x y ;;
                   if NodeType.eqb (Node.type node) NodeType.island
                   then Ok (islands ++ [Island.mk x y (Node.degree node)])
                   else Ok islands) islands)
              (fun x i => Island.x i = x))
    with (acc := @nil Island.t) as (ext & Hrun & Hsorted & _).
  - apply range_sorted.
  - intros x acc Hx. apply range_In in Hx.
    destruct (for_each_app_sorted Z.lt scan_lt (range 0 (Grid.height g))
                (fun y islands =>
                   node <- cell g x y ;;
                   if NodeType.eqb (Node.type node) NodeType.island
                   then Ok (islands ++ [Island.mk x y (Node.degree node)])
                   else Ok islands)
                (fun y i => Island.x i = x /\ Island.y i = y))
      with (acc := acc) as (ext & Hrun & Hsorted & Hmem).
    + apply range_sorted.
    + intros y acc' Hy. apply range_In in Hy.
      destruct (cell_ok g x y Hwf) as (n & Hn & _); [split; cbn; lia|].
      rewrite Hn. cbn [bind].
      destruct (NodeType.eqb (Node.type n) NodeType.island).
      * eexists. split; [reflexivity|]. split; [repeat constructor|].
        intros b [<-|[]]. now split.
      * exists []. rewrite app_nil_r. split; [reflexivity|]. split; [constructor|].
        intros b [].
    + intros y y' i i' Hlt [Hx1 Hy1] [Hx2 Hy2]. right. split; lia.
    + exists ext. split; [exact Hrun|]. split; [exact Hsorted|].
      intros b Hb. destruct (Hmem b Hb) as (y & _ & Hx' & _). exact Hx'.
  - intros x x' i i' Hlt Hx1 Hx2. left. lia.
  - rewrite Hrun in Hp. cbn [bind app] in Hp. now injection Hp as <-.
Qed.

(** X3: on a board laid out as [Grid.__init__] lays it out, [to_puzzle] raises
    nothing and returns a puzzle of the same size without a solution whose
    islands are the island nodes of the board with their degrees, each once,
    listed column by column and from the top of a column to its bottom. *)
Theorem to_puzzle_scan_order :
  forall g,
    grid_wf g ->
    exists islands,
      to_puzzle g = Ok (Puzzle.mk (Grid.width g) (Grid.height g) islands None)
      /\ StronglySorted scan_lt islands
      /\ NoDup (map island_pos islands)
      /\ forall i, In i islands <->
           in_bounds g (island_pos i)
           /\ exists n, cell g (Island.x i) (Island.y i) = Ok n
                        /\ Node.type n = NodeType.island
                        /\ Node.degree n = Island.degree i.
Proof.
  intros g Hwf. destruct (to_puzzle_spec g Hwf) as (islands & Hp & Hnd & Hmem).
  exists islands. split; [exact Hp|]. split; [|split; assumption].
  now apply (to_puzzle_sorted g).
Qed.

Lemma to_puzzle_scan_order_witness :
  exists islands,
    to_puzzle seeded_board = Ok (Puzzle.mk 4 4 islands None)
    /\ StronglySorted scan_lt islands
    /\ NoDup (map island_pos islands)
    /\ forall i, In i islands <->
         in_bounds seeded_board (island_pos i)
         /\ exists n, cell seeded_board (Island.x i) (Island.y i) = Ok n
                      /\ Node.type n = NodeType.island
                      /\ Node.degree n = Island.degree i.
Proof.
  apply (to_puzzle_scan_order seeded_board).
  destruct (update_cell_ok (Grid_init 4 4) 0 0 (to_island 0)
              (Node.mk 0 0 NodeType.empty (-1)) (Grid_init_wf 4 4))
    as (g' & Hg' & Hwf & _).
  - split; cbn; lia.
  - apply keeps_position_to_island.
  - reflexivity.
  - unfold seeded_board. rewrite Hg'. exact Hwf.
Defined.

Lemma to_grid_loop_cells (islands : list Island.t) :
  forall g,
    grid_wf g ->
    (forall i, In i islands -> in_bounds g (island_pos i)) ->
    NoDup (map island_pos islands) ->
    exists g',
      for_each islands (fun island puzzle_grid =>
        update_cell puzzle_grid (Island.x island) (Island.y island)
          (to_island (Island.degree island))) g = Ok g'
      /\ grid_wf g'
      /\ Grid.width g' = Grid.width g /\ Grid.height g' = Grid.height g
      /\ (forall i, In i islands ->
            cell g' (Island.x i) (Island.y i)
            = Ok (Node.mk (Island.x i) (Island.y i) NodeType.island (Island.degree i)))
      /\ (forall x y, in_bounds g (x, y) -> ~ In (x, y) (map island_pos islands) ->
            cell g' x y = cell g x y).
Proof.
  induction islands as [|a islands IH]; intros g Hwf Hin Hnd; cbn [for_each].
  - exists g. split; [reflexivity|]. split; [exact Hwf|]. split; [reflexivity|].
    split; [reflexivity|]. split; [intros i []|reflexivity].
  - assert (Ha : in_bounds g (island_pos a)) by (apply Hin; now left).
    destruct (cell_ok g _ _ Hwf Ha) as (n & Hn & Hnx & Hny).
    destruct (update_cell_ok g _ _ (to_island (Island.degree a)) n Hwf Ha
                (keeps_position_to_island _) Hn)
      as (g1 & Hg1 & Hwf1 & Hw1 & Hh1 & Hsame & Hother).
    cbn [island_pos fst snd] in Hg1. rewrite Hg1. cbn [bind].
    cbn [map] in Hnd. inversion Hnd as [|? ? Hfresh Hnd']; subst.
    destruct (IH g1 Hwf1) as (g' & Hg' & Hwf' & Hw' & Hh' & Hisl & Hrest); auto.
    { intros i Hi. apply (in_bounds_same_size g g1); auto. apply Hin. now right. }
    exists g'. split; [exact Hg'|]. split; [exact Hwf'|].
    split; [congruence|]. split; [congruence|]. split.
    + intros i [<-|Hi]; [|now apply Hisl].
      rewrite Hrest; [|apply (in_bounds_same_size g g1); auto|exact Hfresh].
      cbn [island_pos fst snd] in Hsame. rewrite Hsame. unfold to_island.
      cbn [island_pos fst snd] in Hnx, Hny. now rewrite Hnx, Hny.
    + intros x y Hb Hnot. cbn [map In] in Hnot.
      rewrite Hrest; [|apply (in_bounds_same_size g g1); auto|tauto].
      apply Hother; [assumption|]. intros E. apply Hnot. left. now symmetry.
Qed.

Lemma to_grid_cells (p : Puzzle.t) :
  NoDup (map island_pos (Puzzle.islands p)) ->
  islands_in_bounds p ->
  exists g,
    to_grid p = Ok g
    /\ grid_wf g
    /\ Grid.width g = Puzzle.width p /\ Grid.height g = Puzzle.height p
    /\ (forall i, In i (Puzzle.islands p) ->
          cell g (Island.x i) (Island.y i)
          = Ok (Node.mk (Island.x i) (Island.y i) NodeType.island (Island.degree i)))
    /\ (forall x y, in_bounds g (x, y) -> ~ In (x, y) (map island_pos (Puzzle.islands p)) ->
          cell g x y = Ok (Node.mk x y NodeType.empty (-1))).
Proof.
  intros Hnd Hin. unfold to_grid.
  destruct (to_grid_loop_cells (Puzzle.islands p)
              (Grid_init (Puzzle.width p) (Puzzle.height p)) (Grid_init_wf _ _))
    as (g & Hg & Hwf & Hw & Hh & Hisl & Hrest); auto.
  exists g. split; [exact Hg|]. split; [exact Hwf|]. split; [exact Hw|].
  split; [exact Hh|]. split; [exact Hisl|].
  intros x y Hb Hnot.
  assert (Hb0 : in_bounds (Grid_init (Puzzle.width p) (Puzzle.height p)) (x, y))
    by (apply (in_bounds_same_size _ g); auto).
  rewrite Hrest by assumption.
  destruct Hb0 as [Hx Hy]. now apply Grid_init_cell.
Qed.

Lemma scan_lt_irrefl i : ~ scan_lt i i.
Proof. unfold scan_lt. lia. Qed.

Lemma scan_lt_asym i j : scan_lt i j -> scan_lt j i -> False.
Proof. unfold scan_lt. lia. Qed.

Lemma sorted_Permutation_eq (l l' : list Island.t) :
  StronglySorted scan_lt l -> StronglySorted scan_lt l' -> Permutation l l' -> l = l'.
Proof.
  intros Hs. revert l'. induction Hs as [|a l Hs IH Ha]; intros l' Hs' Hperm.
  - apply Permutation_nil in Hperm. now subst.
  - destruct Hs' as [|b l' Hs' Hb].
    + symmetry in Hperm. apply Permutation_nil in Hperm. discriminate.
    + rewrite Forall_forall in Ha, Hb.
      assert (a = b).
      { assert (Hin : In a (b :: l')) by (eapply Permutation_in; [exact Hperm|now left]).
        assert (Hin' : In b (a :: l))
          by (eapply Permutation_in; [symmetry; exact Hperm|now left]).
        destruct Hin as [E|Hin]; [now symmetry|].
        destruct Hin' as [E|Hin']; [assumption|].
        exfalso. apply (scan_lt_asym a b); auto. }
      subst b. f_equal. apply IH; auto. now apply Permutation_cons_inv in Hperm.
Qed.

Lemma NoDup_map_inv_list {A B : Type} (f : A -> B) (l : list A) :
  NoDup (map f l) -> NoDup l.
Proof.
  induction l as [|a l IH]; cbn [map]; intros H; [constructor|].
  inversion H; subst. constructor; auto. intros Hin. now apply (in_map f) in Hin.
Qed.

Lemma to_grid_to_puzzle_islands (p : Puzzle.t) :
  NoDup (map island_pos (Puzzle.islands p)) ->
  islands_in_bounds p ->
  exists g islands,
    to_grid p = Ok g
    /\ to_puzzle g = Ok (Puzzle.mk (Puzzle.width p) (Puzzle.height p) islands None)
    /\ StronglySorted scan_lt islands
    /\ Permutation islands (Puzzle.islands p).
Proof.
  intros Hnd Hin.
  destruct (to_grid_cells p Hnd Hin) as (g & Hg & Hwf & Hw & Hh & Hisl & Hrest).
  destruct (to_puzzle_spec g Hwf) as (islands & Hp & Hnd' & Hmem).
  exists g, islands. split; [exact Hg|]. split; [now rewrite <- Hw, <- Hh|].
  split; [now apply (to_puzzle_sorted g)|].
  apply NoDup_Permutation.
  - now apply NoDup_map_inv_list in Hnd'.
  - now apply NoDup_map_inv_list in Hnd.
  - intros i. rewrite Hmem. split.
    + intros (Hb & n & Hn & Ht & Hd).
      destruct (in_dec pos_eq_dec (Island.x i, Island.y i)
                  (map island_pos (Puzzle.islands p))) as [Hi|Hi].
      * apply in_map_iff in Hi as (j & Hj & Hjin). injection Hj as Hx Hy.
        pose proof (Hisl j Hjin) as Hc. rewrite Hx, Hy, Hn in Hc.
        injection Hc as Hc. rewrite Hc in Hd. cbn in Hd.
        replace i with j; [assumption|]. destruct i, j; cbn in *. congruence.
      * rewrite (Hrest _ _ Hb Hi) in Hn. injection Hn as <-. discriminate.
    + intros Hi. split.
      * destruct (Hin i Hi) as [Hx Hy]. split; cbn [island_pos fst snd]; lia.
      * eexists. split; [apply Hisl, Hi|]. now split.
Qed.

(** X4: the puzzle read back from the board of a puzzle.  When the islands
    lie on the board, no two on one position, [to_grid] followed by
    [to_puzzle] returns the same size, no solution, and the same islands in
    the order of the scan; a puzzle listed in that order comes back as
    [without_solution] makes it. *)
Theorem to_grid_to_puzzle :
  forall p : Puzzle.t,
    NoDup (map island_pos (Puzzle.islands p)) ->
    islands_in_bounds p ->
    exists g q,
      to_grid p = Ok g /\ to_puzzle g = Ok q
      /\ Puzzle.width q = Puzzle.width p /\ Puzzle.height q = Puzzle.height p
      /\ Puzzle.solution q = None
      /\ Permutation (Puzzle.islands q) (Puzzle.islands p)
      /\ StronglySorted scan_lt (Puzzle.islands q)
      /\ (StronglySorted scan_lt (Puzzle.islands p) -> q = without_solution p).
Proof.
  intros p Hnd Hin.
  destruct (to_grid_to_puzzle_islands p Hnd Hin) as (g & islands & Hg & Hq & Hs & Hperm).
  exists g, (Puzzle.mk (Puzzle.width p) (Puzzle.height p) islands None).
  split; [exact Hg|]. split; [exact Hq|]. cbn [Puzzle.width Puzzle.height
    Puzzle.solution Puzzle.islands].
  split; [reflexivity|]. split; [reflexivity|]. split; [reflexivity|].
  split; [exact Hperm|]. split; [exact Hs|].
  intros Hsp. unfold without_solution. f_equal. now apply sorted_Permutation_eq.
Qed.

Lemma to_grid_to_puzzle_witness :
  exists g q,
    to_grid test_solved_puzzle_1 = Ok g /\ to_puzzle g = Ok q
    /\ Puzzle.width q = 4 /\ Puzzle.height q = 4
    /\ Puzzle.solution q = None
    /\ Permutation (Puzzle.islands q) (Puzzle.islands test_solved_puzzle_1)
    /\ StronglySorted scan_lt (Puzzle.islands q)
    /\ (StronglySorted scan_lt (Puzzle.islands test_solved_puzzle_1) ->
        q = without_solution test_solved_puzzle_1).
Proof.
  apply (to_grid_to_puzzle test_solved_puzzle_1).
  - unfold island_pos. cbn.
    repeat (apply NoDup_cons; [cbn; intuition congruence|]). apply NoDup_nil.
  - intros i [<-|[<-|[<-|[]]]]; cbn; lia.
Defined.

(** ** [to_grid] and islands off the board *)

Lemma indexable_dec w h i : {indexable w h i} + {~ indexable w h i}.
Proof.
  unfold indexable.
  destruct (Z_le_dec (- w) (Island.x i)); [|right; lia].
  destruct (Z_lt_dec (Island.x i) w); [|right; lia].
  destruct (Z_le_dec (- h) (Island.y i)); [|right; lia].
  destruct (Z_lt_dec (Island.y i) h); [|right; lia].
  left. lia.
Qed.

Lemma py_norm_wrap len i :
  - len <= i < len -> py_norm len i = py_norm len (i mod len).
Proof.
  intros H. destruct (Z_lt_dec i 0) as [Hneg|Hpos].
  - replace (i mod len) with (len + i).
    + rewrite (py_norm_in_range len (len + i)) by lia. unfold py_norm.
      replace (0 <=? i) with false by (symmetry; apply Z.leb_gt; lia).
      cbn [andb].
      replace (- len <=? i) with true by (symmetry; apply Z.leb_le; lia).
      replace (i <? 0) with true by (symmetry; apply Z.ltb_lt; lia).
      reflexivity.
    + apply Z.mod_unique with (q := -1); lia.
  - rewrite Z.mod_small by lia. reflexivity.
Qed.

Lemma py_norm_outside len i :
  0 <= len -> ~ (- len <= i < len) -> py_norm len i = None.
Proof.
  intros Hlen H. unfold py_norm.
  destruct (Z.leb_spec 0 i); destruct (Z.ltb_spec i len); cbn [andb]; try lia;
    destruct (Z.leb_spec (- len) i); destruct (Z.ltb_spec i 0); cbn [andb];
    try lia; reflexivity.
Qed.

Lemma update_cell_wrap g x y f :
  grid_wf g ->
  - Grid.width g <= x < Grid.width g -> - Grid.height g <= y < Grid.height g ->
  update_cell g x y f = update_cell g (x mod Grid.width g) (y mod Grid.height g) f.
Proof.
  intros [Hlen Hcols] Hx Hy. unfold update_cell, py_index, py_update.
  rewrite Hlen, Z2Nat.id by lia. rewrite <- (py_norm_wrap _ x Hx).
  destruct (py_norm (Grid.width g) x) as [n|]; [|reflexivity].
  destruct (nth_error (Grid.grid g) n) as [column|] eqn:Ec; [|reflexivity].
  cbn [bind]. destruct (Hcols _ _ Ec) as [Hclen _].
  rewrite Hclen, Z2Nat.id by lia. rewrite <- (py_norm_wrap _ y Hy). reflexivity.
Qed.

Lemma update_cell_outside g x y f :
  grid_wf g ->
  ~ (- Grid.width g <= x < Grid.width g /\ - Grid.height g <= y < Grid.height g) ->
  update_cell g x y f = Raise IndexError.
Proof.
  intros [Hlen Hcols] Hout. unfold update_cell, py_index, py_update.
  rewrite Hlen.
  destruct (py_norm (Z.of_nat (Z.to_nat (Grid.width g))) x) as [n|] eqn:En;
    [|reflexivity].
  destruct (nth_error (Grid.grid g) n) as [column|] eqn:Ec; [|reflexivity].
  cbn [bind]. destruct (Hcols _ _ Ec) as [Hclen _]. rewrite Hclen.
  rewrite py_norm_outside; [reflexivity|lia|].
  intros Hy. apply Hout.
  assert (Hx : - Z.of_nat (Z.to_nat (Grid.width g)) <= x
               < Z.of_nat (Z.to_nat (Grid.width g))).
  { destruct (Z_le_dec (- Z.of_nat (Z.to_nat (Grid.width g))) x);
      [destruct (Z_lt_dec x (Z.of_nat (Z.to_nat (Grid.width g))))|]; try lia;
      rewrite py_norm_outside in En by lia; discriminate. }
  lia.
Qed.

Lemma to_grid_loop_wrap (islands : list Island.t) :
  forall g,
    grid_wf g ->
    (forall i, In i islands -> indexable (Grid.width g) (Grid.height g) i) ->
    for_each islands (fun island puzzle_grid =>
      update_cell puzzle_grid (Island.x island) (Island.y island)
        (to_island (Island.degree island))) g
    = for_each
        (map (fun i => Island.mk (Island.x i mod Grid.width g)
                         (Island.y i mod Grid.height g) (Island.degree i)) islands)
        (fun island puzzle_grid =>
           update_cell puzzle_grid (Island.x island) (Island.y island)
             (to_island (Island.degree island))) g.
Proof.
  induction islands as [|a islands IH]; intros g Hwf Hin; [reflexivity|].
  cbn [for_each map Island.x Island.y Island.degree].
  destruct (Hin a (or_introl eq_refl)) as [Hx Hy].
  rewrite (update_cell_wrap g _ _ _ Hwf Hx Hy).
  assert (Hb : in_bounds g (Island.x a mod Grid.width g, Island.y a mod Grid.height g)).
  { split; cbn [fst snd]; apply Z.mod_pos_bound; lia. }
  destruct (cell_ok g _ _ Hwf Hb) as (n & Hn & _).
  destruct (update_cell_ok g _ _ (to_island (Island.degree a)) n Hwf Hb
              (keeps_position_to_island _) Hn)
    as (g1 & -> & Hwf1 & Hw1 & Hh1 & _).
  cbn [bind]. rewrite <- Hw1, <- Hh1. apply IH; [exact Hwf1|].
  intros i Hi. rewrite Hw1, Hh1. apply Hin. now right.
Qed.

Lemma to_grid_loop_outside (islands : list Island.t) :
  forall g,
    grid_wf g ->
    ~ (forall i, In i islands -> indexable (Grid.width g) (Grid.height g) i) ->
    for_each islands (fun island puzzle_grid =>
      update_cell puzzle_grid (Island.x island) (Island.y island)
        (to_island (Island.degree island))) g
    = Raise IndexError.
Proof.
  induction islands as [|a islands IH]; intros g Hwf Hout.
  - exfalso. apply Hout. intros i [].
  - cbn [for_each].
    destruct (indexable_dec (Grid.width g) (Grid.height g) a) as [[Hx Hy]|Ha].
    + rewrite (update_cell_wrap g _ _ _ Hwf Hx Hy).
      assert (Hb : in_bounds g (Island.x a mod Grid.width g,
                                Island.y a mod Grid.height g)).
      { split; cbn [fst snd]; apply Z.mod_pos_bound; lia. }
      destruct (cell_ok g _ _ Hwf Hb) as (n & Hn & _).
      destruct (update_cell_ok g _ _ (to_island (Island.degree a)) n Hwf Hb
                  (keeps_position_to_island _) Hn)
        as (g1 & -> & Hwf1 & Hw1 & Hh1 & _).
      cbn [bind]. apply IH; [exact Hwf1|].
      intros Hall. apply Hout. intros i [<-|Hi]; [split; assumption|].
      rewrite <- Hw1, <- Hh1. now apply Hall.
    + rewrite update_cell_outside; [reflexivity|exact Hwf|exact Ha].
Qed.

(** X5: [to_grid] and the coordinates of the islands.  An island outside
    [-width, width) by [-height, height) makes [to_grid] raise IndexError.
    Otherwise it returns a board, and a negative coordinate is not refused:
    it is counted from the far edge, so the island nodes of the board are at
    the coordinates of the islands modulo the size. *)
Theorem to_grid_index_error :
  forall p : Puzzle.t,
    ((forall i, In i (Puzzle.islands p) ->
        indexable (Puzzle.width p) (Puzzle.height p) i) ->
     exists g,
       to_grid p = Ok g
       /\ grid_wf g
       /\ Grid.width g = Puzzle.width p /\ Grid.height g = Puzzle.height p
       /\ forall x y, in_bounds g (x, y) ->
            exists n, cell g x y = Ok n
                      /\ (Node.type n = NodeType.island
                          <-> exists i, In i (Puzzle.islands p)
                                /\ x = Island.x i mod Puzzle.width p
                                /\ y = Island.y i mod Puzzle.height p))
    /\ (~ (forall i, In i (Puzzle.islands p) ->
            indexable (Puzzle.width p) (Puzzle.height p) i) ->
        to_grid p = Raise IndexError).
Proof.
  intros p. split.
  - intros Hall. unfold to_grid.
    rewrite to_grid_loop_wrap; [|apply Grid_init_wf|exact Hall].
    cbn [Grid_init Grid.width Grid.height].
    set (q := Puzzle.mk (Puzzle.width p) (Puzzle.height p)
                (map (fun i => Island.mk (Island.x i mod Puzzle.width p)
                                 (Island.y i mod Puzzle.height p) (Island.degree i))
                   (Puzzle.islands p)) None).
    destruct (to_grid_spec q) as (g & Hg & Hwf & Hw & Hh & Hcells).
    { intros j Hj. cbn [q Puzzle.islands] in Hj.
      apply in_map_iff in Hj as (i & <- & Hi). destruct (Hall i Hi) as [Hx Hy].
      cbn [Island.x Island.y q Puzzle.width Puzzle.height].
      split; apply Z.mod_pos_bound; lia. }
    exists g. split; [exact Hg|]. split; [exact Hwf|]. split; [exact Hw|].
    split; [exact Hh|]. intros x y Hb.
    destruct (Hcells x y Hb) as (n & Hn & Hiff). exists n. split; [exact Hn|].
    rewrite Hiff. cbn [q Puzzle.islands]. rewrite map_map. rewrite in_map_iff.
    split.
    + intros (i & E & Hi). injection E as <- <-. eauto.
    + intros (i & Hi & -> & ->). exists i. split; [reflexivity|exact Hi].
  - intros Hout. unfold to_grid. apply to_grid_loop_outside; [apply Grid_init_wf|].
    exact Hout.
Qed.

Example to_grid_negative_index :
  (g <- to_grid (Puzzle.mk 4 4 [Island.mk (-1) 0 3] None) ;; cell g 3 0)
  = Ok (Node.mk 3 0 NodeType.island 3)
  /\ to_grid (Puzzle.mk 4 4 [Island.mk 4 0 3] None) = Raise IndexError.
Proof. split; reflexivity. Qed.

(** ** grid.py: the direction of a new bridge *)

Lemma cell_is_empty_ok g p :
  grid_wf g -> in_bounds g p ->
  exists b, cell_is_empty g (fst p) (snd p) = Ok b
            /\ (b = true <-> has_type g p NodeType.empty).
Proof.
  intros Hwf Hb. destruct p as [x y].
  destruct (cell_ok g x y Hwf Hb) as (n & Hn & _).
  unfold cell_is_empty. cbn [fst snd]. rewrite Hn. cbn [bind].
  eexists. split; [reflexivity|]. split.
  - intros E. exists n. split; [exact Hn|]. destruct (Node.type n); auto; discriminate.
  - intros (n' & Hn' & Ht). cbn [fst snd] in Hn'.
    assert (n' = n) by congruence. subst. now rewrite Ht.
Qed.

Lemma and3_cells g c x1 y1 x2 y2 :
  grid_wf g ->
  (c = true -> in_bounds g (x1, y1) /\ in_bounds g (x2, y2)) ->
  exists b,
    and3 c (cell_is_empty g x1 y1) (cell_is_empty g x2 y2) = Ok b
    /\ (b = true <-> c = true /\ has_type g (x1, y1) NodeType.empty
                     /\ has_type g (x2, y2) NodeType.empty).
Proof.
  intros Hwf Hc. unfold and3. destruct c.
  - destruct (Hc eq_refl) as [H1 H2].
    destruct (cell_is_empty_ok g (x1, y1) Hwf H1) as (b1 & E1 & Hb1).
    destruct (cell_is_empty_ok g (x2, y2) Hwf H2) as (b2 & E2 & Hb2).
    cbn [fst snd] in E1, E2. rewrite E1. cbn [bind]. destruct b1.
    + exists b2. split; [exact E2|]. rewrite Hb2. intuition.
    + exists false. split; [reflexivity|]. split; [discriminate|].
      intros (_ & H & _). apply Hb1 in H. discriminate.
  - exists false. split; [reflexivity|]. split; [discriminate|]. intros (H & _).
    discriminate.
Qed.

Lemma choice_total {A : Type} (l : list A) (r : Rng) :
  l <> [] -> exists a, choice l r = Ok (a, snd (next_draw r)) /\ In a l.
Proof.
  intros Hne. unfold choice. destruct (next_draw r) as [k r1]. cbn [snd].
  assert (Hlen : (0 < length l)%nat) by (destruct l; cbn; [congruence|lia]).
  destruct (nth_error l (k mod length l)) as [a|] eqn:E.
  - exists a. split; [reflexivity|]. eapply nth_error_In; eauto.
  - apply nth_error_None in E. pose proof (Nat.mod_upper_bound k (length l)). lia.
Qed.

(** X6: from a node of the board [get_random_direction] raises nothing.  It
    returns a direction only if the next two nodes that way are on the board
    and empty, taking one draw; it returns None, without a draw, exactly when
    no direction is like that. *)
Theorem get_random_direction_offers :
  forall g x y r,
    grid_wf g -> in_bounds g (x, y) ->
    exists od r',
      get_random_direction g x y r = Ok (od, r')
      /\ match od with
         | Some d => open_direction g x y d /\ r' = snd (next_draw r)
         | None => (forall d, ~ open_direction g x y d) /\ r' = r
         end.
Proof.
  intros g x y r Hwf [Hx Hy]. cbn [fst snd] in Hx, Hy. unfold get_random_direction.
  destruct (and3_cells g (y >=? 2) x (y - 1) x (y - 2) Hwf) as (up & -> & Hup).
  { intros Hc. apply Z.geb_le in Hc. split; split; cbn [fst snd]; lia. }
  destruct (and3_cells g (y <? Grid.height g - 2) x (y + 1) x (y + 2) Hwf)
    as (down & -> & Hdown).
  { intros Hc. apply Z.ltb_lt in Hc. split; split; cbn [fst snd]; lia. }
  destruct (and3_cells g (x >=? 2) (x - 1) y (x - 2) y Hwf) as (left & -> & Hleft).
  { intros Hc. apply Z.geb_le in Hc. split; split; cbn [fst snd]; lia. }
  destruct (and3_cells g (x <? Grid.width g - 2) (x + 1) y (x + 2) y Hwf)
    as (right & -> & Hright).
  { intros Hc. apply Z.ltb_lt in Hc. split; split; cbn [fst snd]; lia. }
  cbn [bind].
  assert (Hopen : forall d,
            open_direction g x y d
            <-> match d with UP => up | DOWN => down | LEFT => left | RIGHT => right end
                = true).
  { intros d. unfold open_direction. destruct d.
    - rewrite Hup, Z.geb_le. split.
      + intros H. destruct (H 1) as [[_ Hb1] H1]; [lia|].
        destruct (H 2) as [[_ Hb2] H2]; [lia|].
        rewrite step_from_unfold in *. cbn [fst snd] in *.
        repeat split; auto; lia.
      + intros (Hc & H1 & H2) k Hk. rewrite step_from_unfold.
        assert (k = 1 \/ k = 2) as [-> | ->] by lia;
          (split; [split; cbn [fst snd]; lia|assumption]).
    - rewrite Hdown, Z.ltb_lt. split.
      + intros H. destruct (H 1) as [[_ Hb1] H1]; [lia|].
        destruct (H 2) as [[_ Hb2] H2]; [lia|].
        rewrite step_from_unfold in *. cbn [fst snd] in *. repeat split; auto; lia.
      + intros (Hc & H1 & H2) k Hk. rewrite step_from_unfold.
        assert (k = 1 \/ k = 2) as [-> | ->] by lia;
          (split; [split; cbn [fst snd]; lia|assumption]).
    - rewrite Hleft, Z.geb_le. split.
      + intros H. destruct (H 1) as [[Hb1 _] H1]; [lia|].
        destruct (H 2) as [[Hb2 _] H2]; [lia|].
        rewrite step_from_unfold in *. cbn [fst snd] in *. repeat split; auto; lia.
      + intros (Hc & H1 & H2) k Hk. rewrite step_from_unfold.
        assert (k = 1 \/ k = 2) as [-> | ->] by lia;
          (split; [split; cbn [fst snd]; lia|assumption]).
    - rewrite Hright, Z.ltb_lt. split.
      + intros H. destruct (H 1) as [[Hb1 _] H1]; [lia|].
        destruct (H 2) as [[Hb2 _] H2]; [lia|].
        rewrite step_from_unfold in *. cbn [fst snd] in *. repeat split; auto; lia.
      + intros (Hc & H1 & H2) k Hk. rewrite step_from_unfold.
        assert (k = 1 \/ k = 2) as [-> | ->] by lia;
          (split; [split; cbn [fst snd]; lia|assumption]). }
  set (available := (if up then [UP] else []) ++ (if down then [DOWN] else [])
                    ++ (if left then [LEFT] else []) ++ (if right then [RIGHT] else [])).
  assert (Hav : forall d, In d available <-> open_direction g x y d).
  { intros d. rewrite Hopen. unfold available. rewrite !in_app_iff.
    destruct up, down, left, right, d; cbn; intuition congruence. }
  destruct available as [|d0 rest] eqn:Eav.
  - cbn [length Nat.eqb]. exists None, r. split; [reflexivity|]. split; [|reflexivity].
    intros d Hd. now apply Hav in Hd.
  - cbn [length Nat.eqb].
    destruct (choice_total (d0 :: rest) r) as (d & Hd & Hin); [discriminate|].
    rewrite Hd. cbn [bind]. exists (Some d), (snd (next_draw r)).
    split; [reflexivity|]. split; [now apply Hav|reflexivity].
Qed.

Lemma seeded_board_wf : grid_wf seeded_board.
Proof.
  destruct (update_cell_ok (Grid_init 4 4) 0 0 (to_island 0)
              (Node.mk 0 0 NodeType.empty (-1)) (Grid_init_wf 4 4))
    as (g' & Hg' & Hwf & _).
  - split; cbn; lia.
  - apply keeps_position_to_island.
  - reflexivity.
  - unfold seeded_board. rewrite Hg'. exact Hwf.
Qed.

Lemma get_random_direction_offers_witness :
  exists od r',
    get_random_direction seeded_board 0 0 zero_rng = Ok (od, r')
    /\ match od with
       | Some d => open_direction seeded_board 0 0 d /\ r' = snd (next_draw zero_rng)
       | None => (forall d, ~ open_direction seeded_board 0 0 d) /\ r' = zero_rng
       end.
Proof.
  apply (get_random_direction_offers seeded_board 0 0 zero_rng seeded_board_wf).
  unfold in_bounds. change (Grid.width seeded_board) with 4.
  change (Grid.height seeded_board) with 4. cbn [fst snd]. lia.
Defined.

(** ** grid.py: the length of a new bridge *)

(** X7: on a board laid out as [Grid.__init__] lays it out, the walk of
    [get_random_bridge_length] ends, from any start and in any direction, and
    the function raises nothing: it returns a length of at least 1 such that
    the nodes at distance 3 up to one past that length are on the board and
    empty. *)
Theorem get_random_bridge_length_returns :
  forall g x y d shorter r,
    grid_wf g ->
    exists len r',
      get_random_bridge_length g x y d shorter r = Ok (len, r')
      /\ 1 <= len
      /\ forall k, 3 <= k <= len + 1 ->
           in_bounds g (step_from x y d k)
           /\ has_type g (step_from x y d k) NodeType.empty.
Proof.
  intros g x y d shorter r Hwf.
  destruct (get_random_bridge_length_total g x y d shorter r Hwf) as (len & r' & H).
  exists len, r'. split; [exact H|]. now apply get_random_bridge_length_spec in H.
Qed.

Lemma get_random_bridge_length_returns_witness :
  exists len r',
    get_random_bridge_length seeded_board 0 0 DOWN true zero_rng = Ok (len, r')
    /\ 1 <= len
    /\ forall k, 3 <= k <= len + 1 ->
         in_bounds seeded_board (step_from 0 0 DOWN k)
         /\ has_type seeded_board (step_from 0 0 DOWN k) NodeType.empty.
Proof.
  apply (get_random_bridge_length_returns seeded_board 0 0 DOWN true zero_rng
           seeded_board_wf).
Defined.

(** ** generator.py: [is_candidate_full] *)

Lemma cell_wrap g x y :
  grid_wf g ->
  - Grid.width g <= x < Grid.width g -> - Grid.height g <= y < Grid.height g ->
  cell g x y = cell g (x mod Grid.width g) (y mod Grid.height g).
Proof.
  intros [Hlen Hcols] Hx Hy. unfold cell, py_index.
  rewrite Hlen, Z2Nat.id by lia. rewrite <- (py_norm_wrap _ x Hx).
  destruct (py_norm (Grid.width g) x) as [n|]; [|reflexivity].
  destruct (nth_error (Grid.grid g) n) as [column|] eqn:Ec; [|reflexivity].
  cbn [bind]. destruct (Hcols _ _ Ec) as [Hclen _].
  rewrite Hclen, Z2Nat.id by lia. rewrite <- (py_norm_wrap _ y Hy). reflexivity.
Qed.

Lemma all_empty_loop g (cells : list (Z * Z)) :
  (forall c, In c cells -> exists n, cell g (fst c) (snd c) = Ok n) ->
  forall acc,
    exists b,
      for_each cells (fun c acc =>
        e <- cell_is_empty g (fst c) (snd c) ;; Ok (acc && e)) acc = Ok b
      /\ (b = false <->
          acc = false
          \/ exists c n, In c cells /\ cell g (fst c) (snd c) = Ok n
                         /\ Node.type n <> NodeType.empty).
Proof.
  induction cells as [|c cells IH]; intros Hall acc; cbn [for_each].
  - exists acc. split; [reflexivity|]. split; [auto|].
    intros [H|(c & n & [] & _)]; exact H.
  - destruct (Hall c (or_introl eq_refl)) as (n & Hn).
    unfold cell_is_empty at 1. rewrite Hn. cbn [bind].
    destruct (IH (fun c' H => Hall c' (or_intror H))
                (acc && NodeType.eqb (Node.type n) NodeType.empty)) as (b & Hb & Hiff).
    exists b. split; [exact Hb|]. rewrite Hiff, andb_false_iff. split.
    + intros [[H|H]|(c' & n' & Hc' & Hn')].
      * now left.
      * right. exists c, n. split; [now left|]. split; [exact Hn|].
        intros E. rewrite E in H. discriminate.
      * right. exists c', n'. split; [now right|exact Hn'].
    + intros [H|(c' & n' & [<-|Hc'] & Hn' & Ht)].
      * left. now left.
      * left. right. assert (n' = n) by congruence. subst.
        destruct (Node.type n); try reflexivity. congruence.
      * right. exists c', n'. split; [exact Hc'|]. now split.
Qed.

Lemma all_empty_spec g (cells : list (Z * Z)) :
  (forall c, In c cells -> exists n, cell g (fst c) (snd c) = Ok n) ->
  exists b,
    all_empty g cells = Ok b
    /\ (b = false <->
        exists c n, In c cells /\ cell g (fst c) (snd c) = Ok n
                    /\ Node.type n <> NodeType.empty).
Proof.
  intros Hall. destruct (all_empty_loop g cells Hall true) as (b & Hb & Hiff).
  exists b. split; [exact Hb|]. rewrite Hiff. split; [|auto].
  intros [H|H]; [discriminate|exact H].
Qed.

(** X8: what [is_candidate_full] answers on a board laid out as
    [Grid.__init__] lays it out.  With a positive width and height it raises
    nothing and returns True exactly when the first row, the last row, the
    first column and the last column each hold a node that is not empty.  A
    board without columns is not full; one with columns but no rows raises
    IndexError. *)
Theorem is_candidate_full_iff :
  forall g,
    grid_wf g ->
    (0 < Grid.width g -> 0 < Grid.height g ->
     exists b,
       is_candidate_full g = Ok b
       /\ (b = true <->
           row_used g 0 /\ row_used g (Grid.height g - 1)
           /\ column_used g 0 /\ column_used g (Grid.width g - 1)))
    /\ (Grid.width g <= 0 -> is_candidate_full g = Ok false)
    /\ (0 < Grid.width g -> Grid.height g <= 0 ->
        is_candidate_full g = Raise IndexError).
Proof.
  intros g Hwf. split; [|split].
  - intros Hw Hh.
    assert (Hlast_row : forall x, 0 <= x < Grid.width g ->
              cell g x (-1) = cell g x (Grid.height g - 1)).
    { intros x Hx. rewrite cell_wrap by (auto; lia). rewrite (Z.mod_small x) by lia.
      f_equal. symmetry. apply Z.mod_unique with (q := -1); lia. }
    assert (Hlast_col : forall y, 0 <= y < Grid.height g ->
              cell g (-1) y = cell g (Grid.width g - 1) y).
    { intros y Hy. rewrite cell_wrap by (auto; lia). rewrite (Z.mod_small y) by lia.
      f_equal. symmetry. apply Z.mod_unique with (q := -1); lia. }
    destruct (all_empty_spec g (map (fun i => (i, 0)) (range 0 (Grid.width g))))
      as (top & Htop & Itop).
    { intros c Hc. apply in_map_iff in Hc as (i & <- & Hi). apply range_In in Hi.
      destruct (cell_ok g i 0 Hwf) as (n & Hn & _); [split; cbn; lia|eauto]. }
    destruct (all_empty_spec g (map (fun i => (i, -1)) (range 0 (Grid.width g))))
      as (bottom & Hbottom & Ibottom).
    { intros c Hc. apply in_map_iff in Hc as (i & <- & Hi). apply range_In in Hi.
      cbn [fst snd]. rewrite Hlast_row by lia.
      destruct (cell_ok g i (Grid.height g - 1) Hwf) as (n & Hn & _);
        [split; cbn; lia|eauto]. }
    destruct (all_empty_spec g (map (fun i => (0, i)) (range 0 (Grid.height g))))
      as (first & Hfirst & Ifirst).
    { intros c Hc. apply in_map_iff in Hc as (i & <- & Hi). apply range_In in Hi.
      destruct (cell_ok g 0 i Hwf) as (n & Hn & _); [split; cbn; lia|eauto]. }
    destruct (all_empty_spec g (map (fun i => (-1, i)) (range 0 (Grid.height g))))
      as (last & Hlast & Ilast).
    { intros c Hc. apply in_map_iff in Hc as (i & <- & Hi). apply range_In in Hi.
      cbn [fst snd]. rewrite Hlast_col by lia.
      destruct (cell_ok g (Grid.width g - 1) i Hwf) as (n & Hn & _);
        [split; cbn; lia|eauto]. }
    assert (Rtop : top = false <-> row_used g 0).
    { rewrite Itop. unfold row_used. split.
      - intros (c & n & Hc & Hn & Ht). apply in_map_iff in Hc as (i & <- & Hi).
        apply range_In in Hi. exists i, n. auto.
      - intros (x & n & Hx & Hn & Ht). exists (x, 0), n.
        split; [apply in_map_iff; exists x; split; [reflexivity|now apply range_In]|].
        auto. }
    assert (Rbottom : bottom = false <-> row_used g (Grid.height g - 1)).
    { rewrite Ibottom. unfold row_used. split.
      - intros (c & n & Hc & Hn & Ht). apply in_map_iff in Hc as (i & <- & Hi).
        apply range_In in Hi. cbn [fst snd] in Hn. rewrite Hlast_row in Hn by lia.
        exists i, n. auto.
      - intros (x & n & Hx & Hn & Ht). exists (x, -1), n.
        split; [apply in_map_iff; exists x; split; [reflexivity|now apply range_In]|].
        cbn [fst snd]. rewrite Hlast_row by lia. auto. }
    assert (Rfirst : first = false <-> column_used g 0).
    { rewrite Ifirst. unfold column_used. split.
      - intros (c & n & Hc & Hn & Ht). apply in_map_iff in Hc as (i & <- & Hi).
        apply range_In in Hi. exists i, n. auto.
      - intros (y & n & Hy & Hn & Ht). exists (0, y), n.
        split; [apply in_map_iff; exists y; split; [reflexivity|now apply range_In]|].
        auto. }
    assert (Rlast : last = false <-> column_used g (Grid.width g - 1)).
    { rewrite Ilast. unfold column_used. split.
      - intros (c & n & Hc & Hn & Ht). apply in_map_iff in Hc as (i & <- & Hi).
        apply range_In in Hi. cbn [fst snd] in Hn. rewrite Hlast_col in Hn by lia.
        exists i, n. auto.
      - intros (y & n & Hy & Hn & Ht). exists (-1, y), n.
        split; [apply in_map_iff; exists y; split; [reflexivity|now apply range_In]|].
        cbn [fst snd]. rewrite Hlast_col by lia. auto. }
    clear Itop Ibottom Ifirst Ilast.
    unfold is_candidate_full. rewrite Htop. cbn [bind].
    destruct top.
    { exists false. split; [reflexivity|]. split; [discriminate|].
      intros (H & _). apply Rtop in H. discriminate. }
    rewrite Hbottom. cbn [bind]. destruct bottom.
    { exists false. split; [reflexivity|]. split; [discriminate|].
      intros (_ & H & _). apply Rbottom in H. discriminate. }
    rewrite Hfirst. cbn [bind]. destruct first.
    { exists false. split; [reflexivity|]. split; [discriminate|].
      intros (_ & _ & H & _). apply Rfirst in H. discriminate. }
    rewrite Hlast. cbn [bind]. destruct last.
    { exists false. split; [reflexivity|]. split; [discriminate|].
      intros (_ & _ & _ & H). apply Rlast in H. discriminate. }
    exists true. split; [reflexivity|]. split; [|reflexivity]. intros _.
    split; [now apply Rtop|]. split; [now apply Rbottom|].
    split; [now apply Rfirst|now apply Rlast].
  - intros Hw. unfold is_candidate_full.
    replace (range 0 (Grid.width g)) with (@nil Z); [reflexivity|].
    unfold range. now replace (Z.to_nat (Grid.width g - 0)) with O by lia.
  - intros Hw Hh. unfold is_candidate_full.
    assert (Hr : range 0 (Grid.width g) = 0 :: range 1 (Grid.width g)).
    { unfold range. replace (Z.to_nat (Grid.width g - 0))
        with (S (Z.to_nat (Grid.width g - 1))) by lia.
      cbn [seq map]. f_equal. rewrite <- seq_shift, map_map. apply map_ext.
      intros k. lia. }
    rewrite Hr. cbn [map]. unfold all_empty at 1. cbn [for_each fst snd].
    destruct Hwf as [Hlen Hcols]. unfold cell_is_empty, cell.
    destruct (py_index_nth (Grid.grid g) 0) as (column & Hc & ->); [lia|].
    cbn [bind]. destruct (Hcols _ _ Hc) as [Hclen _].
    assert (column = []) by (destruct column; [reflexivity|cbn in Hclen; lia]).
    subst column. reflexivity.
Qed.

Lemma is_candidate_full_iff_witness :
  (0 < Grid.width seeded_board -> 0 < Grid.height seeded_board ->
   exists b,
     is_candidate_full seeded_board = Ok b
     /\ (b = true <->
         row_used seeded_board 0 /\ row_used seeded_board (Grid.height seeded_board - 1)
         /\ column_used seeded_board 0
         /\ column_used seeded_board (Grid.width seeded_board - 1)))
  /\ (Grid.width seeded_board <= 0 -> is_candidate_full seeded_board = Ok false)
  /\ (0 < Grid.width seeded_board -> Grid.height seeded_board <= 0 ->
      is_candidate_full seeded_board = Raise IndexError).
Proof. exact (is_candidate_full_iff seeded_board seeded_board_wf). Defined.

Example is_candidate_full_edges :
  is_candidate_full (Grid_init 0 3) = Ok false
  /\ is_candidate_full (Grid_init 3 0) = Raise IndexError
  /\ is_candidate_full seeded_board = Ok false.
Proof. repeat split. Qed.

(** ** generator.py: what a pass of the loop body does *)

Lemma adjacent_island_loop g (e : Node.t) (l : list Direction) :
  forall acc,
    for_each l (fun check_direction adjacent_island_found =>
      let check_vector := get_vector check_direction in
      let check_node_x := Node.x e + fst check_vector in
      let check_node_y := Node.y e + snd check_vector in
      if within_bounds g check_node_x check_node_y
      then node <- cell g check_node_x check_node_y ;;
           Ok (if NodeType.eqb (Node.type node) NodeType.island
               then true else adjacent_island_found)
      else Ok adjacent_island_found) acc = Ok false ->
    acc = false
    /\ forall d, In d l -> in_bounds g (step_from (Node.x e) (Node.y e) d 1) ->
         ~ has_type g (step_from (Node.x e) (Node.y e) d 1) NodeType.island.
Proof.
  induction l as [|d l IH]; intros acc H; cbn [for_each] in H.
  - injection H as ->. split; [reflexivity|]. intros d [].
  - bind_inv H as acc' Hbody. apply IH in H. destruct H as [-> Hrest].
    cbv zeta in Hbody.
    assert (Hstep : step_from (Node.x e) (Node.y e) d 1
                    = (Node.x e + fst (get_vector d), Node.y e + snd (get_vector d))).
    { unfold step_from. now rewrite !Z.mul_1_r. }
    destruct (within_bounds g _ _) eqn:Eb.
    + bind_inv Hbody as node Hnode.
      destruct (NodeType.eqb (Node.type node) NodeType.island) eqn:Et; [discriminate|].
      injection Hbody as ->. split; [reflexivity|].
      intros d' [<-|Hd'] Hb; [|now apply Hrest].
      rewrite Hstep. intros (n & Hn & Ht). cbn [fst snd] in Hn.
      assert (n = node) by congruence. subst. rewrite Ht in Et. discriminate.
    + injection Hbody as ->. split; [reflexivity|].
      intros d' [<-|Hd'] Hb; [|now apply Hrest].
      exfalso. apply within_bounds_false in Eb. apply Eb. now rewrite <- Hstep.
Qed.

Lemma adjacent_island_false g (e : Node.t) :
  adjacent_island g e = Ok false ->
  forall d, in_bounds g (step_from (Node.x e) (Node.y e) d 1) ->
    ~ has_type g (step_from (Node.x e) (Node.y e) d 1) NodeType.island.
Proof.
  intros H d. apply (adjacent_island_loop g e all_directions false H).
  destruct d; cbn; auto.
Qed.

Lemma get_random_bridge_thickness_fits g x y max_degree odds r t r' n :
  get_random_bridge_thickness g x y max_degree odds r = Ok (t, r') ->
  cell g x y = Ok n -> Node.degree n < max_degree ->
  (t = 1 \/ t = 2) /\ Node.degree n + t <= max_degree.
Proof.
  unfold get_random_bridge_thickness. intros H Hn Hlt. rewrite Hn in H. cbn [bind] in H.
  destruct (Z.geb_spec (max_degree - Node.degree n) 2) as [Hge|Hlt2].
  - destruct (random r) as [u r1]. injection H as <- _.
    destruct (float_ltb u odds); split; auto; lia.
  - injection H as <- _. split; auto. lia.
Qed.

(** A pass of the loop body either leaves the board and the bridges alone or
    plants one bridge. *)
Lemma cycle_cases max_degree odds shorter st st' :
  gen_inv st -> cycle max_degree odds shorter st = Ok st' ->
  quiet st st' \/ exists x y d len t, plants max_degree st st' x y d len t.
Proof.
  intros Hinv H. unfold cycle in H.
  bind_inv H as c Hchoice. destruct c as [start_ref r1].
  bind_inv H as start_node Hstart.
  bind_inv H as c Hdir. destruct c as [dir r2].
  destruct dir as [d|]; [|injection H as <-; left; repeat split].
  destruct (Z.geb_spec (Node.degree start_node) max_degree) as [Hfull|Hroom];
    [injection H as <-; left; repeat split|].
  bind_inv H as c Hthick. destruct c as [t r3].
  bind_inv H as c Hlen. destruct c as [len r4].
  bind_inv H as end_node Hend.
  bind_inv H as found Hadj.
  destruct found; [injection H as <-; left; repeat split|].
  bind_inv H as g1 Hg1. bind_inv H as g2 Hg2. bind_inv H as g3 Hg3.
  injection H as <-. right.
  pose proof (inv_expand _ Hinv start_ref (choice_In _ _ _ _ Hchoice)) as Hisl.
  pose proof (inv_wf _ Hinv) as Hwf.
  destruct start_ref as [x y]. cbn [fst snd] in *.
  destruct (cell_ok (gen_grid st) x y Hwf (proj1 Hisl)) as (ns & Hns & Hnx & Hny).
  assert (ns = start_node) by congruence. subst ns.
  rewrite Hnx, Hny in *.
  destruct (get_random_bridge_thickness_fits _ _ _ _ _ _ _ _ _ Hthick Hstart Hroom)
    as [Ht Hfit].
  destruct (bridge_run_clear (gen_grid st) x y r1 d r2 shorter r3 len r4
              (proj1 Hisl) Hdir Hlen) as [Hlen1 Hrun].
  destruct (commit_cells (gen_grid st) x y d len t start_node Hwf (proj1 Hisl) Hstart
              Hlen1 (fun k Hk => proj1 (Hrun k Hk)))
    as (ne & g1' & g2' & g3' & Hne & Hex & Hey & Hg1' & Hg2' & Hg3' & Hwf3 & Hw3 & Hh3
        & Hs3 & He3 & Hrun3 & Hrest3).
  change (cell (gen_grid st) (x + fst (get_vector d) * (len + 1))
            (y + snd (get_vector d) * (len + 1)) = Ok ne) in Hne.
  assert (ne = end_node) by congruence. subst ne.
  assert (g1' = g1) by congruence. subst g1'.
  assert (g2' = g2) by congruence. subst g2'.
  assert (g3' = g3) by congruence. subst g3'.
  exists x, y, d, len, t. unfold plants. cbv zeta. cbn [gen_grid gen_solution island_count].
  rewrite <- Hex, <- Hey.
  split; [exact Hisl|]. split; [exists start_node; auto|]. split; [exact Hlen1|].
  split; [exact Hrun|]. split; [exact Ht|].
  split; [now apply adjacent_island_false|].
  split; [exact Hwf3|]. split; [exact Hw3|]. split; [exact Hh3|].
  split; [exists end_node; split; [now rewrite Hex, Hey|exact He3]|].
  split; [exact Hrun3|]. split; [exact Hrest3|]. split; reflexivity.
Qed.

Lemma run_classify x y d len (p : pos) :
  p = (x, y) \/ p = step_from x y d (len + 1)
  \/ (exists k, 1 <= k <= len /\ p = step_from x y d k)
  \/ (p <> (x, y) /\ forall k, 1 <= k <= len + 1 -> p <> step_from x y d k).
Proof.
  destruct (pos_eq_dec p (x, y)) as [|Hps]; auto.
  destruct (in_dec pos_eq_dec p (map (step_from x y d) (range 1 (len + 2))))
    as [Hin|Hout].
  - apply in_map_iff in Hin. destruct Hin as (k & <- & Hk). apply range_In in Hk.
    destruct (Z.eq_dec k (len + 1)) as [->|]; auto.
    right; right; left. exists k. split; auto. lia.
  - right; right; right. split; auto. intros k Hk ->. apply Hout.
    apply in_map. apply range_In. lia.
Qed.

Lemma on_bridge_run_inv x y d len single (p : pos) :
  1 <= len ->
  on_bridge (Bridge.mk (Island.mk x y 0)
               (Island.mk (fst (step_from x y d (len + 1)))
                          (snd (step_from x y d (len + 1))) 0) single) p ->
  exists k, 1 <= k <= len /\ p = step_from x y d k.
Proof.
  intros Hlen. unfold on_bridge. destruct p as [px py].
  cbn [island_pos Bridge.node1 Bridge.node2 Island.x Island.y fst snd].
  rewrite step_from_unfold. destruct d; cbn [fst snd]; intros H.
  - exists (y - py). rewrite step_from_unfold. split; [lia|f_equal; lia].
  - exists (py - y). rewrite step_from_unfold. split; [lia|f_equal; lia].
  - exists (x - px). rewrite step_from_unfold. split; [lia|f_equal; lia].
  - exists (px - x). rewrite step_from_unfold. split; [lia|f_equal; lia].
Qed.

Lemma side_by_side_step (p q : pos) :
  side_by_side p q -> exists d, q = step_from (fst p) (snd p) d 1.
Proof.
  unfold side_by_side. destruct p as [px py], q as [qx qy]. cbn [fst snd]. intros H.
  destruct (Z.eq_dec qx px) as [->|Hx].
  - destruct (Z_lt_dec qy py).
    + exists UP. rewrite step_from_unfold. f_equal. lia.
    + exists DOWN. rewrite step_from_unfold. f_equal. lia.
  - destruct (Z_lt_dec qx px).
    + exists LEFT. rewrite step_from_unfold. f_equal; lia.
    + exists RIGHT. rewrite step_from_unfold. f_equal; lia.
Qed.

Lemma side_by_side_sym (p q : pos) : side_by_side p q -> side_by_side q p.
Proof. unfold side_by_side. lia. Qed.

Section Plants.
Variables (max_degree : Z) (st st' : GenState) (x y : Z) (d : Direction) (len t : Z).
Hypothesis Hplants : plants max_degree st st' x y d len t.

Lemma plants_bounds (p : pos) : in_bounds (gen_grid st') p <-> in_bounds (gen_grid st) p.
Proof.
  pose proof Hplants as HP. unfold plants in HP. cbv zeta in HP.
  destruct HP as (_ & _ & _ & _ & _ & _ & _ & Hw & Hh & _).
  set (g := gen_grid st) in *. set (g' := gen_grid st') in *.
  set (e := step_from x y d (len + 1)) in *.
  now apply in_bounds_same_size.
Qed.

Lemma plants_end_fresh : in_bounds (gen_grid st) (step_from x y d (len + 1)) /\ has_type (gen_grid st) (step_from x y d (len + 1)) NodeType.empty /\ (step_from x y d (len + 1)) <> (x, y).
Proof.
  pose proof Hplants as HP. unfold plants in HP. cbv zeta in HP.
  destruct HP as (_ & _ & Hlen & Hrun & _).
  set (g := gen_grid st) in *. set (g' := gen_grid st') in *.
  set (e := step_from x y d (len + 1)) in *.
  destruct (Hrun (len + 1)) as [Hb He]; [lia|]. split; [exact Hb|]. split; [exact He|].
  intros E. assert (E' : step_from x y d (len + 1) = step_from x y d 0)
    by (rewrite step_from_0; exact E).
  apply step_from_injective in E'. lia.
Qed.

Lemma plants_islands (p : pos) : island_node (gen_grid st') p <-> p = (step_from x y d (len + 1)) \/ island_node (gen_grid st) p.
Proof.
  pose proof Hplants as HP. unfold plants in HP. cbv zeta in HP.
  destruct HP as (Hs & (ns & Hns & _ & _ & Hs') & Hlen & Hrun & _ & _ & _ & _ & _
                       & (ne & Hne & He') & Hrun' & Hrest & _).
  set (g := gen_grid st) in *. set (g' := gen_grid st') in *.
  set (e := step_from x y d (len + 1)) in *.
  unfold island_node. split.
  - intros [Hp Hi]. apply plants_bounds in Hp.
    destruct (run_classify x y d len p) as [->|[->|[(k & Hk & ->)|[Hps Hprun]]]]; auto.
    + exfalso. pose proof (has_type_unique _ _ _ _ Hi (Hrun' k Hk)). discriminate.
    + right. split; auto. destruct Hi as (n & Hn & Ht').
      rewrite Hrest in Hn by auto. exists n. auto.
  - intros [->|[Hp Hi]].
    + split; [apply plants_bounds; apply plants_end_fresh|].
      exists (to_island t ne). split; auto.
    + split; [now apply plants_bounds|].
      destruct (run_classify x y d len p) as [->|[->|[(k & Hk & ->)|[Hps Hprun]]]].
      * exists (add_degree t ns). split; auto. cbn [add_degree Node.type].
        destruct Hs as [_ (n & Hn & Ht')]. cbn [fst snd] in Hn. congruence.
      * exists (to_island t ne). split; auto.
      * exfalso. assert (Hk' : 1 <= k <= len + 1) by lia.
        pose proof (has_type_unique _ _ _ _ Hi (proj2 (Hrun k Hk'))). discriminate.
      * destruct Hi as (n & Hn & Ht'). exists n. split; auto.
        rewrite Hrest; auto.
Qed.

Lemma plants_kept (p : pos) (ty : NodeType.t) :
  in_bounds (gen_grid st) p -> has_type (gen_grid st) p ty -> ty <> NodeType.empty -> p <> (x, y) ->
  cell (gen_grid st') (fst p) (snd p) = cell (gen_grid st) (fst p) (snd p).
Proof.
  pose proof Hplants as HP. unfold plants in HP. cbv zeta in HP.
  destruct HP as (_ & _ & Hlen & Hrun & _ & _ & _ & _ & _ & _ & _ & Hrest & _).
  set (g := gen_grid st) in *. set (g' := gen_grid st') in *.
  set (e := step_from x y d (len + 1)) in *.
  intros Hp Hty Hne Hps. apply Hrest; auto.
  intros k Hk ->. apply Hne. exact (has_type_unique _ _ _ _ Hty (proj2 (Hrun k Hk))).
Qed.

Lemma plants_inv2 :
  gen_inv st -> gen_inv2 max_degree st -> gen_inv2 max_degree st'.
Proof.
  intros Hinv [Hdeg Hapart Htree Hstraight Hspan Hdisj (lb & Hlb & Hlbm & Hlbn)].
  pose proof plants_end_fresh as (Heb & Hee & Hes).
  pose proof Hplants as HP. unfold plants in HP. cbv zeta in HP.
  destruct HP as (Hs & (ns & Hns & Hroom & Hfit & Hs') & Hlen & Hrun & Ht & Hadj
                       & Hwf' & Hw & Hh & (ne & Hne & He') & Hrun' & Hrest & Hsol & Hcount).
  set (g := gen_grid st) in *. set (g' := gen_grid st') in *.
  set (e := step_from x y d (len + 1)) in *.
  assert (Htype_s : Node.type ns = NodeType.island).
  { destruct Hs as [_ (n & Hn & Ht')]. cbn [fst snd] in Hn. congruence. }
  assert (Hdeg_s : 0 <= Node.degree ns) by (apply (Hdeg (x, y) ns); auto; apply Hs).
  assert (Hnew : forall p, on_bridge (Bridge.mk (Island.mk x y 0)
                              (Island.mk (fst e) (snd e) 0) (t =? 1)) p ->
                 exists k, 1 <= k <= len /\ p = step_from x y d k).
  { intros p. now apply on_bridge_run_inv. }
  constructor; fold g'.
  - intros p n Hp Hn Htn. apply plants_bounds in Hp.
    destruct (run_classify x y d len p) as [->|[->|[(k & Hk & ->)|[Hps Hprun]]]].
    + cbn [fst snd] in Hn. rewrite Hs' in Hn. injection Hn as <-.
      cbn [add_degree Node.degree]. lia.
    + fold e in Hn. rewrite He' in Hn. injection Hn as <-.
      cbn [to_island Node.degree]. lia.
    + exfalso.
      assert (Hi : has_type g' (step_from x y d k) NodeType.island) by (exists n; auto).
      pose proof (has_type_unique _ _ _ _ Hi (Hrun' k Hk)). discriminate.
    + rewrite Hrest in Hn by auto. now apply (Hdeg p n).
  - intros p q Hp Hq Hside. apply plants_islands in Hp, Hq.
    assert (Hclash : forall q', island_node g q' -> side_by_side e q' -> False).
    { intros q' [Hq'b Hq'i] Hside'. apply side_by_side_step in Hside' as (d' & ->).
      now apply (Hadj d'). }
    destruct Hp as [->|Hp]; destruct Hq as [->|Hq].
    + unfold side_by_side in Hside. lia.
    + now apply (Hclash q).
    + apply (Hclash p); auto. now apply side_by_side_sym.
    + now apply (Hapart p q).
  - rewrite Hsol, length_app, Hcount. cbn [length]. lia.
  - intros b Hb. rewrite Hsol in Hb. apply in_app_or in Hb as [Hb|[<-|[]]].
    + now apply Hstraight.
    + exists d, len. split; [exact Hlen|]. cbn [Bridge.node1 Bridge.node2 island_pos
        Island.x Island.y]. fold e. now destruct e.
  - intros b p Hb Hon. rewrite Hsol in Hb. apply in_app_or in Hb as [Hb|[<-|[]]].
    + destruct (Hspan b p Hb Hon) as [Hp Hty]. split; [now apply plants_bounds|].
      destruct Hty as (n & Hn & Htn). exists n. split; [|exact Htn].
      assert (Hkept : cell g' (fst p) (snd p) = cell g (fst p) (snd p)).
      { apply (plants_kept p NodeType.bridge); auto.
        - exists n. auto.
        - discriminate.
        - intros ->. destruct Hs as [_ Hi].
          assert (Hbr : has_type g (x, y) NodeType.bridge) by (exists n; auto).
          pose proof (has_type_unique _ _ _ _ Hi Hbr). discriminate. }
      now rewrite Hkept.
    + destruct (Hnew p Hon) as (k & Hk & ->). split; [|now apply Hrun'].
      apply plants_bounds. apply Hrun. lia.
  - intros b b' p Hb Hb' Hon Hon'. rewrite Hsol in Hb, Hb'.
    assert (Hmix : forall b0, In b0 (gen_solution st) -> on_bridge b0 p ->
              on_bridge (Bridge.mk (Island.mk x y 0) (Island.mk (fst e) (snd e) 0)
                           (t =? 1)) p -> False).
    { intros b0 Hb0 Hon0 HonN. destruct (Hnew p HonN) as (k & Hk & ->).
      destruct (Hspan b0 _ Hb0 Hon0) as [_ Hty].
      assert (Hk' : 1 <= k <= len + 1) by lia.
      pose proof (has_type_unique _ _ _ _ Hty (proj2 (Hrun k Hk'))). discriminate. }
    apply in_app_or in Hb as [Hb|[<-|[]]]; apply in_app_or in Hb' as [Hb'|[<-|[]]].
    + now apply (Hdisj b b' p).
    + exfalso. now apply (Hmix b).
    + exfalso. now apply (Hmix b').
    + reflexivity.
  - exists (step_from x y d 1 :: lb). split; [|split].
    + constructor; [|exact Hlb]. intros Hin. destruct (Hlbm _ Hin) as [_ Hty].
      assert (H1 : 1 <= 1 <= len + 1) by lia.
      pose proof (has_type_unique _ _ _ _ Hty (proj2 (Hrun 1 H1))). discriminate.
    + intros p [<-|Hin].
      * split; [apply plants_bounds; apply Hrun; lia|apply Hrun'; lia].
      * destruct (Hlbm p Hin) as [Hp Hty]. split; [now apply plants_bounds|].
        destruct Hty as (n & Hn & Htn). exists n. split; [|exact Htn].
        assert (Hkept : cell g' (fst p) (snd p) = cell g (fst p) (snd p)).
        { apply (plants_kept p NodeType.bridge); auto.
          - exists n. auto.
          - discriminate.
          - intros ->. destruct Hs as [_ Hi].
            assert (Hbr : has_type g (x, y) NodeType.bridge) by (exists n; auto).
            pose proof (has_type_unique _ _ _ _ Hi Hbr). discriminate. }
        now rewrite Hkept.
    + rewrite Hcount. cbn [length]. lia.
Qed.
End Plants.

Lemma quiet_inv2 max_degree st st' :
  gen_inv2 max_degree st -> quiet st st' -> gen_inv2 max_degree st'.
Proof.
  intros [Hdeg Hapart Htree Hstraight Hspan Hdisj Hnodes] (Hg & Hs & Hc).
  constructor; rewrite ?Hg, ?Hs, ?Hc; assumption.
Qed.

Lemma seed_inv2 max_degree st :
  0 <= max_degree -> gen_inv st -> island_count st = 0 -> gen_solution st = [] ->
  gen_inv2 max_degree st.
Proof.
  intros Hmax Hinv Hc Hs. constructor; rewrite ?Hs, ?Hc.
  - intros p n Hp Hn Ht. rewrite (inv_degree _ Hinv p n Hp Hn Ht), Hs. cbn. lia.
  - intros p q Hp Hq Hside.
    destruct (inv_count _ Hinv) as (l & Hnd & Hl & Hlen). rewrite Hc in Hlen.
    apply Hl in Hp, Hq. destruct l as [|a [|a' l]]; cbn [length] in Hlen; try lia.
    destruct Hp as [<-|[]]. destruct Hq as [<-|[]]. unfold side_by_side in Hside. lia.
  - reflexivity.
  - intros b [].
  - intros b p [].
  - intros b b' p [].
  - exists []. split; [constructor|]. split; [intros p []|]. cbn. lia.
Qed.

Lemma place_seed_fields width height r st :
  place_seed width height r = Ok st -> island_count st = 0 /\ gen_solution st = [].
Proof.
  unfold place_seed. intros H.
  bind_inv H as sx Hx. destruct sx as [seed_x r1].
  bind_inv H as column Hcol.
  bind_inv H as sy Hy. destruct sy as [seed_y r2].
  bind_inv H as seed Hseed.
  bind_inv H as grid Hgrid.
  injection H as <-. split; reflexivity.
Qed.

Lemma iteration_inv2 width height max_degree odds shorter st :
  0 <= max_degree ->
  iteration width height max_degree odds shorter st -> gen_inv2 max_degree st.
Proof.
  intros Hmax. induction 1 as [r st Hseed|st st' Hit IH Hc].
  - destruct (place_seed_fields _ _ _ _ Hseed) as [Hc Hs].
    apply seed_inv2; auto. exact (proj1 (place_seed_inv width height r st Hseed)).
  - pose proof (iteration_inv _ _ _ _ _ _ Hit) as Hinv.
    destruct (cycle_cases max_degree odds shorter st st' Hinv Hc)
      as [Hq|(x & y & d & len & t & Hp)].
    + now apply (quiet_inv2 max_degree st).
    + now apply (plants_inv2 max_degree st st' x y d len t).
Qed.

Lemma cycles_iteration width height max_degree odds shorter min_island_count n :
  forall st st',
    iteration width height max_degree odds shorter st ->
    cycles max_degree odds shorter min_island_count n st = Ok st' ->
    iteration width height max_degree odds shorter st'.
Proof.
  induction n as [|n IH]; intros st st' Hit H; cbn [cycles] in H.
  - now injection H as <-.
  - destruct (length (to_expand st) =? 0)%nat; [now injection H as <-|].
    destruct (island_count st >=? min_island_count); [now injection H as <-|].
    bind_inv H as st1 Hc. apply (IH st1); auto.
    now apply iteration_next with (st := st).
Qed.

(** An accepted attempt of [generate] ends in a state of the loop of
    [generate_candidate] with at least four bridges counted, and the puzzle
    is read off its board. *)
Lemma generate_loop_iteration fuel :
  forall width height s density r p,
    generate_loop fuel width height s density r = Ok p ->
    exists st islands,
      iteration width height (max_degree s) (single_bridge_odds s) (shorter_bridges s) st
      /\ Grid.width (gen_grid st) = width /\ Grid.height (gen_grid st) = height
      /\ 4 <= island_count st
      /\ to_puzzle (gen_grid st) = Ok (Puzzle.mk width height islands None)
      /\ p = Puzzle.mk width height islands (Some (gen_solution st)).
Proof.
  induction fuel as [|fuel IH]; intros width height s density r p H;
    cbn [generate_loop] in H; [discriminate|].
  bind_inv H as m Hm.
  bind_inv H as attempt Hattempt. destruct attempt as [[[grid count] solution] r'].
  destruct (Z.ltb_spec count m) as [Hshort|Henough]; [now apply IH in H|].
  bind_inv H as full Hfull. destruct full; [|now apply IH in H].
  bind_inv H as puzzle Hpuzzle. injection H as <-.
  unfold generate_candidate in Hattempt.
  bind_inv Hattempt as st0 Hseed. bind_inv Hattempt as st Hcycles.
  injection Hattempt as <- <- <- _.
  assert (Hit : iteration width height (max_degree s) (single_bridge_odds s)
                  (shorter_bridges s) st).
  { eapply cycles_iteration; [|exact Hcycles].
    now apply iteration_first with (r := r). }
  destruct (place_seed_inv width height r st0 Hseed) as (Hinv0 & Hw0 & Hh0).
  destruct (cycles_preserve _ _ _ _ _ _ _ Hinv0 Hcycles) as (Hinv & Hw & Hh).
  destruct (to_puzzle_spec (gen_grid st) (inv_wf _ Hinv)) as (islands & Hp & _).
  rewrite Hp in Hpuzzle. injection Hpuzzle as <-.
  exists st, islands. split; [exact Hit|]. split; [congruence|]. split; [congruence|].
  split; [pose proof (min_island_count_of_ge _ _ _ _ Hm); lia|].
  split; [|unfold with_solution; cbn; f_equal; congruence].
  rewrite Hp. f_equal. f_equal; congruence.
Qed.

Lemma settings_max_degree difficulty : 5 <= max_degree (settings difficulty) <= 8.
Proof. destruct difficulty; cbn; lia. Qed.

(** What [generate] returns, with the state of the accepted attempt. *)
Lemma generated_state fuel width height difficulty r p :
  generate fuel width height difficulty r = Ok p ->
  exists st islands,
    p = Puzzle.mk width height islands (Some (gen_solution st))
    /\ gen_inv st /\ gen_inv2 (max_degree (settings difficulty)) st
    /\ Grid.width (gen_grid st) = width /\ Grid.height (gen_grid st) = height
    /\ 4 <= island_count st
    /\ Z.of_nat (length islands) = island_count st + 1
    /\ NoDup (map island_pos islands)
    /\ (forall q, island_node (gen_grid st) q <-> In q (map island_pos islands))
    /\ (forall i, In i islands <->
          in_bounds (gen_grid st) (island_pos i)
          /\ exists n, cell (gen_grid st) (Island.x i) (Island.y i) = Ok n
                       /\ Node.type n = NodeType.island
                       /\ Node.degree n = Island.degree i).
Proof.
  intros H. unfold generate in H. apply generate_loop_iteration in H.
  destruct H as (st & islands & Hit & Hw & Hh & Hcount & Hp & ->).
  pose proof (iteration_inv _ _ _ _ _ _ Hit) as Hinv.
  assert (Hinv2 : gen_inv2 (max_degree (settings difficulty)) st).
  { apply (iteration_inv2 _ _ _ _ _ _) in Hit; auto.
    pose proof (settings_max_degree difficulty). lia. }
  destruct (to_puzzle_spec (gen_grid st) (inv_wf _ Hinv)) as (islands' & Hp' & Hnd & Hmem).
  rewrite Hp in Hp'. injection Hp' as _ _ <-.
  pose proof (island_node_listed (gen_grid st) islands Hmem) as Hlisted.
  exists st, islands. split; [reflexivity|]. split; [exact Hinv|]. split; [exact Hinv2|].
  split; [exact Hw|]. split; [exact Hh|]. split; [exact Hcount|].
  split; [now apply island_count_listed|]. split; [exact Hnd|]. split; assumption.
Qed.

(** ** generator.py: the puzzles that [generate] returns *)

Lemma incident_weight_nonneg b p : 0 <= incident_weight b p.
Proof.
  unfold incident_weight, bridge_weight.
  destruct (pos_eqb _ p), (pos_eqb _ p), (Bridge.single b); lia.
Qed.

Lemma incident_sum_nonneg solution p : 0 <= incident_sum solution p.
Proof.
  unfold incident_sum. induction solution as [|b solution IH]; cbn [fold_right]; [lia|].
  pose proof (incident_weight_nonneg b p). lia.
Qed.

Lemma incident_sum_end solution b p :
  In b solution ->
  island_pos (Bridge.node1 b) = p \/ island_pos (Bridge.node2 b) = p ->
  1 <= incident_sum solution p.
Proof.
  unfold incident_sum. induction solution as [|b' solution IH]; [intros []|].
  intros [<-|Hin] Hend; cbn [fold_right].
  - pose proof (incident_sum_nonneg solution p) as Hrest. unfold incident_sum in Hrest.
    assert (1 <= incident_weight b' p); [|lia].
    unfold incident_weight, bridge_weight.
    destruct Hend as [E|E]; apply pos_eqb_eq in E; rewrite E; clear E;
      destruct (pos_eqb _ p); destruct (Bridge.single b'); lia.
  - pose proof (incident_weight_nonneg b' p). specialize (IH Hin Hend). lia.
Qed.

Lemma reach_last solution p q :
  reach solution p q -> p <> q ->
  exists b, In b solution
            /\ (island_pos (Bridge.node1 b) = q \/ island_pos (Bridge.node2 b) = q).
Proof.
  intros H Hne. destruct H as [|q' r _ (b & Hb & Hends)]; [congruence|].
  exists b. split; [exact Hb|]. tauto.
Qed.

(** X9: every island of a puzzle that [generate] returns asks for at least
    one bridge and for no more than the tier allows: 8 on easy, 7 on medium,
    6 on hard, 5 on extreme. *)
Theorem generated_degrees_in_range :
  forall fuel width height difficulty r p,
    generate fuel width height difficulty r = Ok p ->
    Forall (fun i => 1 <= Island.degree i <= max_degree (settings difficulty))
      (Puzzle.islands p).
Proof.
  intros fuel width height difficulty r p H. apply generated_state in H.
  destruct H as (st & islands & -> & Hinv & Hinv2 & _ & _ & Hcount & Hlen & Hnd
                 & Hlisted & Hmem).
  cbn [Puzzle.islands]. apply Forall_forall. intros i Hi.
  pose proof Hi as Hcell. apply Hmem in Hcell. destruct Hcell as (Hb & n & Hn & Ht & Hd).
  rewrite <- Hd. split; [|now apply (inv_degree_range _ _ Hinv2 (island_pos i) n)].
  rewrite (inv_degree _ Hinv (island_pos i) n Hb Hn Ht).
  destruct (inv_connected _ Hinv) as (root & Hroot & Hconn).
  assert (Hother : exists j, In j islands /\ island_pos j <> island_pos i).
  { destruct islands as [|a [|a' rest]]; cbn [length] in Hlen; try lia.
    cbn [map] in Hnd. inversion Hnd as [|? ? Hfresh _]; subst.
    destruct (pos_eq_dec (island_pos a) (island_pos i)) as [E|E].
    - exists a'. split; [cbn; auto|]. intros E'. apply Hfresh. left. congruence.
    - exists a. split; [now left|exact E]. }
  destruct Hother as (j & Hj & Hne).
  assert (Hri : reach (gen_solution st) root (island_pos i)).
  { apply Hconn, Hlisted. now apply in_map. }
  assert (Hrj : reach (gen_solution st) root (island_pos j)).
  { apply Hconn, Hlisted. now apply in_map. }
  destruct (pos_eq_dec root (island_pos i)) as [E|E].
  - subst root. apply reach_sym in Hrj.
    destruct (reach_last _ _ _ Hrj Hne) as (b & Hb' & Hends).
    now apply (incident_sum_end _ b).
  - destruct (reach_last _ _ _ Hri E) as (b & Hb' & Hends).
    now apply (incident_sum_end _ b).
Qed.

Lemma generated_degrees_in_range_witness :
  Forall (fun i => 1 <= Island.degree i <= max_degree (settings easy))
    [Island.mk 0 0 2; Island.mk 0 3 2; Island.mk 2 0 2; Island.mk 2 2 1;
     Island.mk 3 3 1].
Proof.
  apply (generated_degrees_in_range 1 4 4 easy five_island_rng
           (Puzzle.mk 4 4
              [Island.mk 0 0 2; Island.mk 0 3 2; Island.mk 2 0 2; Island.mk 2 2 1;
               Island.mk 3 3 1]
              (Some [Bridge.mk (Island.mk 0 0 0) (Island.mk 2 0 0) true;
                     Bridge.mk (Island.mk 0 0 0) (Island.mk 0 3 0) true;
                     Bridge.mk (Island.mk 0 3 0) (Island.mk 3 3 0) true;
                     Bridge.mk (Island.mk 2 0 0) (Island.mk 2 2 0) true]))).
  vm_compute. reflexivity.
Defined.

(** X10: the islands of a puzzle that [generate] returns lie on the board, no
    two on one position and no two side by side. *)
Theorem generated_islands_apart :
  forall fuel width height difficulty r p,
    generate fuel width height difficulty r = Ok p ->
    islands_in_bounds p
    /\ NoDup (map island_pos (Puzzle.islands p))
    /\ forall i j, In i (Puzzle.islands p) -> In j (Puzzle.islands p) ->
         ~ side_by_side (island_pos i) (island_pos j).
Proof.
  intros fuel width height difficulty r p H. apply generated_state in H.
  destruct H as (st & islands & -> & Hinv & Hinv2 & Hw & Hh & _ & _ & Hnd
                 & Hlisted & Hmem).
  cbn [Puzzle.islands]. split; [|split; [exact Hnd|]].
  - intros i Hi. cbn [Puzzle.islands Puzzle.width Puzzle.height] in *.
    apply Hmem in Hi. destruct Hi as [[Hx Hy] _]. cbn [island_pos fst snd] in Hx, Hy.
    rewrite <- Hw, <- Hh. auto.
  - intros i j Hi Hj. apply (inv_apart _ _ Hinv2); apply Hlisted; now apply in_map.
Qed.

Lemma generated_islands_apart_witness :
  let p := Puzzle.mk 4 4
             [Island.mk 0 0 2; Island.mk 0 3 2; Island.mk 2 0 2; Island.mk 2 2 1;
              Island.mk 3 3 1]
             (Some [Bridge.mk (Island.mk 0 0 0) (Island.mk 2 0 0) true;
                    Bridge.mk (Island.mk 0 0 0) (Island.mk 0 3 0) true;
                    Bridge.mk (Island.mk 0 3 0) (Island.mk 3 3 0) true;
                    Bridge.mk (Island.mk 2 0 0) (Island.mk 2 2 0) true]) in
  islands_in_bounds p
  /\ NoDup (map island_pos (Puzzle.islands p))
  /\ forall i j, In i (Puzzle.islands p) -> In j (Puzzle.islands p) ->
       ~ side_by_side (island_pos i) (island_pos j).
Proof.
  apply (generated_islands_apart 1 4 4 easy five_island_rng).
  vm_compute. reflexivity.
Defined.

(** X11: the solution planted in a puzzle that [generate] returns is a tree on
    its islands: it has one bridge less than there are islands, each bridge
    between two islands of the puzzle.  ([check_solution] confirms that the
    bridges connect the islands.) *)
Theorem generated_solution_is_tree :
  forall fuel width height difficulty r p,
    generate fuel width height difficulty r = Ok p ->
    exists solution,
      Puzzle.solution p = Some solution
      /\ endpoints_are_islands (Puzzle.islands p) solution
      /\ (length solution + 1 = length (Puzzle.islands p))%nat.
Proof.
  intros fuel width height difficulty r p H. apply generated_state in H.
  destruct H as (st & islands & -> & Hinv & Hinv2 & _ & _ & _ & Hlen & _ & Hlisted & _).
  exists (gen_solution st). cbn [Puzzle.solution Puzzle.islands].
  split; [reflexivity|]. split.
  - intros b Hb. destruct (inv_ends _ Hinv b Hb). split; now apply Hlisted.
  - pose proof (inv_tree _ _ Hinv2). lia.
Qed.

Lemma generated_solution_is_tree_witness :
  exists solution,
    Some [Bridge.mk (Island.mk 0 0 0) (Island.mk 2 0 0) true;
          Bridge.mk (Island.mk 0 0 0) (Island.mk 0 3 0) true;
          Bridge.mk (Island.mk 0 3 0) (Island.mk 3 3 0) true;
          Bridge.mk (Island.mk 2 0 0) (Island.mk 2 2 0) true] = Some solution
    /\ endpoints_are_islands
         [Island.mk 0 0 2; Island.mk 0 3 2; Island.mk 2 0 2; Island.mk 2 2 1;
          Island.mk 3 3 1] solution
    /\ (length solution + 1 = 5)%nat.
Proof.
  apply (generated_solution_is_tree 1 4 4 easy five_island_rng
           (Puzzle.mk 4 4
              [Island.mk 0 0 2; Island.mk 0 3 2; Island.mk 2 0 2; Island.mk 2 2 1;
               Island.mk 3 3 1]
              (Some [Bridge.mk (Island.mk 0 0 0) (Island.mk 2 0 0) true;
                     Bridge.mk (Island.mk 0 0 0) (Island.mk 0 3 0) true;
                     Bridge.mk (Island.mk 0 3 0) (Island.mk 3 3 0) true;
                     Bridge.mk (Island.mk 2 0 0) (Island.mk 2 2 0) true]))).
  vm_compute. reflexivity.
Defined.

Lemma listed_index (islands : list Island.t) (q : pos) :
  In q (map island_pos islands) ->
  exists n a, nth_error islands n = Some a /\ island_pos a = q.
Proof.
  intros H. apply in_map_iff in H as (a & Ha & Hin).
  apply In_nth_error in Hin as (n & Hn). eauto.
Qed.

(** X12: the solution planted in a puzzle that [generate] returns is made of
    candidates of the solver: every planted bridge joins two islands of the
    puzzle that share a row or a column with no island between them, so
    [get_possible_bridges] lists the pair; and no two planted bridges are
    candidates that cross. *)
Theorem planted_bridges_are_candidates :
  forall fuel width height difficulty r p,
    generate fuel width height difficulty r = Ok p ->
    exists solution,
      Puzzle.solution p = Some solution
      /\ (forall b, In b solution ->
            exists i j, is_candidate (Puzzle.islands p) i j
                        /\ joins (Puzzle.islands p) (i, j) b)
      /\ (forall b b' c c',
            In b solution -> In b' solution ->
            joins (Puzzle.islands p) c b -> joins (Puzzle.islands p) c' b' ->
            ~ crossing (Puzzle.islands p) c c').
Proof.
  intros fuel width height difficulty r p H. apply generated_state in H.
  destruct H as (st & islands & -> & Hinv & Hinv2 & _ & _ & _ & _ & Hnd & Hlisted & Hmem).
  exists (gen_solution st). cbn [Puzzle.solution Puzzle.islands].
  split; [reflexivity|].
  assert (Hisland : forall k, In k islands ->
            has_type (gen_grid st) (island_pos k) NodeType.island).
  { intros k Hk. apply (in_map island_pos) in Hk. apply Hlisted in Hk. apply Hk. }
  assert (Hclear : forall b k, In b (gen_solution st) -> In k islands ->
            ~ on_bridge b (island_pos k)).
  { intros b k Hb Hk Hon. destruct (inv_span _ _ Hinv2 b _ Hb Hon) as [_ Hty].
    pose proof (has_type_unique _ _ _ _ Hty (Hisland k Hk)). discriminate. }
  assert (Hinj : forall n n' a a', nth_error islands n = Some a ->
            nth_error islands n' = Some a' -> island_pos a = island_pos a' -> n = n').
  { intros n n' a a' Hn Hn' E.
    apply (proj1 (NoDup_nth_error (map island_pos islands)) Hnd).
    - rewrite length_map. apply nth_error_Some. congruence.
    - rewrite !nth_error_map, Hn, Hn'. cbn. now rewrite E. }
  split.
  - intros b Hb. destruct (inv_ends _ Hinv b Hb) as [H1 H2].
    apply Hlisted in H1, H2.
    destruct (listed_index _ _ H1) as (n1 & a1 & Hn1 & Ha1).
    destruct (listed_index _ _ H2) as (n2 & a2 & Hn2 & Ha2).
    destruct (inv_straight _ _ Hinv2 b Hb) as (d & len & Hlen & Hspan).
    assert (Hne : island_pos a1 <> island_pos a2).
    { rewrite Ha1, Ha2, Hspan. cbn [island_pos].
      rewrite <- (step_from_0 (Island.x (Bridge.node1 b)) (Island.y (Bridge.node1 b)) d)
        at 1.
      intros E. apply step_from_injective in E. lia. }
    assert (Hline : (Island.x a1 = Island.x a2
                     /\ ~ island_between_vertically islands a1 a2
                     /\ ~ island_between_vertically islands a2 a1)
                    \/ (Island.y a1 = Island.y a2
                        /\ ~ island_between_horizontally islands a1 a2
                        /\ ~ island_between_horizontally islands a2 a1)).
    { assert (Hx1 : Island.x a1 = fst (island_pos (Bridge.node1 b))) by now rewrite <- Ha1.
      assert (Hy1 : Island.y a1 = snd (island_pos (Bridge.node1 b))) by now rewrite <- Ha1.
      assert (Hx2 : Island.x a2 = fst (island_pos (Bridge.node2 b))) by now rewrite <- Ha2.
      assert (Hy2 : Island.y a2 = snd (island_pos (Bridge.node2 b))) by now rewrite <- Ha2.
      pose proof Hspan as Hs. rewrite step_from_unfold in Hs.
      assert (Hv : forall k, In k islands -> Island.x k = Island.x a1 ->
                Island.x a1 = Island.x a2 ->
                Z.min (Island.y a1) (Island.y a2) < Island.y k
                < Z.max (Island.y a1) (Island.y a2) -> False).
      { intros k Hk Ex Ea Hy. apply (Hclear b k Hb Hk). left.
        cbn [island_pos fst snd] in *. lia. }
      assert (Hh : forall k, In k islands -> Island.y k = Island.y a1 ->
                Island.y a1 = Island.y a2 ->
                Z.min (Island.x a1) (Island.x a2) < Island.x k
                < Z.max (Island.x a1) (Island.x a2) -> False).
      { intros k Hk Ey Ea Hx. apply (Hclear b k Hb Hk). right.
        cbn [island_pos fst snd] in *. lia. }
      assert (Haligned : Island.x a1 = Island.x a2 \/ Island.y a1 = Island.y a2).
      { rewrite Hx1, Hx2, Hy1, Hy2, Hs. cbn [island_pos fst snd].
        destruct d; cbn [fst snd]; auto. }
      destruct Haligned as [Ea|Ea]; [left|right]; (split; [exact Ea|]); split;
        intros (k & Hk & E & Hbetween).
      - apply (Hv k); auto.
      - apply (Hv k); auto; lia.
      - apply (Hh k); auto.
      - apply (Hh k); auto; lia. }
    destruct (Nat.lt_trichotomy n1 n2) as [Hlt|[Heq|Hgt]].
    + exists n1, n2. split.
      * split; [exact Hlt|]. exists a1, a2. split; [exact Hn1|]. split; [exact Hn2|].
        destruct Hline as [(E & Hb1 & _)|(E & Hb1 & _)]; auto.
      * exists a1, a2. cbn [fst snd]. auto.
    + exfalso. subst n2. apply Hne. congruence.
    + exists n2, n1. split.
      * split; [exact Hgt|]. exists a2, a1. split; [exact Hn2|]. split; [exact Hn1|].
        destruct Hline as [(E & _ & Hb2)|(E & _ & Hb2)]; auto.
      * exists a2, a1. cbn [fst snd]. auto.
  - intros b b' c c' Hb Hb' (a1 & a2 & Hn1 & Hn2 & Hj) (a3 & a4 & Hn3 & Hn4 & Hj')
           (k1 & k2 & k3 & k4 & Hk1 & Hk2 & Hk3 & Hk4 & Hcross).
    assert (k1 = a1) by congruence. assert (k2 = a2) by congruence.
    assert (k3 = a3) by congruence. assert (k4 = a4) by congruence. subst.
    assert (Hshare : forall q, on_bridge b q -> on_bridge b' q -> False).
    { intros q Hq Hq'. assert (b = b') by now apply (inv_disjoint _ _ Hinv2 b b' q).
      subst b'. unfold properly_cross in Hcross.
      assert (E1 : forall u v : Island.t, island_pos u = island_pos v ->
                     Island.x u = Island.x v /\ Island.y u = Island.y v)
        by (intros u v [= -> ->]; auto).
      destruct Hj as [[Ea1 Ea2]|[Ea1 Ea2]]; destruct Hj' as [[Ea3 Ea4]|[Ea3 Ea4]];
        apply E1 in Ea1, Ea2, Ea3, Ea4; lia. }
    assert (Hon : forall (u v : Island.t) (b0 : Bridge.t) (q : pos),
              (island_pos u = island_pos (Bridge.node1 b0)
               /\ island_pos v = island_pos (Bridge.node2 b0))
              \/ (island_pos u = island_pos (Bridge.node2 b0)
                  /\ island_pos v = island_pos (Bridge.node1 b0)) ->
              (Island.x u = Island.x v /\ fst q = Island.x u
               /\ Z.min (Island.y u) (Island.y v) < snd q < Z.max (Island.y u) (Island.y v))
              \/ (Island.y u = Island.y v /\ snd q = Island.y u
                  /\ Z.min (Island.x u) (Island.x v) < fst q
                     < Z.max (Island.x u) (Island.x v)) ->
              on_bridge b0 q).
    { intros u v b0 q Hjoin Hq. unfold on_bridge. cbv zeta.
      destruct Hjoin as [[<- <-]|[<- <-]]; cbn [island_pos fst snd]; lia. }
    unfold properly_cross in Hcross.
    destruct Hcross as [(Ey & Ex & Hy & Hx)|(Ey & Ex & Hy & Hx)].
    + apply (Hshare (Island.x a3, Island.y a1)).
      * apply (Hon a1 a2); [exact Hj|]. right. cbn [fst snd]. lia.
      * apply (Hon a3 a4); [exact Hj'|]. left. cbn [fst snd]. lia.
    + apply (Hshare (Island.x a1, Island.y a3)).
      * apply (Hon a1 a2); [exact Hj|]. left. cbn [fst snd]. lia.
      * apply (Hon a3 a4); [exact Hj'|]. right. cbn [fst snd]. lia.
Qed.

Lemma planted_bridges_are_candidates_witness :
  let islands := [Island.mk 0 0 2; Island.mk 0 3 2; Island.mk 2 0 2; Island.mk 2 2 1;
                  Island.mk 3 3 1] in
  exists solution,
    Some [Bridge.mk (Island.mk 0 0 0) (Island.mk 2 0 0) true;
          Bridge.mk (Island.mk 0 0 0) (Island.mk 0 3 0) true;
          Bridge.mk (Island.mk 0 3 0) (Island.mk 3 3 0) true;
          Bridge.mk (Island.mk 2 0 0) (Island.mk 2 2 0) true] = Some solution
    /\ (forall b, In b solution ->
          exists i j, is_candidate islands i j /\ joins islands (i, j) b)
    /\ (forall b b' c c',
          In b solution -> In b' solution ->
          joins islands c b -> joins islands c' b' -> ~ crossing islands c c').
Proof.
  apply (planted_bridges_are_candidates 1 4 4 easy five_island_rng
           (Puzzle.mk 4 4
              [Island.mk 0 0 2; Island.mk 0 3 2; Island.mk 2 0 2; Island.mk 2 2 1;
               Island.mk 3 3 1]
              (Some [Bridge.mk (Island.mk 0 0 0) (Island.mk 2 0 0) true;
                     Bridge.mk (Island.mk 0 0 0) (Island.mk 0 3 0) true;
                     Bridge.mk (Island.mk 0 3 0) (Island.mk 3 3 0) true;
                     Bridge.mk (Island.mk 2 0 0) (Island.mk 2 2 0) true]))).
  vm_compute. reflexivity.
Defined.

(** ** generator.py: the boards on which [generate] can return *)

(** X13: a puzzle that [generate] returns needs room: its islands and the
    nodes of its bridges are different nodes of the board, so twice the
    number of islands is at most one more than the number of nodes, and the
    board has at least 9 nodes.  On a smaller board [generate] returns no
    puzzle, however many attempts it makes. *)
Theorem generate_needs_room :
  forall fuel width height difficulty r p,
    generate fuel width height difficulty r = Ok p ->
    2 * Z.of_nat (length (Puzzle.islands p)) - 1 <= width * height
    /\ 9 <= width * height.
Proof.
  intros fuel width height difficulty r p H. apply generated_state in H.
  destruct H as (st & islands & -> & Hinv & Hinv2 & Hw & Hh & Hcount & Hlen & _).
  cbn [Puzzle.islands].
  destruct (inv_count _ Hinv) as (l & Hl & Hlm & Hln).
  destruct (inv_bridge_nodes _ _ Hinv2) as (lb & Hlb & Hlbm & Hlbn).
  assert (Hnd : NoDup (l ++ lb)).
  { apply NoDup_app; auto. intros q Hq Hq'. apply Hlm in Hq. destruct Hq as [_ Hi].
    destruct (Hlbm q Hq') as [_ Hb].
    pose proof (has_type_unique _ _ _ _ Hi Hb). discriminate. }
  assert (Hincl : incl (l ++ lb) (list_prod (range 0 width) (range 0 height))).
  { intros [qx qy] Hq.
    assert (Hb : in_bounds (gen_grid st) (qx, qy)).
    { apply in_app_or in Hq as [Hq|Hq]; [now apply Hlm in Hq as [? _]|].
      now apply Hlbm in Hq as [? _]. }
    destruct Hb as [Hx Hy]. cbn [fst snd] in Hx, Hy.
    apply in_prod; apply range_In; lia. }
  pose proof (NoDup_incl_length Hnd Hincl) as Hle.
  unfold pos in Hle. rewrite length_app, length_prod, !range_length in Hle.
  assert (Hroom : 2 * Z.of_nat (length islands) - 1 <= width * height).
  { assert (0 < width /\ 0 < height) as [Hwp Hhp].
    { destruct l as [|q l']; [cbn in Hln; lia|].
      destruct (proj1 (Hlm q) (or_introl eq_refl)) as [[Hx Hy] _]. lia. }
    assert (Hprod : Z.of_nat (Z.to_nat (width - 0) * Z.to_nat (height - 0))
                    = width * height)
      by (rewrite Nat2Z.inj_mul, !Z2Nat.id; lia).
    apply Nat2Z.inj_le in Hle. rewrite Nat2Z.inj_add, Hprod in Hle.
    clear Hprod. unfold pos in *. lia. }
  split; [exact Hroom|]. lia.
Qed.

Example generate_on_nine_nodes :
  generate 1 9 1 easy zero_rng
  = Ok (Puzzle.mk 9 1
          [Island.mk 0 0 1; Island.mk 2 0 2; Island.mk 4 0 2; Island.mk 6 0 2;
           Island.mk 8 0 1]
          (Some [Bridge.mk (Island.mk 0 0 0) (Island.mk 2 0 0) true;
                 Bridge.mk (Island.mk 2 0 0) (Island.mk 4 0 0) true;
                 Bridge.mk (Island.mk 4 0 0) (Island.mk 6 0 0) true;
                 Bridge.mk (Island.mk 6 0 0) (Island.mk 8 0 0) true])).
Proof. vm_compute. reflexivity. Qed.

Lemma generate_needs_room_witness :
  2 * Z.of_nat (length [Island.mk 0 0 1; Island.mk 2 0 2; Island.mk 4 0 2;
                        Island.mk 6 0 2; Island.mk 8 0 1]) - 1 <= 9 * 1
  /\ 9 <= 9 * 1.
Proof.
  apply (generate_needs_room 1 9 1 easy zero_rng
           (Puzzle.mk 9 1
              [Island.mk 0 0 1; Island.mk 2 0 2; Island.mk 4 0 2; Island.mk 6 0 2;
               Island.mk 8 0 1]
              (Some [Bridge.mk (Island.mk 0 0 0) (Island.mk 2 0 0) true;
                     Bridge.mk (Island.mk 2 0 0) (Island.mk 4 0 0) true;
                     Bridge.mk (Island.mk 4 0 0) (Island.mk 6 0 0) true;
                     Bridge.mk (Island.mk 6 0 0) (Island.mk 8 0 0) true]))).
  vm_compute. reflexivity.
Defined.

Lemma place_seed_without_nodes width height r :
  width <= 0 \/ height <= 0 -> place_seed width height r = Raise ValueError.
Proof.
  intros Hempty. unfold place_seed, randint at 1.
  destruct (Z.leb_spec 0 (width - 1)) as [Hw|Hw]; [|reflexivity].
  destruct (next_draw r) as [k r1]. cbn [bind].
  pose proof (Z.mod_pos_bound (Z.of_nat k) (width - 1 - 0 + 1)) as Hk.
  destruct (py_index_nth (Grid.grid (Grid_init width height))
              (0 + Z.of_nat k mod (width - 1 - 0 + 1))) as (column & _ & ->).
  { cbn [Grid_init Grid.grid]. rewrite length_map, range_length. lia. }
  cbn [bind]. unfold randint.
  destruct (Z.leb_spec 0 (height - 1)) as [Hh|Hh]; [lia|reflexivity].
Qed.

Lemma min_island_count_of_outcomes width height density :
  (exists s m e, density = S754_finite s m e) ->
  (exists m, min_island_count_of width height density = Ok m)
  \/ min_island_count_of width height density = Raise OverflowError
  \/ min_island_count_of width height density = Raise ValueError.
Proof.
  intros (s & m & e & ->). unfold min_island_count_of, float_of_int.
  destruct (float_of (width * height) 0); cbn [bind]; auto;
    unfold py_truediv; cbn [bind]; unfold floor;
    match goal with
    | |- context [float_div ?a ?b] => destruct (float_div a b)
    end; cbn [bind]; eauto.
Qed.

Lemma settings_density_finite difficulty :
  exists s m e, max_island_density (settings difficulty) = S754_finite s m e.
Proof. destruct difficulty; vm_compute; eauto. Qed.

(** X14: on a board without nodes, a width or a height of zero or less,
    [generate] returns no puzzle and does not loop: its first attempt raises
    ValueError, when it asks [randint] for a position of the first island.
    (OverflowError comes first if the product of the sizes is beyond the
    floats.) *)
Theorem generate_without_nodes :
  forall fuel width height difficulty r,
    width <= 0 \/ height <= 0 ->
    (generate (S fuel) width height difficulty r = Raise ValueError
     \/ generate (S fuel) width height difficulty r = Raise OverflowError)
    /\ (width * height = 0 ->
        generate (S fuel) width height difficulty r = Raise ValueError).
Proof.
  intros fuel width height difficulty r Hempty.
  unfold generate. cbn [generate_loop].
  unfold generate_candidate. rewrite (place_seed_without_nodes _ _ _ Hempty).
  split.
  - destruct (min_island_count_of_outcomes width height
                (max_island_density (settings difficulty))
                (settings_density_finite difficulty)) as [(m & ->)|[-> | ->]];
      cbn [bind]; auto.
  - intros E. unfold min_island_count_of. rewrite E. destruct difficulty; reflexivity.
Qed.

Lemma generate_without_nodes_witness :
  (generate 1 0 3 easy zero_rng = Raise ValueError
   \/ generate 1 0 3 easy zero_rng = Raise OverflowError)
  /\ (0 * 3 = 0 -> generate 1 0 3 easy zero_rng = Raise ValueError).
Proof. apply (generate_without_nodes 0 0 3 easy zero_rng). left. lia. Defined.

(** ** solver.py: the order of the candidates *)

Lemma for_each_indexed {A St : Type} (xs : list A) (body : nat * A -> St -> result St)
  (I : nat -> St -> Prop) :
  forall (o : nat) (s s' : St),
    (forall k a t t', nth_error xs k = Some a -> I (o + k)%nat t ->
                      body ((o + k)%nat, a) t = Ok t' -> I (S (o + k)) t') ->
    I o s ->
    for_each (combine (seq o (length xs)) xs) body s = Ok s' ->
    I (o + length xs)%nat s'.
Proof.
  induction xs as [|x xs IH]; intros o s s' Hbody Hs Hrun;
    cbn [length seq combine for_each] in *.
  - injection Hrun as <-. now rewrite Nat.add_0_r.
  - bind_inv Hrun as s1 H1.
    replace (o + S (length xs))%nat with (S o + length xs)%nat by lia.
    apply (IH (S o) s1 s'); [| |exact Hrun].
    + intros k a t t' Hk Ht Hb. replace (S o + k)%nat with (o + S k)%nat in * by lia.
      now apply (Hbody (S k) a t t').
    + specialize (Hbody O x s s1 eq_refl). rewrite Nat.add_0_r in Hbody. now apply Hbody.
Qed.

Lemma for_each_enumerate_inv {A St : Type} (xs : list A)
  (body : nat * A -> St -> result St) (I : nat -> St -> Prop) :
  (forall k a s s', nth_error xs k = Some a -> I k s -> body (k, a) s = Ok s' ->
                    I (S k) s') ->
  forall s s', I O s -> for_each (enumerate xs) body s = Ok s' -> I (length xs) s'.
Proof.
  intros Hbody s s' Hs Hrun.
  apply (for_each_indexed xs body I O s s'); auto.
Qed.

Lemma possible_bridge_result g i j a b bridges bridges' :
  possible_bridge g i j a b bridges = Ok bridges' ->
  bridges' = bridges \/ ((i < j)%nat /\ bridges' = bridges ++ [(i, j)]).
Proof.
  unfold possible_bridge. destruct (Nat.leb_spec j i) as [|Hlt]; [intros [= <-]; auto|].
  destruct (Island.x a =? Island.x b).
  { intros H. bind_inv H as ok Hok. injection H as <-. destruct ok; auto. }
  destruct (Island.y a =? Island.y b).
  { intros H. bind_inv H as ok Hok. injection H as <-. destruct ok; auto. }
  intros [= <-]. auto.
Qed.

Lemma get_possible_bridges_order p g bridges :
  get_possible_bridges p g = Ok bridges ->
  StronglySorted pair_lt bridges
  /\ forall c, In c bridges ->
       (fst c < snd c)%nat /\ (snd c < length (Puzzle.islands p))%nat.
Proof.
  unfold get_possible_bridges. intros Hrun.
  set (n := length (Puzzle.islands p)).
  set (Iin := fun (i j : nat) (acc : list (nat * nat)) =>
                StronglySorted pair_lt acc
                /\ forall c, In c acc ->
                     ((fst c < i)%nat \/ (fst c = i /\ (snd c < j)%nat))
                     /\ (fst c < snd c)%nat /\ (snd c < n)%nat).
  set (Iout := fun (i : nat) (acc : list (nat * nat)) =>
                 StronglySorted pair_lt acc
                 /\ forall c, In c acc ->
                      (fst c < i)%nat /\ (fst c < snd c)%nat /\ (snd c < n)%nat).
  assert (H : Iout n bridges).
  { revert Hrun. apply (for_each_enumerate_inv (Puzzle.islands p) _ Iout).
    - intros i a acc acc' Hi [Hs Hacc] Hinner.
      assert (Hin : Iin i n acc').
      { revert Hinner.
        apply (for_each_enumerate_inv (Puzzle.islands p)
                 (fun '(j, island_j) bridges =>
                    possible_bridge g i j a island_j bridges) (Iin i)).
        - intros j b t t' Hj [Hst Ht] Hbody.
          assert (Hjn : (j < n)%nat) by (apply nth_error_Some; congruence).
          apply possible_bridge_result in Hbody. destruct Hbody as [->|[Hlt ->]].
          + split; [exact Hst|]. intros c Hc. destruct (Ht c Hc) as ([|[]] & ? & ?);
              repeat split; auto; right; split; auto; lia.
          + split.
            * apply StronglySorted_app; auto; [repeat constructor|].
              intros c c' Hc [<-|[]]. destruct (Ht c Hc) as (Hlex & _).
              unfold pair_lt. cbn [fst snd]. exact Hlex.
            * intros c Hc. apply in_app_or in Hc as [Hc|[<-|[]]].
              -- destruct (Ht c Hc) as ([|[]] & ? & ?);
                   repeat split; auto; right; split; auto; lia.
              -- cbn [fst snd]. repeat split; auto.
        - split; [exact Hs|]. intros c Hc. destruct (Hacc c Hc) as (? & ? & ?).
          repeat split; auto. }
      destruct Hin as [Hs' Hacc']. split; [exact Hs'|].
      intros c Hc. destruct (Hacc' c Hc) as ([|[? ?]] & ? & ?); repeat split; auto; lia.
    - split; [constructor|]. intros c []. }
  destruct H as [Hs Hacc]. split; [exact Hs|].
  intros c Hc. destruct (Hacc c Hc) as (_ & ? & ?). auto.
Qed.

Lemma pair_lt_irrefl c : ~ pair_lt c c.
Proof. unfold pair_lt. lia. Qed.

Lemma sorted_NoDup (l : list (nat * nat)) : StronglySorted pair_lt l -> NoDup l.
Proof.
  induction 1 as [|c l Hs IH Hc]; constructor; auto.
  intros Hin. rewrite Forall_forall in Hc. apply (pair_lt_irrefl c). now apply Hc.
Qed.

(** X15: whenever [get_possible_bridges] returns, its candidates are listed in
    increasing order of the first index and then of the second, so no pair is
    listed twice, and each is a pair [i < j] of indices into the islands. *)
Theorem get_possible_bridges_sorted :
  forall p g bridges,
    get_possible_bridges p g = Ok bridges ->
    StronglySorted pair_lt bridges
    /\ NoDup bridges
    /\ Forall (fun c => (fst c < snd c)%nat /\ (snd c < length (Puzzle.islands p))%nat)
         bridges.
Proof.
  intros p g bridges H. apply get_possible_bridges_order in H. destruct H as [Hs Hc].
  split; [exact Hs|]. split; [now apply sorted_NoDup|]. now apply Forall_forall.
Qed.

Lemma get_possible_bridges_sorted_witness :
  StronglySorted pair_lt [(0, 1); (0, 2)]%nat
  /\ NoDup [(0, 1); (0, 2)]%nat
  /\ Forall (fun c => (fst c < snd c)%nat
                      /\ (snd c < length (Puzzle.islands test_solved_puzzle_1))%nat)
       [(0, 1); (0, 2)]%nat.
Proof.
  apply (get_possible_bridges_sorted test_solved_puzzle_1
           (match to_grid test_solved_puzzle_1 with Ok g => g | _ => Grid_init 0 0 end)).
  reflexivity.
Defined.

(** ** solver.py: a feasible assignment gives a solution that passes *)

Lemma qsum_app l l' : (qsum (l ++ l') == qsum l + qsum l')%Q.
Proof.
  unfold qsum. induction l as [|q l IH]; cbn [app fold_right]; [ring|].
  rewrite IH. ring.
Qed.

Lemma qsum_ext {A : Type} (f g : A -> Q) (l : list A) :
  (forall x, In x l -> (f x == g x)%Q) -> (qsum (map f l) == qsum (map g l))%Q.
Proof.
  unfold qsum. induction l as [|x l IH]; intros H; cbn [map fold_right]; [reflexivity|].
  rewrite IH by (intros; apply H; now right). rewrite (H x (or_introl eq_refl)).
  reflexivity.
Qed.

Lemma qsum_plus {A : Type} (f g : A -> Q) (l : list A) :
  (qsum (map (fun x => f x + g x) l) == qsum (map f l) + qsum (map g l))%Q.
Proof.
  unfold qsum. induction l as [|x l IH]; cbn [map fold_right]; [ring|].
  rewrite IH. ring.
Qed.

Lemma qsum_zero {A : Type} (f : A -> Q) (l : list A) :
  (forall x, In x l -> (f x == 0)%Q) -> (qsum (map f l) == 0)%Q.
Proof.
  unfold qsum. induction l as [|x l IH]; intros H; cbn [map fold_right]; [reflexivity|].
  rewrite IH by (intros; apply H; now right). rewrite (H x (or_introl eq_refl)). ring.
Qed.

Lemma qsum_nonneg {A : Type} (f : A -> Q) (l : list A) :
  (forall x, In x l -> (0 <= f x)%Q) -> (0 <= qsum (map f l))%Q.
Proof.
  unfold qsum. induction l as [|x l IH]; intros H; cbn [map fold_right]; [lra|].
  pose proof (H x (or_introl eq_refl)). specialize (IH (fun y Hy => H y (or_intror Hy))).
  lra.
Qed.

Lemma qsum_nonneg_zero {A : Type} (f : A -> Q) (l : list A) :
  (forall x, In x l -> (0 <= f x)%Q) -> (qsum (map f l) == 0)%Q ->
  forall x, In x l -> (f x == 0)%Q.
Proof.
  induction l as [|y l IH]; intros Hpos Hsum x Hx; [destruct Hx|].
  pose proof (Hpos y (or_introl eq_refl)) as Hy.
  pose proof (qsum_nonneg f l (fun z Hz => Hpos z (or_intror Hz))) as Hl.
  unfold qsum in *. cbn [map fold_right] in Hsum.
  destruct Hx as [<-|Hx]; [lra|].
  apply IH; auto; [intros; apply Hpos; now right|]. lra.
Qed.

(** The term of index [u] picked out of a sum over [seq s n]. *)
Lemma qsum_pick (t : nat -> Q) (u : nat) (D : Q) (s n : nat) :
  (qsum (map (fun k => t k * (if (u =? k)%nat then D else 0)) (seq s n))
   == if (s <=? u)%nat && (u <? s + n)%nat then t u * D else 0)%Q.
Proof.
  revert s. induction n as [|n IH]; intros s; cbn [seq map].
  - unfold qsum. cbn [fold_right].
    destruct (Nat.leb_spec s u), (Nat.ltb_spec u (s + 0)); cbn [andb]; try reflexivity.
    lia.
  - unfold qsum in *. cbn [fold_right]. rewrite IH.
    destruct (Nat.eqb_spec u s) as [->|Hne].
    + replace (S s <=? s)%nat with false by (symmetry; apply Nat.leb_gt; lia).
      replace (s <=? s)%nat with true by (symmetry; apply Nat.leb_le; lia).
      replace (s <? s + S n)%nat with true by (symmetry; apply Nat.ltb_lt; lia).
      cbn [andb]. ring.
    + destruct (Nat.leb_spec (S s) u), (Nat.ltb_spec u (S s + n)),
        (Nat.leb_spec s u), (Nat.ltb_spec u (s + S n)); cbn [andb]; try lia; ring.
Qed.

Lemma eval_lpSum (a : assignment) (vs : list LpVar) :
  (eval_affine a (lpSum vs) == qsum (map a vs))%Q.
Proof.
  unfold eval_affine, lpSum, qsum. cbn [terms constant].
  induction vs as [|v vs IH]; cbn [map fold_right fst snd].
  - reflexivity.
  - change (inject_Z 0) with 0%Q in *. change (inject_Z 1) with 1%Q.
    assert (E : (fold_right (fun t acc => inject_Z (fst t) * a (snd t) + acc) 0
                   (map (fun v => (1%Z, v)) vs) == fold_right Qplus 0 (map a vs))%Q)
      by lra.
    rewrite E. ring.
Qed.

Lemma eval_lpSub (a : assignment) (e1 e2 : LpAffine) :
  (eval_affine a (lpSub e1 e2) == eval_affine a e1 - eval_affine a e2)%Q.
Proof.
  unfold eval_affine, lpSub. cbn [terms constant].
  rewrite fold_right_app. unfold Zminus. rewrite inject_Z_plus, inject_Z_opp.
  set (F := fun (t : Z * LpVar) (acc : Q) => (inject_Z (fst t) * a (snd t) + acc)%Q).
  assert (Hacc : forall l q, (fold_right F q l == fold_right F 0 l + q)%Q).
  { induction l as [|t l IH]; intros q; cbn [fold_right]; [ring|].
    unfold F at 1 3. rewrite IH. ring. }
  assert (Hneg : forall l : list (Z * LpVar),
            (fold_right F 0 (map (fun t => ((- fst t)%Z, snd t)) l)
             == - fold_right F 0 l)%Q).
  { induction l as [|t l IH]; cbn [map fold_right]; [ring|].
    unfold F at 1 3. cbn [fst snd]. rewrite IH, inject_Z_opp. ring. }
  rewrite Hacc, Hneg. ring.
Qed.

Lemma qsum_scale {A : Type} (c : Q) (f : A -> Q) (l : list A) :
  (qsum (map (fun x => c * f x) l) == c * qsum (map f l))%Q.
Proof.
  unfold qsum. induction l as [|x l IH]; cbn [map fold_right]; [ring|].
  rewrite IH. ring.
Qed.

Lemma py_round_near (c : Q) (B : Z) :
  (inject_Z B - (1 # 2) < c < inject_Z B + (1 # 2))%Q -> py_round c = B.
Proof.
  intros [Hlo Hhi]. unfold py_round.
  pose proof (Qfloor_le c) as Hfl. pose proof (Qlt_floor c) as Hfu.
  rewrite inject_Z_plus in Hfu. change (inject_Z 1) with 1%Q in Hfu.
  assert (Hcases : Qfloor c = B \/ Qfloor c = B + -1).
  { assert (B + -1 < Qfloor c + 1)%Z.
    { rewrite Zlt_Qlt, !inject_Z_plus. change (inject_Z 1) with 1%Q.
      change (inject_Z (-1)) with (-1)%Q. lra. }
    assert (Qfloor c < B + 1)%Z.
    { rewrite Zlt_Qlt, inject_Z_plus. change (inject_Z 1) with 1%Q. lra. }
    lia. }
  destruct Hcases as [E|E]; rewrite E in *.
  - destruct (Qcompare_spec (c - inject_Z B) (1 # 2)) as [H|H|H]; try lra. reflexivity.
  - rewrite inject_Z_plus in *. change (inject_Z (-1)) with (-1)%Q in *.
    destruct (Qcompare_spec (c - (inject_Z B + -1)) (1 # 2)) as [H|H|H]; try lra.
    lia.
Qed.

Section Feasible.
Variables (p : Puzzle.t) (possible_bridges : list (nat * nat))
          (crossing_bridges : list ((nat * nat) * (nat * nat))) (a : assignment).
Hypothesis Hfeasible :
  feasible (lp_problem p possible_bridges crossing_bridges) a = true.

(** The count of a candidate is 0, 1 or 2, and its indicator tells whether
    the count is positive. *)
Lemma candidate_count i j :
  In (i, j) possible_bridges ->
  exists B, 0 <= B <= 2 /\ (a (b_ i j) == inject_Z B)%Q
            /\ (a (y_ i j) == if B =? 0 then 0 else 1)%Q.
Proof.
  intros Hin.
  assert (Hb : variable_holds a (mkVar (b_ i j) (Some 0) (Some 2) Integer) = true).
  { apply (feasible_variable _ _ _ Hfeasible). cbn [variables lp_problem].
    unfold lp_variables. apply in_flat_map. exists (i, j). split; [exact Hin|]. cbn. auto. }
  assert (Hy : variable_holds a (mkVar (y_ i j) None None Binary) = true).
  { apply (feasible_variable _ _ _ Hfeasible). cbn [variables lp_problem].
    unfold lp_variables. apply in_flat_map. exists (i, j). split; [exact Hin|]. cbn. auto. }
  assert (H1 : constraint_holds a
                 (mkConstraint (lpSum [y_ i j]) LpLE (lpSum [b_ i j])) = true).
  { apply (feasible_constraint _ _ _ Hfeasible). cbn [constraints lp_problem].
    rewrite !in_app_iff. right; left. unfold lp_existence. apply in_flat_map.
    exists (i, j). split; [exact Hin|]. cbn. auto. }
  assert (H2 : constraint_holds a
                 (mkConstraint (lpSum [b_ i j]) LpLE (lpScale 2 (y_ i j))) = true).
  { apply (feasible_constraint _ _ _ Hfeasible). cbn [constraints lp_problem].
    rewrite !in_app_iff. right; left. unfold lp_existence. apply in_flat_map.
    exists (i, j). split; [exact Hin|]. cbn. auto. }
  unfold variable_holds in Hb, Hy. cbn [lp_var lowBound upBound cat] in Hb, Hy.
  rewrite !andb_true_iff in Hb. destruct Hb as [[Hb0 Hb2] Hbi].
  apply Qle_bool_iff in Hb0, Hb2. unfold is_integer in Hbi. apply Qeq_bool_iff in Hbi.
  cbn [andb] in Hy. apply orb_true_iff in Hy.
  unfold constraint_holds in H1, H2. cbn [sense lhs rhs] in H1, H2.
  apply Qle_bool_iff in H1, H2. unfold eval_affine in H1, H2.
  cbn [lpSum lpScale terms constant map fold_right fst snd] in H1, H2.
  change (inject_Z 0) with 0%Q in *. change (inject_Z 1) with 1%Q in *.
  change (inject_Z 2) with 2%Q in *.
  set (B := Qfloor (a (b_ i j))) in *. exists B.
  assert (HB : 0 <= B <= 2).
  { split; rewrite Zle_Qle; rewrite Hbi; [exact Hb0|exact Hb2]. }
  split; [exact HB|]. split; [now symmetry|].
  destruct Hy as [Hy|Hy]; apply Qeq_bool_iff in Hy.
  - assert (E : B = 0).
    { assert (H : (inject_Z B <= inject_Z 0)%Q)
        by (change (inject_Z 0) with 0%Q; lra).
      rewrite <- Zle_Qle in H. lia. }
    rewrite E. cbn. exact Hy.
  - assert (E : B <> 0).
    { intros E. rewrite E in Hbi. change (inject_Z 0) with 0%Q in Hbi. lra. }
    apply Z.eqb_neq in E. rewrite E. exact Hy.
Qed.

Lemma candidate_flow i j :
  In (i, j) possible_bridges ->
  (a (b_ i j) == 0)%Q -> (a (f_ i j) == 0)%Q /\ (a (f_ j i) == 0)%Q.
Proof.
  intros Hin Hb0.
  destruct (candidate_count i j Hin) as (B & HB & Hb & Hy).
  assert (B = 0).
  { rewrite Hb in Hb0. apply (inject_Z_injective B 0). exact Hb0. }
  subst B. cbn in Hy.
  pose proof (flow_nonnegative _ _ _ _ _ _ Hfeasible Hin) as [H1 H2].
  pose proof (flow_capacity_sum _ _ _ _ _ _ Hfeasible Hin) as H.
  rewrite Hy in H. split; lra.
Qed.

Lemma degree_constraint k isl :
  nth_error (Puzzle.islands p) k = Some isl ->
  (qsum (map a (flat_map (fun '(u, v) =>
           if (u =? k)%nat || (v =? k)%nat then [b_ u v] else []) possible_bridges))
   == inject_Z (Island.degree isl))%Q.
Proof.
  intros Hk.
  assert (Hc : constraint_holds a
                 (mkConstraint
                    (lpSum (flat_map (fun '(u, v) =>
                       if (u =? k)%nat || (v =? k)%nat then [b_ u v] else [])
                       possible_bridges))
                    LpEQ (lpConst (Island.degree isl))) = true).
  { apply (feasible_constraint _ _ _ Hfeasible). cbn [constraints lp_problem].
    rewrite !in_app_iff. left. unfold lp_degree. apply in_map_iff.
    exists (k, isl). split; [reflexivity|]. now apply enumerate_In. }
  unfold constraint_holds in Hc. cbn [sense lhs rhs] in Hc. apply Qeq_bool_iff in Hc.
  rewrite eval_lpSum in Hc. rewrite Hc. unfold eval_affine, lpConst.
  cbn [terms constant fold_right]. ring.
Qed.

Lemma flow_constraint k isl :
  nth_error (Puzzle.islands p) k = Some isl ->
  (net_flow a possible_bridges k
   == inject_Z (if (k =? 0)%nat then lp_island_count p - 1 else -1))%Q.
Proof.
  intros Hk. unfold net_flow.
  set (outflow := flat_map (fun '(u, v) =>
                    if (u =? k)%nat then [f_ k v]
                    else if (v =? k)%nat then [f_ k u] else []) possible_bridges).
  set (inflow := flat_map (fun '(u, v) =>
                   if (u =? k)%nat then [f_ v k]
                   else if (v =? k)%nat then [f_ u k] else []) possible_bridges).
  assert (Hc : constraint_holds a
                 (mkConstraint (lpSub (lpSum outflow) (lpSum inflow)) LpEQ
                    (lpConst (if (k =? 0)%nat then lp_island_count p - 1 else -1)))
               = true).
  { apply (feasible_constraint _ _ _ Hfeasible). cbn [constraints lp_problem].
    rewrite !in_app_iff. do 3 right. left. unfold lp_flow_conservation. cbv zeta.
    apply in_map_iff. exists (k, isl). split; [|now apply enumerate_In].
    fold outflow inflow. now destruct (k =? 0)%nat. }
  unfold constraint_holds in Hc. cbn [sense lhs rhs] in Hc. apply Qeq_bool_iff in Hc.
  rewrite eval_lpSub, !eval_lpSum in Hc. rewrite Hc. unfold eval_affine, lpConst.
  cbn [terms constant fold_right]. ring.
Qed.
End Feasible.

Lemma reads_endpoints islands value possible_bridges solution :
  reads islands value possible_bridges solution ->
  endpoints_are_islands islands solution.
Proof.
  induction 1 as [|i j rest solution c a0 b0 Hv Hc Hi Hj _ IH|i j rest solution _ _ IH].
  - intros b [].
  - intros b [<-|Hb]; [|now apply IH]. cbn [Bridge.node1 Bridge.node2].
    split; apply in_map; eapply nth_error_In; eauto.
  - exact IH.
Qed.

Lemma reads_adjacent islands value possible_bridges solution :
  reads islands value possible_bridges solution ->
  forall i j c a0 b0,
    In (i, j) possible_bridges -> value (b_ i j) = Some c -> (1 # 2 < c)%Q ->
    nth_error islands i = Some a0 -> nth_error islands j = Some b0 ->
    adjacent solution (island_pos a0) (island_pos b0).
Proof.
  induction 1 as [|i' j' rest solution c' a' b' Hv Hc Hi Hj _ IH
                  |i' j' rest solution Hskip _ IH];
    intros i j c a0 b0 Hin Hval Hlt Ha0 Hb0.
  - destruct Hin.
  - destruct Hin as [[= -> ->]|Hin].
    + assert (a' = a0) by congruence. assert (b' = b0) by congruence. subst.
      eexists. split; [now left|]. left. split; reflexivity.
    + destruct (IH i j c a0 b0 Hin Hval Hlt Ha0 Hb0) as (b & Hb & Hends).
      exists b. split; [now right|exact Hends].
  - destruct Hin as [[= -> ->]|Hin]; [|now apply (IH i j c a0 b0)].
    exfalso. destruct Hskip as [Hnone|(c0 & Hc0 & Hle)]; [congruence|].
    assert (c0 = c) by congruence. subst. lra.
Qed.

Lemma position_index (islands : list Island.t) i k a0 isl :
  NoDup (map island_pos islands) ->
  nth_error islands i = Some a0 -> nth_error islands k = Some isl ->
  pos_eqb (island_pos a0) (island_pos isl) = (i =? k)%nat.
Proof.
  intros Hnd Hi Hk. destruct (Nat.eqb_spec i k) as [->|Hne].
  - assert (a0 = isl) by congruence. subst. apply pos_eqb_refl.
  - apply pos_eqb_neq. intros E. apply Hne.
    apply (proj1 (NoDup_nth_error (map island_pos islands)) Hnd).
    + rewrite length_map. apply nth_error_Some. congruence.
    + rewrite !nth_error_map, Hi, Hk. cbn. now rewrite E.
Qed.

(** The weight that the bridges read off the solver's answer put on an
    island is the sum of the counts of the candidates at that island. *)
Lemma reads_incident_sum islands value (a : assignment) possible_bridges solution k isl :
  reads islands value possible_bridges solution ->
  NoDup (map island_pos islands) ->
  nth_error islands k = Some isl ->
  (forall i j, In (i, j) possible_bridges ->
     i <> j
     /\ exists B c, 0 <= B <= 2 /\ (a (b_ i j) == inject_Z B)%Q
                    /\ value (b_ i j) = Some c
                    /\ (a (b_ i j) - (1 # 2) < c < a (b_ i j) + (1 # 2))%Q) ->
  (inject_Z (incident_sum solution (island_pos isl))
   == qsum (map a (flat_map (fun '(u, v) =>
              if (u =? k)%nat || (v =? k)%nat then [b_ u v] else []) possible_bridges)))%Q.
Proof.
  intros Hreads Hnd Hk.
  induction Hreads as [|i j rest solution c a0 b0 Hv Hc Hi Hj _ IH
                       |i j rest solution Hskip _ IH]; intros Hfacts.
  - reflexivity.
  - destruct (Hfacts i j (or_introl eq_refl)) as (Hij & B & c' & HB & Hb & Hv' & Hnear).
    assert (c' = c) by congruence. subst c'.
    specialize (IH (fun i' j' H => Hfacts i' j' (or_intror H))).
    cbn [flat_map]. rewrite map_app, qsum_app, <- IH.
    unfold incident_sum. cbn [fold_right]. fold (incident_sum solution (island_pos isl)).
    rewrite inject_Z_plus. apply Qplus_comp; [|reflexivity].
    rewrite Hb in Hnear.
    assert (HB1 : 1 <= B).
    { destruct (Z_lt_le_dec B 1) as [Hlt|]; [|assumption]. exfalso.
      assert (B = 0) by lia. subst B. change (inject_Z 0) with 0%Q in Hnear. lra. }
    rewrite (py_round_near c B Hnear).
    unfold incident_weight, bridge_weight. cbn [Bridge.node1 Bridge.node2 Bridge.single].
    rewrite (position_index islands i k a0 isl Hnd Hi Hk).
    rewrite (position_index islands j k b0 isl Hnd Hj Hk).
    assert (Hw : (if B =? 1 then 1 else 2) = B).
    { destruct (Z.eqb_spec B 1); lia. }
    rewrite Hw.
    destruct (Nat.eqb_spec i k) as [Ei|Ei]; destruct (Nat.eqb_spec j k) as [Ej|Ej];
      cbn [orb map]; unfold qsum; cbn [fold_right].
    + exfalso. congruence.
    + rewrite Hb, Z.add_0_r. ring.
    + rewrite Hb, Z.add_0_l. ring.
    + reflexivity.
  - destruct (Hfacts i j (or_introl eq_refl)) as (Hij & B & c' & HB & Hb & Hv' & Hnear).
    specialize (IH (fun i' j' H => Hfacts i' j' (or_intror H))).
    cbn [flat_map]. rewrite map_app, qsum_app, <- IH.
    assert (Hb0 : (a (b_ i j) == 0)%Q).
    { destruct Hskip as [Hnone|(c0 & Hc0 & Hle)]; [congruence|].
      assert (c0 = c') by congruence. subst c0. rewrite Hb in *.
      destruct (Z.eq_dec B 0) as [->|Hne]; [reflexivity|]. exfalso.
      assert (H1 : (inject_Z 1 <= inject_Z B)%Q) by (rewrite <- Zle_Qle; lia).
      change (inject_Z 1) with 1%Q in H1. lra. }
    destruct ((i =? k)%nat || (j =? k)%nat); cbn [map]; unfold qsum; cbn [fold_right].
    + rewrite Hb0. ring.
    + ring.
Qed.

(** The marks of the traversal of [check_solution] decide which positions
    the bridges join to the first island. *)
Lemma reach_visited (islands : list Island.t) (solution : list Bridge.t)
  (first : Island.t) :
  endpoints_are_islands islands solution ->
  hd_error islands = Some first ->
  exists visited : pos -> bool,
    forall q, visited q = true <-> reach solution (island_pos first) q.
Proof.
  intros Hends Hfirst.
  set (d0 := dict_of island_pos (fun _ : Island.t => @nil pos) islands).
  destruct (add_neighbours_spec solution d0) as (nb & Hnb & Knb & Tnb & Gnb).
  { intros b Hb. unfold d0. rewrite !dict_of_keys. now apply Hends. }
  set (v0 := dict_of island_pos (fun _ : Island.t => false) islands).
  assert (Hfirst_in : In first islands).
  { destruct islands; cbn in Hfirst; [discriminate|]. injection Hfirst as ->. now left. }
  assert (Hadj : forall k l, dict_get nb k = Some l ->
                   forall q, In q l <-> adjacent solution k q).
  { intros k l Hk.
    assert (Hin : In k (dict_keys d0)).
    { rewrite <- Knb. apply dict_get_In_keys; eauto. }
    apply dict_get_In_keys in Hin. destruct Hin as [l0 Hl0].
    destruct (Gnb _ _ Hl0) as (l' & Hl' & H).
    apply dict_of_const_get in Hl0; subst l0. cbn [app] in Hl'.
    rewrite Hk in Hl'. injection Hl' as ->. exact H. }
  assert (Hkeys : forall k, In k (dict_keys v0) <-> In k (map island_pos islands)).
  { intros k. unfold v0. apply dict_of_keys. }
  destruct (bfs_ok nb (bfs_fuel solution) v0 [island_pos first]) as [v' Hrun].
  { intros q [<-|[]]. apply Hkeys. now apply in_map. }
  { intros k l q Hk Hq. apply Hkeys. apply (Hadj _ _ Hk) in Hq.
    destruct Hq as (b & Hb & [[_ <-]|[<- _]]); now apply Hends. }
  { intros k Hk. rewrite Knb. unfold d0. rewrite dict_of_keys. now apply Hkeys. }
  { pose proof (pending_le_total nb v0) as H. rewrite Tnb in H.
    rewrite (dict_total_empty_lists d0) in H.
    - unfold bfs_fuel. cbn [length]. lia.
    - intros k v Hin. apply dict_In_get in Hin; [|apply dict_of_NoDup].
      now apply dict_of_const_get in Hin. }
  exists (fun q => match dict_get v' q with Some true => true | _ => false end).
  intros q.
  rewrite <- (bfs_sound solution nb (island_pos first) Hadj _ _ _ _ Hrun).
  - destruct (dict_get v' q) as [[|]|]; split; congruence.
  - constructor.
    + intros q' Hq'. apply dict_of_const_get in Hq'. discriminate.
    + intros q' [<-|[]]. constructor.
    + intros q' r Hq'. apply dict_of_const_get in Hq'. discriminate.
    + right. now left.
Qed.

Lemma net_flow_cons (a : assignment) u v rest k :
  (net_flow a ((u, v) :: rest) k
   == (if (u =? k)%nat then a (f_ u v) - a (f_ v u)
       else if (v =? k)%nat then a (f_ v u) - a (f_ u v) else 0)
      + net_flow a rest k)%Q.
Proof.
  unfold net_flow. cbn [flat_map]. rewrite !map_app, !qsum_app.
  destruct (Nat.eqb_spec u k) as [->|Hu]; [|destruct (Nat.eqb_spec v k) as [->|Hv]];
    cbn [map]; unfold qsum; cbn [fold_right]; ring.
Qed.

(** The flow balances of the islands, weighted by [t], add up over the
    candidates: each candidate counts its net flow once for each end. *)
Lemma weighted_net_flow (a : assignment) (t : nat -> Q) (n : nat)
  (possible_bridges : list (nat * nat)) :
  (forall u v, In (u, v) possible_bridges -> (u < n)%nat /\ (v < n)%nat /\ u <> v) ->
  (qsum (map (fun k => t k * net_flow a possible_bridges k) (seq 0 n))
   == qsum (map (fun c => (t (fst c) - t (snd c))
                          * (a (f_ (fst c) (snd c)) - a (f_ (snd c) (fst c))))
              possible_bridges))%Q.
Proof.
  induction possible_bridges as [|[u v] rest IH]; intros Hidx.
  - cbn [map]. apply qsum_zero. intros k _. unfold net_flow, qsum. cbn. ring.
  - destruct (Hidx u v (or_introl eq_refl)) as (Hu & Hv & Huv).
    specialize (IH (fun u' v' H => Hidx u' v' (or_intror H))).
    set (D := (a (f_ u v) - a (f_ v u))%Q).
    rewrite (qsum_ext _ (fun k => t k * (if (u =? k)%nat then D else 0)
                                 + (t k * (if (v =? k)%nat then - D else 0)
                                    + t k * net_flow a rest k))%Q).
    2:{ intros k _. rewrite net_flow_cons. fold D.
        destruct (Nat.eqb_spec u k) as [Eu|Eu]; destruct (Nat.eqb_spec v k) as [Ev|Ev];
          try (exfalso; congruence); unfold D; ring. }
    rewrite qsum_plus, qsum_plus, IH, !qsum_pick.
    replace ((0 <=? u)%nat && (u <? 0 + n)%nat) with true
      by (symmetry; apply andb_true_iff; split;
          [apply Nat.leb_le|apply Nat.ltb_lt]; lia).
    replace ((0 <=? v)%nat && (v <? 0 + n)%nat) with true
      by (symmetry; apply andb_true_iff; split;
          [apply Nat.leb_le|apply Nat.ltb_lt]; lia).
    cbn [map fst snd]. unfold qsum. cbn [fold_right]. fold D. ring.
Qed.

Lemma feasible_reads_pass (p : Puzzle.t) possible_bridges crossing_bridges
  (a : assignment) (value : LpVar -> option Q) solution first :
  NoDup (map island_pos (Puzzle.islands p)) ->
  hd_error (Puzzle.islands p) = Some first ->
  (forall c, In c possible_bridges ->
     (fst c < snd c)%nat /\ (snd c < length (Puzzle.islands p))%nat) ->
  feasible (lp_problem p possible_bridges crossing_bridges) a = true ->
  reports value a possible_bridges ->
  reads (Puzzle.islands p) value possible_bridges solution ->
  check_solution (with_solution p solution) = pass.
Proof.
  intros Hnd Hfirst Hidx Hf Hrep Hreads.
  set (islands := Puzzle.islands p) in *. set (n := length islands) in *.
  pose proof (reads_endpoints _ _ _ _ Hreads) as Hends.
  assert (Hfacts : forall i j, In (i, j) possible_bridges ->
            i <> j
            /\ exists B c, 0 <= B <= 2 /\ (a (b_ i j) == inject_Z B)%Q
                           /\ value (b_ i j) = Some c
                           /\ (a (b_ i j) - (1 # 2) < c < a (b_ i j) + (1 # 2))%Q).
  { intros i j Hin. destruct (Hidx _ Hin) as [Hlt _]. cbn [fst snd] in Hlt.
    split; [lia|].
    destruct (candidate_count p _ _ a Hf i j Hin) as (B & HB & Hb & _).
    destruct (Hrep i j Hin) as (c & Hc & Hnear). exists B, c. auto. }
  (* the degrees *)
  destruct (degrees_match_spec islands solution Hnd Hends) as (ok & Hok & Hiff).
  assert (ok = true).
  { destruct ok; [reflexivity|]. exfalso.
    destruct (proj1 Hiff eq_refl) as (i & Hi & Hres). apply Hres.
    apply In_nth_error in Hi as (k & Hk).
    pose proof (reads_incident_sum islands value a possible_bridges solution k i
                  Hreads Hnd Hk Hfacts) as Hsum.
    rewrite (degree_constraint p _ _ a Hf k i Hk) in Hsum.
    apply (proj1 (inject_Z_injective _ _)) in Hsum. unfold residual. lia. }
  subst ok.
  (* the connection *)
  destruct (fully_connected_spec islands solution first Hends Hfirst)
    as (connected & Hconnected & Htrue & _).
  destruct (reach_visited islands solution first Hends Hfirst) as (visited & Hvisited).
  set (t := fun k : nat =>
              match nth_error islands k with
              | Some i => if visited (island_pos i) then 0%Q else 1%Q
              | None => 0%Q
              end).
  assert (Ht : forall k, (0 <= t k)%Q).
  { intros k. unfold t. destruct (nth_error islands k) as [i|]; [|lra].
    destruct (visited (island_pos i)); lra. }
  assert (Hnet : (qsum (map (fun k => t k * net_flow a possible_bridges k) (seq 0 n))
                  == 0)%Q).
  { rewrite (weighted_net_flow a t n possible_bridges).
    2:{ intros u v Hin. destruct (Hidx _ Hin) as [H1 H2]. cbn [fst snd] in *.
        fold islands n in H2. lia. }
    apply qsum_zero. intros [u v] Hin. cbn [fst snd].
    destruct (Hidx _ Hin) as [Huv Hvn]. cbn [fst snd] in Huv, Hvn. fold islands n in Hvn.
    destruct (nth_error islands u) as [au|] eqn:Eu;
      [|apply nth_error_None in Eu; fold n in Eu; lia].
    destruct (nth_error islands v) as [av|] eqn:Ev;
      [|apply nth_error_None in Ev; fold n in Ev; lia].
    destruct (candidate_count p _ _ a Hf u v Hin) as (B & HB & Hb & _).
    destruct (Z.eq_dec B 0) as [->|HB0].
    - destruct (candidate_flow p _ _ a Hf u v Hin Hb) as [-> ->]. ring.
    - destruct (Hrep u v Hin) as (c & Hc & Hnear). rewrite Hb in Hnear.
      assert (Hhalf : (1 # 2 < c)%Q).
      { assert (H1 : (inject_Z 1 <= inject_Z B)%Q) by (rewrite <- Zle_Qle; lia).
        change (inject_Z 1) with 1%Q in H1. lra. }
      pose proof (reads_adjacent _ _ _ _ Hreads u v c au av Hin Hc Hhalf Eu Ev) as Hadj.
      assert (Hsame : visited (island_pos au) = visited (island_pos av)).
      { destruct (visited (island_pos au)) eqn:Vu; destruct (visited (island_pos av)) eqn:Vv;
          try reflexivity.
        - apply Hvisited in Vu. rewrite <- Vv. symmetry. apply Hvisited.
          now apply reach_step with (q := island_pos au).
        - apply Hvisited in Vv. rewrite <- Vu. apply Hvisited.
          apply reach_step with (q := island_pos av); [exact Vv|].
          now apply adjacent_sym. }
      unfold t. rewrite Eu, Ev, Hsame. ring. }
  assert (Hrhs : (qsum (map (fun k => t k * net_flow a possible_bridges k) (seq 0 n))
                  == (-1) * qsum (map t (seq 0 n)))%Q).
  { rewrite <- qsum_scale. apply qsum_ext. intros k Hk. apply in_seq in Hk.
    destruct (nth_error islands k) as [i|] eqn:Ek;
      [|apply nth_error_None in Ek; fold n in Ek; lia].
    rewrite (flow_constraint p _ _ a Hf k i Ek).
    destruct (Nat.eqb_spec k 0) as [->|Hk0].
    - assert (Ei : i = first).
      { destruct islands; cbn in Ek, Hfirst; congruence. }
      unfold t. rewrite Ek, Ei.
      replace (visited (island_pos first)) with true
        by (symmetry; apply Hvisited; constructor).
      ring.
    - change (inject_Z (-1)) with (-1)%Q. ring. }
  assert (Hzero : (qsum (map t (seq 0 n)) == 0)%Q) by lra.
  assert (Hall : forall i, In i islands -> reach solution (island_pos first) (island_pos i)).
  { intros i Hi. apply In_nth_error in Hi as (k & Hk).
    assert (Hkn : In k (seq 0 n)).
    { apply in_seq. split; [lia|]. apply nth_error_Some. congruence. }
    pose proof (qsum_nonneg_zero t (seq 0 n) (fun x _ => Ht x) Hzero k Hkn) as Hk0.
    unfold t in Hk0. rewrite Hk in Hk0. apply Hvisited.
    destruct (visited (island_pos i)); [reflexivity|]. exfalso. lra. }
  apply Htrue in Hall. subst connected.
  unfold check_solution. cbn [with_solution Puzzle.solution Puzzle.islands].
  fold islands. rewrite Hok. cbn [bind negb]. rewrite Hconnected. reflexivity.
Qed.

Lemma solve_answer_sound (solver : Solver) p possible_bridges problem (a : assignment) :
  NoDup (map island_pos (Puzzle.islands p)) ->
  Puzzle.islands p <> [] ->
  lp_model p = Ok (possible_bridges, problem) ->
  fst (solver problem) = "Optimal"%string \/ fst (solver problem) = "Feasible"%string ->
  feasible problem a = true ->
  reports (snd (solver problem)) a possible_bridges ->
  exists solution,
    solve solver p = Ok (Some solution)
    /\ check_solution (with_solution p solution) = pass.
Proof.
  revert possible_bridges. intros pb Hnd Hne Hmodel Hstatus Hf Hrep.
  unfold solve. rewrite Hmodel. cbn [bind].
  destruct (solver problem) as [status value]. cbn [fst snd] in *.
  apply string_in_two in Hstatus. rewrite Hstatus.
  apply lp_model_inv in Hmodel. destruct Hmodel as (g & cr & _ & Hpb & _ & ->).
  destruct (read_solution_loop _ value p eq_refl pb []
              (possible_bridges_indices p g pb Hpb)) as (solution & Hsol & Hreads).
  unfold read_solution. rewrite Hsol. cbn [bind app]. exists solution.
  split; [reflexivity|].
  destruct (Puzzle.islands p) as [|first rest] eqn:Ei; [congruence|].
  apply (feasible_reads_pass p pb cr a value solution first); rewrite ?Ei; auto.
  rewrite <- Ei. apply (get_possible_bridges_order p g pb Hpb).
Qed.

(** X16: the model is sound for the verifier.  For a puzzle with an island,
    no two islands on one position: if the external solver answers "Optimal"
    or "Feasible" and the counts it reports are within 1/2 of an assignment
    that satisfies the bounds, the kinds and the constraints of the model,
    then [solve] returns bridges with which the puzzle passes
    [check_solution]: the degrees match and the islands are connected. *)
Theorem solve_answer_passes :
  forall (solver : Solver) p possible_bridges problem (a : assignment),
    NoDup (map island_pos (Puzzle.islands p)) ->
    Puzzle.islands p <> [] ->
    lp_model p = Ok (possible_bridges, problem) ->
    fst (solver problem) = "Optimal"%string \/ fst (solver problem) = "Feasible"%string ->
    feasible problem a = true ->
    reports (snd (solver problem)) a possible_bridges ->
    exists solution,
      solve solver p = Ok (Some solution)
      /\ check_solution (with_solution p solution) = pass.
Proof. intros. now apply (solve_answer_sound solver p possible_bridges problem a). Qed.

Lemma solve_answer_passes_witness :
  exists solution,
    solve optimal_solver two_island_puzzle = Ok (Some solution)
    /\ check_solution (with_solution two_island_puzzle solution) = pass.
Proof.
  apply (solve_answer_passes optimal_solver two_island_puzzle [(0, 1)]%nat
           (lp_problem two_island_puzzle [(0, 1)]%nat []) two_island_assignment).
  - unfold island_pos. cbn.
    repeat (apply NoDup_cons; [cbn; intuition congruence|]). apply NoDup_nil.
  - discriminate.
  - reflexivity.
  - left. reflexivity.
  - reflexivity.
  - intros i j [[= <- <-]|[]]. exists 1%Q. split; [reflexivity|]. cbn. lra.
Defined.

(** X17: in the model that [solve] builds for a puzzle with its islands on the
    board, an assignment that satisfies the bounds, the kinds and the
    constraints gives a positive count to no two candidates that cross: the
    bridges read off it do not cross. *)
Theorem feasible_counts_do_not_cross :
  forall p possible_bridges problem (a : assignment),
    islands_in_bounds p ->
    lp_model p = Ok (possible_bridges, problem) ->
    feasible problem a = true ->
    ~ exists c1 c2,
        In c1 possible_bridges /\ In c2 possible_bridges
        /\ (0 < a (b_ (fst c1) (snd c1)))%Q /\ (0 < a (b_ (fst c2) (snd c2)))%Q
        /\ crossing (Puzzle.islands p) c1 c2.
Proof.
  intros p pb problem a Hin Hmodel Hf (c1 & c2 & H1 & H2 & Hb1 & Hb2 & Hcross).
  apply lp_model_inv in Hmodel. destruct Hmodel as (g & cr & Hg & Hpb & Hcr & ->).
  destruct (possible_bridges_exact p Hin) as (g' & pb' & Hg' & Hpb' & Hcand & _).
  assert (g' = g) by congruence. subst g'. assert (pb' = pb) by congruence. subst pb'.
  destruct (get_crossing_bridges_general p pb) as (cr' & Hcr' & Hlisted).
  { intros [i j] Hc. now apply Hcand. }
  assert (cr' = cr) by congruence. subst cr'.
  assert (Hy : forall c, In c pb -> (0 < a (b_ (fst c) (snd c)))%Q ->
             (a (y_ (fst c) (snd c)) == 1)%Q).
  { intros [i j] Hc Hpos. cbn [fst snd] in *.
    destruct (candidate_count p _ _ a Hf i j Hc) as (B & HB & Hb & Hy).
    destruct (Z.eqb_spec B 0) as [->|_]; [|exact Hy].
    rewrite Hb in Hpos. change (inject_Z 0) with 0%Q in Hpos. lra. }
  assert (Hpair : forall d1 d2, In (d1, d2) cr ->
            (a (y_ (fst d1) (snd d1)) + a (y_ (fst d2) (snd d2)) <= 1)%Q).
  { intros [i1 j1] [i2 j2] Hd.
    assert (Hc : constraint_holds a
                   (mkConstraint (lpSum [y_ i1 j1; y_ i2 j2]) LpLE (lpConst 1)) = true).
    { apply (feasible_constraint _ _ _ Hf). cbn [constraints lp_problem].
      rewrite !in_app_iff. right; right; left. unfold lp_no_crossing.
      apply in_map_iff. exists ((i1, j1), (i2, j2)). split; [reflexivity|exact Hd]. }
    unfold constraint_holds in Hc. cbn [sense lhs rhs] in Hc. apply Qle_bool_iff in Hc.
    unfold eval_affine in Hc.
    cbn [lpSum lpConst terms constant map fold_right fst snd] in Hc.
    change (inject_Z 0) with 0%Q in Hc. change (inject_Z 1) with 1%Q in Hc.
    cbn [fst snd]. lra. }
  pose proof (Hy c1 H1 Hb1) as Hy1. pose proof (Hy c2 H2 Hb2) as Hy2.
  apply In_nth_error in H1 as (m & Hm). apply In_nth_error in H2 as (n & Hn).
  destruct (Nat.lt_trichotomy m n) as [Hlt|[->|Hgt]].
  - assert (Hd : In (c1, c2) cr).
    { apply Hlisted. split; [exists m, n; auto|exact Hcross]. }
    pose proof (Hpair c1 c2 Hd). lra.
  - assert (c1 = c2) by congruence. subst c2.
    exact (crossing_irrefl (Puzzle.islands p) c1 Hcross).
  - assert (Hd : In (c2, c1) cr).
    { apply Hlisted. split; [exists n, m; auto|now apply crossing_sym]. }
    pose proof (Hpair c2 c1 Hd). lra.
Qed.

Lemma feasible_counts_do_not_cross_witness :
  ~ exists c1 c2,
      In c1 [(0, 1)]%nat /\ In c2 [(0, 1)]%nat
      /\ (0 < two_island_assignment (b_ (fst c1) (snd c1)))%Q
      /\ (0 < two_island_assignment (b_ (fst c2) (snd c2)))%Q
      /\ crossing (Puzzle.islands two_island_puzzle) c1 c2.
Proof.
  apply (feasible_counts_do_not_cross two_island_puzzle [(0, 1)]%nat
           (lp_problem two_island_puzzle [(0, 1)]%nat []) two_island_assignment).
  - intros i [<-|[<-|[]]]; cbn; lia.
  - reflexivity.
  - reflexivity.
Defined.

(** ** puzzle.py: [Puzzle.__str__] *)

Lemma askew_dec b : {askew b} + {~ askew b}.
Proof.
  unfold askew.
  destruct (Z.eq_dec (Island.x (Bridge.node1 b)) (Island.x (Bridge.node2 b)));
    [right; tauto|].
  destruct (Z.eq_dec (Island.y (Bridge.node1 b)) (Island.y (Bridge.node2 b)));
    [right; tauto|left; tauto].
Qed.

Lemma bridge_symbols_askew b d : askew b -> bridge_symbols b d = Raise ValueError.
Proof.
  intros [Hx Hy]. unfold bridge_symbols. cbv zeta.
  apply Z.eqb_neq in Hx, Hy. now rewrite Hx, Hy.
Qed.

Lemma bridge_symbols_straight b d :
  ~ askew b ->
  exists s (cells : list pos),
    bridge_symbols b d
    = Ok (fold_left (fun d c => dict_set d c s) cells d)
    /\ length s = 3%nat /\ ~ In newline s.
Proof.
  intros Hstraight. unfold bridge_symbols. cbv zeta.
  assert (Hmap : forall (f : Z -> pos) (s : text) (l : list Z) (d0 : dict text),
            fold_left (fun d y => dict_set d (f y) s) l d0
            = fold_left (fun d c => dict_set d c s) (map f l) d0).
  { intros f s l. induction l as [|y l IH]; intros d0; cbn [map fold_left]; auto. }
  destruct (Z.eqb_spec (Island.x (Bridge.node1 b)) (Island.x (Bridge.node2 b))) as [Hx|Hx].
  - eexists. eexists. split; [f_equal; apply Hmap|].
    destruct (Bridge.single b); split; try reflexivity;
      cbn; unfold newline, space, light_vertical, double_vertical; intuition lia.
  - destruct (Z.eqb_spec (Island.y (Bridge.node1 b)) (Island.y (Bridge.node2 b)))
      as [Hy|Hy].
    + eexists. eexists.
      split; [f_equal; apply (Hmap (fun x => (x, Island.y (Bridge.node1 b))))|].
      destruct (Bridge.single b); split; try reflexivity;
        cbn; unfold newline, light_horizontal, double_horizontal; intuition lia.
    + exfalso. apply Hstraight. split; assumption.
Qed.

Lemma bridge_symbols_loop (solution : list Bridge.t) :
  forall d,
    (Exists askew solution -> for_each solution bridge_symbols d = Raise ValueError)
    /\ (Forall (fun b => ~ askew b) solution ->
        (forall k s, dict_get d k = Some s -> length s = 3%nat /\ ~ In newline s) ->
        exists d', for_each solution bridge_symbols d = Ok d'
                   /\ forall k s, dict_get d' k = Some s ->
                        length s = 3%nat /\ ~ In newline s).
Proof.
  induction solution as [|b solution IH]; intros d; cbn [for_each].
  - split; [intros H; inversion H|]. intros _ Hd. eauto.
  - destruct (askew_dec b) as [Hb|Hb].
    + split; [intros _; now rewrite bridge_symbols_askew|].
      intros H. inversion H; subst. contradiction.
    + destruct (bridge_symbols_straight b d Hb) as (s & cells & -> & Hlen & Hnl).
      cbn [bind]. split.
      * intros H. inversion H; subst; [contradiction|]. now apply IH.
      * intros H Hd. inversion H; subst. apply IH; [assumption|].
        clear - Hd Hlen Hnl. revert d Hd.
        induction cells as [|c cells IHc]; intros d Hd; cbn [fold_left]; [exact Hd|].
        apply IHc. intros k s' Hk. destruct (pos_eq_dec c k) as [<-|Hne].
        -- rewrite dict_get_set_same in Hk. injection Hk as <-. auto.
        -- rewrite dict_get_set_other in Hk by assumption. now apply (Hd k).
Qed.

Lemma str_returns p :
  (forall solution, Puzzle.solution p = Some solution ->
     Forall (fun b => ~ askew b) solution) ->
  exists t, __str__ p = Ok t.
Proof.
  intros H. unfold __str__. cbv zeta.
  set (d0 := dict_of island_pos
               (fun island => [space] ++ str_int (Island.degree island) ++ [space])
               (Puzzle.islands p)).
  clearbody d0. destruct (Puzzle.solution p) as [solution|]; [|cbn [bind]; eauto].
  specialize (H solution eq_refl).
  assert (Hrun : exists d', for_each solution bridge_symbols d0 = Ok d').
  { revert d0. induction solution as [|b solution IH]; intros d; cbn [for_each]; [eauto|].
    inversion H; subst.
    destruct (bridge_symbols_straight b d) as (s & cells & -> & _); auto.
    cbn [bind]. now apply IH. }
  destruct Hrun as (d' & ->). cbn [bind]. eauto.
Qed.

(** X18: printing a puzzle raises ValueError exactly when its solution holds a
    bridge whose ends share neither a column nor a row, and returns a text
    otherwise; without a solution it always returns a text. *)
Theorem str_raises_iff_askew :
  forall p,
    (__str__ p = Raise ValueError
     <-> exists solution, Puzzle.solution p = Some solution /\ Exists askew solution)
    /\ ((exists t, __str__ p = Ok t)
        <-> forall solution, Puzzle.solution p = Some solution ->
              Forall (fun b => ~ askew b) solution).
Proof.
  intros p. unfold __str__. cbv zeta.
  set (d0 := dict_of island_pos
               (fun island => [space] ++ str_int (Island.degree island) ++ [space])
               (Puzzle.islands p)).
  destruct (Puzzle.solution p) as [solution|].
  - destruct (Exists_dec askew solution askew_dec) as [Hex|Hall].
    + rewrite (proj1 (bridge_symbols_loop solution d0) Hex). cbn [bind]. split.
      * split; [eauto|reflexivity].
      * split; [intros [t Ht]; discriminate|].
        intros H. exfalso. specialize (H solution eq_refl).
        apply Exists_exists in Hex as (b & Hb & Hask).
        rewrite Forall_forall in H. now apply (H b).
    + assert (Hstraight : Forall (fun b => ~ askew b) solution).
      { apply Forall_forall. intros b Hb Hask. apply Hall. apply Exists_exists. eauto. }
      assert (Hrun : exists d', for_each solution bridge_symbols d0 = Ok d').
      { clear Hall. clearbody d0. revert d0. generalize dependent solution.
        induction solution as [|b solution IH]; intros Hs d; cbn [for_each]; [eauto|].
        inversion Hs; subst.
        destruct (bridge_symbols_straight b d) as (s & cells & -> & _); auto.
        cbn [bind]. now apply IH. }
      destruct Hrun as (d' & ->). cbn [bind]. split.
      * split; [discriminate|]. intros (s & [= <-] & Hex). contradiction.
      * split; [intros _ s [= <-]; exact Hstraight|eauto].
  - cbn [bind]. split.
    + split; [discriminate|]. intros (s & Hs & _). discriminate.
    + split; [intros _ s Hs; discriminate|eauto].
Qed.

Example str_askew_bridge :
  __str__ (Puzzle.mk 4 4 [Island.mk 0 0 1; Island.mk 1 1 1]
             (Some [Bridge.mk (Island.mk 0 0 1) (Island.mk 1 1 1) true]))
  = Raise ValueError.
Proof. reflexivity. Qed.

Lemma fold_left_append {A : Type} (f : A -> text) (l : list A) :
  forall out : text, fold_left (fun out x => out ++ f x) l out = out ++ concat (map f l).
Proof.
  induction l as [|x l IH]; intros out; cbn [fold_left map concat].
  - now rewrite app_nil_r.
  - rewrite IH. now rewrite <- app_assoc.
Qed.

Lemma fold_left_append_if {A : Type} (c : A -> bool) (f g : A -> text) (l : list A) :
  forall out : text,
    fold_left (fun out x => if c x then out ++ f x else out ++ g x) l out
    = out ++ concat (map (fun x => if c x then f x else g x) l).
Proof.
  induction l as [|x l IH]; intros out; cbn [fold_left map concat].
  - now rewrite app_nil_r.
  - rewrite IH. destruct (c x); now rewrite <- app_assoc.
Qed.

Lemma cells_line {A : Type} (f : A -> text) (l : list A) :
  (forall x, In x l -> length (f x) = 3%nat /\ ~ In newline (f x)) ->
  length (concat (map f l)) = (3 * length l)%nat /\ ~ In newline (concat (map f l)).
Proof.
  induction l as [|x l IH]; intros H; cbn [map concat length].
  - split; [reflexivity|intros []].
  - destruct (H x (or_introl eq_refl)) as [Hlen Hnl].
    destruct (IH (fun y Hy => H y (or_intror Hy))) as [Hlen' Hnl'].
    rewrite length_app, Hlen, Hlen'. split; [lia|].
    intros Hin. apply in_app_or in Hin. tauto.
Qed.

Lemma text_mul_line (c : Z) (n : Z) :
  c <> newline ->
  length (text_mul [c] n) = Z.to_nat n /\ ~ In newline (text_mul [c] n).
Proof.
  intros Hc. unfold text_mul. induction (Z.to_nat n) as [|k IH]; cbn [repeat concat].
  - split; [reflexivity|intros []].
  - destruct IH as [Hlen Hnl]. cbn [app length]. split; [now rewrite Hlen|].
    intros [E|Hin]; [now apply Hc|now apply Hnl].
Qed.

Lemma join_lines_snoc (lines : list text) (last : text) :
  concat (map (fun l => l ++ [newline]) lines) ++ last = join_lines (lines ++ [last]).
Proof.
  induction lines as [|l lines IH]; [reflexivity|].
  cbn [map concat app]. rewrite <- app_assoc, IH.
  destruct (lines ++ [last]) eqn:E; [destruct lines; discriminate|].
  cbn [join_lines]. now rewrite <- app_assoc.
Qed.

Lemma range_last (h : Z) : 1 <= h -> range 0 h = range 0 (h - 1) ++ [h - 1].
Proof.
  intros Hh. unfold range.
  replace (Z.to_nat (h - 0)) with (S (Z.to_nat (h - 1 - 0))) by lia.
  rewrite seq_S, map_app. cbn [map]. f_equal. f_equal. lia.
Qed.

Lemma str_int_digit (d : Z) :
  0 <= d <= 9 -> length (str_int d) = 1%nat /\ ~ In newline (str_int d).
Proof.
  intros Hd.
  assert (H : d = 0 \/ d = 1 \/ d = 2 \/ d = 3 \/ d = 4 \/ d = 5 \/ d = 6 \/ d = 7
              \/ d = 8 \/ d = 9) by lia.
  unfold newline.
  repeat (destruct H as [->|H]; [split; [reflexivity|cbn; intuition lia]|]).
  subst d. split; [reflexivity|cbn; intuition lia].
Qed.

Section Drawing.
Variables (width height : Z) (symbol_dict : dict text).
Hypothesis Hwidth : 0 <= width.
Hypothesis Hsymbols :
  forall k s, dict_get symbol_dict k = Some s -> length s = 3%nat /\ ~ In newline s.

Lemma get_default_cell k :
  length (get_default symbol_dict k [space; space; space]) = 3%nat
  /\ ~ In newline (get_default symbol_dict k [space; space; space]).
Proof.
  unfold get_default. destruct (dict_get symbol_dict k) as [s|] eqn:E; [eauto|].
  split; [reflexivity|]. unfold newline, space. cbn. intuition lia.
Qed.

Lemma bordered_line (cells : text) :
  length cells = (3 * length (range 0 width))%nat -> ~ In newline cells ->
  board_line width ([light_vertical] ++ cells ++ [light_vertical]).
Proof.
  intros Hlen Hnl. split.
  - rewrite !length_app, Hlen, range_length. cbn [length]. lia.
  - intros Hin. apply in_app_or in Hin as [[E|[]]|Hin]; [discriminate|].
    apply in_app_or in Hin as [Hin|[E|[]]]; [now apply Hnl|discriminate].
Qed.

Lemma board_row_line y output :
  exists l, board_row width symbol_dict y output = output ++ (l ++ [newline])
            /\ board_line width l.
Proof.
  unfold board_row. cbv zeta. rewrite fold_left_append.
  destruct (cells_line (fun x => get_default symbol_dict (x, y) [space; space; space])
              (range 0 width)) as [Hlen Hnl].
  { intros x _. apply get_default_cell. }
  eexists. split; [|apply (bordered_line _ Hlen Hnl)].
  rewrite <- !app_assoc. reflexivity.
Qed.

Lemma spacing_row_line y output :
  exists l, spacing_row width symbol_dict y output = output ++ (l ++ [newline])
            /\ board_line width l.
Proof.
  unfold spacing_row. cbv zeta.
  rewrite (fold_left_append_if
             (fun x => option_text_eqb (dict_get symbol_dict (x, y))
                         (dict_get symbol_dict (x, y + 1))
                       && (option_text_eqb (dict_get symbol_dict (x, y))
                             (Some [space; light_vertical; space])
                           || option_text_eqb (dict_get symbol_dict (x, y))
                                (Some [space; double_vertical; space])))
             (fun x => get_default symbol_dict (x, y) [space; space; space])
             (fun _ => [space; space; space])).
  match goal with
  | |- context [concat (map ?f (range 0 width))] =>
      destruct (cells_line f (range 0 width)) as [Hlen Hnl]
  end.
  { intros x _. cbv beta. destruct (_ && _); [apply get_default_cell|].
    split; [reflexivity|]. unfold newline, space. cbn. intuition lia. }
  eexists. split; [|apply (bordered_line _ Hlen Hnl)].
  rewrite <- !app_assoc. reflexivity.
Qed.

Lemma rows_loop (ys : list Z) :
  (forall y, In y ys -> y <> height - 1) ->
  forall output,
    exists lines,
      fold_left (draw_row width height symbol_dict) ys output
      = output ++ concat (map (fun l => l ++ [newline]) lines)
      /\ length lines = (2 * length ys)%nat
      /\ Forall (board_line width) lines.
Proof.
  induction ys as [|y ys IH]; intros Hys output; cbn [fold_left].
  - exists []. cbn. rewrite app_nil_r. auto.
  - unfold draw_row at 2. cbv zeta. destruct (Z.eqb_spec y (height - 1)) as [E|_];
      [exfalso; now apply (Hys y (or_introl eq_refl))|]. cbn [negb].
    destruct (board_row_line y output) as (l1 & -> & H1).
    destruct (spacing_row_line y (output ++ l1 ++ [newline])) as (l2 & -> & H2).
    destruct (IH (fun y' H => Hys y' (or_intror H))
                ((output ++ l1 ++ [newline]) ++ l2 ++ [newline]))
      as (lines & -> & Hlen & Hall).
    exists (l1 :: l2 :: lines). cbn [map concat length].
    split; [now rewrite <- !app_assoc|]. split; [lia|]. auto.
Qed.
End Drawing.

Lemma border_line (width : Z) (left right : Z) :
  0 <= width -> left <> newline -> right <> newline ->
  board_line width ([left] ++ text_mul [light_horizontal] (width * 3) ++ [right]).
Proof.
  intros Hw Hl Hr.
  destruct (text_mul_line light_horizontal (width * 3)) as [Hlen Hnl]; [discriminate|].
  split.
  - rewrite !length_app, Hlen. cbn [length]. lia.
  - intros Hin. apply in_app_or in Hin as [[E|[]]|Hin]; [now apply Hl|].
    apply in_app_or in Hin as [Hin|[E|[]]]; [now apply Hnl|now apply Hr].
Qed.

Lemma str_rectangle :
  forall p,
    0 <= Puzzle.width p -> 1 <= Puzzle.height p ->
    Forall (fun i => 0 <= Island.degree i <= 9) (Puzzle.islands p) ->
    (forall solution, Puzzle.solution p = Some solution ->
       Forall (fun b => ~ askew b) solution) ->
    exists lines,
      __str__ p = Ok (join_lines lines)
      /\ Z.of_nat (length lines) = 2 * Puzzle.height p + 1
      /\ Forall (board_line (Puzzle.width p)) lines.
Proof.
  intros p Hw Hh Hdeg Hstraight. unfold __str__. cbv zeta.
  set (d0 := dict_of island_pos
               (fun island => [space] ++ str_int (Island.degree island) ++ [space])
               (Puzzle.islands p)).
  assert (Hd0 : forall k s, dict_get d0 k = Some s -> length s = 3%nat /\ ~ In newline s).
  { unfold d0, dict_of.
    apply (dict_of_fold_values island_pos
             (fun island => [space] ++ str_int (Island.degree island) ++ [space])
             (Puzzle.islands p) [] (fun s => length s = 3%nat /\ ~ In newline s)).
    - intros k s. discriminate.
    - intros i Hi. rewrite Forall_forall in Hdeg.
      destruct (str_int_digit (Island.degree i) (Hdeg i Hi)) as [Hlen Hnl].
      rewrite !length_app, Hlen. split; [reflexivity|].
      intros Hin. apply in_app_or in Hin as [[E|[]]|Hin]; [discriminate|].
      apply in_app_or in Hin as [Hin|[E|[]]]; [now apply Hnl|discriminate]. }
  assert (Hdict : exists d,
            match Puzzle.solution p with
            | Some solution => for_each solution bridge_symbols d0
            | None => Ok d0
            end = Ok d
            /\ forall k s, dict_get d k = Some s -> length s = 3%nat /\ ~ In newline s).
  { destruct (Puzzle.solution p) as [solution|]; [|eauto].
    apply (proj2 (bridge_symbols_loop solution d0)); auto. }
  destruct Hdict as (d & -> & Hd). cbn [bind].
  rewrite (range_last (Puzzle.height p) Hh), fold_left_app. cbn [fold_left].
  destruct (rows_loop (Puzzle.width p) (Puzzle.height p) d Hw Hd
              (range 0 (Puzzle.height p - 1)))
    with (output := [corner_down_right]
                    ++ text_mul [light_horizontal] (Puzzle.width p * 3)
                    ++ [corner_down_left; newline])
    as (body & -> & Hbody & Hlines).
  { intros y Hy. apply range_In in Hy. lia. }
  unfold draw_row. cbv zeta. rewrite Z.eqb_refl. cbn [negb].
  destruct (board_row_line (Puzzle.width p) d Hw Hd (Puzzle.height p - 1)
              (([corner_down_right] ++ text_mul [light_horizontal] (Puzzle.width p * 3)
                ++ [corner_down_left; newline])
               ++ concat (map (fun l => l ++ [newline]) body)))
    as (last_row & -> & Hlast).
  set (top := [corner_down_right] ++ text_mul [light_horizontal] (Puzzle.width p * 3)
              ++ [corner_down_left]).
  set (bottom := [corner_up_right] ++ text_mul [light_horizontal] (Puzzle.width p * 3)
                 ++ [corner_up_left]).
  exists ((top :: body ++ [last_row]) ++ [bottom]). split; [|split].
  - f_equal. rewrite <- join_lines_snoc. cbn [map concat]. rewrite map_app, concat_app.
    cbn [map concat]. unfold top, bottom. rewrite <- !app_assoc. cbn [app].
    reflexivity.
  - cbn [length app]. rewrite !length_app, Hbody, range_length. cbn [length]. lia.
  - apply Forall_app. split; [|constructor; [|constructor]].
    + constructor; [apply border_line; auto; discriminate|].
      apply Forall_app. split; [exact Hlines|]. constructor; [exact Hlast|constructor].
    + apply border_line; auto; discriminate.
Qed.

(** X19: the drawing of a board.  For a puzzle of width at least 0 and height
    at least 1 whose degrees are single digits and whose bridges run along
    columns or rows, [__str__] returns 2 * height + 1 lines joined by
    newlines, each of 3 * width + 2 characters: the drawing is a rectangle. *)
Theorem str_draws_rectangle :
  forall p,
    0 <= Puzzle.width p -> 1 <= Puzzle.height p ->
    Forall (fun i => 0 <= Island.degree i <= 9) (Puzzle.islands p) ->
    (forall solution, Puzzle.solution p = Some solution ->
       Forall (fun b => ~ askew b) solution) ->
    exists lines,
      __str__ p = Ok (join_lines lines)
      /\ Z.of_nat (length lines) = 2 * Puzzle.height p + 1
      /\ Forall (board_line (Puzzle.width p)) lines.
Proof. exact str_rectangle. Qed.

Lemma str_draws_rectangle_witness :
  exists lines,
    __str__ test_solved_puzzle_1 = Ok (join_lines lines)
    /\ Z.of_nat (length lines) = 2 * 4 + 1
    /\ Forall (board_line 4) lines.
Proof.
  apply (str_draws_rectangle test_solved_puzzle_1).
  - cbn. lia.
  - cbn. lia.
  - repeat constructor; cbn; lia.
  - intros solution [= <-]. repeat constructor; unfold askew; cbn; lia.
Defined.

(** ** demo.py: a generated puzzle goes through the solver and the verifier *)

Lemma reads_straight islands value possible_bridges solution :
  reads islands value possible_bridges solution ->
  (forall i j, In (i, j) possible_bridges -> is_candidate islands i j) ->
  Forall (fun b => ~ askew b) solution.
Proof.
  induction 1 as [|i j rest solution c a0 b0 Hv Hc Hi Hj _ IH|i j rest solution _ _ IH];
    intros Hcand.
  - constructor.
  - constructor; [|apply IH; intros; apply Hcand; now right].
    destruct (Hcand i j (or_introl eq_refl)) as (_ & a1 & b1 & Ha1 & Hb1 & Hline).
    assert (a1 = a0) by congruence. assert (b1 = b0) by congruence. subst.
    unfold askew. cbn [Bridge.node1 Bridge.node2]. intros [Hx Hy].
    destruct Hline as [[E _]|[E _]]; contradiction.
  - apply IH. intros; apply Hcand; now right.
Qed.

(** What [solve] returns for a puzzle with its islands on the board, whatever
    the external solver answers. *)
Lemma solve_returns (solver : Solver) (p : Puzzle.t) :
  islands_in_bounds p ->
  exists answer,
    solve solver p = Ok answer
    /\ forall solution, answer = Some solution ->
         endpoints_are_islands (Puzzle.islands p) solution
         /\ Forall (fun b => ~ askew b) solution.
Proof.
  intros Hin.
  destruct (possible_bridges_exact p Hin) as (g & pb & Hg & Hpb & Hcand & _).
  destruct (get_crossing_bridges_general p pb) as (cr & Hcr & _).
  { intros [i j] Hc. now apply Hcand. }
  unfold solve, lp_model. rewrite Hg. cbn [bind]. rewrite Hpb. cbn [bind].
  rewrite Hcr. cbn [bind].
  destruct (solver (lp_problem p pb cr)) as [status value].
  destruct (string_in status _); [|exists None; split; [reflexivity|discriminate]].
  destruct (read_solution_loop _ value p eq_refl pb []
              (possible_bridges_indices p g pb Hpb)) as (solution & Hsol & Hreads).
  unfold read_solution. rewrite Hsol. cbn [bind app]. exists (Some solution).
  split; [reflexivity|]. intros s [= <-]. split.
  - exact (reads_endpoints (Puzzle.islands p) value pb solution Hreads).
  - apply (reads_straight (Puzzle.islands p) value pb solution Hreads).
    intros i j. apply Hcand.
Qed.

Lemma generated_pipeline fuel width height difficulty r p (solver : Solver) :
  generate fuel width height difficulty r = Ok p ->
  (exists t, __str__ (without_solution p) = Ok t)
  /\ exists answer,
       solve solver (without_solution p) = Ok answer
       /\ match answer with
          | Some solution =>
              (exists verdict,
                 check_solution (with_solution (without_solution p) solution) = Ok verdict)
              /\ (exists t, __str__ (with_solution (without_solution p) solution) = Ok t)
          | None => True
          end.
Proof.
  intros H. apply generated_state in H.
  destruct H as (st & islands & -> & Hinv & Hinv2 & Hw & Hh & Hcount & Hlen & Hnd
                 & Hlisted & Hmem).
  split; [apply str_returns; intros s Hs; discriminate|].
  destruct (solve_returns solver
              (without_solution (Puzzle.mk width height islands (Some (gen_solution st)))))
    as (answer & Hsolve & Hanswer).
  { intros i Hi. cbn [without_solution Puzzle.islands Puzzle.width Puzzle.height] in *.
    apply Hmem in Hi. destruct Hi as [[Hx Hy] _]. cbn [island_pos fst snd] in Hx, Hy.
    rewrite <- Hw, <- Hh. auto. }
  exists answer. split; [exact Hsolve|]. destruct answer as [solution|]; [|exact I].
  destruct (Hanswer solution eq_refl) as [Hends Hstraight].
  unfold with_solution, without_solution in *.
  cbn [Puzzle.islands Puzzle.width Puzzle.height] in *.
  split.
  - destruct (check_solution_returns width height islands solution Hends) as [E|[E|E]];
      [destruct islands; [cbn in Hlen; lia|discriminate]| | |];
      rewrite E; unfold degree_failure, connectivity_failure, pass; eauto.
  - apply str_returns. intros s [= <-]. exact Hstraight.
Qed.

(** X20: the run of demo.py.  Once [generate] has returned its puzzle, the rest
    of the script raises nothing, whatever the external solver answers: the
    puzzle is printed, the model is built and solved, the answer is verified
    and the solved puzzle printed.  When the solver answers "Optimal" or
    "Feasible" with counts within 1/2 of an assignment that satisfies the
    model, the verdict is that of success. *)
Theorem demo_runs :
  forall (solver : Solver) fuel r generated,
    generate fuel 11 11 extreme r = Ok generated ->
    (exists outcome, demo solver fuel r = Ok outcome)
    /\ (forall possible_bridges problem (a : assignment),
          lp_model (without_solution generated) = Ok (possible_bridges, problem) ->
          fst (solver problem) = "Optimal"%string
          \/ fst (solver problem) = "Feasible"%string ->
          feasible problem a = true ->
          reports (snd (solver problem)) a possible_bridges ->
          demo solver fuel r = Ok (Some (true, "Success"%string))).
Proof.
  intros solver fuel r generated Hgen.
  destruct (generated_pipeline _ _ _ _ _ _ solver Hgen)
    as ((t & Ht) & answer & Hsolve & Hanswer).
  unfold demo. rewrite Hgen. cbn [bind]. rewrite Ht. cbn [bind].
  rewrite Hsolve. cbn [bind]. split.
  - destruct answer as [solution|]; [|eauto].
    destruct Hanswer as ((verdict & ->) & (t' & ->)). cbn [bind].
    destruct (fst verdict); cbn [bind]; eauto.
  - intros pb problem a Hmodel Hstatus Hf Hrep.
    pose proof Hgen as Hstate. apply generated_state in Hstate.
    destruct Hstate as (st & islands & -> & _ & _ & _ & _ & Hcount & Hlen & Hnd & _).
    destruct (solve_answer_sound solver
                (without_solution (Puzzle.mk 11 11 islands (Some (gen_solution st))))
                pb problem a) as (solution & Hsolve' & Hpass); auto.
    { cbn. destruct islands; [cbn in Hlen; lia|discriminate]. }
    rewrite Hsolve' in Hsolve. injection Hsolve as <-.
    destruct Hanswer as (_ & (t' & Ht')).
    rewrite Hpass. unfold pass. cbn [bind fst]. rewrite Ht'. reflexivity.
Qed.

Lemma spans_straight b d len : spans b d len -> ~ askew b.
Proof.
  intros [_ H] [Hx Hy]. unfold step_from, island_pos in H.
  destruct d; cbn [get_vector fst snd] in H; injection H as E1 E2; lia.
Qed.

(** X21: a puzzle that [generate] returns can be printed, with its solution and
    without: [__str__] raises nothing and draws the rectangle of
    2 * height + 1 lines of 3 * width + 2 characters. *)
Theorem generated_puzzle_prints :
  forall fuel width height difficulty r p,
    generate fuel width height difficulty r = Ok p ->
    (exists lines,
       __str__ p = Ok (join_lines lines)
       /\ Z.of_nat (length lines) = 2 * height + 1
       /\ Forall (board_line width) lines)
    /\ (exists lines,
          __str__ (without_solution p) = Ok (join_lines lines)
          /\ Z.of_nat (length lines) = 2 * height + 1
          /\ Forall (board_line width) lines).
Proof.
  intros fuel width height difficulty r p H. apply generated_state in H.
  destruct H as (st & islands & -> & Hinv & Hinv2 & Hw & Hh & Hcount & Hlen & Hnd
                 & Hlisted & Hmem).
  assert (Hsome : exists i, In i islands).
  { destruct islands as [|i rest]; [cbn in Hlen; lia|]. exists i. now left. }
  destruct Hsome as (i0 & Hi0). apply Hmem in Hi0. destruct Hi0 as [[Hx Hy] _].
  cbn [island_pos fst snd] in Hx, Hy. rewrite Hw in Hx. rewrite Hh in Hy.
  assert (Hdeg : Forall (fun i => 0 <= Island.degree i <= 9) islands).
  { apply Forall_forall. intros i Hi. apply Hmem in Hi.
    destruct Hi as (Hb & n & Hn & Ht & Hd). rewrite <- Hd.
    pose proof (inv_degree_range _ _ Hinv2 (island_pos i) n Hb Hn Ht).
    pose proof (settings_max_degree difficulty). lia. }
  split.
  - apply (str_rectangle (Puzzle.mk width height islands (Some (gen_solution st))));
      cbn [Puzzle.width Puzzle.height Puzzle.islands Puzzle.solution]; try lia; auto.
    intros solution [= <-]. apply Forall_forall. intros b Hb.
    destruct (inv_straight _ _ Hinv2 b Hb) as (d & len & Hspan).
    now apply (spans_straight b d len).
  - apply (str_rectangle (Puzzle.mk width height islands None));
      cbn [Puzzle.width Puzzle.height Puzzle.islands Puzzle.solution]; try lia; auto.
    intros solution [=].
Qed.

Lemma generated_puzzle_prints_witness :
  (exists lines,
     __str__ (Puzzle.mk 4 4
                [Island.mk 0 0 2; Island.mk 0 3 2; Island.mk 2 0 2; Island.mk 2 2 1;
                 Island.mk 3 3 1]
                (Some [Bridge.mk (Island.mk 0 0 0) (Island.mk 2 0 0) true;
                       Bridge.mk (Island.mk 0 0 0) (Island.mk 0 3 0) true;
                       Bridge.mk (Island.mk 0 3 0) (Island.mk 3 3 0) true;
                       Bridge.mk (Island.mk 2 0 0) (Island.mk 2 2 0) true]))
     = Ok (join_lines lines)
     /\ Z.of_nat (length lines) = 2 * 4 + 1
     /\ Forall (board_line 4) lines)
  /\ (exists lines,
        __str__ (without_solution
                   (Puzzle.mk 4 4
                      [Island.mk 0 0 2; Island.mk 0 3 2; Island.mk 2 0 2; Island.mk 2 2 1;
                       Island.mk 3 3 1]
                      (Some [Bridge.mk (Island.mk 0 0 0) (Island.mk 2 0 0) true;
                             Bridge.mk (Island.mk 0 0 0) (Island.mk 0 3 0) true;
                             Bridge.mk (Island.mk 0 3 0) (Island.mk 3 3 0) true;
                             Bridge.mk (Island.mk 2 0 0) (Island.mk 2 2 0) true])))
        = Ok (join_lines lines)
        /\ Z.of_nat (length lines) = 2 * 4 + 1
        /\ Forall (board_line 4) lines).
Proof.
  apply (generated_puzzle_prints 1 4 4 easy five_island_rng). vm_compute. reflexivity.
Defined.

(** X22: [solve] on a puzzle whose islands lie on the board raises nothing,
    whatever the external solver answers: the grid, the candidates and the
    crossings are built and the answer is read without an error.  The bridges
    of an answer join islands of the puzzle along a column or a row. *)
Theorem solve_never_raises_on_board :
  forall (solver : Solver) p,
    islands_in_bounds p ->
    exists answer,
      solve solver p = Ok answer
      /\ forall solution, answer = Some solution ->
           endpoints_are_islands (Puzzle.islands p) solution
           /\ Forall (fun b => ~ askew b) solution.
Proof. exact solve_returns. Qed.

Lemma solve_never_raises_on_board_witness :
  exists answer,
    solve optimal_solver two_island_puzzle = Ok answer
    /\ forall solution, answer = Some solution ->
         endpoints_are_islands (Puzzle.islands two_island_puzzle) solution
         /\ Forall (fun b => ~ askew b) solution.
Proof.
  apply (solve_never_raises_on_board optimal_solver two_island_puzzle).
  intros i Hi. cbn in Hi. destruct Hi as [<-|[<-|[]]]; cbn; lia.
Defined.

Lemma demo_runs_witness :
  exists outcome,
    demo (fun _ => ("Infeasible"%string, fun _ => None)) 88 zero_rng = Ok outcome.
Proof.
  refine (proj1 (demo_runs (fun _ => ("Infeasible"%string, fun _ => None)) 88 zero_rng
                   _ _)).
  vm_compute. reflexivity.
Defined.
